(** * The Click configuration front end: [lib/lexer.cc]

    A shallow embedding of the lexer, the element-class registry, the
    recursive-descent parser, compound-class expansion and the connection
    tunnel engine of [lib/lexer.cc], followed by the properties established
    about them.

    Conventions of the embedding.
    - C++ [int] and [unsigned] values are integers of [Z]; the places where
      the source subtracts from an [unsigned] and can wrap are written with
      [usub].
    - A Click [Vector<T>] is a [list T]; indexing is [vec_get], which fails
      where Click's [Vector::operator[]] asserts (index out of range).
    - A Click [HashMap<String, int>] with default value [-1] is a
      [gmap string Z] read through [hm_get].
    - A method that can abort on an [assert] or can loop returns a [Res]:
      [Fault] for the failed assertion, [OutOfFuel] when the recursion
      budget handed to it did not suffice.
    - Methods of [Lexer] are state transformers on the record [Lexer]. *)

From Stdlib Require Import ZArith Ascii String.
From Equations Require Import Equations.
From stdpp Require Import gmap strings list pretty.

#[local] Set Warnings "-register-all,-clear-no-such-hyp".
#[local] Open Scope Z_scope.

(** ** Results of partial computations *)

Inductive Res (A : Type) : Type :=
| Ret (a : A)
| Fault
| OutOfFuel.
Arguments Ret {A} a.
Arguments Fault {A}.
Arguments OutOfFuel {A}.

Definition res_bind {A B : Type} (r : Res A) (k : A -> Res B) : Res B :=
  match r with
  | Ret a => k a
  | Fault => Fault
  | OutOfFuel => OutOfFuel
  end.

Definition res_assert (b : bool) : Res unit :=
  if b then Ret tt else Fault.

Definition res_of_option {A : Type} (o : option A) : Res A :=
  match o with
  | Some a => Ret a
  | None => Fault
  end.

Notation "'let?' x ':=' r 'in' k" := (res_bind r (fun x => k))
  (at level 10, x pattern, r at level 100, k at level 200).

(** ** Click containers *)

Definition vsize {A : Type} (v : list A) : Z := Z.of_nat (length v).

(** [v[i]], with the range assertion of [Vector::operator[]]. *)
Definition vec_get {A : Type} (v : list A) (i : Z) : Res A :=
  if (0 <=? i) && (i <? vsize v) then res_of_option (v !! Z.to_nat i) else Fault.

(** [v[i] = x]. *)
Definition vec_set {A : Type} (v : list A) (i : Z) (x : A) : Res (list A) :=
  if (0 <=? i) && (i <? vsize v) then Ret (<[Z.to_nat i := x]> v) else Fault.

(** [v.resize(n, x)]. *)
Definition vec_resize {A : Type} (v : list A) (n : Z) (x : A) : list A :=
  take (Z.to_nat n) v ++ replicate (Z.to_nat n - length v) x.

(** [m[k]] for a [HashMap<String, int>] whose default value is [-1]. *)
Definition hm_get (m : gmap string Z) (k : string) : Z := default (-1) (m !! k).

(** [for (int i = from; i < from + n; i++) body], for a body that may fail. *)
Fixpoint for_range {S : Type} (n : nat) (i : Z) (body : Z -> S -> Res S) (s : S) : Res S :=
  match n with
  | O => Ret s
  | Datatypes.S n' => let? s' := body i s in for_range n' (i + 1) body s'
  end.

(** The same loop for a body that cannot fail. *)
Fixpoint for_each {A S : Type} (l : list A) (body : A -> S -> S) (s : S) : S :=
  match l with
  | [] => s
  | x :: l' => for_each l' body (body x s)
  end.

(** ** Characters and strings *)

Definition chr (c : ascii) : Z := Z.of_nat (nat_of_ascii c).

Definition ch_eq (a b : ascii) : bool := Ascii.eqb a b.

Definition isdigit (c : ascii) : bool := (48 <=? chr c) && (chr c <=? 57).
Definition isalpha (c : ascii) : bool :=
  ((65 <=? chr c) && (chr c <=? 90)) || ((97 <=? chr c) && (chr c <=? 122)).
Definition isalnum (c : ascii) : bool := isalpha c || isdigit c.
Definition isspace (c : ascii) : bool :=
  (chr c =? 32) || ((9 <=? chr c) && (chr c <=? 13)).

Definition slen (s : string) : Z := Z.of_nat (String.length s).

(** [s[i]]; a read outside the string yields the NUL character. *)
Definition char_at (s : string) (i : Z) : ascii :=
  if i <? 0 then "000"%char
  else match String.get (Z.to_nat i) s with
       | Some c => c
       | None => "000"%char
       end.

(** [s.substring(pos, len)]. *)
Definition substring (s : string) (pos len : Z) : string :=
  String.substring (Z.to_nat pos) (Z.to_nat len) s.

(** [s.back()]. *)
Definition back (s : string) : ascii := char_at s (slen s - 1).

(** [String(int)]. *)
Definition String_of_int (n : Z) : string := pretty n.

(** Subtraction on [unsigned]. *)
Definition usub (a b : Z) : Z := (a - b) mod 2 ^ 32.

(** ** Diagnostics

    The [ErrorHandler] is an external collaborator; what the front end does
    with it is to hand it messages.  A handler is modelled by the log of the
    messages it received, in order; a message keeps its format string and
    its arguments apart. *)

Inductive Seriousness := Message | Error.

Inductive Arg := AStr (s : string) | AInt (n : Z).

Record Diag := mkDiag {
  d_seriousness : Seriousness;
  d_landmark : string;
  d_format : string;
  d_args : list Arg;
  (** the context line and the indent of a [ContextErrorHandler] *)
  d_context : option (string * string)
}.

Definition ErrorHandler := list Diag.

Definition errh_lerror (lm fmt : string) (args : list Arg) (errh : ErrorHandler) : ErrorHandler :=
  errh ++ [mkDiag Error lm fmt args None].

Definition errh_lmessage (lm fmt : string) (args : list Arg) (errh : ErrorHandler) : ErrorHandler :=
  errh ++ [mkDiag Message lm fmt args None].

(** Messages reported through [ContextErrorHandler(errh, context, indent)]. *)
Definition in_context (context indent : string) (d : Diag) : Diag :=
  mkDiag (d_seriousness d) (d_landmark d) (d_format d) (d_args d) (Some (context, indent)).

(** ** Hookups *)

Record Hookup := mkHookup { idx : Z; port : Z }.

#[global] Instance Hookup_eq_dec : EqDecision Hookup.
Proof. solve_decision. Defined.

(** ** Element classes

    The registry holds pointers to [Element] objects.  The objects the
    front end creates are never written after they have become reachable
    from the registry or from another class, so an object is modelled by its
    value; pointer comparison is comparison of the identity [ObjId] an
    object received when it was allocated.  Objects allocated by the lexer
    and objects handed in from outside draw on disjoint identities. *)

Inductive ObjId := LexerObj (n : nat) | ForeignObj (n : nat).

#[global] Instance ObjId_eq_dec : EqDecision ObjId.
Proof. solve_decision. Defined.

Module Compound.

Record t (E : Type) : Type := mk {
  _oid : ObjId;
  _name : string;
  _landmark : string;
  _depth : Z;
  _next : option E;
  _formals : list string;
  _ninputs : Z;
  _noutputs : Z;
  _elements : list Z;
  _element_names : list string;
  _element_configurations : list string;
  _element_landmarks : list string;
  _hookup_from : list Hookup;
  _hookup_to : list Hookup
}.
Arguments mk {E}.
Arguments _oid {E}.
Arguments _name {E}.
Arguments _landmark {E}.
Arguments _depth {E}.
Arguments _next {E}.
Arguments _formals {E}.
Arguments _ninputs {E}.
Arguments _noutputs {E}.
Arguments _elements {E}.
Arguments _element_names {E}.
Arguments _element_configurations {E}.
Arguments _element_landmarks {E}.
Arguments _hookup_from {E}.
Arguments _hookup_to {E}.

End Compound.

(** [Primitive] stands for the element classes of the element library, which
    reach the lexer through [add_element_type]; [ErrorElement] is the one
    class of the library the lexer allocates itself. *)
Inductive Element : Type :=
| ErrorElement (o : ObjId)
| Primitive (o : ObjId) (class_name : string)
| Synonym (o : ObjId) (_element : Element)
| ECompound (c : Compound.t Element).

Abbreviation Compound := (Compound.t Element).

Definition oid (e : Element) : ObjId :=
  match e with
  | ErrorElement o => o
  | Primitive o _ => o
  | Synonym o _ => o
  | ECompound c => Compound._oid c
  end.

(** Pointer equality of two [Element *]. *)
Definition same_object (a b : Element) : bool := bool_decide (oid a = oid b).

(** [Compound::Compound(name, lm, depth, next)]. *)
Definition new_Compound (o : ObjId) (name lm : string) (depth : Z) (next : option Element)
  : Compound :=
  Compound.mk o name lm depth next [] 0 0 [] [] [] [] [] [].

Fixpoint class_name (e : Element) : string :=
  match e with
  | ErrorElement _ => "Error"
  | Primitive _ n => n
  | Synonym _ e' => class_name e'
  | ECompound c => Compound._name c
  end.

(** [e->cast("Lexer::Compound")]: a compound answers with itself, a synonym
    forwards the question to the class it stands for, and no class of the
    element library answers to that name. *)
Fixpoint cast_Compound (e : Element) : option Compound :=
  match e with
  | ECompound c => Some c
  | Synonym _ e' => cast_Compound e'
  | ErrorElement _ => None
  | Primitive _ _ => None
  end.

(** [e->clone()]: [None] is the null pointer [Compound::clone] returns. *)
Fixpoint clone (e : Element) : option Element :=
  match e with
  | ECompound _ => None
  | Synonym _ e' => clone e'
  | ErrorElement o => Some (ErrorElement o)
  | Primitive o n => Some (Primitive o n)
  end.

(** The number of links below an element; the measure of the walks along
    [_next]. *)
Fixpoint height (e : Element) : nat :=
  match e with
  | ECompound c =>
      S (match Compound._next c with
         | Some e' => height e'
         | None => O
         end)
  | Synonym _ e' => S (height e')
  | ErrorElement _ => O
  | Primitive _ _ => O
  end.

Lemma cast_Compound_height (e : Element) (c : Compound) :
  cast_Compound e = Some c -> (height (ECompound c) <= height e)%nat.
Proof.
  induction e as [o | o n | o e IH | c']; simpl; try discriminate.
  - intros H. specialize (IH H). simpl in IH. lia.
  - intros [= ->]. lia.
Qed.

Definition inspect {A : Type} (a : A) : { b : A | a = b } := exist _ a eq_refl.

(** ** class Lexer::Compound *)

Definition set_ninputs (n : Z) (c : Compound) : Compound :=
  Compound.mk (Compound._oid c) (Compound._name c) (Compound._landmark c) (Compound._depth c)
    (Compound._next c) (Compound._formals c) n (Compound._noutputs c)
    (Compound._elements c) (Compound._element_names c) (Compound._element_configurations c)
    (Compound._element_landmarks c) (Compound._hookup_from c) (Compound._hookup_to c).

Definition set_noutputs (n : Z) (c : Compound) : Compound :=
  Compound.mk (Compound._oid c) (Compound._name c) (Compound._landmark c) (Compound._depth c)
    (Compound._next c) (Compound._formals c) (Compound._ninputs c) n
    (Compound._elements c) (Compound._element_names c) (Compound._element_configurations c)
    (Compound._element_landmarks c) (Compound._hookup_from c) (Compound._hookup_to c).

(** [Compound::add_formal]. *)
Definition add_formal (f : string) (c : Compound) : Compound :=
  Compound.mk (Compound._oid c) (Compound._name c) (Compound._landmark c) (Compound._depth c)
    (Compound._next c) (Compound._formals c ++ [f]) (Compound._ninputs c) (Compound._noutputs c)
    (Compound._elements c) (Compound._element_names c) (Compound._element_configurations c)
    (Compound._element_landmarks c) (Compound._hookup_from c) (Compound._hookup_to c).

Definition nformals (c : Compound) : Z := vsize (Compound._formals c).

(** *** Compound::finish *)

(** The locals [from_in], [to_out], [to_in] and [from_out] of [finish]. *)
Record PortUse := mkPortUse {
  from_in : list Z;
  to_out : list Z;
  to_in : bool;
  from_out : bool
}.

(** [if (v.size() <= p) v.resize(p + 1, 0); v[p] = 1;] *)
Definition mark_port (v : list Z) (p : Z) : Res (list Z) :=
  vec_set (if vsize v <=? p then vec_resize v (p + 1) 0 else v) p 1.

(** The body of the loop over the hookups. *)
Definition finish_scan (c : Compound) (i : Z) (u : PortUse) : Res PortUse :=
  let? hf := vec_get (Compound._hookup_from c) i in
  let? ht := vec_get (Compound._hookup_to c) i in
  let? u1 :=
    if idx hf =? 0 then
      let? v := mark_port (from_in u) (port hf) in
      Ret (mkPortUse v (to_out u) (to_in u) (from_out u))
    else if idx hf =? 1 then
      Ret (mkPortUse (from_in u) (to_out u) (to_in u) true)
    else Ret u in
  if idx ht =? 1 then
    let? v := mark_port (to_out u1) (port ht) in
    Ret (mkPortUse (from_in u1) v (to_in u1) (from_out u1))
  else if idx ht =? 0 then
    Ret (mkPortUse (from_in u1) (to_out u1) true (from_out u1))
  else Ret u1.

(** [for (int i = 0; i < v.size(); i++) if (!v[i]) errh->lerror(lm, fmt, name, i);] *)
Fixpoint report_unused (lm fmt name : string) (v : list Z) (i : Z) (errh : ErrorHandler)
  : ErrorHandler :=
  match v with
  | [] => errh
  | x :: v' =>
      report_unused lm fmt name v' (i + 1)
        (if x =? 0 then errh_lerror lm fmt [AStr name; AInt i] errh else errh)
  end.

Definition finish (c : Compound) (errh : ErrorHandler) : Res (Compound * ErrorHandler) :=
  let? n0 := vec_get (Compound._element_names c) 0 in
  let? n1 := vec_get (Compound._element_names c) 1 in
  let? _ := res_assert (bool_decide (n0 = "input"%string) && bool_decide (n1 = "output"%string)) in
  (* count numbers of inputs and outputs *)
  let? u := for_range (length (Compound._hookup_from c)) 0 (finish_scan c)
              (mkPortUse [] [] false false) in
  (* store information *)
  let lm := Compound._landmark c in
  let name := Compound._name c in
  let c := set_ninputs (vsize (from_in u)) c in
  let errh :=
    if to_in u
    then errh_lerror lm "`%s' pseudoelement `input' may only be used as output" [AStr name] errh
    else errh in
  let errh := report_unused lm "compound element `%s' input %d unused" name (from_in u) 0 errh in
  let c := set_noutputs (vsize (to_out u)) c in
  let errh :=
    if from_out u
    then errh_lerror lm "`%s' pseudoelement `output' may only be used as input" [AStr name] errh
    else errh in
  let errh := report_unused lm "compound element `%s' output %d unused" name (to_out u) 0 errh in
  Ret (c, errh).

(** *** Compound::signature *)

Definition signature_of (name : string) (ninputs noutputs nargs : Z) : string :=
  let pl_args := if nargs =? 1 then " argument, " else " arguments, " in
  let pl_ins := if ninputs =? 1 then " input, " else " inputs," in
  let pl_outs := if noutputs =? 1 then " output" else " outputs" in
  (name ++ "[" ++ String_of_int nargs ++ pl_args ++ String_of_int ninputs ++ pl_ins
     ++ String_of_int noutputs ++ pl_outs ++ "]")%string.

Definition signature (c : Compound) : string :=
  signature_of (Compound._name c) (Compound._ninputs c) (Compound._noutputs c) (nformals c).

(** *** Compound::find_relevant_class *)

(** The test [ct->_ninputs == ninputs && ct->_noutputs == noutputs &&
    ct->_formals.size() == args.size()]. *)
Definition signature_matches (ct : Compound) (ninputs noutputs : Z) (args : list string) : bool :=
  (Compound._ninputs ct =? ninputs) && (Compound._noutputs ct =? noutputs)
  && (nformals ct =? vsize args).

Equations? find_relevant_class (ct : Compound) (ninputs noutputs : Z) (args : list string)
  : option Element by wf (height (ECompound ct)) lt :=
find_relevant_class ct ninputs noutputs args with signature_matches ct ninputs noutputs args => {
  | true := Some (ECompound ct);
  | false with inspect (Compound._next ct) => {
    | exist _ None _ := None;
    | exist _ (Some e) Hn with inspect (cast_Compound e) => {
      | exist _ (Some next) Hc := find_relevant_class next ninputs noutputs args;
      | exist _ None _ := Some e } } }.
Proof. apply cast_Compound_height in Hc. simpl in *. rewrite Hn. lia. Qed.

(** *** Compound::check_duplicates_until *)

(** Is the pointer [n] the pointer [last]?  [None] is the null pointer. *)
Definition is_last (n : Element) (last : option Element) : bool :=
  match last with
  | Some l => same_object n l
  | None => false
  end.

(** The [while (n && n != last)] loop, entered with [n]. *)
Equations? duplicates_walk (self : Compound) (n : option Element) (last : option Element)
  (errh : ErrorHandler) : ErrorHandler
  by wf (match n with Some e => S (height e) | None => O end) lt :=
duplicates_walk self None last errh := errh;
duplicates_walk self (Some e) last errh with is_last e last => {
  | true := errh;
  | false with inspect (cast_Compound e) => {
    | exist _ None _ := errh;
    | exist _ (Some nc) Hc with
        (Compound._ninputs nc =? Compound._ninputs self)
        && (Compound._noutputs nc =? Compound._noutputs self)
        && (nformals nc =? nformals self) => {
      | true :=
          errh_lerror (Compound._landmark nc) "`%s' previously declared here"
            [AStr (signature self)]
            (errh_lerror (Compound._landmark self) "redeclaration of `%s'"
               [AStr (signature self)] errh);
      | false := duplicates_walk self (Compound._next nc) last errh } } }.
Proof.
  apply cast_Compound_height in Hc. simpl in Hc.
  destruct (Compound._next nc); lia.
Qed.

Equations? check_duplicates_until (self : Compound) (last : option Element) (errh : ErrorHandler)
  : ErrorHandler by wf (height (ECompound self)) lt :=
check_duplicates_until self last errh with is_last (ECompound self) last => {
  | true := errh;
  | false with inspect (Compound._next self) => {
    | exist _ None _ := errh;
    | exist _ (Some e) Hn with inspect (cast_Compound e) => {
      | exist _ (Some nc) Hc :=
          check_duplicates_until nc last (duplicates_walk self (Some e) last errh);
      | exist _ None _ := duplicates_walk self (Some e) last errh } } }.
Proof. apply cast_Compound_height in Hc. simpl in *. rewrite Hn. lia. Qed.

(** *** Compound::report_signatures *)

Equations? report_signatures (self : Compound) (errh : ErrorHandler) : ErrorHandler
  by wf (height (ECompound self)) lt :=
report_signatures self errh with inspect (Compound._next self) => {
  | exist _ None _ :=
      errh_lmessage (Compound._landmark self) "`%s'" [AStr (signature self)] errh;
  | exist _ (Some e) Hn with inspect (cast_Compound e) => {
    | exist _ (Some n) Hc :=
        errh_lmessage (Compound._landmark self) "`%s'" [AStr (signature self)]
          (report_signatures n errh);
    | exist _ None _ :=
        errh_lmessage (Compound._landmark self) "`%s'" [AStr (signature self)]
          (errh_lmessage (Compound._landmark self) "`%s[...]'" [AStr (Compound._name self)]
             errh) } }.
Proof. apply cast_Compound_height in Hc. simpl in *. rewrite Hn. lia. Qed.

(** ** Declarations the source takes from other files

    [lexer.hh] declares the lexeme kinds and the capacity of the pushback
    ring; it is not among the sources.  The kinds are taken as parameters,
    with what the source relies on: the named kinds are distinct from one
    another and from every character code, and [lexEOF], being a [case]
    label next to them in [ystatement] and [yconnection], differs from the
    punctuation characters tested there. *)

Class LexerHeader := {
  lexEOF : Z;
  lexIdent : Z;
  lexVariable : Z;
  lexArrow : Z;
  lex2Colon : Z;
  lex2Bar : Z;
  lex3Dot : Z;
  lexTunnel : Z;
  lexElementclass : Z;
  lexRequire : Z;
  TCIRCLE_SIZE : Z;
  lex_kinds_distinct :
    NoDup [lexEOF; lexIdent; lexVariable; lexArrow; lex2Colon; lex2Bar; lex3Dot;
           lexTunnel; lexElementclass; lexRequire];
  lex_kinds_not_char :
    Forall (fun k => 256 <= k)
      [lexIdent; lexVariable; lexArrow; lex2Colon; lex2Bar; lex3Dot;
       lexTunnel; lexElementclass; lexRequire];
  lexEOF_not_punct : Forall (fun c => lexEOF <> c) [44; 59; 91; 123; 125];
  TCIRCLE_SIZE_ge : 2 <= TCIRCLE_SIZE
}.

(** [confparse.hh] and [variableenv.hh]: the argument splitter and friends,
    and the variable environment of compound expansion. *)
Class Collaborators := {
  cp_unquote : string -> string;
  (** [cp_integer(s, &n)]: [None] when it returns false *)
  cp_integer : string -> option Z;
  (** [cp_argvec(s, args)] on an empty [args] *)
  cp_argvec : string -> list string;
  (** [cp_word(s, &w)]: [None] when it returns false *)
  cp_word : string -> option string;
  VariableEnvironment : Type;
  (** [VariableEnvironment()] *)
  ve_empty : VariableEnvironment;
  (** [ve.enter(other)] *)
  ve_enter_env : VariableEnvironment -> VariableEnvironment -> VariableEnvironment;
  (** [ve.limit_depth(d)] *)
  ve_limit_depth : Z -> VariableEnvironment -> VariableEnvironment;
  (** [ve.enter(formals, actuals, depth)] *)
  ve_enter : list string -> list string -> Z -> VariableEnvironment -> VariableEnvironment;
  ve_depth : VariableEnvironment -> Z;
  ve_interpolate : VariableEnvironment -> string -> string;
  (** the index [Router::add_element] returns, given the calls the router
      received already and the arguments of this one *)
  router_add_element_index :
    list (option Element * string * string * string) ->
    option Element -> string -> string -> string -> Z;
  (** the indeterminate value of the local [port1] of [yconnection], which
      the source reads before it has assigned it when a chain stops at its
      first element *)
  indeterminate_port1 : Z
}.

(** [TUNNEL_TYPE] and [ERROR_TYPE] are declared in [lexer.hh] too; their
    values follow from the constructor [Lexer::Lexer], which registers
    ["<tunnel>"] and ["Error"] first, in an empty registry, and asserts that
    they received these two identifiers. *)
Definition TUNNEL_TYPE : Z := 0.
Definition ERROR_TYPE : Z := 1.

(** ** Lexemes *)

Module Lexeme.
Record t := mk { kind : Z; string : String.string }.
(** [Lexeme::is] *)
Definition is_kind (l : t) (k : Z) : bool := kind l =? k.
End Lexeme.

Abbreviation Lexeme := Lexeme.t.

(** ** Tunnel ends

    [TunnelEnd] objects are allocated in [tunnel_ends]; a [TunnelEnd *] is
    an index into it.  The two chains [_definputs] and [_defoutputs] are
    only ever walked from their heads, so a chain is kept as the list of the
    objects on it, head first, and the [_next] field of an object is its
    successor in that list. *)

Module TunnelEnd.
Record t := mk {
  _port : Hookup;
  _correspond : list Hookup;
  _expanded : Z;
  _output : bool;
  _other : option nat
}.
End TunnelEnd.

Abbreviation TunnelEnd := TunnelEnd.t.

(** [LexerExtra::require(word, errh)], a hook of the caller. *)
Definition LexerExtra := string -> ErrorHandler -> ErrorHandler.

(** ** class Lexer *)

Record Lexer := mkLexer {
  _big_string : string;
  _pos : Z;
  _filename : string;
  _original_filename : string;
  _lineno : Z;
  _lextra : option LexerExtra;
  _tcircle : list Lexeme;
  _tpos : Z;
  _tfull : Z;
  _element_types : list (option Element);
  _element_type_names : list string;
  _element_type_next : list Z;
  _element_type_map : gmap string Z;
  _last_element_type : Z;
  _free_element_type : Z;
  _elements : list Z;
  _element_names : list string;
  _element_configurations : list string;
  _element_landmarks : list string;
  _element_map : gmap string Z;
  _hookup_from : list Hookup;
  _hookup_to : list Hookup;
  _requirements : list string;
  _definputs : list nat;
  _defoutputs : list nat;
  _anonymous_offset : Z;
  _compound_depth : Z;
  _errh : ErrorHandler;
  tunnel_ends : list TunnelEnd;
  next_oid : nat
}.

(** [_data] and [_len] always describe [_big_string]. *)
Definition _len (L : Lexer) : Z := slen (_big_string L).
Definition _data (L : Lexer) (i : Z) : ascii := char_at (_big_string L) i.

Definition set_big_string (v : string) (L : Lexer) : Lexer :=
  mkLexer v (_pos L) (_filename L) (_original_filename L) (_lineno L) (_lextra L) (_tcircle L)
    (_tpos L) (_tfull L) (_element_types L) (_element_type_names L) (_element_type_next L)
    (_element_type_map L) (_last_element_type L) (_free_element_type L) (_elements L)
    (_element_names L) (_element_configurations L) (_element_landmarks L) (_element_map L)
    (_hookup_from L) (_hookup_to L) (_requirements L) (_definputs L) (_defoutputs L)
    (_anonymous_offset L) (_compound_depth L) (_errh L) (tunnel_ends L) (next_oid L).

Definition set_pos (v : Z) (L : Lexer) : Lexer :=
  mkLexer (_big_string L) v (_filename L) (_original_filename L) (_lineno L) (_lextra L)
    (_tcircle L) (_tpos L) (_tfull L) (_element_types L) (_element_type_names L)
    (_element_type_next L) (_element_type_map L) (_last_element_type L) (_free_element_type L)
    (_elements L) (_element_names L) (_element_configurations L) (_element_landmarks L)
    (_element_map L) (_hookup_from L) (_hookup_to L) (_requirements L) (_definputs L)
    (_defoutputs L) (_anonymous_offset L) (_compound_depth L) (_errh L) (tunnel_ends L)
    (next_oid L).

Definition set_filename (v : string) (L : Lexer) : Lexer :=
  mkLexer (_big_string L) (_pos L) v (_original_filename L) (_lineno L) (_lextra L) (_tcircle L)
    (_tpos L) (_tfull L) (_element_types L) (_element_type_names L) (_element_type_next L)
    (_element_type_map L) (_last_element_type L) (_free_element_type L) (_elements L)
    (_element_names L) (_element_configurations L) (_element_landmarks L) (_element_map L)
    (_hookup_from L) (_hookup_to L) (_requirements L) (_definputs L) (_defoutputs L)
    (_anonymous_offset L) (_compound_depth L) (_errh L) (tunnel_ends L) (next_oid L).

Definition set_original_filename (v : string) (L : Lexer) : Lexer :=
  mkLexer (_big_string L) (_pos L) (_filename L) v (_lineno L) (_lextra L) (_tcircle L)
    (_tpos L) (_tfull L) (_element_types L) (_element_type_names L) (_element_type_next L)
    (_element_type_map L) (_last_element_type L) (_free_element_type L) (_elements L)
    (_element_names L) (_element_configurations L) (_element_landmarks L) (_element_map L)
    (_hookup_from L) (_hookup_to L) (_requirements L) (_definputs L) (_defoutputs L)
    (_anonymous_offset L) (_compound_depth L) (_errh L) (tunnel_ends L) (next_oid L).

Definition set_lineno (v : Z) (L : Lexer) : Lexer :=
  mkLexer (_big_string L) (_pos L) (_filename L) (_original_filename L) v (_lextra L)
    (_tcircle L) (_tpos L) (_tfull L) (_element_types L) (_element_type_names L)
    (_element_type_next L) (_element_type_map L) (_last_element_type L) (_free_element_type L)
    (_elements L) (_element_names L) (_element_configurations L) (_element_landmarks L)
    (_element_map L) (_hookup_from L) (_hookup_to L) (_requirements L) (_definputs L)
    (_defoutputs L) (_anonymous_offset L) (_compound_depth L) (_errh L) (tunnel_ends L)
    (next_oid L).

Definition set_lextra (v : option LexerExtra) (L : Lexer) : Lexer :=
  mkLexer (_big_string L) (_pos L) (_filename L) (_original_filename L) (_lineno L) v
    (_tcircle L) (_tpos L) (_tfull L) (_element_types L) (_element_type_names L)
    (_element_type_next L) (_element_type_map L) (_last_element_type L) (_free_element_type L)
    (_elements L) (_element_names L) (_element_configurations L) (_element_landmarks L)
    (_element_map L) (_hookup_from L) (_hookup_to L) (_requirements L) (_definputs L)
    (_defoutputs L) (_anonymous_offset L) (_compound_depth L) (_errh L) (tunnel_ends L)
    (next_oid L).

Definition set_tcircle (v : list Lexeme) (L : Lexer) : Lexer :=
  mkLexer (_big_string L) (_pos L) (_filename L) (_original_filename L) (_lineno L) (_lextra L)
    v (_tpos L) (_tfull L) (_element_types L) (_element_type_names L) (_element_type_next L)
    (_element_type_map L) (_last_element_type L) (_free_element_type L) (_elements L)
    (_element_names L) (_element_configurations L) (_element_landmarks L) (_element_map L)
    (_hookup_from L) (_hookup_to L) (_requirements L) (_definputs L) (_defoutputs L)
    (_anonymous_offset L) (_compound_depth L) (_errh L) (tunnel_ends L) (next_oid L).

Definition set_tpos (v : Z) (L : Lexer) : Lexer :=
  mkLexer (_big_string L) (_pos L) (_filename L) (_original_filename L) (_lineno L) (_lextra L)
    (_tcircle L) v (_tfull L) (_element_types L) (_element_type_names L) (_element_type_next L)
    (_element_type_map L) (_last_element_type L) (_free_element_type L) (_elements L)
    (_element_names L) (_element_configurations L) (_element_landmarks L) (_element_map L)
    (_hookup_from L) (_hookup_to L) (_requirements L) (_definputs L) (_defoutputs L)
    (_anonymous_offset L) (_compound_depth L) (_errh L) (tunnel_ends L) (next_oid L).

Definition set_tfull (v : Z) (L : Lexer) : Lexer :=
  mkLexer (_big_string L) (_pos L) (_filename L) (_original_filename L) (_lineno L) (_lextra L)
    (_tcircle L) (_tpos L) v (_element_types L) (_element_type_names L) (_element_type_next L)
    (_element_type_map L) (_last_element_type L) (_free_element_type L) (_elements L)
    (_element_names L) (_element_configurations L) (_element_landmarks L) (_element_map L)
    (_hookup_from L) (_hookup_to L) (_requirements L) (_definputs L) (_defoutputs L)
    (_anonymous_offset L) (_compound_depth L) (_errh L) (tunnel_ends L) (next_oid L).

Definition set_element_types (v : list (option Element)) (L : Lexer) : Lexer :=
  mkLexer (_big_string L) (_pos L) (_filename L) (_original_filename L) (_lineno L) (_lextra L)
    (_tcircle L) (_tpos L) (_tfull L) v (_element_type_names L) (_element_type_next L)
    (_element_type_map L) (_last_element_type L) (_free_element_type L) (_elements L)
    (_element_names L) (_element_configurations L) (_element_landmarks L) (_element_map L)
    (_hookup_from L) (_hookup_to L) (_requirements L) (_definputs L) (_defoutputs L)
    (_anonymous_offset L) (_compound_depth L) (_errh L) (tunnel_ends L) (next_oid L).

Definition set_element_type_names (v : list string) (L : Lexer) : Lexer :=
  mkLexer (_big_string L) (_pos L) (_filename L) (_original_filename L) (_lineno L) (_lextra L)
    (_tcircle L) (_tpos L) (_tfull L) (_element_types L) v (_element_type_next L)
    (_element_type_map L) (_last_element_type L) (_free_element_type L) (_elements L)
    (_element_names L) (_element_configurations L) (_element_landmarks L) (_element_map L)
    (_hookup_from L) (_hookup_to L) (_requirements L) (_definputs L) (_defoutputs L)
    (_anonymous_offset L) (_compound_depth L) (_errh L) (tunnel_ends L) (next_oid L).

Definition set_element_type_next (v : list Z) (L : Lexer) : Lexer :=
  mkLexer (_big_string L) (_pos L) (_filename L) (_original_filename L) (_lineno L) (_lextra L)
    (_tcircle L) (_tpos L) (_tfull L) (_element_types L) (_element_type_names L) v
    (_element_type_map L) (_last_element_type L) (_free_element_type L) (_elements L)
    (_element_names L) (_element_configurations L) (_element_landmarks L) (_element_map L)
    (_hookup_from L) (_hookup_to L) (_requirements L) (_definputs L) (_defoutputs L)
    (_anonymous_offset L) (_compound_depth L) (_errh L) (tunnel_ends L) (next_oid L).

Definition set_element_type_map (v : gmap string Z) (L : Lexer) : Lexer :=
  mkLexer (_big_string L) (_pos L) (_filename L) (_original_filename L) (_lineno L) (_lextra L)
    (_tcircle L) (_tpos L) (_tfull L) (_element_types L) (_element_type_names L)
    (_element_type_next L) v (_last_element_type L) (_free_element_type L) (_elements L)
    (_element_names L) (_element_configurations L) (_element_landmarks L) (_element_map L)
    (_hookup_from L) (_hookup_to L) (_requirements L) (_definputs L) (_defoutputs L)
    (_anonymous_offset L) (_compound_depth L) (_errh L) (tunnel_ends L) (next_oid L).

Definition set_last_element_type (v : Z) (L : Lexer) : Lexer :=
  mkLexer (_big_string L) (_pos L) (_filename L) (_original_filename L) (_lineno L) (_lextra L)
    (_tcircle L) (_tpos L) (_tfull L) (_element_types L) (_element_type_names L)
    (_element_type_next L) (_element_type_map L) v (_free_element_type L) (_elements L)
    (_element_names L) (_element_configurations L) (_element_landmarks L) (_element_map L)
    (_hookup_from L) (_hookup_to L) (_requirements L) (_definputs L) (_defoutputs L)
    (_anonymous_offset L) (_compound_depth L) (_errh L) (tunnel_ends L) (next_oid L).

Definition set_free_element_type (v : Z) (L : Lexer) : Lexer :=
  mkLexer (_big_string L) (_pos L) (_filename L) (_original_filename L) (_lineno L) (_lextra L)
    (_tcircle L) (_tpos L) (_tfull L) (_element_types L) (_element_type_names L)
    (_element_type_next L) (_element_type_map L) (_last_element_type L) v (_elements L)
    (_element_names L) (_element_configurations L) (_element_landmarks L) (_element_map L)
    (_hookup_from L) (_hookup_to L) (_requirements L) (_definputs L) (_defoutputs L)
    (_anonymous_offset L) (_compound_depth L) (_errh L) (tunnel_ends L) (next_oid L).

Definition set_elements (v : list Z) (L : Lexer) : Lexer :=
  mkLexer (_big_string L) (_pos L) (_filename L) (_original_filename L) (_lineno L) (_lextra L)
    (_tcircle L) (_tpos L) (_tfull L) (_element_types L) (_element_type_names L)
    (_element_type_next L) (_element_type_map L) (_last_element_type L) (_free_element_type L) v
    (_element_names L) (_element_configurations L) (_element_landmarks L) (_element_map L)
    (_hookup_from L) (_hookup_to L) (_requirements L) (_definputs L) (_defoutputs L)
    (_anonymous_offset L) (_compound_depth L) (_errh L) (tunnel_ends L) (next_oid L).

Definition set_element_names (v : list string) (L : Lexer) : Lexer :=
  mkLexer (_big_string L) (_pos L) (_filename L) (_original_filename L) (_lineno L) (_lextra L)
    (_tcircle L) (_tpos L) (_tfull L) (_element_types L) (_element_type_names L)
    (_element_type_next L) (_element_type_map L) (_last_element_type L) (_free_element_type L)
    (_elements L) v (_element_configurations L) (_element_landmarks L) (_element_map L)
    (_hookup_from L) (_hookup_to L) (_requirements L) (_definputs L) (_defoutputs L)
    (_anonymous_offset L) (_compound_depth L) (_errh L) (tunnel_ends L) (next_oid L).

Definition set_element_configurations (v : list string) (L : Lexer) : Lexer :=
  mkLexer (_big_string L) (_pos L) (_filename L) (_original_filename L) (_lineno L) (_lextra L)
    (_tcircle L) (_tpos L) (_tfull L) (_element_types L) (_element_type_names L)
    (_element_type_next L) (_element_type_map L) (_last_element_type L) (_free_element_type L)
    (_elements L) (_element_names L) v (_element_landmarks L) (_element_map L) (_hookup_from L)
    (_hookup_to L) (_requirements L) (_definputs L) (_defoutputs L) (_anonymous_offset L)
    (_compound_depth L) (_errh L) (tunnel_ends L) (next_oid L).

Definition set_element_landmarks (v : list string) (L : Lexer) : Lexer :=
  mkLexer (_big_string L) (_pos L) (_filename L) (_original_filename L) (_lineno L) (_lextra L)
    (_tcircle L) (_tpos L) (_tfull L) (_element_types L) (_element_type_names L)
    (_element_type_next L) (_element_type_map L) (_last_element_type L) (_free_element_type L)
    (_elements L) (_element_names L) (_element_configurations L) v (_element_map L)
    (_hookup_from L) (_hookup_to L) (_requirements L) (_definputs L) (_defoutputs L)
    (_anonymous_offset L) (_compound_depth L) (_errh L) (tunnel_ends L) (next_oid L).

Definition set_element_map (v : gmap string Z) (L : Lexer) : Lexer :=
  mkLexer (_big_string L) (_pos L) (_filename L) (_original_filename L) (_lineno L) (_lextra L)
    (_tcircle L) (_tpos L) (_tfull L) (_element_types L) (_element_type_names L)
    (_element_type_next L) (_element_type_map L) (_last_element_type L) (_free_element_type L)
    (_elements L) (_element_names L) (_element_configurations L) (_element_landmarks L) v
    (_hookup_from L) (_hookup_to L) (_requirements L) (_definputs L) (_defoutputs L)
    (_anonymous_offset L) (_compound_depth L) (_errh L) (tunnel_ends L) (next_oid L).

Definition set_hookup_from (v : list Hookup) (L : Lexer) : Lexer :=
  mkLexer (_big_string L) (_pos L) (_filename L) (_original_filename L) (_lineno L) (_lextra L)
    (_tcircle L) (_tpos L) (_tfull L) (_element_types L) (_element_type_names L)
    (_element_type_next L) (_element_type_map L) (_last_element_type L) (_free_element_type L)
    (_elements L) (_element_names L) (_element_configurations L) (_element_landmarks L)
    (_element_map L) v (_hookup_to L) (_requirements L) (_definputs L) (_defoutputs L)
    (_anonymous_offset L) (_compound_depth L) (_errh L) (tunnel_ends L) (next_oid L).

Definition set_hookup_to (v : list Hookup) (L : Lexer) : Lexer :=
  mkLexer (_big_string L) (_pos L) (_filename L) (_original_filename L) (_lineno L) (_lextra L)
    (_tcircle L) (_tpos L) (_tfull L) (_element_types L) (_element_type_names L)
    (_element_type_next L) (_element_type_map L) (_last_element_type L) (_free_element_type L)
    (_elements L) (_element_names L) (_element_configurations L) (_element_landmarks L)
    (_element_map L) (_hookup_from L) v (_requirements L) (_definputs L) (_defoutputs L)
    (_anonymous_offset L) (_compound_depth L) (_errh L) (tunnel_ends L) (next_oid L).

Definition set_requirements (v : list string) (L : Lexer) : Lexer :=
  mkLexer (_big_string L) (_pos L) (_filename L) (_original_filename L) (_lineno L) (_lextra L)
    (_tcircle L) (_tpos L) (_tfull L) (_element_types L) (_element_type_names L)
    (_element_type_next L) (_element_type_map L) (_last_element_type L) (_free_element_type L)
    (_elements L) (_element_names L) (_element_configurations L) (_element_landmarks L)
    (_element_map L) (_hookup_from L) (_hookup_to L) v (_definputs L) (_defoutputs L)
    (_anonymous_offset L) (_compound_depth L) (_errh L) (tunnel_ends L) (next_oid L).

Definition set_definputs (v : list nat) (L : Lexer) : Lexer :=
  mkLexer (_big_string L) (_pos L) (_filename L) (_original_filename L) (_lineno L) (_lextra L)
    (_tcircle L) (_tpos L) (_tfull L) (_element_types L) (_element_type_names L)
    (_element_type_next L) (_element_type_map L) (_last_element_type L) (_free_element_type L)
    (_elements L) (_element_names L) (_element_configurations L) (_element_landmarks L)
    (_element_map L) (_hookup_from L) (_hookup_to L) (_requirements L) v (_defoutputs L)
    (_anonymous_offset L) (_compound_depth L) (_errh L) (tunnel_ends L) (next_oid L).

Definition set_defoutputs (v : list nat) (L : Lexer) : Lexer :=
  mkLexer (_big_string L) (_pos L) (_filename L) (_original_filename L) (_lineno L) (_lextra L)
    (_tcircle L) (_tpos L) (_tfull L) (_element_types L) (_element_type_names L)
    (_element_type_next L) (_element_type_map L) (_last_element_type L) (_free_element_type L)
    (_elements L) (_element_names L) (_element_configurations L) (_element_landmarks L)
    (_element_map L) (_hookup_from L) (_hookup_to L) (_requirements L) (_definputs L) v
    (_anonymous_offset L) (_compound_depth L) (_errh L) (tunnel_ends L) (next_oid L).

Definition set_anonymous_offset (v : Z) (L : Lexer) : Lexer :=
  mkLexer (_big_string L) (_pos L) (_filename L) (_original_filename L) (_lineno L) (_lextra L)
    (_tcircle L) (_tpos L) (_tfull L) (_element_types L) (_element_type_names L)
    (_element_type_next L) (_element_type_map L) (_last_element_type L) (_free_element_type L)
    (_elements L) (_element_names L) (_element_configurations L) (_element_landmarks L)
    (_element_map L) (_hookup_from L) (_hookup_to L) (_requirements L) (_definputs L)
    (_defoutputs L) v (_compound_depth L) (_errh L) (tunnel_ends L) (next_oid L).

Definition set_compound_depth (v : Z) (L : Lexer) : Lexer :=
  mkLexer (_big_string L) (_pos L) (_filename L) (_original_filename L) (_lineno L) (_lextra L)
    (_tcircle L) (_tpos L) (_tfull L) (_element_types L) (_element_type_names L)
    (_element_type_next L) (_element_type_map L) (_last_element_type L) (_free_element_type L)
    (_elements L) (_element_names L) (_element_configurations L) (_element_landmarks L)
    (_element_map L) (_hookup_from L) (_hookup_to L) (_requirements L) (_definputs L)
    (_defoutputs L) (_anonymous_offset L) v (_errh L) (tunnel_ends L) (next_oid L).

Definition set_errh (v : ErrorHandler) (L : Lexer) : Lexer :=
  mkLexer (_big_string L) (_pos L) (_filename L) (_original_filename L) (_lineno L) (_lextra L)
    (_tcircle L) (_tpos L) (_tfull L) (_element_types L) (_element_type_names L)
    (_element_type_next L) (_element_type_map L) (_last_element_type L) (_free_element_type L)
    (_elements L) (_element_names L) (_element_configurations L) (_element_landmarks L)
    (_element_map L) (_hookup_from L) (_hookup_to L) (_requirements L) (_definputs L)
    (_defoutputs L) (_anonymous_offset L) (_compound_depth L) v (tunnel_ends L) (next_oid L).

Definition set_tunnel_ends (v : list TunnelEnd) (L : Lexer) : Lexer :=
  mkLexer (_big_string L) (_pos L) (_filename L) (_original_filename L) (_lineno L) (_lextra L)
    (_tcircle L) (_tpos L) (_tfull L) (_element_types L) (_element_type_names L)
    (_element_type_next L) (_element_type_map L) (_last_element_type L) (_free_element_type L)
    (_elements L) (_element_names L) (_element_configurations L) (_element_landmarks L)
    (_element_map L) (_hookup_from L) (_hookup_to L) (_requirements L) (_definputs L)
    (_defoutputs L) (_anonymous_offset L) (_compound_depth L) (_errh L) v (next_oid L).

Definition set_next_oid (v : nat) (L : Lexer) : Lexer :=
  mkLexer (_big_string L) (_pos L) (_filename L) (_original_filename L) (_lineno L) (_lextra L)
    (_tcircle L) (_tpos L) (_tfull L) (_element_types L) (_element_type_names L)
    (_element_type_next L) (_element_type_map L) (_last_element_type L) (_free_element_type L)
    (_elements L) (_element_names L) (_element_configurations L) (_element_landmarks L)
    (_element_map L) (_hookup_from L) (_hookup_to L) (_requirements L) (_definputs L)
    (_defoutputs L) (_anonymous_offset L) (_compound_depth L) (_errh L) (tunnel_ends L) v.

(** ** The lexer monad *)

Definition M (A : Type) : Type := Lexer -> Res (A * Lexer).

Definition ret {A : Type} (a : A) : M A := fun L => Ret (a, L).

Definition bind {A B : Type} (m : M A) (k : A -> M B) : M B :=
  fun L =>
    match m L with
    | Ret (a, L') => k a L'
    | Fault => Fault
    | OutOfFuel => OutOfFuel
    end.

Definition fault {A : Type} : M A := fun _ => Fault.

Definition out_of_fuel {A : Type} : M A := fun _ => OutOfFuel.

(** Read a member. *)
Definition get {A : Type} (f : Lexer -> A) : M A := fun L => Ret (f L, L).

(** Write members. *)
Definition modify (f : Lexer -> Lexer) : M unit := fun L => Ret (tt, f L).

(** A method that can neither fail nor loop. *)
Definition lift {A : Type} (f : Lexer -> A * Lexer) : M A := fun L => Ret (f L).

Definition lift_res {A : Type} (r : Res A) : M A :=
  fun L =>
    match r with
    | Ret a => Ret (a, L)
    | Fault => Fault
    | OutOfFuel => OutOfFuel
    end.

(** Compute from the members something that may fail. *)
Definition get_res {A : Type} (f : Lexer -> Res A) : M A :=
  fun L => res_bind (f L) (fun a => Ret (a, L)).

Definition assert (b : bool) : M unit := lift_res (res_assert b).

Notation "'let*' x ':=' m 'in' k" := (bind m (fun x => k))
  (at level 10, x pattern, m at level 100, k at level 200).

(** [for (i = 0; i < l.size(); i++) body(l[i])] in the monad. *)
Fixpoint for_each_M {A : Type} (l : list A) (body : A -> M unit) : M unit :=
  match l with
  | [] => ret tt
  | x :: l' => let* _ := body x in for_each_M l' body
  end.

(** ** Characters named in the source *)

Definition ch_newline : ascii := "010"%char.
Definition ch_return : ascii := "013"%char.
Definition ch_tab : ascii := "009"%char.
Definition ch_space : ascii := "032"%char.
Definition ch_dquote : ascii := "034"%char.
Definition ch_squote : ascii := "039"%char.
Definition ch_backslash : ascii := "092"%char.
Definition ch_slash : ascii := "047"%char.
Definition ch_star : ascii := "042"%char.
Definition ch_hash : ascii := "035"%char.
Definition ch_dollar : ascii := "036"%char.
Definition ch_lparen : ascii := "040"%char.
Definition ch_rparen : ascii := "041"%char.

Section WithHeaders.

Context `{HDR : LexerHeader} `{COL : Collaborators}.

(** ** Errors *)

(** [Lexer::landmark]. *)
Definition landmark (L : Lexer) : string :=
  (_filename L ++ String_of_int (_lineno L))%string.

(** [Lexer::lerror]; its result, always [-1], is used nowhere. *)
Definition lerror (fmt : string) (args : list Arg) (L : Lexer) : Lexer :=
  set_errh (errh_lerror (landmark L) fmt args (_errh L)) L.

(** [_errh->lerror(lm, fmt, ...)]. *)
Definition errh_error_at (lm fmt : string) (args : list Arg) (L : Lexer) : Lexer :=
  set_errh (errh_lerror lm fmt args (_errh L)) L.

Definition incr_lineno (L : Lexer) : Lexer := set_lineno (_lineno L + 1) L.

(** ** Lexing: lowest level

    Every loop below advances [pos] towards [_len]; it is written by
    recursion on a counter [n] that the caller sets to the distance left,
    and it tests [pos < _len] itself, as the source does. *)

Definition distance (L : Lexer) (pos : Z) : nat := Z.to_nat (_len L - pos).

(** The [for] loop of [skip_line]; [None] when it runs off the end. *)
Fixpoint skip_line_scan (n : nat) (L : Lexer) (pos : Z) : option Z :=
  match n with
  | O => None
  | S n' =>
      if pos <? _len L then
        if ch_eq (_data L pos) ch_newline then Some (pos + 1)
        else if ch_eq (_data L pos) ch_return then
          if (pos <? usub (_len L) 1) && ch_eq (_data L (pos + 1)) ch_newline
          then Some (pos + 2)
          else Some (pos + 1)
        else skip_line_scan n' L (pos + 1)
      else None
  end.

Definition skip_line (pos : Z) (L : Lexer) : Z * Lexer :=
  let L1 := incr_lineno L in
  match skip_line_scan (distance L pos) L pos with
  | Some p => (p, L1)
  | None => (_len L, set_lineno (_lineno L1 - 1) L1)
  end.

Fixpoint skip_slash_star_scan (n : nat) (pos : Z) (L : Lexer) : Z * Lexer :=
  match n with
  | O => (_len L, L)
  | S n' =>
      if pos <? _len L then
        if ch_eq (_data L pos) ch_newline then
          skip_slash_star_scan n' (pos + 1) (incr_lineno L)
        else if ch_eq (_data L pos) ch_return then
          let pos' :=
            if (pos <? usub (_len L) 1) && ch_eq (_data L (pos + 1)) ch_newline
            then pos + 1 else pos in
          skip_slash_star_scan n' (pos' + 1) (incr_lineno L)
        else if ch_eq (_data L pos) ch_star && (pos <? usub (_len L) 1)
                && ch_eq (_data L (pos + 1)) ch_slash then
          (pos + 2, L)
        else skip_slash_star_scan n' (pos + 1) L
      else (_len L, L)
  end.

Definition skip_slash_star (pos : Z) (L : Lexer) : Z * Lexer :=
  skip_slash_star_scan (distance L pos) pos L.

Fixpoint skip_quote_scan (n : nat) (pos : Z) (endc : ascii) (L : Lexer) : Z * Lexer :=
  match n with
  | O => (_len L, L)
  | S n' =>
      if pos <? _len L then
        if ch_eq (_data L pos) ch_newline then
          skip_quote_scan n' (pos + 1) endc (incr_lineno L)
        else if ch_eq (_data L pos) ch_return then
          let pos' :=
            if (pos <? usub (_len L) 1) && ch_eq (_data L (pos + 1)) ch_newline
            then pos + 1 else pos in
          skip_quote_scan n' (pos' + 1) endc (incr_lineno L)
        else if ch_eq (_data L pos) ch_backslash && (pos <? usub (_len L) 1)
                && ch_eq endc ch_dquote && ch_eq (_data L (pos + 1)) endc then
          skip_quote_scan n' (pos + 2) endc L
        else if ch_eq (_data L pos) endc then (pos + 1, L)
        else skip_quote_scan n' (pos + 1) endc L
      else (_len L, L)
  end.

Definition skip_quote (pos : Z) (endc : ascii) (L : Lexer) : Z * Lexer :=
  skip_quote_scan (distance L pos) pos endc L.

(** *** Lexer::process_line_directive *)

Definition is_blank (c : ascii) : bool := ch_eq c ch_space || ch_eq c ch_tab.

(** [for (; pos < len && (data[pos] == ' ' || data[pos] == '\t'); pos++);] *)
Fixpoint skip_blanks_scan (n : nat) (L : Lexer) (pos : Z) : Z :=
  match n with
  | O => pos
  | S n' =>
      if (pos <? _len L) && is_blank (_data L pos)
      then skip_blanks_scan n' L (pos + 1)
      else pos
  end.

Definition skip_blanks (L : Lexer) (pos : Z) : Z := skip_blanks_scan (distance L pos) L pos.

(** [for (_lineno = 0; pos < len && isdigit(data[pos]); pos++)
      _lineno = _lineno * 10 + data[pos] - '0';] entered with [lineno]. *)
Fixpoint line_number_scan (n : nat) (L : Lexer) (pos lineno : Z) : Z * Z :=
  match n with
  | O => (pos, lineno)
  | S n' =>
      if (pos <? _len L) && isdigit (_data L pos)
      then line_number_scan n' L (pos + 1) (lineno * 10 + chr (_data L pos) - 48)
      else (pos, lineno)
  end.

(** The loop over the characters of the file name; entered after [pos++]. *)
Fixpoint filename_scan (n : nat) (L : Lexer) (pos : Z) : Z :=
  match n with
  | O => pos
  | S n' =>
      if (pos <? _len L) && negb (ch_eq (_data L pos) ch_dquote)
         && negb (ch_eq (_data L pos) ch_newline) && negb (ch_eq (_data L pos) ch_return)
      then
        let pos' :=
          if ch_eq (_data L pos) ch_backslash && (pos <? usub (_len L) 1)
             && negb (ch_eq (_data L (pos + 1)) ch_newline)
             && negb (ch_eq (_data L (pos + 1)) ch_return)
          then pos + 1 else pos in
        filename_scan n' L (pos' + 1)
      else pos
  end.

(** [for (; pos < len && data[pos] != '\n' && data[pos] != '\r'; pos++);] *)
Fixpoint end_of_line_scan (n : nat) (L : Lexer) (pos : Z) : Z :=
  match n with
  | O => pos
  | S n' =>
      if (pos <? _len L) && negb (ch_eq (_data L pos) ch_newline)
         && negb (ch_eq (_data L pos) ch_return)
      then end_of_line_scan n' L (pos + 1)
      else pos
  end.

Definition process_line_directive (pos : Z) (L : Lexer) : Z * Lexer :=
  let len := _len L in
  let pos := skip_blanks L (pos + 1) in
  let pos :=
    if (pos <? usub len 4) && ch_eq (_data L pos) "l" && ch_eq (_data L (pos + 1)) "i"
       && ch_eq (_data L (pos + 2)) "n" && ch_eq (_data L (pos + 3)) "e"
       && is_blank (_data L (pos + 4))
    then skip_blanks L (pos + 5)
    else pos in
  if (len <=? pos) || negb (isdigit (_data L pos)) then
    (* complain about bad directive *)
    skip_line pos (lerror "unknown preprocessor directive" [] L)
  else
    (* parse line number *)
    let '(pos, lineno) := line_number_scan (distance L pos) L pos 0 in
    let L := set_lineno (lineno - 1) L in (* account for extra line *)
    let pos := skip_blanks L pos in
    let '(pos, L) :=
      if (pos <? len) && ch_eq (_data L pos) ch_dquote then
        (* parse filename *)
        let first_in_filename := pos in
        let pos := filename_scan (distance L (pos + 1)) L (pos + 1) in
        let fn :=
          cp_unquote (substring (_big_string L) first_in_filename (pos - first_in_filename)
                        ++ String ch_dquote ":")%string in
        (* an empty filename means return to the input file's name *)
        (pos, set_filename (if bool_decide (fn = ":"%string) then _original_filename L else fn) L)
      else (pos, L) in
    (* reach end of line *)
    let pos := end_of_line_scan (distance L pos) L pos in
    let pos :=
      if (pos <? usub len 1) && ch_eq (_data L pos) ch_return
         && ch_eq (_data L (pos + 1)) ch_newline
      then pos + 1 else pos in
    (pos, L).

(** *** Lexer::next_lexeme *)

(** The [while (pos < _len && isspace(_data[pos]))] loop. *)
Fixpoint skip_space_scan (n : nat) (pos : Z) (L : Lexer) : Z * Lexer :=
  match n with
  | O => (pos, L)
  | S n' =>
      if (pos <? _len L) && isspace (_data L pos) then
        if ch_eq (_data L pos) ch_newline then
          skip_space_scan n' (pos + 1) (incr_lineno L)
        else if ch_eq (_data L pos) ch_return then
          let pos' :=
            if (pos <? usub (_len L) 1) && ch_eq (_data L (pos + 1)) ch_newline
            then pos + 1 else pos in
          skip_space_scan n' (pos' + 1) (incr_lineno L)
        else skip_space_scan n' (pos + 1) L
      else (pos, L)
  end.

Definition skip_space (pos : Z) (L : Lexer) : Z * Lexer :=
  skip_space_scan (distance L pos) pos L.

(** Is the [#] at [pos] at the start of a line? *)
Definition at_line_start (L : Lexer) (pos : Z) : bool :=
  (pos =? 0) || ch_eq (_data L (pos - 1)) ch_newline || ch_eq (_data L (pos - 1)) ch_return.

(** The [while (true)] loop that passes over white space, comments and
    line directives: [None] when it reaches the end of the text, else the
    position of the first character of the lexeme. *)
Fixpoint find_word (n : nat) (pos : Z) (L : Lexer) : option Z * Lexer :=
  match n with
  | O => (None, L)
  | S n' =>
      let '(pos, L) := skip_space pos L in
      if _len L <=? pos then (None, L)
      else if ch_eq (_data L pos) ch_slash && (pos <? usub (_len L) 1) then
        if ch_eq (_data L (pos + 1)) ch_slash then
          let '(pos, L) := skip_line (pos + 2) L in find_word n' pos L
        else if ch_eq (_data L (pos + 1)) ch_star then
          let '(pos, L) := skip_slash_star (pos + 2) L in find_word n' pos L
        else (Some pos, L)
      else if ch_eq (_data L pos) ch_hash && at_line_start L pos then
        let '(pos, L) := process_line_directive pos L in find_word n' pos L
      else (Some pos, L)
  end.

Definition is_word_start (c : ascii) : bool := isalnum c || ch_eq c "_" || ch_eq c "@".

Definition is_word_char (c : ascii) : bool :=
  isalnum c || ch_eq c "_" || ch_eq c ch_slash || ch_eq c "@".

(** The loop that finds the end of an identifier. *)
Fixpoint word_scan (n : nat) (L : Lexer) (pos : Z) : Z :=
  match n with
  | O => pos
  | S n' =>
      if (pos <? _len L) && is_word_char (_data L pos) then
        if ch_eq (_data L pos) ch_slash && (pos <? usub (_len L) 1)
           && (ch_eq (_data L (pos + 1)) ch_slash || ch_eq (_data L (pos + 1)) ch_star)
        then pos
        else word_scan n' L (pos + 1)
      else pos
  end.

(** The loop that finds the end of a variable name. *)
Fixpoint variable_scan (n : nat) (L : Lexer) (pos : Z) : Z :=
  match n with
  | O => pos
  | S n' =>
      if (pos <? _len L) && (isalnum (_data L pos) || ch_eq (_data L pos) "_")
      then variable_scan n' L (pos + 1)
      else pos
  end.

(** [Lexeme()]. *)
Definition Lexeme_EOF : Lexeme := Lexeme.mk lexEOF "".

(** What [next_lexeme] does once [word_pos] is known. *)
Definition lexeme_at (word_pos : Z) (L : Lexer) : Lexeme * Lexer :=
  let big := _big_string L in
  let pos := word_pos in
  (* find length of current word *)
  if is_word_start (_data L pos) then
    let pos := word_scan (distance L (pos + 1)) L (pos + 1) in
    let word := substring big word_pos (pos - word_pos) in
    let L := set_pos pos L in
    if bool_decide (word = "connectiontunnel"%string) then (Lexeme.mk lexTunnel word, L)
    else if bool_decide (word = "elementclass"%string) then (Lexeme.mk lexElementclass word, L)
    else if bool_decide (word = "require"%string) then (Lexeme.mk lexRequire word, L)
    else (Lexeme.mk lexIdent word, L)
  else
    (* check for variable *)
    let var_end :=
      if ch_eq (_data L pos) ch_dollar
      then variable_scan (distance L (pos + 1)) L (pos + 1)
      else pos in
    if ch_eq (_data L pos) ch_dollar && (word_pos + 1 <? var_end) then
      (Lexeme.mk lexVariable (substring big word_pos (var_end - word_pos)), set_pos var_end L)
    else if (pos <? usub (_len L) 1) && ch_eq (_data L pos) "-" && ch_eq (_data L (pos + 1)) ">"
    then (Lexeme.mk lexArrow (substring big word_pos 2), set_pos (pos + 2) L)
    else if (pos <? usub (_len L) 1) && ch_eq (_data L pos) ":" && ch_eq (_data L (pos + 1)) ":"
    then (Lexeme.mk lex2Colon (substring big word_pos 2), set_pos (pos + 2) L)
    else if (pos <? usub (_len L) 1) && ch_eq (_data L pos) "|" && ch_eq (_data L (pos + 1)) "|"
    then (Lexeme.mk lex2Bar (substring big word_pos 2), set_pos (pos + 2) L)
    else if (pos <? usub (_len L) 2) && ch_eq (_data L pos) "." && ch_eq (_data L (pos + 1)) "."
            && ch_eq (_data L (pos + 2)) "."
    then (Lexeme.mk lex3Dot (substring big word_pos 3), set_pos (pos + 3) L)
    else (Lexeme.mk (chr (_data L word_pos)) (substring big word_pos 1), set_pos (pos + 1) L).

(** [next_lexeme] from its first line on, [pos] being the local it
    initialises with [_pos]. *)
Definition next_lexeme_from (pos : Z) (L : Lexer) : Lexeme * Lexer :=
  match find_word (S (distance L pos)) pos L with
  | (None, L') => (Lexeme_EOF, set_pos (_len L') L')
  | (Some word_pos, L') => lexeme_at word_pos L'
  end.

Definition next_lexeme (L : Lexer) : Lexeme * Lexer := next_lexeme_from (_pos L) L.

(** *** Lexer::lex_config

    [quote] is [0] outside a quoted string and the code of the opening quote
    character inside one.  The local [output] of the source is never
    assigned, so the result is the substring alone. *)

Fixpoint lex_config_scan (n : nat) (pos paren_depth quote : Z) (L : Lexer) : Z * Lexer :=
  match n with
  | O => (pos, L)
  | S n' =>
      if pos <? _len L then
        let c := _data L pos in
        if ch_eq c ch_lparen && (quote =? 0) then
          lex_config_scan n' (pos + 1) (paren_depth + 1) quote L
        else if ch_eq c ch_rparen && (quote =? 0) then
          if paren_depth - 1 =? 0 then (pos, L)
          else lex_config_scan n' (pos + 1) (paren_depth - 1) quote L
        else if ch_eq c ch_newline then
          lex_config_scan n' (pos + 1) paren_depth quote (incr_lineno L)
        else if ch_eq c ch_return then
          let pos' :=
            if (pos <? usub (_len L) 1) && ch_eq (_data L (pos + 1)) ch_newline
            then pos + 1 else pos in
          lex_config_scan n' (pos' + 1) paren_depth quote (incr_lineno L)
        else if ch_eq c ch_slash && (pos <? usub (_len L) 1) && (quote =? 0) then
          if ch_eq (_data L (pos + 1)) ch_slash then
            let '(p, L') := skip_line (pos + 2) L in
            lex_config_scan n' (p - 1 + 1) paren_depth quote L'
          else if ch_eq (_data L (pos + 1)) ch_star then
            let '(p, L') := skip_slash_star (pos + 2) L in
            lex_config_scan n' (p - 1 + 1) paren_depth quote L'
          else lex_config_scan n' (pos + 1) paren_depth quote L
        else if (ch_eq c ch_squote || ch_eq c ch_dquote) && (quote =? 0) then
          lex_config_scan n' (pos + 1) paren_depth (chr c) L
        else if negb (quote =? 0) && (chr c =? quote) then
          lex_config_scan n' (pos + 1) paren_depth 0 L
        else if ch_eq c ch_backslash && (pos <? usub (_len L) 1) && (quote =? chr ch_dquote) then
          if ch_eq (_data L (pos + 1)) ch_dquote || ch_eq (_data L (pos + 1)) ch_dollar
          then lex_config_scan n' (pos + 1 + 1) paren_depth quote L
          else lex_config_scan n' (pos + 1) paren_depth quote L
        else lex_config_scan n' (pos + 1) paren_depth quote L
      else (pos, L)
  end.

Definition lex_config (L : Lexer) : string * Lexer :=
  let config_pos := _pos L in
  let '(pos, L') := lex_config_scan (distance L (_pos L)) (_pos L) 1 0 L in
  (substring (_big_string L') config_pos (pos - config_pos), set_pos pos L').

(** *** Lexer::lexeme_string *)

(** [sprintf(buf, "%03d", n)]. *)
Definition format_03d (n : Z) : string :=
  let digits := String_of_int (Z.abs n) in
  let width := if n <? 0 then 2%nat else 3%nat in
  let padded :=
    (string_of_list_ascii (replicate (width - String.length digits) "0"%char) ++ digits)%string in
  if n <? 0 then ("-" ++ padded)%string else padded.

Definition lexeme_string (kind : Z) : string :=
  if kind =? lexIdent then "identifier"
  else if kind =? lexIdent then "variable"
  else if kind =? lexArrow then "`->'"
  else if kind =? lex2Colon then "`::'"
  else if kind =? lex2Bar then "`||'"
  else if kind =? lex3Dot then "`...'"
  else if kind =? lexTunnel then "`connectiontunnel'"
  else if kind =? lexElementclass then "`elementclass'"
  else if kind =? lexRequire then "`require'"
  else if (32 <=? kind) && (kind <? 127) then
    String "`" (String (ascii_of_nat (Z.to_nat kind)) "'")
  else
    String "`" (String ch_backslash (format_03d kind ++ "'")).

(** ** Lexing: middle level (with pushback) *)

Definition lex : M Lexeme :=
  let* p := get _tpos in
  let* tfull := get _tfull in
  let* _ :=
    if p =? tfull then
      let* t := lift next_lexeme in
      let* ring := get _tcircle in
      let* ring' := lift_res (vec_set ring p t) in
      modify (fun L => set_tfull ((_tfull L + 1) mod TCIRCLE_SIZE) (set_tcircle ring' L))
    else ret tt in
  let* _ := modify (fun L => set_tpos ((_tpos L + 1) mod TCIRCLE_SIZE) L) in
  let* ring := get _tcircle in
  lift_res (vec_get ring p).

Definition unlex (t : Lexeme) : M unit :=
  let* ring := get _tcircle in
  let* tfull := get _tfull in
  let* ring' := lift_res (vec_set ring tfull t) in
  let* _ := modify (fun L => set_tfull ((_tfull L + 1) mod TCIRCLE_SIZE) (set_tcircle ring' L)) in
  let* tfull' := get _tfull in
  let* tpos := get _tpos in
  assert (negb (tfull' =? tpos)).

Definition expect (kind : Z) (report_error : bool) : M bool :=
  let* t := lex in
  if Lexeme.is_kind t kind then ret true
  else
    let* _ :=
      if report_error
      then modify (lerror "expected %s" [AStr (lexeme_string kind)])
      else ret tt in
    let* _ := unlex t in
    ret false.

(** ** Element types *)

(** [new ErrorElement] and the other allocations of class objects. *)
Definition new_oid : M ObjId :=
  let* n := get next_oid in
  let* _ := modify (set_next_oid (S n)) in
  ret (LexerObj n).

(** [Lexer::add_element_type(String, Element * )]. *)
Definition add_element_type (name : string) (e : Element) : M Z :=
  let name := if bool_decide (name = ""%string) then class_name e else name in
  let* free := get _free_element_type in
  let* last := get _last_element_type in
  let* tid :=
    if free <? 0 then
      let* tid := get (fun L => vsize (_element_types L)) in
      let* _ :=
        modify (fun L =>
                  set_element_type_next (_element_type_next L ++ [last])
                    (set_element_type_names (_element_type_names L ++ [name])
                       (set_element_types (_element_types L ++ [Some e]) L))) in
      ret tid
    else
      let tid := free in
      let* next := get _element_type_next in
      let* free' := lift_res (vec_get next tid) in
      let* _ := modify (set_free_element_type free') in
      let* types := get _element_types in
      let* types' := lift_res (vec_set types tid (Some e)) in
      let* _ := modify (set_element_types types') in
      let* names := get _element_type_names in
      let* names' := lift_res (vec_set names tid name) in
      let* _ := modify (set_element_type_names names') in
      let* next' := lift_res (vec_set next tid last) in
      let* _ := modify (set_element_type_next next') in
      ret tid in
  let* _ := modify (fun L => set_element_type_map (<[name := tid]> (_element_type_map L)) L) in
  let* _ := modify (set_last_element_type tid) in
  ret tid.

(** [Lexer::element_type]. *)
Definition element_type (s : string) (L : Lexer) : Z := hm_get (_element_type_map L) s.

Definition force_element_type (s : string) : M Z :=
  let* ftid := get (element_type s) in
  if 0 <=? ftid then ret ftid
  else
    let* _ := modify (lerror "unknown element class `%s'" [AStr s]) in
    let* o := new_oid in
    add_element_type s (ErrorElement o).

Definition lexical_scoping_in (L : Lexer) : Z := _last_element_type L.

(** The first loop of [remove_element_type]: [(prev, trav)] when it ends. *)
Fixpoint find_removed (fuel : nat) (L : Lexer) (removed prev trav : Z) : Res (Z * Z) :=
  match fuel with
  | O => OutOfFuel
  | S fuel' =>
      if negb (trav =? removed) && (0 <=? trav) then
        let? next := vec_get (_element_type_next L) trav in
        find_removed fuel' L removed trav next
      else Ret (prev, trav)
  end.

(** The loop that looks for the next older type of the same name. *)
Fixpoint find_same_name (fuel : nat) (L : Lexer) (name : string) (trav : Z) : Res Z :=
  match fuel with
  | O => OutOfFuel
  | S fuel' =>
      if 0 <=? trav then
        let? n := vec_get (_element_type_names L) trav in
        if negb (bool_decide (n = name)) then
          let? next := vec_get (_element_type_next L) trav in
          find_same_name fuel' L name next
        else Ret trav
      else Ret trav
  end.

Definition remove_element_type (fuel : nat) (removed : Z) : M unit :=
  (* patch next array *)
  let* last := get _last_element_type in
  let* (prev, trav) := get_res (fun L => find_removed fuel L removed (-1) last) in
  if trav <? 0 then ret tt
  else
    let* next := get _element_type_next in
    let* next_removed := lift_res (vec_get next removed) in
    let* _ :=
      if 0 <=? prev then
        let* next' := lift_res (vec_set next prev next_removed) in
        modify (set_element_type_next next')
      else modify (set_last_element_type next_removed) in
    (* fix up element type name map *)
    let* names := get _element_type_names in
    let* name := lift_res (vec_get names removed) in
    let* mapped := get (element_type name) in
    let* _ :=
      if mapped =? removed then
        let* next := get _element_type_next in
        let* start := lift_res (vec_get next removed) in
        let* trav := get_res (fun L => find_same_name fuel L name start) in
        modify (fun L => set_element_type_map (<[name := trav]> (_element_type_map L)) L)
      else ret tt in
    (* remove stuff *)
    let* names := get _element_type_names in
    let* names' := lift_res (vec_set names removed ""%string) in
    let* _ := modify (set_element_type_names names') in
    let* types := get _element_types in
    let* types' := lift_res (vec_set types removed None) in
    let* _ := modify (set_element_types types') in
    let* next := get _element_type_next in
    let* free := get _free_element_type in
    let* next' := lift_res (vec_set next removed free) in
    let* _ := modify (set_element_type_next next') in
    modify (set_free_element_type removed).

(** The loop of [lexical_scoping_out] that looks for [last] on the chain:
    [true] stands for [goto ok]. *)
Fixpoint on_scope_chain (fuel : nat) (L : Lexer) (t last : Z) : Res bool :=
  match fuel with
  | O => OutOfFuel
  | S fuel' =>
      if 0 <=? t then
        if t =? last then Ret true
        else
          let? next := vec_get (_element_type_next L) t in
          on_scope_chain fuel' L next last
      else Ret false
  end.

(** [while (_last_element_type != last) remove_element_type(_last_element_type);] *)
Fixpoint remove_until (fuel : nat) (last : Z) : M unit :=
  match fuel with
  | O => out_of_fuel
  | S fuel' =>
      let* t := get _last_element_type in
      if negb (t =? last) then
        let* _ := remove_element_type fuel' t in
        remove_until fuel' last
      else ret tt
  end.

Definition lexical_scoping_out (fuel : nat) (last : Z) : M unit :=
  let* ok :=
    if negb (last =? -1) then
      get_res (fun L => on_scope_chain fuel L (_last_element_type L) last)
    else ret true in
  if ok then remove_until fuel last else ret tt.

(** ** Elements *)

Definition get_element (name : string) (etype : Z) (conf lm : string) : M Z :=
  let* ntypes := get (fun L => vsize (_element_types L)) in
  let* _ := assert (negb (bool_decide (name = ""%string)) && (0 <=? etype) && (etype <? ntypes)) in
  (* if an element `name' already exists return it *)
  let* existing := get (fun L => hm_get (_element_map L) name) in
  if 0 <=? existing then ret existing
  else
    let* eid := get (fun L => vsize (_elements L)) in
    let* _ :=
      modify (fun L =>
        set_elements (_elements L ++ [etype])
          (set_element_landmarks
             (_element_landmarks L ++ [if bool_decide (lm = ""%string) then landmark L else lm])
             (set_element_configurations (_element_configurations L ++ [conf])
                (set_element_names (_element_names L ++ [name])
                   (set_element_map (<[name := eid]> (_element_map L)) L))))) in
    ret eid.

(** The [while] loop of the two functions that invent names. *)
Fixpoint unused_name (fuel : nat) (m : gmap string Z) (prefix : string) (anonymizer : Z)
  : Res string :=
  match fuel with
  | O => OutOfFuel
  | S fuel' =>
      let name := (prefix ++ String_of_int anonymizer)%string in
      if 0 <=? hm_get m name then unused_name fuel' m prefix (anonymizer + 1)
      else Ret name
  end.

Definition anon_element_name (fuel : nat) (class_name : string) : M string :=
  get_res (fun L =>
    unused_name fuel (_element_map L) (class_name ++ "@")
      (vsize (_elements L) - _anonymous_offset L + 1)).

Definition anon_element_class_name (fuel : nat) (prefix : string) : M string :=
  get_res (fun L =>
    unused_name fuel (_element_type_map L) prefix
      (vsize (_elements L) - _anonymous_offset L + 1)).

Definition connect (element1 port1 element2 port2 : Z) (L : Lexer) : Lexer :=
  let port1 := if port1 <? 0 then 0 else port1 in
  let port2 := if port2 <? 0 then 0 else port2 in
  set_hookup_to (_hookup_to L ++ [mkHookup element2 port2])
    (set_hookup_from (_hookup_from L ++ [mkHookup element1 port1]) L).

Definition element_name (eid : Z) (L : Lexer) : Res string :=
  if (eid <? 0) || (vsize (_elements L) <=? eid) then Ret "##no-such-element##"%string
  else
    let? name := vec_get (_element_names L) eid in
    if negb (bool_decide (name = ""%string)) then Ret name
    else
      let buf := ("@" ++ String_of_int eid)%string in
      let? t := vec_get (_elements L) eid in
      if t =? TUNNEL_TYPE then Ret ("<tunnel" ++ buf ++ ">")%string
      else
        let? et := vec_get (_element_types L) t in
        match et with
        | None => Ret ("<null" ++ buf ++ ">")%string
        | Some e => Ret (class_name e ++ buf)%string
        end.

Definition element_landmark (eid : Z) (L : Lexer) : Res string :=
  if (eid <? 0) || (vsize (_elements L) <=? eid) then Ret "##no-such-element##"%string
  else
    let? lm := vec_get (_element_landmarks L) eid in
    if negb (bool_decide (lm = ""%string)) then Ret lm
    else Ret "<unknown>"%string.

(** ** Port tunnels: the objects *)

Definition te_get (a : nat) : M TunnelEnd :=
  get_res (fun L => res_of_option (tunnel_ends L !! a)).

Definition te_set (a : nat) (e : TunnelEnd) : M unit :=
  let* _ := te_get a in
  modify (fun L => set_tunnel_ends (<[a := e]> (tunnel_ends L)) L).

Definition set_other (o : option nat) (e : TunnelEnd) : TunnelEnd :=
  TunnelEnd.mk (TunnelEnd._port e) (TunnelEnd._correspond e) (TunnelEnd._expanded e)
    (TunnelEnd._output e) o.

Definition set_expanded (x : Z) (e : TunnelEnd) : TunnelEnd :=
  TunnelEnd.mk (TunnelEnd._port e) (TunnelEnd._correspond e) x
    (TunnelEnd._output e) (TunnelEnd._other e).

Definition set_correspond (c : list Hookup) (e : TunnelEnd) : TunnelEnd :=
  TunnelEnd.mk (TunnelEnd._port e) c (TunnelEnd._expanded e)
    (TunnelEnd._output e) (TunnelEnd._other e).

(** The successor of [a] on the chain [l]; [None] is the null pointer. *)
Fixpoint next_on_chain (a : nat) (l : list nat) : option nat :=
  match l with
  | [] => None
  | d :: rest => if bool_decide (d = a) then head rest else next_on_chain a rest
  end.

(** [a->_next]. *)
Definition te_next (a : nat) (L : Lexer) : option nat :=
  if bool_decide (a ∈ _definputs L) then next_on_chain a (_definputs L)
  else next_on_chain a (_defoutputs L).

Fixpoint insert_after (a x : nat) (l : list nat) : list nat :=
  match l with
  | [] => []
  | d :: rest => if bool_decide (d = a) then d :: x :: rest else d :: insert_after a x rest
  end.

(** [a->_next = x], for an [x] whose own [_next] is the old [a->_next]. *)
Definition link_after (a x : nat) (L : Lexer) : Lexer :=
  if bool_decide (a ∈ _definputs L) then set_definputs (insert_after a x (_definputs L)) L
  else set_defoutputs (insert_after a x (_defoutputs L)) L.

(** [new TunnelEnd(port, output, next)]. *)
Definition new_TunnelEnd (port : Hookup) (output : bool) (next : option nat) : M nat :=
  let* _ :=
    match next with
    | None => ret tt
    | Some n =>
        let* ne := te_get n in
        assert (bool_decide (TunnelEnd._output ne = output))
    end in
  let* a := get (fun L => length (tunnel_ends L)) in
  let* _ := modify (fun L => set_tunnel_ends (tunnel_ends L ++ [TunnelEnd.mk port [] 0 output None]) L) in
  ret a.

(** [a->pair_with(d)]. *)
Definition pair_with (a d : nat) : M unit :=
  let* ae := te_get a in
  let* _ := te_set a (set_other (Some d) ae) in
  let* de := te_get d in
  te_set d (set_other (Some a) de).

(** The chain headed by [_defoutputs] or by [_definputs]. *)
Definition chain_of (out : bool) (L : Lexer) : list nat :=
  if out then _defoutputs L else _definputs L.

(** The [while (d)] loop of [find]: the end found, and [parent]. *)
Fixpoint find_walk (heap : list TunnelEnd) (chain : list nat) (h : Hookup)
  (parent : option nat) : Res (option nat * option nat) :=
  match chain with
  | [] => Ret (None, parent)
  | d :: rest =>
      let? e := res_of_option (heap !! d) in
      if bool_decide (TunnelEnd._port e = h) then Ret (Some d, parent)
      else if idx (TunnelEnd._port e) =? idx h then find_walk heap rest h (Some d)
      else find_walk heap rest h parent
  end.

(** [head->find(h)], where [head] is [_defoutputs] if [out] and
    [_definputs] otherwise.  The source calls [find] through a null head in
    one place; the call then falls through its loop and returns null. *)
Definition TunnelEnd_find (out : bool) (h : Hookup) : M (option nat) :=
  let* chain := get (chain_of out) in
  match chain with
  | [] => ret None
  | this :: _ =>
      let* (found, parent) := get_res (fun L => find_walk (tunnel_ends L) chain h None) in
      match found, parent with
      | Some d, _ => ret (Some d)
      | None, Some p =>
          (* didn't find the particular port pair; make a new one if possible *)
          let* pe := te_get p in
          let* po := lift_res (res_of_option (TunnelEnd._other pe)) in
          let* poe := te_get po in
          let other := mkHookup (idx (TunnelEnd._port poe)) (port h) in
          let* te := te_get this in
          let output := TunnelEnd._output te in
          let* pnext := get (te_next p) in
          let* new_me := new_TunnelEnd h output pnext in
          let* ponext := get (te_next po) in
          let* new_other := new_TunnelEnd other (negb output) ponext in
          let* _ := pair_with new_me new_other in
          let* _ := modify (link_after p new_me) in
          let* _ := modify (link_after po new_other) in
          ret (Some new_me)
      | None, None => ret None
      end
  end.

(** [Lexer::find_connections], returning what it appends to [into]. *)
Definition find_connections (this_end : Hookup) (is_out : bool) (L : Lexer) : Res (list Hookup) :=
  let hookup_this := if is_out then _hookup_from L else _hookup_to L in
  let hookup_that := if is_out then _hookup_to L else _hookup_from L in
  for_range (length hookup_this) 0
    (fun i into =>
       let? h := vec_get hookup_this i in
       if bool_decide (h = this_end) then
         let? h' := vec_get hookup_that i in
         Ret (into ++ [h'])
       else Ret into)
    [].

(** The diagnostic of [expand] for an end nothing is connected to. *)
Definition report_unused_tunnel (e other : TunnelEnd) : M unit :=
  let output := TunnelEnd._output e in
  let inh := if output then TunnelEnd._port other else TunnelEnd._port e in
  let outh := if output then TunnelEnd._port e else TunnelEnd._port other in
  let* in_name := get_res (element_name (idx inh)) in
  let* out_name := get_res (element_name (idx outh)) in
  if bool_decide ((in_name ++ "/input")%string = out_name) then
    let message := if output then "`%s' input %d unused" else "`%s' has no input %d" in
    let* lm := get_res (element_landmark (idx inh)) in
    modify (errh_error_at lm message [AStr in_name; AInt (port inh)])
  else if bool_decide (in_name = (out_name ++ "/output")%string) then
    let message := if output then "`%s' has no output %d" else "`%s' output %d unused" in
    let* lm := get_res (element_landmark (idx outh)) in
    modify (errh_error_at lm message [AStr out_name; AInt (port outh)])
  else
    let* lm := get_res (element_landmark (idx (TunnelEnd._port other))) in
    modify (errh_error_at lm "tunnel `%s -> %s' %s %d unused"
              [AStr in_name; AStr out_name; AStr (if output then "input" else "output");
               AInt (idx (TunnelEnd._port e))]).

(** ** Port tunnels: expansion

    [expand] and [expand_connection] append to their argument [into] and do
    nothing else with it; they are modelled as returning what they append.
    When [expand] works on an end in state [0] it passes the end's own
    [_correspond] for [into]; the end is in state [1] for as long as that
    lasts, so no call reads [_correspond] before it is complete, and the
    model appends the result of each inner call when that call returns. *)

Definition expand_connection_with (expand : nat -> M (list Hookup))
  (this_end : Hookup) (is_out : bool) : M (list Hookup) :=
  let* t := get_res (fun L => vec_get (_elements L) (idx this_end)) in
  if negb (t =? TUNNEL_TYPE) then ret [this_end]
  else
    let* dp := TunnelEnd_find is_out this_end in
    match dp with
    | Some d => expand d
    | None =>
        let* dp' := TunnelEnd_find (negb is_out) this_end in
        match dp' with
        | Some _ =>
            let* lm := get_res (fun L => vec_get (_element_landmarks L) (idx this_end)) in
            let* name := get_res (element_name (idx this_end)) in
            let* _ :=
              modify (errh_error_at lm
                        (if is_out then "`%s' used as output" else "`%s' used as input")
                        [AStr name]) in
            ret []
        | None => ret []
        end
    end.

(** The loop [for (i = 0; i < connections.size(); i++)
    lexer->expand_connection(connections[i], _output, _correspond)] of the
    end [a]. *)
Fixpoint expand_each (expand_connection : Hookup -> bool -> M (list Hookup))
  (a : nat) (output : bool) (connections : list Hookup) : M unit :=
  match connections with
  | [] => ret tt
  | c :: rest =>
      let* appended := expand_connection c output in
      let* e := te_get a in
      let* _ := te_set a (set_correspond (TunnelEnd._correspond e ++ appended) e) in
      expand_each expand_connection a output rest
  end.

Fixpoint TunnelEnd_expand (fuel : nat) (a : nat) : M (list Hookup) :=
  match fuel with
  | O => out_of_fuel
  | S fuel' =>
      let* e := te_get a in
      if TunnelEnd._expanded e =? 1 then ret []
      else
        let* _ :=
          if TunnelEnd._expanded e =? 0 then
            let* _ := te_set a (set_expanded 1 e) in
            let* o := lift_res (res_of_option (TunnelEnd._other e)) in
            let* other := te_get o in
            let* connections :=
              get_res (find_connections (TunnelEnd._port other) (negb (TunnelEnd._output e))) in
            (* give good errors for unused or nonexistent compound element ports *)
            let* _ :=
              if bool_decide (connections = []) then report_unused_tunnel e other
              else ret tt in
            let* _ :=
              expand_each (expand_connection_with (TunnelEnd_expand fuel'))
                a (TunnelEnd._output e) connections in
            let* e' := te_get a in
            te_set a (set_expanded 2 e')
          else ret tt in
        let* e'' := te_get a in
        ret (TunnelEnd._correspond e'')
  end.

Definition expand_connection (fuel : nat) (this_end : Hookup) (is_out : bool)
  : M (list Hookup) :=
  expand_connection_with (TunnelEnd_expand fuel) this_end is_out.

(** [Lexer::add_tunnel]. *)
Definition add_tunnel (namein nameout : string) : M unit :=
  let* hin_idx := get_element namein TUNNEL_TYPE "" "" in
  let hin := mkHookup hin_idx 0 in
  let* hout_idx := get_element nameout TUNNEL_TYPE "" "" in
  let hout := mkHookup hout_idx 0 in
  let* tin := get_res (fun L => vec_get (_elements L) (idx hin)) in
  let* ok1 :=
    if negb (tin =? TUNNEL_TYPE) then
      let* _ := modify (lerror "redeclaration of element `%s'" [AStr namein]) in
      let* lm := get_res (fun L => vec_get (_element_landmarks L) (idx hin)) in
      let* _ := modify (errh_error_at lm "`%s' previously declared here" [AStr namein]) in
      ret false
    else ret true in
  let* tout := get_res (fun L => vec_get (_elements L) (idx hout)) in
  let* ok2 :=
    if negb (tout =? TUNNEL_TYPE) then
      let* _ := modify (lerror "redeclaration of element `%s'" [AStr nameout]) in
      let* lm := get_res (fun L => vec_get (_element_landmarks L) (idx hout)) in
      let* _ := modify (errh_error_at lm "`%s' previously declared here" [AStr nameout]) in
      ret false
    else ret ok1 in
  let* found_in := TunnelEnd_find false hin in
  let* ok3 :=
    if bool_decide (found_in <> None) then
      let* _ := modify (lerror "redeclaration of connection tunnel input `%s'" [AStr namein]) in
      ret false
    else ret ok2 in
  let* found_out := TunnelEnd_find true hout in
  let* ok4 :=
    if bool_decide (found_out <> None) then
      let* _ := modify (lerror "redeclaration of connection tunnel output `%s'" [AStr nameout]) in
      ret false
    else ret ok3 in
  if ok4 then
    let* ins := get _definputs in
    let* a := new_TunnelEnd hin false (head ins) in
    let* _ := modify (set_definputs (a :: ins)) in
    let* outs := get _defoutputs in
    let* b := new_TunnelEnd hout true (head outs) in
    let* _ := modify (set_defoutputs (b :: outs)) in
    pair_with a b
  else ret tt.

(** ** Parsing: begin and end *)

Definition end_parse (fuel : nat) (cookie : Z) : M unit :=
  let* _ := lexical_scoping_out fuel cookie in
  modify (fun L =>
    set_compound_depth 0 (set_anonymous_offset 0
      (set_tfull 0 (set_tpos 0 (set_lextra None (set_lineno 0 (set_filename ""
        (set_pos 0 (set_big_string ""
          (set_requirements [] (set_hookup_to [] (set_hookup_from []
            (set_element_map ∅ (set_element_landmarks [] (set_element_configurations []
              (set_element_names [] (set_elements []
                (set_tunnel_ends [] (set_defoutputs [] (set_definputs [] L)))))))))))))))))))).

Definition begin_parse (data filename : string) (lextra : option LexerExtra) : M Z :=
  let* _ :=
    modify (fun L =>
      let fn :=
        if bool_decide (filename = ""%string) then "line "%string
        else if negb (ch_eq (back filename) ":") && negb (isspace (back filename))
        then (filename ++ ":")%string
        else filename in
      set_lextra lextra (set_lineno 1 (set_original_filename fn (set_filename fn
        (set_big_string data L))))) in
  get lexical_scoping_in.

(** [Lexer::Lexer(errh)]. *)
Definition new_Lexer (fuel : nat) (errh : ErrorHandler) : Res Lexer :=
  let L0 :=
    mkLexer "" 0 "" "" 1 None (replicate (Z.to_nat TCIRCLE_SIZE) Lexeme_EOF) 0 0
      [] [] [] ∅ (-1) (-1)
      [] [] [] [] ∅ [] [] [] [] [] 0 0 errh [] 0 in
  let m :=
    let* _ := end_parse fuel (-1) in (* clear private state *)
    let* o1 := new_oid in
    let* _ := add_element_type "<tunnel>" (ErrorElement o1) in
    let* o2 := new_oid in
    let* _ := add_element_type "" (ErrorElement o2) in
    let* L := get id in
    assert ((element_type "<tunnel>" L =? TUNNEL_TYPE) && (element_type "Error" L =? ERROR_TYPE)) in
  let? r := m L0 in Ret (snd r).

(** ** Parsing *)

Definition yport (port : Z) : M (bool * Z) :=
  let* tlbrack := lex in
  if negb (Lexeme.is_kind tlbrack (chr "[")) then
    let* _ := unlex tlbrack in
    ret (false, port)
  else
    let* tword := lex in
    if Lexeme.is_kind tword lexIdent then
      let* port :=
        match cp_integer (Lexeme.string tword) with
        | Some n => ret n
        | None =>
            let* _ := modify (lerror "syntax error: port number should be integer" []) in
            ret 0
        end in
      let* _ := expect (chr "]") true in
      ret (true, port)
    else if Lexeme.is_kind tword (chr "]") then
      let* _ := modify (lerror "syntax error: expected port number" []) in
      ret (true, 0)
    else
      let* _ := modify (lerror "syntax error: expected port number" []) in
      let* _ := unlex tword in
      ret (false, port).

(** The [while (true)] loop of [ydeclaration], entered at its top or at the
    label [midpoint]; [None] when the function returns from inside it. *)
Fixpoint declared_names (fuel : nat) (decls : list string) (midpoint : bool)
  : M (option (list string)) :=
  match fuel with
  | O => out_of_fuel
  | S fuel' =>
      let* decls :=
        if midpoint then ret decls
        else
          let* t := lex in
          if negb (Lexeme.is_kind t lexIdent) then
            let* _ := modify (lerror "syntax error: expected element name" []) in
            ret decls
          else ret (decls ++ [Lexeme.string t]) in
      let* tsep := lex in
      if Lexeme.is_kind tsep (chr ",") then declared_names fuel' decls false
      else if Lexeme.is_kind tsep lex2Colon then ret (Some decls)
      else
        let* _ := modify (lerror "syntax error: expected `::' or `,'" []) in
        let* _ := unlex tsep in
        ret None
  end.

(** The body of the final loop of [ydeclaration]. *)
Definition declare (etype : Z) (configuration lm : string) (name : string) : M unit :=
  let* e := get (fun L => hm_get (_element_map L) name) in
  if 0 <=? e then
    let* _ := modify (lerror "redeclaration of element `%s'" [AStr name]) in
    let* t := get_res (fun L => vec_get (_elements L) e) in
    if negb (t =? TUNNEL_TYPE) then
      let* elm := get_res (fun L => vec_get (_element_landmarks L) e) in
      modify (errh_error_at elm "element `%s' previously declared here" [AStr name])
    else ret tt
  else
    let* ty := get (element_type name) in
    if 0 <=? ty then modify (lerror "`%s' is an element class" [AStr name])
    else
      let* _ := get_element name etype configuration lm in
      ret tt.

Section Recursive.

(** [ycompound], as far as the functions that call it are concerned. *)
Variable ycompound_rec : string -> M Z.

Definition ydeclaration_with (fuel : nat) (first_element : string) : M unit :=
  let* names :=
    if negb (bool_decide (first_element = ""%string))
    then declared_names fuel [first_element] true
    else declared_names fuel [] false in
  match names with
  | None => ret tt
  | Some decls =>
      let* lm := get landmark in
      let* t := lex in
      let* etype :=
        if Lexeme.is_kind t lexIdent then
          let* ty := force_element_type (Lexeme.string t) in ret (Some ty)
        else if Lexeme.is_kind t (chr "{") then
          let* ty := ycompound_rec "" in ret (Some ty)
        else
          let* _ := modify (lerror "missing element type in declaration" []) in
          ret None in
      match etype with
      | None => ret tt
      | Some etype =>
          let* t := lex in
          let* configuration :=
            if Lexeme.is_kind t (chr "(") then
              let* c := lift lex_config in
              let* _ := expect (chr ")") true in
              ret c
            else
              let* _ := unlex t in
              ret ""%string in
          for_each_M decls (declare etype configuration lm)
      end
  end.

Definition yelement_with (fuel : nat) (comma_ok : bool) : M (option Z) :=
  let* t := lex in
  let* head :=
    if Lexeme.is_kind t lexIdent then
      let name := Lexeme.string t in
      let* etype := get (element_type name) in
      ret (Some (name, etype))
    else if Lexeme.is_kind t (chr "{") then
      let* etype := ycompound_rec "" in
      let* et := get_res (fun L => vec_get (_element_types L) etype) in
      let* e := lift_res (res_of_option et) in
      ret (Some (class_name e, etype))
    else
      let* _ := unlex t in
      ret None in
  match head with
  | None => ret None
  | Some (name, etype) =>
      let* tparen := lex in
      let* (etype, configuration, lm) :=
        if Lexeme.is_kind tparen (chr "(") then
          let* lm := get landmark in (* report landmark from before config string *)
          let* etype := if etype <? 0 then force_element_type name else ret etype in
          let* configuration := lift lex_config in
          let* _ := expect (chr ")") true in
          ret (etype, configuration, lm)
        else
          let* _ := unlex tparen in
          ret (etype, ""%string, ""%string) in
      if 0 <=? etype then
        let* aname := anon_element_name fuel name in
        let* element := get_element aname etype configuration lm in
        ret (Some element)
      else
        let* element := get (fun L => hm_get (_element_map L) name) in
        if element <? 0 then
          let* t2colon := lex in
          let* _ := unlex t2colon in
          let* _ :=
            if Lexeme.is_kind t2colon lex2Colon || (Lexeme.is_kind t2colon (chr ",") && comma_ok)
            then ydeclaration_with fuel name
            else
              let* _ :=
                modify (lerror "undeclared element `%s' (first use this block)" [AStr name]) in
              let* _ := get_element name ERROR_TYPE "" "" in
              ret tt in
          let* element := get (fun L => hm_get (_element_map L) name) in
          ret (Some element)
        else ret (Some element)
  end.

(** What follows an element of a chain, from the label [relex] on: [None]
    when the chain goes on after an arrow, else the result of [yconnection];
    with it the value of [port1]. *)
Fixpoint after_element (fuel : nat) (port1 : Z) : M (option bool * Z) :=
  match fuel with
  | O => out_of_fuel
  | S fuel' =>
      let* t := lex in
      let k := Lexeme.kind t in
      if (k =? chr ",") || (k =? lex2Colon) then
        let* _ := modify (lerror "syntax error before `%s'" [AStr (Lexeme.string t)]) in
        after_element fuel' port1
      else if k =? lexArrow then ret (None, port1)
      else if k =? chr "[" then
        let* _ := unlex t in
        let* (_, port1) := yport port1 in
        after_element fuel' port1
      else if (k =? lexIdent) || (k =? chr "{") || (k =? chr "}") || (k =? lex2Bar)
              || (k =? lexTunnel) || (k =? lexElementclass) || (k =? lexRequire)
              || (k =? chr ";") || (k =? lexEOF) then
        let* _ :=
          if (k =? chr ";") || (k =? lexEOF) then ret tt else unlex t in
        let* _ :=
          if 0 <=? port1
          then modify (lerror "output port useless at end of chain" [AInt port1])
          else ret tt in
        ret (Some true, port1)
      else
        let* _ := modify (lerror "syntax error near `%s'" [AStr (Lexeme.string t)]) in
        let* _ := if lexIdent <=? k then unlex t else ret tt in (* save meaningful tokens *)
        ret (Some true, port1)
  end.

(** The [while (true)] loop of [yconnection]. *)
Fixpoint yconnection_loop (fuel : nat) (element1 port1 : Z) : M bool :=
  match fuel with
  | O => out_of_fuel
  | S fuel' =>
      (* get element *)
      let* (_, port2) := yport (-1) in
      let* element2 := yelement_with fuel (element1 <? 0) in
      match element2 with
      | None =>
          let* _ :=
            if 0 <=? port1
            then modify (lerror "output port useless at end of chain" [])
            else ret tt in
          ret (0 <=? element1)
      | Some element2 =>
          let* _ :=
            if 0 <=? element1 then modify (connect element1 port1 element2 port2)
            else if 0 <=? port2
            then modify (lerror "input port useless at start of chain" [])
            else ret tt in
          let* (result, port1) := after_element fuel (-1) in
          match result with
          | Some b => ret b
          | None => (* have `x ->' *) yconnection_loop fuel' element2 port1
          end
      end
  end.

Definition yconnection_with (fuel : nat) : M bool :=
  yconnection_loop fuel (-1) indeterminate_port1.

Definition yelementclass_with : M unit :=
  let* tname := lex in
  let* name :=
    if Lexeme.is_kind tname lexIdent then ret (Lexeme.string tname)
    else
      let* _ := unlex tname in
      let* _ := modify (lerror "expected element type name" []) in
      ret ""%string in
  let* tnext := lex in
  if Lexeme.is_kind tnext (chr "{") then
    let* _ := ycompound_rec name in ret tt
  else if Lexeme.is_kind tnext lexIdent then
    (* define synonym type *)
    let* t := force_element_type (Lexeme.string tnext) in
    let* et := get_res (fun L => vec_get (_element_types L) t) in
    let* e := lift_res (res_of_option et) in
    let* o := new_oid in
    let* _ := add_element_type name (Synonym o e) in
    ret tt
  else
    let* _ := modify (lerror "syntax error near `%s'" [AStr (Lexeme.string tnext)]) in
    let* o := new_oid in
    let* _ := add_element_type name (ErrorElement o) in
    ret tt.

Fixpoint ytunnel (fuel : nat) : M unit :=
  match fuel with
  | O => out_of_fuel
  | S fuel' =>
      let* tname1 := lex in
      let* _ :=
        if negb (Lexeme.is_kind tname1 lexIdent) then
          let* _ := unlex tname1 in
          modify (lerror "expected port name" [])
        else ret tt in
      let* _ := expect lexArrow true in
      let* tname2 := lex in
      let* _ :=
        if negb (Lexeme.is_kind tname2 lexIdent) then
          let* _ := unlex tname2 in
          modify (lerror "expected port name" [])
        else ret tt in
      let* _ :=
        if Lexeme.is_kind tname1 lexIdent && Lexeme.is_kind tname2 lexIdent
        then add_tunnel (Lexeme.string tname1) (Lexeme.string tname2)
        else ret tt in
      let* t := lex in
      if negb (Lexeme.is_kind t (chr ",")) then unlex t
      else ytunnel fuel'
  end.

Definition yrequire : M unit :=
  let* ok := expect (chr "(") true in
  if ok then
    let* requirement := lift lex_config in
    let args := cp_argvec requirement in
    let* _ :=
      for_each_M args (fun arg =>
        match cp_word arg with
        | None => modify (lerror "bad requirement: should be a single word" [])
        | Some word =>
            let* _ :=
              modify (fun L =>
                match _lextra L with
                | Some hook => set_errh (hook word (_errh L)) L
                | None => L
                end) in
            modify (fun L => set_requirements (_requirements L ++ [word]) L)
        end) in
    let* _ := expect (chr ")") true in
    ret tt
  else ret tt.

Definition ystatement_with (fuel : nat) (nested : bool) : M bool :=
  let* t := lex in
  let k := Lexeme.kind t in
  let syntax_error :=
    let* _ := modify (lerror "syntax error near `%s'" [AStr (Lexeme.string t)]) in
    ret true in
  if (k =? lexIdent) || (k =? chr "[") || (k =? chr "{") then
    let* _ := unlex t in
    let* _ := yconnection_with fuel in
    ret true
  else if k =? lexElementclass then
    let* _ := yelementclass_with in ret true
  else if k =? lexTunnel then
    let* _ := ytunnel fuel in ret true
  else if k =? lexRequire then
    let* _ := yrequire in ret true
  else if k =? chr ";" then ret true
  else if (k =? chr "}") || (k =? lex2Bar) then
    if negb nested then syntax_error
    else
      let* _ := unlex t in
      ret false
  else if k =? lexEOF then
    let* _ := if nested then modify (lerror "expected `}'" []) else ret tt in
    ret false
  else syntax_error.

End Recursive.

(** [Compound::swap_router]. *)
Definition swap_router (ct : Compound) (L : Lexer) : Compound * Lexer :=
  (Compound.mk (Compound._oid ct) (Compound._name ct) (Compound._landmark ct)
     (Compound._depth ct) (Compound._next ct) (Compound._formals ct)
     (Compound._ninputs ct) (Compound._noutputs ct)
     (_elements L) (_element_names L) (_element_configurations L) (_element_landmarks L)
     (_hookup_from L) (_hookup_to L),
   set_hookup_to (Compound._hookup_to ct)
     (set_hookup_from (Compound._hookup_from ct)
        (set_element_landmarks (Compound._element_landmarks ct)
           (set_element_configurations (Compound._element_configurations ct)
              (set_element_names (Compound._element_names ct)
                 (set_elements (Compound._elements ct) L)))))).

Fixpoint ycompound_arguments (fuel : nat) (comptype : Compound) : M Compound :=
  match fuel with
  | O => out_of_fuel
  | S fuel' =>
      let* tvar := lex in
      if negb (Lexeme.is_kind tvar lexVariable) then
        let* _ := unlex tvar in
        ret comptype
      else
        let comptype := add_formal (Lexeme.string tvar) comptype in
        let* tsep := lex in
        if Lexeme.is_kind tsep (chr "|") then ret comptype
        else if negb (Lexeme.is_kind tsep (chr ",")) then
          let* _ := modify (lerror "expected `,' or `|'" []) in
          let* _ := unlex tsep in
          ret comptype
        else ycompound_arguments fuel' comptype
  end.

Section Compound_body.

(** [ystatement], as far as [ycompound] is concerned. *)
Variable ystatement_rec : bool -> M bool.

(** [while (ystatement(true)) ;] *)
Fixpoint ystatements (fuel : nat) : M unit :=
  match fuel with
  | O => out_of_fuel
  | S fuel' =>
      let* more := ystatement_rec true in
      if more then ystatements fuel' else ret tt
  end.

(** The [while (1)] loop of [ycompound] over the bodies between [||]; its
    state is [created] and the local [old_type_map]. *)
Fixpoint ycompound_bodies (fuel : nat) (name : string) (old_offset : Z)
  (created : option Element) (old_type_map : gmap string Z) : M Compound :=
  match fuel with
  | O => out_of_fuel
  | S fuel' =>
      (* prepare *)
      let* _ := modify (set_element_map ∅) in
      let* o := new_oid in
      let* lm := get landmark in
      let* depth := get _compound_depth in
      let ct := new_Compound o name lm depth created in
      let* ct := lift (swap_router ct) in
      let* _ := get_element "input" TUNNEL_TYPE "" "" in
      let* _ := get_element "output" TUNNEL_TYPE "" "" in
      let* _ := modify (fun L => set_compound_depth (_compound_depth L + 1)
                                   (set_anonymous_offset 2 L)) in
      let* ct := ycompound_arguments fuel ct in
      let* _ := ystatements fuel in
      let* _ := modify (fun L => set_anonymous_offset old_offset
                                   (set_compound_depth (_compound_depth L - 1) L)) in
      let* inner_type_map := get _element_type_map in
      let* _ := modify (set_element_type_map old_type_map) in
      let old_type_map := inner_type_map in
      let* ct := lift (swap_router ct) in
      let* errh := get _errh in
      let* (ct, errh) := lift_res (finish ct errh) in
      let* _ := modify (set_errh errh) in
      (* check for '||' or '}' *)
      let* t := lex in
      if negb (Lexeme.is_kind t lex2Bar) then ret ct
      else ycompound_bodies fuel' name old_offset (Some (ECompound ct)) old_type_map
  end.

Definition ycompound_with (fuel : nat) (name : string) : M Z :=
  let* name :=
    if bool_decide (name = ""%string) then anon_element_class_name fuel "@Class"
    else ret name in
  let* old_element_map := get _element_map in
  let* _ := modify (set_element_map ∅) in
  let* old_type_map := get _element_type_map in
  let* old_offset := get _anonymous_offset in
  (* check for '...' *)
  let* t := lex in
  let* created :=
    if Lexeme.is_kind t lex3Dot then
      let* ty := get (element_type name) in
      let* _ :=
        if ty <? 0 then
          let* _ := modify (lerror "extending unknwon element class `%s'" [AStr name]) in
          let* o := new_oid in
          let* _ := add_element_type name (ErrorElement o) in
          ret tt
        else ret tt in
      let* created := get_res (fun L => vec_get (_element_types L) (element_type name L)) in
      let* _ := expect lex2Bar true in
      ret created
    else
      let* _ := unlex t in
      ret None in
  let first := created in
  let* ct := ycompound_bodies fuel name old_offset created old_type_map in
  (* on the way out *)
  let* _ := modify (fun L => set_errh (check_duplicates_until ct first (_errh L)) L) in
  let* _ := modify (set_element_map old_element_map) in
  add_element_type name (ECompound ct).

End Compound_body.

(** Tying the knot: [ycompound] calls [ystatement] for the statements of a
    body, and [ystatement] reaches [ycompound] through [yconnection] and
    [yelementclass]. *)
Fixpoint ycompound (fuel : nat) (name : string) : M Z :=
  match fuel with
  | O => out_of_fuel
  | S fuel' => ycompound_with (ystatement_with (ycompound fuel') fuel') fuel' name
  end.

Definition ystatement (fuel : nat) (nested : bool) : M bool :=
  ystatement_with (ycompound fuel) fuel nested.

Definition ydeclaration (fuel : nat) (first_element : string) : M unit :=
  ydeclaration_with (ycompound fuel) fuel first_element.

Definition yelement (fuel : nat) (comma_ok : bool) : M (option Z) :=
  yelement_with (ycompound fuel) fuel comma_ok.

Definition yconnection (fuel : nat) : M bool :=
  yconnection_with (ycompound fuel) fuel.

Definition yelementclass (fuel : nat) : M unit :=
  yelementclass_with (ycompound fuel).

(** ** Completion *)

(** The router under construction, an external collaborator: the calls of
    its three functions, in order. *)
Record Router := mkRouter {
  r_elements : list (option Element * string * string * string);
  r_connections : list (Hookup * Hookup);
  r_requirements : list string
}.

Definition new_Router : Router := mkRouter [] [] [].

(** [router->add_element(e, name, conf, lm)]: the updated router and the
    index returned. *)
Definition add_element (e : option Element) (name conf lm : string) (r : Router) : Z * Router :=
  (router_add_element_index (r_elements r) e name conf lm,
   mkRouter (r_elements r ++ [(e, name, conf, lm)]) (r_connections r) (r_requirements r)).

Definition add_connection (from_idx from_port to_idx to_port : Z) (r : Router) : Router :=
  mkRouter (r_elements r) (r_connections r ++ [(mkHookup from_idx from_port, mkHookup to_idx to_port)])
    (r_requirements r).

Definition add_requirement (word : string) (r : Router) : Router :=
  mkRouter (r_elements r) (r_connections r) (r_requirements r ++ [word]).

(** *** Compound::expand_into *)

(** The body of the loop over the elements of the compound, from index 2. *)
Definition expand_element (c : Compound) (which : Z) (ve : VariableEnvironment)
  (ename_slash : string) (i : Z) (eidx_map : list Z) : M (list Z) :=
  let* inner_name := lift_res (vec_get (Compound._element_names c) i) in
  let cname := (ename_slash ++ inner_name)%string in
  let* eidx := get (fun L => hm_get (_element_map L) cname) in
  if 0 <=? eidx then
    let* lm := get_res (element_landmark which) in
    let* _ := modify (errh_error_at lm "redeclaration of element `%s'" [AStr cname]) in
    let* lm' := get_res (element_landmark eidx) in
    let* _ := modify (errh_error_at lm' "`%s' previously declared here" [AStr cname]) in
    ret (eidx_map ++ [-1])
  else
    let* ty := get (element_type cname) in
    let* _ :=
      if 0 <=? ty then
        let* lm := get_res (element_landmark which) in
        modify (errh_error_at lm "`%s' is an element class" [AStr cname])
      else ret tt in
    let* etype := lift_res (vec_get (Compound._elements c) i) in
    let* conf := lift_res (vec_get (Compound._element_configurations c) i) in
    let* lm := lift_res (vec_get (Compound._element_landmarks c) i) in
    let* eidx := get_element cname etype (ve_interpolate ve conf) lm in
    ret (eidx_map ++ [eidx]).

(** [for_range] in the monad. *)
Fixpoint for_range_M {S : Type} (n : nat) (i : Z) (body : Z -> S -> M S) (s : S) : M S :=
  match n with
  | O => ret s
  | Datatypes.S n' => let* s' := body i s in for_range_M n' (i + 1) body s'
  end.

Definition expand_into (c : Compound) (which : Z) (ve : VariableEnvironment) : M unit :=
  (* `name_slash' is `name' constrained to end with a slash *)
  let* ename := get_res (fun L => vec_get (_element_names L) which) in
  let ename_slash :=
    if ch_eq (char_at ename (slen ename - 1)) ch_slash then ename
    else (ename ++ "/")%string in
  let* n0 := lift_res (vec_get (Compound._element_names c) 0) in
  let* n1 := lift_res (vec_get (Compound._element_names c) 1) in
  let* _ := assert (bool_decide (n0 = "input"%string) && bool_decide (n1 = "output"%string)) in
  let* elements := get _elements in
  let* elements' := lift_res (vec_set elements which TUNNEL_TYPE) in
  let* _ := modify (set_elements elements') in
  let* _ := add_tunnel ename (ename_slash ++ "input") in
  let* _ := add_tunnel (ename_slash ++ "output") ename in
  let* e0 := get (fun L => hm_get (_element_map L) (ename_slash ++ "input")) in
  let* e1 := get (fun L => hm_get (_element_map L) (ename_slash ++ "output")) in
  let* eidx_map :=
    for_range_M (length (Compound._elements c) - 2) 2 (expand_element c which ve ename_slash)
      [e0; e1] in
  (* now copy hookups *)
  let* _ :=
    for_range_M (length (Compound._hookup_from c)) 0
      (fun i (_ : unit) =>
         let* hf := lift_res (vec_get (Compound._hookup_from c) i) in
         let* ht := lift_res (vec_get (Compound._hookup_to c) i) in
         let* mf := lift_res (vec_get eidx_map (idx hf)) in
         if 0 <=? mf then
           let* mt := lift_res (vec_get eidx_map (idx ht)) in
           if 0 <=? mt then modify (connect mf (port hf) mt (port ht))
           else ret tt
         else ret tt)
      tt in
  ret tt.

(** *** Lexer::expand_compound_element *)

(** The search [for (i = 0; i < _element_types.size(); i++)
    if (_element_types[i] == found_c)]. *)
Fixpoint find_type_of (types : list (option Element)) (found_c : Element) (i : Z) : option Z :=
  match types with
  | [] => None
  | Some e :: rest => if same_object e found_c then Some i else find_type_of rest found_c (i + 1)
  | None :: rest => find_type_of rest found_c (i + 1)
  end.

(** The locals [environment_map] and [environments] of [create_router]. *)
Record Environments := mkEnvironments {
  environment_map : list Z;
  environments : list VariableEnvironment
}.

(** [inputs_used] and [outputs_used] of the element [which]. *)
Definition ports_used (which : Z) (L : Lexer) : Res (Z * Z) :=
  for_range (length (_hookup_from L)) 0
    (fun i '(inputs_used, outputs_used) =>
       let? hf := vec_get (_hookup_from L) i in
       let? ht := vec_get (_hookup_to L) i in
       let inputs_used :=
         if (idx ht =? which) && (inputs_used <=? port ht) then port ht + 1 else inputs_used in
       let outputs_used :=
         if (idx hf =? which) && (outputs_used <=? port hf) then port hf + 1
         else outputs_used in
       Ret (inputs_used, outputs_used))
    (0, 0).

Definition set_element_class (which etype : Z) : M unit :=
  let* elements := get _elements in
  let* elements' := lift_res (vec_set elements which etype) in
  modify (set_elements elements').

(** The source converts [_element_types[etype]] to a [Compound *] without a
    check; where the object is not a [Compound] (a synonym of one passes the
    test in [create_router]) the behaviour is undefined, and the model
    stops. *)
Definition expand_compound_element (which : Z) (envs : Environments) : M Environments :=
  let* name := get_res (fun L => vec_get (_element_names L) which) in
  let* etype := get_res (fun L => vec_get (_elements L) which) in
  let* _ := assert (negb (bool_decide (name = ""%string))) in
  let* old_nelements := get (fun L => vsize (_elements L)) in
  (* find right version *)
  let* conf := get_res (fun L => vec_get (_element_configurations L) which) in
  let args := cp_argvec conf in
  let* (inputs_used, outputs_used) := get_res (ports_used which) in
  let* et := get_res (fun L => vec_get (_element_types L) etype) in
  match et with
  | Some (ECompound c) =>
      match find_relevant_class c inputs_used outputs_used args with
      | None =>
          let* _ :=
            modify (errh_error_at (Compound._landmark c) "no match for `%s'"
                      [AStr (signature_of (Compound._name c) inputs_used outputs_used
                               (vsize args))]) in
          let* _ :=
            modify (fun L =>
              set_errh (_errh L ++ map (in_context "possibilities are:" "  ")
                                     (report_signatures c [])) L) in
          let* _ := set_element_class which ERROR_TYPE in
          ret envs
      | Some found_c =>
          (* have putatively correct version *)
          match cast_Compound found_c with
          | None =>
              let* types := get _element_types in
              match find_type_of types found_c 0 with
              | Some i =>
                  let* _ := set_element_class which i in
                  ret envs
              | None => fault
              end
          | Some found_comp =>
              let* vei := lift_res (vec_get (environment_map envs) which) in
              let* (vei, envs) :=
                if (vsize args =? 0) && (Compound._depth found_comp =? 0) then ret (0, envs)
                else
                  let* enter :=
                    if negb (vsize args =? 0) then ret true
                    else
                      let* cur := lift_res (vec_get (environments envs) vei) in
                      ret (Compound._depth found_comp <=? ve_depth cur) in
                  if enter then
                    let* new_ve :=
                      if 0 <? vei then
                        let* cur := lift_res (vec_get (environments envs) vei) in
                        ret (ve_enter_env ve_empty cur)
                      else ret ve_empty in
                    let new_ve := ve_limit_depth (Compound._depth found_comp) new_ve in
                    let new_ve :=
                      ve_enter (Compound._formals found_comp) args (Compound._depth found_comp)
                        new_ve in
                    ret (vsize (environments envs),
                         mkEnvironments (environment_map envs) (environments envs ++ [new_ve]))
                  else ret (vei, envs) in
              let* ve := lift_res (vec_get (environments envs) vei) in
              let* _ := expand_into found_comp which ve in
              (* mark new environments *)
              let* nelements := get (fun L => vsize (_elements L)) in
              ret (mkEnvironments
                     (environment_map envs
                        ++ replicate (Z.to_nat (nelements - old_nelements)) vei)
                     (environments envs))
          end
      end
  | _ => fault
  end.

(** *** Lexer::add_router_connections and Lexer::create_router *)

Definition add_router_connections (fuel : nat) (c : Z) (router_id : list Z) (router : Router)
  : M Router :=
  let* hf := get_res (fun L => vec_get (_hookup_from L) c) in
  let* hfrom := expand_connection fuel hf true in
  let* ht := get_res (fun L => vec_get (_hookup_to L) c) in
  let* hto := expand_connection fuel ht false in
  lift_res
    (for_range (length hfrom) 0
       (fun f router =>
          let? hff := vec_get hfrom f in
          let? eidx := vec_get router_id (idx hff) in
          if 0 <=? eidx then
            for_range (length hto) 0
              (fun t router =>
                 let? htt := vec_get hto t in
                 let? tidx := vec_get router_id (idx htt) in
                 if 0 <=? tidx
                 then Ret (add_connection eidx (port hff) tidx (port htt) router)
                 else Ret router)
              router
          else Ret router)
       router).

(** The loop [for (i = 0; i < _elements.size(); i++)] that expands the
    compound elements; [_elements] grows while it runs. *)
Fixpoint expand_compounds (fuel : nat) (i : Z) (envs : Environments) : M unit :=
  match fuel with
  | O => out_of_fuel
  | S fuel' =>
      let* n := get (fun L => vsize (_elements L)) in
      if i <? n then
        let* t := get_res (fun L => vec_get (_elements L) i) in
        let* envs :=
          if negb (t =? TUNNEL_TYPE) then
            let* et := get_res (fun L => vec_get (_element_types L) t) in
            let* e := lift_res (res_of_option et) in
            match cast_Compound e with
            | Some _ => expand_compound_element i envs
            | None => ret envs
            end
          else ret envs in
        expand_compounds fuel' (i + 1) envs
      else ret tt
  end.

(** The loop that adds the elements to the router: [router_id] and the
    router. *)
Definition add_router_element (i : Z) (st : list Z * Router) : M (list Z * Router) :=
  let '(router_id, router) := st in
  let* t := get_res (fun L => vec_get (_elements L) i) in
  if negb (t =? TUNNEL_TYPE) then
    let* et := get_res (fun L => vec_get (_element_types L) t) in
    let* tc := lift_res (res_of_option et) in
    let* name := get_res (fun L => vec_get (_element_names L) i) in
    let* conf := get_res (fun L => vec_get (_element_configurations L) i) in
    let* lm := get_res (fun L => vec_get (_element_landmarks L) i) in
    let '(ei, router) := add_element (clone tc) name conf lm router in
    ret (router_id ++ [ei], router)
  else ret (router_id ++ [-1], router).

(** The loop that adds the connections to the router. *)
Definition add_router_hookup (fuel : nat) (router_id : list Z) (i : Z) (router : Router)
  : M Router :=
  let* hf := get_res (fun L => vec_get (_hookup_from L) i) in
  let* ht := get_res (fun L => vec_get (_hookup_to L) i) in
  let* fromi := lift_res (vec_get router_id (idx hf)) in
  let* toi := lift_res (vec_get router_id (idx ht)) in
  if (0 <=? fromi) && (0 <=? toi)
  then ret (add_connection fromi (port hf) toi (port ht) router)
  else add_router_connections fuel i router_id router.

Definition create_router (fuel : nat) : M Router :=
  let router := new_Router in
  (* expand compounds *)
  let* n := get (fun L => length (_elements L)) in
  let* _ := expand_compounds fuel 0 (mkEnvironments (replicate n 0) [ve_empty]) in
  (* add elements to router *)
  let* n := get (fun L => length (_elements L)) in
  let* (router_id, router) := for_range_M n 0 add_router_element ([], router) in
  (* add connections to router *)
  let* nh := get (fun L => length (_hookup_from L)) in
  let* router := for_range_M nh 0 (add_router_hookup fuel router_id) router in
  (* add requirements to router *)
  let* reqs := get _requirements in
  ret (for_each reqs add_requirement router).

End WithHeaders.

(** ** The balancing parenthesis, as the specification describes it

    The specification of [lex_config] speaks of the parenthesis that
    balances the opening one, where parentheses inside quoted strings and
    inside comments do not count.  [balancing_from] reads the text one
    character at a time and keeps track of where it is: in the
    configuration proper, in a single-quoted or a double-quoted string (in
    which a backslash protects a following double quote or dollar sign), in
    a comment that runs to the end of its line, or in a comment between
    slash-star and star-slash.  [depth] counts the parentheses opened since
    the start and not yet closed; [pos] is the position of the first
    character of [text]. *)

Inductive ConfigMode :=
| InCode
| InSingleQuotes
| InDoubleQuotes
| InLineComment
| InBlockComment.

Fixpoint balancing_from (text : list ascii) (mode : ConfigMode) (depth : nat) (pos : Z)
  : option Z :=
  match text with
  | [] => None
  | c :: rest =>
      match mode with
      | InCode =>
          if ch_eq c ch_lparen then balancing_from rest InCode (S depth) (pos + 1)
          else if ch_eq c ch_rparen then
            match depth with
            | O => Some pos
            | S depth' => balancing_from rest InCode depth' (pos + 1)
            end
          else if ch_eq c ch_squote then balancing_from rest InSingleQuotes depth (pos + 1)
          else if ch_eq c ch_dquote then balancing_from rest InDoubleQuotes depth (pos + 1)
          else if ch_eq c ch_slash then
            match rest with
            | c' :: rest' =>
                if ch_eq c' ch_slash then balancing_from rest' InLineComment depth (pos + 2)
                else if ch_eq c' ch_star then balancing_from rest' InBlockComment depth (pos + 2)
                else balancing_from rest InCode depth (pos + 1)
            | [] => None
            end
          else balancing_from rest InCode depth (pos + 1)
      | InSingleQuotes =>
          if ch_eq c ch_squote then balancing_from rest InCode depth (pos + 1)
          else balancing_from rest InSingleQuotes depth (pos + 1)
      | InDoubleQuotes =>
          if ch_eq c ch_dquote then balancing_from rest InCode depth (pos + 1)
          else if ch_eq c ch_backslash then
            match rest with
            | c' :: rest' =>
                if ch_eq c' ch_dquote || ch_eq c' ch_dollar
                then balancing_from rest' InDoubleQuotes depth (pos + 2)
                else balancing_from rest InDoubleQuotes depth (pos + 1)
            | [] => None
            end
          else balancing_from rest InDoubleQuotes depth (pos + 1)
      | InLineComment =>
          if ch_eq c ch_newline then balancing_from rest InCode depth (pos + 1)
          else if ch_eq c ch_return then
            match rest with
            | c' :: rest' =>
                if ch_eq c' ch_newline then balancing_from rest' InCode depth (pos + 2)
                else balancing_from rest InCode depth (pos + 1)
            | [] => None
            end
          else balancing_from rest InLineComment depth (pos + 1)
      | InBlockComment =>
          if ch_eq c ch_star then
            match rest with
            | c' :: rest' =>
                if ch_eq c' ch_slash then balancing_from rest' InCode depth (pos + 2)
                else balancing_from rest InBlockComment depth (pos + 1)
            | [] => None
            end
          else balancing_from rest InBlockComment depth (pos + 1)
      end
  end.

(** The text from position [pos] on. *)
Definition text_from (s : string) (pos : Z) : list ascii :=
  drop (Z.to_nat pos) (list_ascii_of_string s).

(** The position of the parenthesis that balances one opened just before
    [pos]. *)
Definition balancing_paren (s : string) (pos : Z) : option Z :=
  balancing_from (text_from s pos) InCode 0 pos.

(** ** Line directives, as the specification describes them

    A directive is read off the characters of the text from its [#] on:
    blanks, the word [line] if it is there, a decimal_value number, blanks, a
    file name in double quotes if there is one, and the rest of the line. *)

(** The length of the longest prefix of characters that satisfy [P]. *)
Fixpoint leading (P : ascii -> bool) (cs : list ascii) : nat :=
  match cs with
  | c :: rest => if P c then S (leading P rest) else O
  | [] => O
  end.

(** The number that the leading decimal_value digits spell, continuing [acc]. *)
Fixpoint decimal_value (cs : list ascii) (acc : Z) : Z :=
  match cs with
  | c :: rest => if isdigit c then decimal_value rest (acc * 10 + chr c - 48) else acc
  | [] => acc
  end.

Definition is_line_end (c : ascii) : bool := ch_eq c ch_newline || ch_eq c ch_return.

Definition in_line (c : ascii) : bool := negb (is_line_end c).

(** The length of a file name, read from behind its opening quote: the name
    ends before the closing quote or the end of the line, and a backslash
    takes the character behind it into the name unless that ends the line. *)
Fixpoint name_length (cs : list ascii) : nat :=
  match cs with
  | [] => O
  | c :: rest =>
      if ch_eq c ch_dquote || is_line_end c then O
      else if ch_eq c ch_backslash then
        match rest with
        | c' :: rest' => if is_line_end c' then 1%nat else S (S (name_length rest'))
        | [] => 1%nat
        end
      else S (name_length rest)
  end.

(** The word [line] and a blank. *)
Definition line_word (cs : list ascii) : bool :=
  match cs with
  | c0 :: c1 :: c2 :: c3 :: c4 :: _ =>
      ch_eq c0 "l" && ch_eq c1 "i" && ch_eq c2 "n" && ch_eq c3 "e" && is_blank c4
  | _ => false
  end.

(** Does the text start with a character that satisfies [P]? *)
Definition starts_with (P : ascii -> bool) (cs : list ascii) : bool :=
  match cs with
  | c :: _ => P c
  | [] => false
  end.

(** A carriage return and a newline. *)
Definition return_newline (cs : list ascii) : bool :=
  match cs with
  | c0 :: c1 :: _ => ch_eq c0 ch_return && ch_eq c1 ch_newline
  | _ => false
  end.

(** Where the number of a directive has to start, counted from the [#]. *)
Definition number_offset (cs : list ascii) : nat :=
  let b := S (leading is_blank (drop 1 cs)) in
  if line_word (drop b cs) then (b + 5 + leading is_blank (drop (b + 5) cs))%nat else b.

(** What a directive says: the number it gives, the file name it gives, from
    the opening quote to before the closing one, and how many characters
    there are from the [#] to the end of its line. *)
Record Directive := mkDirective {
  dir_number : Z;
  dir_quoted : option string;
  dir_length : nat
}.

(** The directive that starts with the [#] at the head of [cs]; [None] if no
    number stands where it has to. *)
Definition directive_of (cs : list ascii) : option Directive :=
  let d := number_offset cs in
  if starts_with isdigit (drop d cs) then
    let e := (d + leading isdigit (drop d cs))%nat in
    let g := (e + leading is_blank (drop e cs))%nat in
    let n := name_length (drop (S g) cs) in
    let quoted := starts_with (fun c => ch_eq c ch_dquote) (drop g cs) in
    let h := if quoted then (g + 1 + n)%nat else g in
    let k := (h + leading in_line (drop h cs))%nat in
    Some (mkDirective
            (decimal_value (drop d cs) 0)
            (if quoted then Some (string_of_list_ascii (take (S n) (drop g cs))) else None)
            (if return_newline (drop k cs) then S k else k))
  else None.

Section Directive_defs.
Context `{COL : Collaborators}.




End Directive_defs.

(** ** Properties of states

    The predicates in which the properties of the second part are stated. *)

(** *** Overload chains *)

(** The overload chain that starts at [ct], newest record first: the
    compound records reached along [_next], and the record the chain ends
    in when that is not a compound ([None]: the chain ends in a null
    pointer). *)
Inductive overload_chain : Compound -> list Compound -> option Element -> Prop :=
| chain_end (ct : Compound) :
    Compound._next ct = None -> overload_chain ct [ct] None
| chain_fallback (ct : Compound) (e : Element) :
    Compound._next ct = Some e -> cast_Compound e = None ->
    overload_chain ct [ct] (Some e)
| chain_older (ct next : Compound) (e : Element) (l : list Compound) (fb : option Element) :
    Compound._next ct = Some e -> cast_Compound e = Some next ->
    overload_chain next l fb ->
    overload_chain ct (ct :: l) fb.

(** The call site's [(used inputs, used outputs, number of arguments)]
    equals the record's [(ninputs, noutputs, nformals)]. *)
Definition same_signature (c : Compound) (ninputs noutputs : Z) (args : list string) : Prop :=
  Compound._ninputs c = ninputs /\ Compound._noutputs c = noutputs /\ nformals c = vsize args.

(** *** Ports of a compound *)

(** What the scan has seen of a pseudoelement's ports: [n] is one past the
    highest port among [ports], and [0] when there is none. *)
Definition one_past_highest (ports : list Z) (n : Z) : Prop :=
  (forall p, p ∈ ports -> p < n) /\ (n = 0 \/ exists p, p ∈ ports /\ n = p + 1).

(** The source ports used on [input], and the sink ports used on [output]. *)
Definition input_ports (from : list Hookup) : list Z :=
  port <$> filter (fun h => idx h = 0) from.

Definition output_ports (to : list Hookup) : list Z :=
  port <$> filter (fun h => idx h = 1) to.

Definition input_as_sink_error (c : Compound) : Diag :=
  mkDiag Error (Compound._landmark c)
    "`%s' pseudoelement `input' may only be used as output" [AStr (Compound._name c)] None.

Definition output_as_source_error (c : Compound) : Diag :=
  mkDiag Error (Compound._landmark c)
    "`%s' pseudoelement `output' may only be used as input" [AStr (Compound._name c)] None.

(** *** Texts *)

(** The text under [L'] is the text under [L]. *)
Definition same_text (L L' : Lexer) : Prop := _big_string L' = _big_string L.

(** *** Quotes *)

(** How [lex_config] keeps the mode of [balancing_from]: by its local
    [quote]; the two comment modes do not outlive one turn of its loop. *)
Inductive quote_of : ConfigMode -> Z -> Prop :=
| quote_code : quote_of InCode 0
| quote_single : quote_of InSingleQuotes (chr ch_squote)
| quote_double : quote_of InDoubleQuotes (chr ch_dquote).

(** *** The registry *)

(** [l] lists the identifiers on the chain that starts at [t] and follows
    [next] until it reaches [-1]. *)
Fixpoint is_chain (next : list Z) (t : Z) (l : list Z) : Prop :=
  match l with
  | [] => t = (-1)
  | x :: l' => t = x /\ 0 <= x /\ exists n, next !! Z.to_nat x = Some n /\ is_chain next n l'
  end.

(** The live records, newest first, and the free list. *)
Definition live_chain (L : Lexer) (l : list Z) : Prop :=
  is_chain (_element_type_next L) (_last_element_type L) l.

Definition free_chain (L : Lexer) (l : list Z) : Prop :=
  is_chain (_element_type_next L) (_free_element_type L) l.

Record wf_registry (L : Lexer) (live free : list Z) : Prop := {
  wf_live : live_chain L live;
  wf_free : free_chain L free;
  wf_nodup : NoDup (live ++ free);
  wf_names : length (_element_type_names L) = length (_element_type_next L);
  wf_types : length (_element_types L) = length (_element_type_next L)
}.

(** The newest record on [chain] whose name is [name], or [-1]. *)
Fixpoint first_named (names : list string) (chain : list Z) (name : string) : Z :=
  match chain with
  | [] => -1
  | id :: rest =>
      if bool_decide (names !! Z.to_nat id = Some name) then id
      else first_named names rest name
  end.

(** The name map points every name at the newest live record of that
    name. *)
Definition map_accurate (L : Lexer) (live : list Z) : Prop :=
  forall name, hm_get (_element_type_map L) name = first_named (_element_type_names L) live name.

(** The name a record is registered under. *)
Definition registered_name (name : string) (e : Element) : string :=
  if bool_decide (name = ""%string) then class_name e else name.

(** The records registered after a checkpoint, oldest first. *)
Fixpoint add_element_types (adds : list (string * Element)) : M unit :=
  match adds with
  | [] => ret tt
  | (name, e) :: rest =>
      let* _ := add_element_type name e in
      add_element_types rest
  end.

(** [L'] is [L] once the records [ids] have been removed one after the
    other, each of them the newest live record when its turn came; [live0]
    are the records that stay.  Each removal frees the slot of the record
    and, where the name map pointed at the record, points the name at the
    next older live record of the same name, or at no record. *)
Inductive scoped_out (live0 : list Z) : list Z -> Lexer -> Lexer -> Prop :=
| scoped_out_done (L : Lexer) :
    live_chain L live0 -> scoped_out live0 [] L L
| scoped_out_remove (r : Z) (ids : list Z) (L L1 L' : Lexer) (fuel : nat) (name : string) :
    live_chain L (r :: ids ++ live0) ->
    remove_element_type fuel r L = Ret (tt, L1) ->
    _element_type_names L !! Z.to_nat r = Some name ->
    (hm_get (_element_type_map L) name = r ->
     hm_get (_element_type_map L1) name
     = first_named (_element_type_names L) (ids ++ live0) name) ->
    _element_types L1 !! Z.to_nat r = Some None ->
    scoped_out live0 ids L1 L' ->
    scoped_out live0 (r :: ids) L L'.

(** *** Router indices *)

(** The router index of an endpoint is the index of an element that is no
    tunnel. *)
Definition maps_element (elements router_id : list Z) (h : Hookup) : Prop :=
  0 <= idx h
  /\ exists (i : nat) (t : Z),
       elements !! i = Some t /\ t <> TUNNEL_TYPE /\ router_id !! i = Some (idx h).

(** Tunnels receive [-1], and every element has an entry. *)
Definition router_ids_of (elements router_id : list Z) : Prop :=
  length router_id = length elements
  /\ forall i : nat, elements !! i = Some TUNNEL_TYPE -> router_id !! i = Some (-1).

Definition connects_elements (elements router_id : list Z) (router : Router) : Prop :=
  forall f t, (f, t) ∈ r_connections router ->
    maps_element elements router_id f /\ maps_element elements router_id t.

(** *** Tunnel ends *)

(** The hookups of the scope. *)
Definition hookups (L : Lexer) : list Hookup := _hookup_from L ++ _hookup_to L.

(** The port of the end at address [a]. *)
Definition port_at (heap : list TunnelEnd) (a : nat) : option Hookup :=
  TunnelEnd._port <$> heap !! a.

(** The ports of the ends on a chain. *)
Definition chain_ports (out : bool) (L : Lexer) : list (option Hookup) :=
  port_at (tunnel_ends L) <$> chain_of out L.

(** An end on the chain [out]: it is allocated, it carries the flag of its
    chain, and it is paired with an end on the other chain. *)
Definition end_ok (L : Lexer) (out : bool) (a : nat) : Prop :=
  exists e b,
    tunnel_ends L !! a = Some e
    /\ TunnelEnd._output e = out
    /\ TunnelEnd._other e = Some b
    /\ b ∈ chain_of (negb out) L.

(** The states [expand] can meet: the two chains hold well-formed ends, the
    hookups name elements, and the vectors that describe the elements have
    one length and hold no empty name. *)
Record wf_tunnels (L : Lexer) : Prop := {
  wf_chain : forall out, Forall (end_ok L out) (chain_of out L);
  wf_hookup_len : length (_hookup_from L) = length (_hookup_to L);
  wf_hookup_idx : Forall (fun h => 0 <= idx h < vsize (_elements L)) (hookups L);
  wf_names_len : length (_element_names L) = length (_elements L);
  wf_landmarks_len : length (_element_landmarks L) = length (_elements L);
  wf_names_nonempty : Forall (fun n => n <> ""%string) (_element_names L)
}.

(** The hookups that have no end yet on the chain [out]. *)
Definition missing_on (out : bool) (L : Lexer) : nat :=
  length (filter (fun h => Some h ∉ chain_ports out L) (hookups L)).

(** The ends that [expand] has not entered yet. *)
Definition fresh_ends (L : Lexer) : nat :=
  length (filter (fun e => TunnelEnd._expanded e = 0) (tunnel_ends L)).

(** How deep the calls of [expand] can nest. *)
Definition expand_budget (L : Lexer) : nat :=
  3 * (missing_on true L + missing_on false L) + fresh_ends L.

(** What identifies an end. *)
Definition same_identity (e e' : TunnelEnd) : Prop :=
  TunnelEnd._port e' = TunnelEnd._port e
  /\ TunnelEnd._output e' = TunnelEnd._output e
  /\ TunnelEnd._other e' = TunnelEnd._other e.

(** What a call of [expand] may do to an end that exists already: nothing,
    or take it from state [0] to state [2]. *)
Definition end_advances (e e' : TunnelEnd) : Prop :=
  e' = e
  \/ (TunnelEnd._expanded e = 0 /\ TunnelEnd._expanded e' = 2 /\ same_identity e e').

(** What happens to the end whose connections are being expanded: it stays
    in its state while its list grows. *)
Definition end_held (e e' : TunnelEnd) : Prop :=
  TunnelEnd._expanded e' = TunnelEnd._expanded e /\ same_identity e e'.

(** What does not change while connections are expanded. *)
Definition same_scope (L L' : Lexer) : Prop :=
  _elements L' = _elements L
  /\ _element_names L' = _element_names L
  /\ _element_landmarks L' = _element_landmarks L
  /\ _element_types L' = _element_types L
  /\ _hookup_from L' = _hookup_from L
  /\ _hookup_to L' = _hookup_to L.

(** [L'] is [L] after some expansion, seen from the call that works on the
    end [owner], or from outside every call. *)
Record expands_to (owner : option nat) (L L' : Lexer) : Prop := {
  ex_scope : same_scope L L';
  ex_ends : forall a e, tunnel_ends L !! a = Some e ->
              exists e', tunnel_ends L' !! a = Some e'
                /\ if bool_decide (owner = Some a) then end_held e e' else end_advances e e';
  ex_chain : forall out a, a ∈ chain_of out L -> a ∈ chain_of out L'
}.

(** A run from [L] to [L'] that stays within the budget. *)
Definition runs_to (owner : option nat) (L L' : Lexer) : Prop :=
  wf_tunnels L' /\ expands_to owner L L' /\ (expand_budget L' <= expand_budget L)%nat.

(** The state differs from [L] in nothing [expand] reads. *)
Definition same_tunnels (L L' : Lexer) : Prop :=
  same_scope L L'
  /\ tunnel_ends L' = tunnel_ends L
  /\ _definputs L' = _definputs L
  /\ _defoutputs L' = _defoutputs L.

(** Writing an end. *)
Definition with_end (a : nat) (e : TunnelEnd) (L : Lexer) : Lexer :=
  set_tunnel_ends (<[a := e]> (tunnel_ends L)) L.

(** A call of [expand] with fuel [S f] on an end [e] in state [0].  The end
    is put in state [1]; the connections [cs] of the port of its partner
    [other] are looked up, on the other side; if there are none the
    diagnostic for an unused tunnel is given, which changes nothing that
    [expand] reads; each connection is expanded in turn, with the end still
    in state [1] when the loop stops; then the end is put in state [2], and
    the list the loop has made is what the call returns. *)
Definition expand_enters (f : nat) (a : nat) (e : TunnelEnd) (L : Lexer)
  (r : list Hookup) (L' : Lexer) : Prop :=
  let L0 := with_end a (set_expanded 1 e) L in
  exists o other cs L1 Lk ek,
    TunnelEnd._other e = Some o
    /\ tunnel_ends L0 !! o = Some other
    /\ find_connections (TunnelEnd._port other) (negb (TunnelEnd._output e)) L0 = Ret cs
    /\ (if bool_decide (cs = []) then report_unused_tunnel e other else ret tt) L0
       = Ret (tt, L1)
    /\ same_tunnels L0 L1
    /\ expand_each (expand_connection_with (TunnelEnd_expand f)) a (TunnelEnd._output e) cs L1
       = Ret (tt, Lk)
    /\ tunnel_ends Lk !! a = Some ek
    /\ TunnelEnd._expanded ek = 1
    /\ L' = with_end a (set_expanded 2 ek) Lk
    /\ r = TunnelEnd._correspond ek.

(** What the result of [expand] is, by the state the end is in. *)
Definition expand_result (f : nat) (a : nat) (L : Lexer) (r : list Hookup) (L' : Lexer)
  : Prop :=
  exists e, tunnel_ends L !! a = Some e
    /\ (TunnelEnd._expanded e = 1 -> r = [] /\ L' = L)
    /\ (TunnelEnd._expanded e <> 1 -> TunnelEnd._expanded e <> 0 ->
          r = TunnelEnd._correspond e /\ L' = L)
    /\ (TunnelEnd._expanded e = 0 -> expand_enters (pred f) a e L r L').

(** With fuel [f], [expand] returns from every state whose budget is below
    [f]. *)
Definition expand_returns (f : nat) : Prop :=
  forall L a, wf_tunnels L -> (exists out, a ∈ chain_of out L) ->
    (expand_budget L < f)%nat ->
    exists r L', TunnelEnd_expand f a L = Ret (r, L')
      /\ runs_to None L L' /\ expand_result f a L r L'.

(** *** The pushback circle *)

Section Pushback_defs.
Context `{HDR : LexerHeader}.

(** The pushback circle has its size, and its two indices are in it. *)
Definition circle_ok (L : Lexer) : Prop :=
  vsize (_tcircle L) = TCIRCLE_SIZE
  /\ 0 <= _tpos L < TCIRCLE_SIZE
  /\ 0 <= _tfull L < TCIRCLE_SIZE.

(** How many lexemes wait in the circle. *)
Definition pending_count (L : Lexer) : Z := (_tfull L - _tpos L) mod TCIRCLE_SIZE.

(** The lexemes that wait in the circle, the next one to be read first. *)
Definition pending (L : Lexer) : list Lexeme :=
  (fun i : nat =>
     default Lexeme_EOF (_tcircle L !! Z.to_nat ((_tpos L + Z.of_nat i) mod TCIRCLE_SIZE)))
  <$> seq 0 (Z.to_nat (pending_count L)).

End Pushback_defs.

(** What neither [unlex] nor a [lex] that finds a lexeme waiting changes. *)
Definition same_reading (L L' : Lexer) : Prop :=
  _big_string L' = _big_string L /\ _pos L' = _pos L /\ _lineno L' = _lineno L
  /\ _filename L' = _filename L /\ _errh L' = _errh L.

(** [unlex] of each lexeme of a list, in order. *)
Fixpoint unlex_all `{HDR : LexerHeader} (ts : list Lexeme) : M unit :=
  match ts with
  | [] => ret tt
  | t :: rest => let* _ := unlex t in unlex_all rest
  end.

(** [n] calls of [lex]: the lexemes they return. *)
Fixpoint lex_times `{HDR : LexerHeader} `{COL : Collaborators} (n : nat) : M (list Lexeme) :=
  match n with
  | O => ret []
  | S n' => let* t := lex in let* ts := lex_times n' in ret (t :: ts)
  end.

(** *** What reading writes *)

(** [L'] is [L] but for the four fields the scanner writes: the position,
    the line number, the file name and the error list. *)
Definition reads_on (L L' : Lexer) : Prop :=
  exists (pos lineno : Z) (filename : string) (errh : ErrorHandler),
    L' = set_errh errh (set_filename filename (set_lineno lineno (set_pos pos L))).

(** *** Line ends *)







(** *** Registries that agree *)

(** The registry fields of two states are the same. *)
Definition same_registry (L L' : Lexer) : Prop :=
  _element_types L' = _element_types L
  /\ _element_type_names L' = _element_type_names L
  /\ _element_type_next L' = _element_type_next L
  /\ _element_type_map L' = _element_type_map L
  /\ _last_element_type L' = _last_element_type L
  /\ _free_element_type L' = _free_element_type L.

(** *** Consistent element tables *)

(** The element tables agree: the four vectors have one length, and the
    name map sends a name to the index at which the name vector holds it. *)
Record elements_consistent (L : Lexer) : Prop := {
  ec_names : length (_element_names L) = length (_elements L);
  ec_configurations : length (_element_configurations L) = length (_elements L);
  ec_landmarks : length (_element_landmarks L) = length (_elements L);
  ec_mapped : forall name, 0 <= hm_get (_element_map L) name ->
                _element_names L !! Z.to_nat (hm_get (_element_map L) name) = Some name;
  ec_named : forall (i : nat) name, _element_names L !! i = Some name ->
               hm_get (_element_map L) name = Z.of_nat i
}.

(** The names [unused_name] tries. *)
Definition candidate (prefix : string) (j : Z) : string := (prefix ++ String_of_int j)%string.

(** *** Connections of a hookup *)

(** The other ends of the connections that have [h] at this end, in the
    order of the connections. *)
Definition partners (h : Hookup) (this that : list Hookup) : list Hookup :=
  snd <$> filter (fun c => c.1 = h) (zip this that).

(** [connect] stores a negative port as port [0]. *)
Definition stored_port (p : Z) : Z := if p <? 0 then 0 else p.

(** *** The outcome of [find] *)

(** What a call of [find] on the chain [out] leaves: the end it returns and
    the state, which is the state before unless a pair of ends was made. *)
Definition find_outcome (out : bool) (h : Hookup) (L : Lexer) (r : option nat) (L' : Lexer)
  : Prop :=
  match r with
  | None =>
      L' = L
      /\ forall a e, a ∈ chain_of out L -> tunnel_ends L !! a = Some e ->
           idx (TunnelEnd._port e) <> idx h
  | Some d =>
      d ∈ chain_of out L'
      /\ port_at (tunnel_ends L') d = Some h
      /\ (L' = L
          \/ (Some h ∉ chain_ports out L)
             /\ d = length (tunnel_ends L)
             /\ exists p po poe,
                  p ∈ chain_of out L
                  /\ po ∈ chain_of (negb out) L
                  /\ tunnel_ends L !! po = Some poe
                  /\ tunnel_ends L'
                     = tunnel_ends L
                       ++ [TunnelEnd.mk h [] 0 out (Some (S d));
                           TunnelEnd.mk (mkHookup (idx (TunnelEnd._port poe)) (port h)) [] 0
                             (negb out) (Some d)]
                  /\ chain_of out L' = insert_after p d (chain_of out L)
                  /\ chain_of (negb out) L' = insert_after po (S d) (chain_of (negb out) L)
                  /\ same_scope L L'
                  /\ L' = link_after po (S d) (link_after p d
                            (set_tunnel_ends (tunnel_ends L') L)))
  end.

(** *** Scopes that agree in their tables *)

(** The tables of the elements and the hookups are those of [L]. *)
Definition same_tables (L L' : Lexer) : Prop :=
  same_scope L L'
  /\ _element_configurations L' = _element_configurations L
  /\ _element_map L' = _element_map L.

(** The scope once a tunnel from the element [i1] to the element [i2] is
    declared: two ends, paired, at the heads of the two chains. *)
Definition tunnel_declared (i1 i2 : Z) (L : Lexer) : Lexer :=
  let a := length (tunnel_ends L) in
  set_tunnel_ends
    (tunnel_ends L ++ [TunnelEnd.mk (mkHookup i1 0) [] 0 false (Some (S a));
                       TunnelEnd.mk (mkHookup i2 0) [] 0 true (Some a)])
    (set_defoutputs (S a :: _defoutputs L) (set_definputs (a :: _definputs L) L)).

(** No end of the chain [out] belongs to the element [i]. *)
Definition no_end_of (out : bool) (i : Z) (L : Lexer) : Prop :=
  forall a e, a ∈ chain_of out L -> tunnel_ends L !! a = Some e ->
    idx (TunnelEnd._port e) <> i.

(** The ends belong to elements of the scope. *)
Definition ends_in_scope (L : Lexer) : Prop :=
  forall out a e, a ∈ chain_of out L -> tunnel_ends L !! a = Some e ->
    idx (TunnelEnd._port e) < vsize (_elements L).

(** The name can be that of the end [out] of a new tunnel: it is no element
    yet, or a tunnel that has no end on that chain. *)
Definition can_declare (out : bool) (name : string) (L : Lexer) : Prop :=
  hm_get (_element_map L) name < 0
  \/ (0 <= hm_get (_element_map L) name
      /\ _elements L !! Z.to_nat (hm_get (_element_map L) name) = Some TUNNEL_TYPE
      /\ no_end_of out (hm_get (_element_map L) name) L).

(** *** What the router is given *)

(** A scope of elements of primitive classes: no tunnels, no compounds. *)
Definition plain_scope (L : Lexer) : Prop :=
  length (_element_names L) = length (_elements L)
  /\ length (_element_configurations L) = length (_elements L)
  /\ length (_element_landmarks L) = length (_elements L)
  /\ length (_hookup_from L) = length (_hookup_to L)
  /\ Forall (fun h => 0 <= idx h < vsize (_elements L)) (hookups L)
  /\ Forall (fun t => t <> TUNNEL_TYPE /\ 0 <= t
                      /\ exists e, _element_types L !! Z.to_nat t = Some (Some e)
                                   /\ cast_Compound e = None)
       (_elements L).

(** What the router is given for the element [i]: a clone of its class, its
    name, its configuration and its landmark. *)
Definition router_element (L : Lexer) (i : nat)
  : option (option Element * string * string * string) :=
  t ← _elements L !! i;
  et ← _element_types L !! Z.to_nat t;
  tc ← et;
  name ← _element_names L !! i;
  conf ← _element_configurations L !! i;
  lm ← _element_landmarks L !! i;
  Some (clone tc, name, conf, lm).

Section Router_defs.
Context `{COL : Collaborators}.

(** The indices the router returns for the calls [els], received after
    [calls]. *)
Fixpoint router_indices (calls els : list (option Element * string * string * string))
  : list Z :=
  match els with
  | [] => []
  | (e, name, conf, lm) :: rest =>
      router_add_element_index calls e name conf lm
      :: router_indices (calls ++ [(e, name, conf, lm)]) rest
  end.

End Router_defs.

(** The connection the router is given for a pair of hookups, when it has
    accepted both elements. *)
Definition router_connection (ids : list Z) (c : Hookup * Hookup) : option (Hookup * Hookup) :=
  fromi ← ids !! Z.to_nat (idx c.1);
  toi ← ids !! Z.to_nat (idx c.2);
  if (0 <=? fromi) && (0 <=? toi)
  then Some (mkHookup fromi (port c.1), mkHookup toi (port c.2))
  else None.

(** *** Overloads that repeat a key *)

(** What tells two overloads apart: the numbers of inputs, outputs and
    formal arguments. *)
Definition overload_key (c : Compound) : Z * Z * Z :=
  (Compound._ninputs c, Compound._noutputs c, nformals c).

(** The diagnostics for the overloads [l], newest first: each overload that
    repeats the key of an older one is reported, with the newest such older
    overload. *)
Fixpoint duplicate_reports (l : list Compound) : list Diag :=
  match l with
  | [] => []
  | c :: older =>
      match List.find (fun nc => bool_decide (overload_key nc = overload_key c)) older with
      | Some nc =>
          [mkDiag Error (Compound._landmark c) "redeclaration of `%s'" [AStr (signature c)] None;
           mkDiag Error (Compound._landmark nc) "`%s' previously declared here"
             [AStr (signature c)] None]
      | None => []
      end ++ duplicate_reports older
  end.

(** *** Unused ports of a compound *)

(** One past the highest of [ports], and [0] when there is none. *)
Definition ports_count (ports : list Z) : Z := foldr Z.max 0 ((fun p => p + 1) <$> ports).

(** The numbers below [ports_count ports] that are not among [ports], in
    order. *)
Definition unused_ports (ports : list Z) : list Z :=
  Z.of_nat <$> filter (fun j : nat => Z.of_nat j ∉ ports) (seq 0 (Z.to_nat (ports_count ports))).

Definition unused_port_error (c : Compound) (fmt : string) (i : Z) : Diag :=
  mkDiag Error (Compound._landmark c) fmt [AStr (Compound._name c); AInt i] None.

(** What [finish] reports for a compound, in order. *)
Definition finish_reports (c : Compound) : list Diag :=
  (if existsb (fun h => idx h =? 0) (Compound._hookup_to c)
   then [input_as_sink_error c] else [])
  ++ (unused_port_error c "compound element `%s' input %d unused"
        <$> unused_ports (input_ports (Compound._hookup_from c)))
  ++ (if existsb (fun h => idx h =? 1) (Compound._hookup_from c)
      then [output_as_source_error c] else [])
  ++ (unused_port_error c "compound element `%s' output %d unused"
        <$> unused_ports (output_ports (Compound._hookup_to c))).

(** The vector [finish] keeps for the ports seen so far. *)
Definition port_bitmap (ports : list Z) : list Z :=
  (fun j : nat => if bool_decide (Z.of_nat j ∈ ports) then 1 else 0)
  <$> seq 0 (Z.to_nat (ports_count ports)).

(** ** Instances for the examples

    Values for the declarations of [lexer.hh] that satisfy what is asked of
    them, and simple stand-ins for the collaborators: an argument splitter
    that cuts at every comma, a variable environment that replaces a
    configuration that is exactly a formal by its actual. *)

#[export] Program Instance example_header : LexerHeader := {|
  lexEOF := 0;
  lexIdent := 256;
  lexVariable := 257;
  lexArrow := 258;
  lex2Colon := 259;
  lex2Bar := 260;
  lex3Dot := 261;
  lexTunnel := 262;
  lexElementclass := 263;
  lexRequire := 264;
  TCIRCLE_SIZE := 8
|}.
Next Obligation.
  repeat (apply NoDup_cons; split; [rewrite ?elem_of_cons, elem_of_nil; lia |]).
  apply NoDup_nil_2.
Qed.
Next Obligation. repeat constructor; lia. Qed.
Next Obligation. repeat constructor; lia. Qed.
Next Obligation. lia. Qed.

Fixpoint split_commas (s : string) (cur : string) : list string :=
  match s with
  | EmptyString => [cur]
  | String c s' =>
      if ch_eq c ","%char then cur :: split_commas s' ""
      else split_commas s' (cur ++ String c "")
  end.

Fixpoint decimal (s : string) (acc : Z) : option Z :=
  match s with
  | EmptyString => Some acc
  | String c s' => if isdigit c then decimal s' (acc * 10 + chr c - 48) else None
  end.

Fixpoint lookup_formal (formals actuals : list string) (x : string) : option string :=
  match formals, actuals with
  | f :: formals', a :: actuals' =>
      if bool_decide (f = x) then Some a else lookup_formal formals' actuals' x
  | _, _ => None
  end.

#[export] Instance example_collaborators : Collaborators := {|
  cp_unquote := fun s => s;
  cp_integer := fun s => if bool_decide (s = ""%string) then None else decimal s 0;
  cp_argvec := fun s => if bool_decide (s = ""%string) then [] else split_commas s "";
  cp_word := fun s => if bool_decide (s = ""%string) then None else Some s;
  VariableEnvironment := list (Z * list string * list string);
  ve_empty := [];
  ve_enter_env := fun ve other => other ++ ve;
  ve_limit_depth := fun d ve => filter (fun fr => fr.1.1 < d) ve;
  ve_enter := fun formals actuals depth ve => (depth, formals, actuals) :: ve;
  ve_depth := fun ve => match ve with [] => -1 | fr :: _ => fr.1.1 end;
  ve_interpolate := fun ve s =>
    default s (list_find (fun o => is_Some o)
                 (map (fun fr => lookup_formal fr.1.2 fr.2 s) ve) ≫= fun p => p.2);
  router_add_element_index := fun calls _ _ _ _ => vsize calls;
  indeterminate_port1 := -1
|}.

(** * Example inputs *)

(** An empty state, for the results that are no state. *)
Definition no_Lexer : Lexer :=
  mkLexer "" 0 "" "" 0 None [] 0 0 [] [] [] ∅ (-1) (-1) [] [] [] [] ∅ [] [] [] [] [] 0 0 [] [] 0.

Definition state_of {A : Type} (r : Res (A * Lexer)) : Lexer :=
  match r with
  | Ret (_, L) => L
  | _ => no_Lexer
  end.

(** A lexer that knows the class [Id], about to read [text]. *)
Definition example_lexer (text : string) : Lexer :=
  state_of
    (let? L := new_Lexer 4 [] in
     let? r := add_element_type "" (Primitive (ForeignObj 0) "Id") L in
     begin_parse text "conf" None r.2).

(** The value a run returns. *)
Definition value_of {A : Type} (d : A) (r : Res (A * Lexer)) : A :=
  match r with
  | Ret (a, _) => a
  | _ => d
  end.

(** The state after [n] statements. *)
Definition run_statements (fuel : nat) (n : nat) (L : Lexer) : Lexer :=
  Nat.iter n (fun L => state_of (ystatement fuel false L)) L.

(** A tunnel whose output is connected to its own input. *)
Definition tunnel_cycle : Lexer :=
  run_statements 20 4 (example_lexer "connectiontunnel a -> b; b -> a;").

(** Two records of one name: the older has one output, the newer two. *)
Definition c_old : Compound :=
  Compound.mk (LexerObj 2) "C" "conf:1" 0 (Some (ErrorElement (LexerObj 1))) [] 1 1 [] [] [] [] [] [].
Definition c_new : Compound :=
  Compound.mk (LexerObj 3) "C" "conf:2" 0 (Some (ECompound c_old)) [] 1 2 [] [] [] [] [] [].

(** A body that uses [input] as a sink. *)
Definition c_body : Compound :=
  Compound.mk (LexerObj 2) "C" "conf:1" 1 None [] 0 0
    [0; 0; 2] ["input"; "output"; "x"]%string [""; ""; ""]%string
    ["conf:1"; "conf:1"; "conf:1"]%string
    [mkHookup 0 1; mkHookup 2 0; mkHookup 2 0]
    [mkHookup 2 0; mkHookup 1 0; mkHookup 0 0].

(** Two elements connected through a tunnel. *)
Definition tunnel_program : Lexer :=
  run_statements 20 10
    (example_lexer "connectiontunnel a -> b; x :: Id; y :: Id; x -> a; b -> y;").

Definition tunnel_router : Router :=
  value_of new_Router (create_router 20 tunnel_program).

(** A directive with a file name on the line after a comment. *)
Definition directive_after_comment : Lexer :=
  example_lexer
    ("/* c */"
     ++ String ch_newline
          ("# line 7 " ++ String ch_dquote ("f" ++ String ch_dquote (String ch_newline "x")))).

(** An element [a] of class [Id]. *)
Definition one_element : Lexer := run_statements 20 2 (example_lexer "a :: Id;").

(** Two records registered after a checkpoint; the second shadows [Id]. *)
Definition scope_adds : list (string * Element) :=
  [("A"%string, Primitive (ForeignObj 1) "A"); ("Id"%string, Primitive (ForeignObj 2) "Id2")].

(** A text of two lines. *)
Definition two_lines : Lexer := example_lexer (String ch_newline "x -> y").

(** A circle that holds as many lexemes as it can. *)
Definition full_circle : Lexer :=
  state_of (unlex_all (replicate 7 (Lexeme.mk lexIdent "x")) (example_lexer "")).

(** Two elements of class [Id] and a connection. *)
Definition plain_program : Lexer :=
  run_statements 20 6 (example_lexer "x :: Id; y :: Id; x -> y;").

(** Two lexemes to push back. *)
Definition two_lexemes : list Lexeme := [Lexeme.mk lexIdent "x"; Lexeme.mk lexArrow "->"].

(** An identifier and an arrow wait in the circle. *)
Definition two_waiting : Lexer := state_of (unlex_all two_lexemes (example_lexer "y")).

(** * Verification *)

(** ** Overload resolution *)

Lemma signature_matches_spec c ninputs noutputs args :
  signature_matches c ninputs noutputs args = true <-> same_signature c ninputs noutputs args.
Proof.
  unfold signature_matches, same_signature.
  rewrite !andb_true_iff, !Z.eqb_eq. tauto.
Qed.

Lemma find_relevant_class_step ct ninputs noutputs args :
  find_relevant_class ct ninputs noutputs args =
  if signature_matches ct ninputs noutputs args then Some (ECompound ct)
  else match Compound._next ct with
       | None => None
       | Some e =>
           match cast_Compound e with
           | Some next => find_relevant_class next ninputs noutputs args
           | None => Some e
           end
       end.
Proof.
  funelim (find_relevant_class ct ninputs noutputs args);
    repeat match goal with
      | H : signature_matches _ _ _ _ = _ |- _ => progress rewrite H
      | H : Compound._next _ = _ |- _ => progress rewrite H
      | H : cast_Compound _ = _ |- _ => progress rewrite H
      end; reflexivity.
Qed.

(** C1: [find_relevant_class] walks the overload chain newest first and
    returns the first record whose [(ninputs, noutputs, nformals)] equals
    the call site's [(used inputs, used outputs, number of arguments)]: the
    record [c] of the chain that matches while none of the [newer] records
    before it does.  When no record of the chain matches, it returns what
    the chain ends in: the record that is no compound, as the fallback, or
    no match when the chain ends in a null pointer. *)
Theorem find_relevant_class_newest_match (ct : Compound) (l : list Compound)
  (fb : option Element) (ninputs noutputs : Z) (args : list string) :
  overload_chain ct l fb ->
  (forall newer c older,
     l = newer ++ c :: older ->
     Forall (fun c' => ~ same_signature c' ninputs noutputs args) newer ->
     same_signature c ninputs noutputs args ->
     find_relevant_class ct ninputs noutputs args = Some (ECompound c))
  /\ (Forall (fun c' => ~ same_signature c' ninputs noutputs args) l ->
      find_relevant_class ct ninputs noutputs args = fb).
Proof.
  induction 1 as [ct Hn | ct e Hn Hc | ct next e l fb Hn Hc Hch [IHa IHb]];
    rewrite find_relevant_class_step.
  - split.
    + intros [|c0 newer] c older Heq Hno Hsig; simplify_eq/=.
      * apply signature_matches_spec in Hsig. rewrite Hsig. reflexivity.
      * destruct newer; discriminate.
    + intros Hall. inversion_clear Hall as [|? ? Hct _].
      destruct (signature_matches ct ninputs noutputs args) eqn:E.
      * apply signature_matches_spec in E. contradiction.
      * rewrite Hn. reflexivity.
  - split.
    + intros [|c0 newer] c older Heq Hno Hsig; simplify_eq/=.
      * apply signature_matches_spec in Hsig. rewrite Hsig. reflexivity.
      * destruct newer; discriminate.
    + intros Hall. inversion_clear Hall as [|? ? Hct _].
      destruct (signature_matches ct ninputs noutputs args) eqn:E.
      * apply signature_matches_spec in E. contradiction.
      * rewrite Hn, Hc. reflexivity.
  - split.
    + intros [|c0 newer] c older Heq Hno Hsig; simplify_eq/=.
      * apply signature_matches_spec in Hsig. rewrite Hsig. reflexivity.
      * inversion_clear Hno as [|? ? Hct Hrest].
        destruct (signature_matches c0 ninputs noutputs args) eqn:E.
        { apply signature_matches_spec in E. contradiction. }
        rewrite Hn, Hc. eapply IHa; eauto.
    + intros Hall. inversion_clear Hall as [|? ? Hct Hrest].
      destruct (signature_matches ct ninputs noutputs args) eqn:E.
      * apply signature_matches_spec in E. contradiction.
      * rewrite Hn, Hc. auto.
Qed.

(** Every compound record has an overload chain. *)
Lemma overload_chain_exists (ct : Compound) : exists l fb, overload_chain ct l fb.
Proof.
  remember (height (ECompound ct)) as n eqn:Hn.
  revert ct Hn. induction (lt_wf n) as [n _ IH]. intros ct ->.
  destruct (Compound._next ct) as [e|] eqn:En.
  - destruct (cast_Compound e) as [next|] eqn:Ec.
    + destruct (IH (height (ECompound next))) with (ct := next) as (l & fb & Hl); [|reflexivity|].
      * apply cast_Compound_height in Ec. simpl in *. rewrite En. lia.
      * exists (ct :: l), fb. eapply chain_older; eauto.
    + exists [ct], (Some e). by apply chain_fallback.
  - exists [ct], None. by apply chain_end.
Qed.

Lemma find_relevant_class_newest_match_witness :
  find_relevant_class c_new 1 1 [] = Some (ECompound c_old)
  /\ find_relevant_class c_new 0 0 [] = Some (ErrorElement (LexerObj 1)).
Proof.
  assert (Hch : overload_chain c_new [c_new; c_old] (Some (ErrorElement (LexerObj 1)))).
  { eapply chain_older; [reflexivity | reflexivity |]. apply chain_fallback; reflexivity. }
  split.
  - apply (proj1 (find_relevant_class_newest_match c_new _ _ 1 1 [] Hch) [c_new] c_old []).
    + reflexivity.
    + repeat constructor. unfold same_signature. simpl. intros (? & ? & ?). lia.
    + repeat split.
  - apply (proj2 (find_relevant_class_newest_match c_new _ _ 0 0 [] Hch)).
    repeat constructor; unfold same_signature; simpl; intros (? & ? & ?); lia.
Defined.

(** ** Finishing a compound *)

Lemma vec_get_lookup {A} (v : list A) (k : nat) (x : A) :
  v !! k = Some x -> vec_get v (Z.of_nat k) = Ret x.
Proof.
  intros H. unfold vec_get, vsize.
  pose proof (lookup_lt_Some _ _ _ H).
  rewrite Nat2Z.id, H.
  destruct (Z.leb_spec 0 (Z.of_nat k)); [|lia].
  destruct (Z.ltb_spec (Z.of_nat k) (Z.of_nat (length v))); [|lia].
  reflexivity.
Qed.

Lemma vec_get_Ret {A} (v : list A) (i : Z) (x : A) :
  vec_get v i = Ret x -> 0 <= i /\ v !! Z.to_nat i = Some x.
Proof.
  unfold vec_get. destruct (Z.leb_spec 0 i); simpl; [|discriminate].
  destruct (i <? vsize v); [|discriminate].
  destruct (v !! Z.to_nat i); simpl; [|discriminate].
  intros [= ->]. auto.
Qed.

(** A loop invariant for [for_range]. *)
Lemma for_range_invariant {S : Type} (P : nat -> S -> Prop) (n : nat)
  (body : Z -> S -> Res S) (s : S) :
  P O s ->
  (forall (k : nat) (s : S), (k < n)%nat -> P k s ->
     exists s', body (Z.of_nat k) s = Ret s' /\ P (Datatypes.S k) s') ->
  exists s', for_range n 0 body s = Ret s' /\ P n s'.
Proof.
  intros H0 Hstep.
  assert (G : forall m k s, (k + m = n)%nat -> P k s ->
              exists s', for_range m (Z.of_nat k) body s = Ret s' /\ P n s').
  { induction m as [|m IH]; intros k s0 Hk HP; simpl.
    - replace n with k by lia. eauto.
    - destruct (Hstep k s0) as (s1 & E1 & P1); [lia | done |].
      rewrite E1. simpl.
      replace (Z.of_nat k + 1) with (Z.of_nat (Datatypes.S k)) by lia.
      apply IH; [lia | done]. }
  apply (G n O s); [lia | done].
Qed.

Lemma mark_port_size (v : list Z) (p : Z) :
  0 <= p -> exists v', mark_port v p = Ret v' /\ vsize v' = Z.max (vsize v) (p + 1).
Proof.
  intros Hp. unfold mark_port, vec_set.
  set (w := if vsize v <=? p then vec_resize v (p + 1) 0 else v).
  assert (Hw : vsize w = Z.max (vsize v) (p + 1)).
  { subst w. destruct (Z.leb_spec (vsize v) p).
    - unfold vec_resize, vsize in *. rewrite length_app, length_take, length_replicate. lia.
    - lia. }
  destruct (Z.leb_spec 0 p); [|lia].
  destruct (Z.ltb_spec p (vsize w)); [|lia]. simpl.
  eexists. split; [reflexivity|].
  unfold vsize in *. rewrite length_insert. done.
Qed.

Lemma one_past_highest_nil : one_past_highest [] 0.
Proof. split; [intros p Hp; by apply elem_of_nil in Hp | by left]. Qed.

Lemma one_past_highest_snoc ports n p :
  one_past_highest ports n -> one_past_highest (ports ++ [p]) (Z.max n (p + 1)).
Proof.
  intros [Hall Hex]. split.
  - intros q [Hq | Hq%list_elem_of_singleton]%elem_of_app; [specialize (Hall q Hq) |]; lia.
  - destruct (Z.max_spec n (p + 1)) as [[? Hm] | [? Hm]]; rewrite Hm.
    + right. exists p. split; [set_solver | done].
    + destruct Hex as [Hn | (q & Hq & Hn)]; [by left |].
      right. exists q. split; [set_solver | done].
Qed.

Lemma report_unused_prefix lm fmt name v i errh :
  errh `prefix_of` report_unused lm fmt name v i errh.
Proof.
  revert i errh. induction v as [|x v IH]; intros i errh; simpl; [done|].
  etrans; [|apply IH]. destruct (x =? 0); [|done].
  unfold errh_lerror. by apply prefix_app_r.
Qed.

(** C2: [finish] sets [_ninputs] to one past the highest port of the
    pseudo-element [input] (index [0]) that is the source of a connection,
    and [_noutputs] to one past the highest port of [output] (index [1])
    that is the sink of one, zero when there is none.  A connection with
    [input] as its sink, or with [output] as its source, is reported as an
    error.  Nothing reported before is lost. *)
Theorem finish_counts_ports (c : Compound) (errh : ErrorHandler) :
  Compound._element_names c !! 0%nat = Some "input"%string ->
  Compound._element_names c !! 1%nat = Some "output"%string ->
  length (Compound._hookup_from c) = length (Compound._hookup_to c) ->
  Forall (fun p => 0 <= p) (input_ports (Compound._hookup_from c)) ->
  Forall (fun p => 0 <= p) (output_ports (Compound._hookup_to c)) ->
  exists c' errh',
    finish c errh = Ret (c', errh')
    /\ one_past_highest (input_ports (Compound._hookup_from c)) (Compound._ninputs c')
    /\ one_past_highest (output_ports (Compound._hookup_to c)) (Compound._noutputs c')
    /\ ((exists h, h ∈ Compound._hookup_to c /\ idx h = 0) -> input_as_sink_error c ∈ errh')
    /\ ((exists h, h ∈ Compound._hookup_from c /\ idx h = 1) -> output_as_source_error c ∈ errh')
    /\ errh `prefix_of` errh'.
Proof.
  intros Hn0 Hn1 Hlen Hin Hout.
  unfold finish.
  rewrite (vec_get_lookup _ 0 _ Hn0 : vec_get _ 0 = _).
  rewrite (vec_get_lookup _ 1 _ Hn1 : vec_get _ 1 = _). simpl.
  set (from := Compound._hookup_from c) in *.
  set (to := Compound._hookup_to c) in *.
  pose (P := fun (k : nat) (u : PortUse) =>
    one_past_highest (input_ports (take k from)) (vsize (from_in u))
    /\ one_past_highest (output_ports (take k to)) (vsize (to_out u))
    /\ ((exists h, h ∈ take k to /\ idx h = 0) -> to_in u = true)
    /\ ((exists h, h ∈ take k from /\ idx h = 1) -> from_out u = true)).
  destruct (for_range_invariant P (length from) (finish_scan c) (mkPortUse [] [] false false))
    as (u & Eu & HP).
  { unfold P. simpl. rewrite !take_0.
    repeat split; try apply one_past_highest_nil; intros (h & Hh & _); by apply elem_of_nil in Hh. }
  { intros k u Hk HPk. unfold P in HPk |- *. clear P.
    destruct HPk as (Pin & Pout & Pti & Pfo).
    destruct (lookup_lt_is_Some_2 from k Hk) as [hf Hf].
    destruct (lookup_lt_is_Some_2 to k ltac:(lia)) as [ht Ht].
    unfold finish_scan. fold from to.
    rewrite (vec_get_lookup _ _ _ Hf), (vec_get_lookup _ _ _ Ht). simpl.
    rewrite (take_S_r _ _ _ Hf), (take_S_r _ _ _ Ht).
    unfold input_ports, output_ports in *.
    rewrite !filter_app, !fmap_app, !filter_cons, !filter_nil.
    (* the source end *)
    assert (E1 : exists u1,
      (if idx hf =? 0
       then let? v := mark_port (from_in u) (port hf) in
            Ret (mkPortUse v (to_out u) (to_in u) (from_out u))
       else if idx hf =? 1 then Ret (mkPortUse (from_in u) (to_out u) (to_in u) true)
       else Ret u) = Ret u1
      /\ one_past_highest
           ((port <$> filter (fun h => idx h = 0) (take k from))
              ++ (port <$> (if decide (idx hf = 0) then [hf] else [])))
           (vsize (from_in u1))
      /\ to_out u1 = to_out u /\ to_in u1 = to_in u
      /\ ((exists h, h ∈ take k from ++ [hf] /\ idx h = 1) -> from_out u1 = true)).
    { destruct (Z.eqb_spec (idx hf) 0) as [E0|N0].
      - destruct (mark_port_size (from_in u) (port hf)) as (v & Ev & Hv).
        { rewrite Forall_forall in Hin. apply Hin.
          apply list_elem_of_fmap. exists hf. split; [done|].
          apply list_elem_of_filter. split; [done|]. eapply list_elem_of_lookup_2; eauto. }
        rewrite Ev. simpl. eexists. split; [reflexivity|]. simpl.
        rewrite decide_True by done. simpl. rewrite Hv.
        repeat split; [by apply one_past_highest_snoc | by apply one_past_highest_snoc |].
        intros (h & [Hh | ->%list_elem_of_singleton]%elem_of_app & Hi); [eauto | lia].
      - rewrite decide_False by done. simpl. rewrite app_nil_r.
        destruct (Z.eqb_spec (idx hf) 1); eexists; (split; [reflexivity|]); simpl;
          repeat split; try apply Pin; try done.
        intros (h & [Hh | ->%list_elem_of_singleton]%elem_of_app & Hi); [eauto | lia]. }
    destruct E1 as (u1 & -> & Pin1 & Eto & Eti & Pfo1). simpl.
    destruct (Z.eqb_spec (idx ht) 1) as [E1|N1].
    - destruct (mark_port_size (to_out u1) (port ht)) as (v & Ev & Hv).
      { rewrite Forall_forall in Hout. apply Hout.
        apply list_elem_of_fmap. exists ht. split; [done|].
        apply list_elem_of_filter. split; [done|]. eapply list_elem_of_lookup_2; eauto. }
      rewrite Ev. simpl. eexists. split; [reflexivity|]. simpl.
      rewrite (decide_True (P := idx ht = 1)) by done. simpl. rewrite Hv, Eto, Eti.
      repeat split; try done; try (by apply one_past_highest_snoc); try apply Pin1.
      intros (h & [Hh | ->%list_elem_of_singleton]%elem_of_app & Hi); [eauto | lia].
    - rewrite (decide_False (P := idx ht = 1)) by done. simpl. rewrite app_nil_r.
      destruct (Z.eqb_spec (idx ht) 0); eexists; (split; [reflexivity|]); simpl;
        rewrite ?Eto, ?Eti; repeat split; try done; try apply Pin1; try apply Pout.
      intros (h & [Hh | ->%list_elem_of_singleton]%elem_of_app & Hi); [eauto | lia]. }
  rewrite Eu. simpl.
  unfold P in HP. clear P.
  destruct HP as (Pin & Pout & Pti & Pfo).
  rewrite firstn_all in Pin, Pfo.
  rewrite Hlen, firstn_all in Pout, Pti.
  eexists _, _. split; [reflexivity|]. simpl.
  split; [done|]. split; [done|].
  repeat split.
  - intros Hex. rewrite (Pti Hex).
    eapply elem_of_prefix; [|apply report_unused_prefix]. 
    eapply elem_of_prefix; [|destruct (from_out u); [apply prefix_app_r; reflexivity | reflexivity]].
    eapply elem_of_prefix; [|apply report_unused_prefix].
    unfold errh_lerror, input_as_sink_error. set_solver.
  - intros Hex. rewrite (Pfo Hex).
    eapply elem_of_prefix; [|apply report_unused_prefix].
    unfold errh_lerror, output_as_source_error. set_solver.
  - etrans; [|apply report_unused_prefix].
    etrans; [|destruct (from_out u); [apply prefix_app_r; reflexivity | reflexivity]].
    etrans; [|apply report_unused_prefix].
    destruct (to_in u); [by apply prefix_app_r | done].
Qed.

Lemma finish_counts_ports_witness :
  exists c' errh',
    finish c_body [] = Ret (c', errh')
    /\ one_past_highest (input_ports (Compound._hookup_from c_body)) (Compound._ninputs c')
    /\ one_past_highest (output_ports (Compound._hookup_to c_body)) (Compound._noutputs c')
    /\ ((exists h, h ∈ Compound._hookup_to c_body /\ idx h = 0) ->
        input_as_sink_error c_body ∈ errh')
    /\ ((exists h, h ∈ Compound._hookup_from c_body /\ idx h = 1) ->
        output_as_source_error c_body ∈ errh')
    /\ [] `prefix_of` errh'.
Proof.
  apply (finish_counts_ports c_body []).
  - reflexivity.
  - reflexivity.
  - reflexivity.
  - vm_compute. repeat constructor. discriminate.
  - vm_compute. repeat constructor. discriminate.
Defined.

(** ** Lexeme names and element lookup *)

Section Lexeme_string.
Context `{HDR : LexerHeader}.

Lemma lexVariable_not_lexIdent : lexVariable <> lexIdent.
Proof.
  pose proof lex_kinds_distinct as H.
  apply NoDup_cons in H as [_ H]. apply NoDup_cons in H as [H _].
  intros E. apply H. rewrite E. set_solver.
Qed.

Lemma lexVariable_distinct :
  Forall (fun k => lexVariable <> k)
    [lexIdent; lexArrow; lex2Colon; lex2Bar; lex3Dot; lexTunnel; lexElementclass; lexRequire].
Proof.
  pose proof lex_kinds_distinct as H.
  apply NoDup_cons in H as [_ H].
  apply NoDup_cons in H as [H1 H].
  apply NoDup_cons in H as [H2 _].
  repeat constructor; intros E; first [apply H1; rewrite <- E; set_solver | apply H2; rewrite E; set_solver].
Qed.

Lemma lexVariable_not_char : 256 <= lexVariable.
Proof.
  pose proof lex_kinds_not_char as H.
  inversion_clear H as [|? ? _ H']. by inversion_clear H'.
Qed.

(** C9: the second test of [lexeme_string] repeats the first, so its branch
    is dead: the kind [lexVariable] falls through to the last branch and is
    printed as a character code, and no kind at all is printed as
    ["variable"]. *)
Theorem lexeme_string_variable_kind :
  lexeme_string lexIdent = "identifier"%string
  /\ lexeme_string lexVariable
     = String "`" (String ch_backslash (format_03d lexVariable ++ "'"))
  /\ forall kind, lexeme_string kind <> "variable"%string.
Proof.
  split; [|split].
  - unfold lexeme_string. by rewrite Z.eqb_refl.
  - pose proof lexVariable_distinct as H.
    pose proof lexVariable_not_char as Hc.
    repeat match goal with
           | H : Forall _ (_ :: _) |- _ => apply Forall_cons in H as [? H]
           end.
    unfold lexeme_string.
    repeat match goal with
           | |- context [lexVariable =? ?k] =>
               destruct (Z.eqb_spec lexVariable k); [congruence|]
           end.
    destruct (Z.ltb_spec lexVariable 127); [lia|].
    by rewrite andb_false_r.
  - intros kind. unfold lexeme_string.
    repeat match goal with
           | |- context [if ?b then _ else _] => destruct b
           end; discriminate.
Qed.

End Lexeme_string.

(** With the kinds of the example header, the variable kind is printed as
    the escape of its number. *)
Example lexeme_string_variable_example :
  lexeme_string lexVariable = String "`" (String ch_backslash "257'").
Proof. reflexivity. Qed.

Section Get_element.
Context `{HDR : LexerHeader} `{COL : Collaborators}.

(** C10: for a name the element map of the scope holds already,
    [get_element] returns the index of the element that exists and leaves
    the whole state as it was: the arguments [etype], [conf] and [lm] are
    dropped, and the element vectors and the name map are not touched. *)
Theorem get_element_existing (name : string) (etype : Z) (conf lm : string) (L : Lexer) :
  name <> ""%string ->
  0 <= etype < vsize (_element_types L) ->
  0 <= hm_get (_element_map L) name ->
  get_element name etype conf lm L = Ret (hm_get (_element_map L) name, L).
Proof.
  intros Hname [Hlo Hhi] Hex.
  unfold get_element, bind, get, assert, lift_res, res_assert, ret.
  rewrite bool_decide_eq_false_2 by done. simpl.
  destruct (Z.leb_spec 0 etype); [|lia].
  destruct (Z.ltb_spec etype (vsize (_element_types L))); [|lia]. simpl.
  destruct (Z.leb_spec 0 (hm_get (_element_map L) name)); [|lia].
  reflexivity.
Qed.

End Get_element.

Lemma get_element_existing_witness :
  get_element "a" 1 "conf" "here" one_element
  = Ret (hm_get (_element_map one_element) "a", one_element).
Proof.
  apply (get_element_existing "a" 1 "conf" "here" one_element).
  - discriminate.
  - vm_compute. split; [discriminate | reflexivity].
  - vm_compute. discriminate.
Defined.

(** ** Line directives *)

Ltac len_lia := unfold _len in *; simpl in *; lia.

Section Lexing.
Context `{HDR : LexerHeader} `{COL : Collaborators}.

Lemma usub_exact (a b : Z) : 0 <= b <= a -> a < 2 ^ 32 -> usub a b = a - b.
Proof. intros. unfold usub. apply Z.mod_small. lia. Qed.

Lemma len_nonneg (L : Lexer) : 0 <= _len L.
Proof. unfold _len, slen. lia. Qed.

Lemma distance_S (L : Lexer) (pos : Z) (n : nat) :
  distance L pos = S n -> pos < _len L /\ distance L (pos + 1) = n.
Proof. unfold distance. intros H. split; lia. Qed.

Lemma distance_0 (L : Lexer) (pos : Z) : distance L pos = O -> _len L <= pos.
Proof. unfold distance. lia. Qed.

Lemma same_text_len L L' : same_text L L' -> _len L' = _len L.
Proof. unfold same_text, _len. by intros ->. Qed.

Lemma same_text_data L L' i : same_text L L' -> _data L' i = _data L i.
Proof. unfold same_text, _data. by intros ->. Qed.

Lemma same_text_distance L L' pos : same_text L L' -> distance L' pos = distance L pos.
Proof. unfold distance. by intros ->%same_text_len. Qed.

Lemma skip_line_scan_bounds n L pos p :
  _len L < 2 ^ 32 -> 0 <= pos ->
  skip_line_scan n L pos = Some p -> pos < p <= _len L.
Proof.
  intros Hlen. revert pos. induction n as [|n IH]; intros pos Hpos; simpl; [discriminate|].
  destruct (Z.ltb_spec pos (_len L)); [|discriminate].
  destruct (ch_eq (_data L pos) ch_newline); [intros [= <-]; lia|].
  destruct (ch_eq (_data L pos) ch_return).
  - rewrite usub_exact by lia.
    destruct (Z.ltb_spec pos (_len L - 1)); simpl.
    + destruct (ch_eq _ _); intros [= <-]; lia.
    + intros [= <-]; lia.
  - intros H'. apply IH in H'; lia.
Qed.

Lemma skip_line_bounds pos L p L' :
  _len L < 2 ^ 32 -> 0 <= pos <= _len L ->
  skip_line pos L = (p, L') -> pos <= p <= _len L /\ same_text L L'.
Proof.
  intros Hlen Hpos. unfold skip_line.
  destruct (skip_line_scan _ L pos) as [q|] eqn:E.
  - apply skip_line_scan_bounds in E; [|lia..]. intros [= <- <-]. split; [lia | done].
  - intros [= <- <-]. split; [lia | done].
Qed.

Lemma skip_slash_star_scan_bounds n pos L p L' :
  _len L < 2 ^ 32 -> 0 <= pos <= _len L ->
  skip_slash_star_scan n pos L = (p, L') -> pos <= p <= _len L /\ same_text L L'.
Proof.
  revert pos L. induction n as [|n IH]; intros pos L0 Hlen Hpos; simpl.
  { intros [= <- <-]. split; [lia | done]. }
  destruct (Z.ltb_spec pos (_len L0)); [|intros [= <- <-]; split; [lia | done]].
  rewrite usub_exact by lia.
  destruct (ch_eq (_data L0 pos) ch_newline).
  { intros H'. apply IH in H' as [? ?]; [split; [len_lia | done] | len_lia ..]. }
  destruct (ch_eq (_data L0 pos) ch_return).
  { intros H'.
    assert (pos <= (if (pos <? _len L0 - 1) && ch_eq (_data L0 (pos + 1)) ch_newline
                    then pos + 1 else pos) < _len L0).
    { destruct (Z.ltb_spec pos (_len L0 - 1)); simpl; [destruct (ch_eq _ _)|]; lia. }
    apply IH in H' as [? ?]; [split; [len_lia | done] | len_lia ..]. }
  destruct (ch_eq _ ch_star && (pos <? _len L0 - 1) && _) eqn:E.
  { intros [= <- <-]. apply andb_prop in E as [E _]. apply andb_prop in E as [_ E].
    apply Z.ltb_lt in E. split; [lia | done]. }
  intros H'. apply IH in H' as [? ?]; [split; [lia | done] | lia ..].
Qed.

Lemma skip_slash_star_bounds pos L p L' :
  _len L < 2 ^ 32 -> 0 <= pos <= _len L ->
  skip_slash_star pos L = (p, L') -> pos <= p <= _len L /\ same_text L L'.
Proof. apply skip_slash_star_scan_bounds. Qed.

Lemma skip_space_scan_bounds n pos L p L' :
  _len L < 2 ^ 32 -> 0 <= pos <= _len L ->
  skip_space_scan n pos L = (p, L') -> pos <= p <= _len L /\ same_text L L'.
Proof.
  revert pos L. induction n as [|n IH]; intros pos L0 Hlen Hpos; simpl.
  { intros [= <- <-]. split; [lia | done]. }
  destruct (Z.ltb_spec pos (_len L0)); simpl; [|intros [= <- <-]; split; [lia | done]].
  destruct (isspace _); [|intros [= <- <-]; split; [lia | done]].
  rewrite usub_exact by lia.
  destruct (ch_eq (_data L0 pos) ch_newline).
  { intros H'. apply IH in H' as [? ?]; [split; [len_lia | done] | len_lia ..]. }
  destruct (ch_eq (_data L0 pos) ch_return).
  { intros H'.
    assert (pos <= (if (pos <? _len L0 - 1) && ch_eq (_data L0 (pos + 1)) ch_newline
                    then pos + 1 else pos) < _len L0).
    { destruct (Z.ltb_spec pos (_len L0 - 1)); simpl; [destruct (ch_eq _ _)|]; lia. }
    apply IH in H' as [? ?]; [split; [len_lia | done] | len_lia ..]. }
  intros H'. apply IH in H' as [? ?]; [split; [lia | done] | lia ..].
Qed.

Lemma skip_space_bounds pos L p L' :
  _len L < 2 ^ 32 -> 0 <= pos <= _len L ->
  skip_space pos L = (p, L') -> pos <= p <= _len L /\ same_text L L'.
Proof. apply skip_space_scan_bounds. Qed.

Lemma skip_blanks_scan_bounds n L pos :
  0 <= pos <= _len L -> pos <= skip_blanks_scan n L pos <= _len L.
Proof.
  revert pos. induction n as [|n IH]; intros pos Hpos; simpl; [lia|].
  destruct (Z.ltb_spec pos (_len L)); simpl; [|lia].
  destruct (is_blank _); [|lia].
  specialize (IH (pos + 1)). lia.
Qed.

Lemma line_number_scan_bounds n L pos lineno p k :
  0 <= pos <= _len L -> line_number_scan n L pos lineno = (p, k) -> pos <= p <= _len L.
Proof.
  revert pos lineno. induction n as [|n IH]; intros pos lineno Hpos; simpl.
  { intros [= <- <-]. lia. }
  destruct (Z.ltb_spec pos (_len L)); simpl; [|intros [= <- <-]; lia].
  destruct (isdigit _); [|intros [= <- <-]; lia].
  intros H'. apply IH in H'; lia.
Qed.

Lemma filename_scan_bounds n L pos :
  _len L < 2 ^ 32 -> 0 <= pos <= _len L -> pos <= filename_scan n L pos <= _len L.
Proof.
  intros Hlen. revert pos. induction n as [|n IH]; intros pos Hpos; simpl; [lia|].
  destruct (Z.ltb_spec pos (_len L)); simpl; [|lia].
  destruct (negb _ && negb _ && negb _); [|lia].
  rewrite usub_exact by lia.
  destruct (Z.ltb_spec pos (_len L - 1)); rewrite ?andb_false_r; simpl.
  - destruct (ch_eq _ ch_backslash && true && _ && _).
    + specialize (IH (pos + 1 + 1)). lia.
    + specialize (IH (pos + 1)). lia.
  - specialize (IH (pos + 1)). lia.
Qed.

Lemma end_of_line_scan_bounds n L pos :
  0 <= pos <= _len L -> pos <= end_of_line_scan n L pos <= _len L.
Proof.
  revert pos. induction n as [|n IH]; intros pos Hpos; simpl; [lia|].
  destruct (Z.ltb_spec pos (_len L)); simpl; [|lia].
  destruct (negb _ && negb _); [|lia].
  specialize (IH (pos + 1)). lia.
Qed.

Lemma char_at_outside (s : string) (i : Z) : slen s <= i -> char_at s i = "000"%char.
Proof.
  intros Hi. unfold char_at. destruct (i <? 0); [done|].
  destruct (String.get (Z.to_nat i) s) eqn:E; [|done].
  assert (Z.to_nat i < String.length s)%nat; [|unfold slen in *; lia].
  clear Hi. revert s E. induction (Z.to_nat i) as [|n IH]; intros [|c s]; simpl; try discriminate.
  - lia.
  - intros E. apply IH in E. lia.
Qed.

Lemma data_outside (L : Lexer) (i : Z) : _len L <= i -> _data L i = "000"%char.
Proof. apply char_at_outside. Qed.

Lemma process_line_directive_bounds pos L p L' :
  _len L < 2 ^ 32 -> 0 <= pos < _len L ->
  process_line_directive pos L = (p, L') -> pos < p <= _len L /\ same_text L L'.
Proof.
  intros Hlen Hpos. unfold process_line_directive.
  pose proof (skip_blanks_scan_bounds (distance L (pos + 1)) L (pos + 1) ltac:(lia)) as Hb.
  fold (skip_blanks L (pos + 1)) in Hb.
  cbv zeta.
  set (p1 := skip_blanks L (pos + 1)) in *.
  match goal with |- context [isdigit (_data L ?q)] => set (p2 := q) end.
  assert (Hp2 : pos < p2 <= _len L).
  { subst p2. destruct (_ && _) eqn:E; [|lia].
    repeat (apply andb_prop in E as [E ?]).
    assert (p1 + 4 < _len L).
    { destruct (Z.lt_ge_cases (p1 + 4) (_len L)); [done|].
      rewrite data_outside in * by lia. discriminate. }
    pose proof (skip_blanks_scan_bounds (distance L (p1 + 5)) L (p1 + 5) ltac:(lia)).
    unfold skip_blanks. lia. }
  clearbody p2. clear Hb p1.
  destruct ((_len L <=? p2) || _).
  { intros H'. apply skip_line_bounds in H' as [? ?]; [split; [len_lia | done] | len_lia ..]. }
  destruct (line_number_scan _ L p2 0) as [p3 lineno] eqn:E3.
  apply line_number_scan_bounds in E3; [|lia].
  set (L3 := set_lineno (lineno - 1) L).
  assert (Hlen3 : _len L3 = _len L) by done.
  pose proof (skip_blanks_scan_bounds (distance L3 p3) L3 p3 ltac:(lia)) as Hb.
  fold (skip_blanks L3 p3) in Hb.
  set (p4 := skip_blanks L3 p3) in *. clearbody p4.
  assert (Htail : forall p5 L5, p4 <= p5 <= _len L -> same_text L L5 ->
            forall q, q = (let q := end_of_line_scan (distance L5 p5) L5 p5 in
                           if (q <? usub (_len L) 1) && ch_eq (_data L5 q) ch_return
                              && ch_eq (_data L5 (q + 1)) ch_newline
                           then q + 1 else q) ->
            pos < q <= _len L).
  { intros p5 L5 H5 Ht q ->. cbv zeta.
    pose proof (same_text_len _ _ Ht) as Hl5.
    pose proof (end_of_line_scan_bounds (distance L5 p5) L5 p5 ltac:(lia)) as He.
    set (p6 := end_of_line_scan _ L5 p5) in *. clearbody p6.
    destruct (Z.ltb_spec p6 (usub (_len L) 1)) as [Hlt|]; simpl; [|lia].
    rewrite usub_exact in Hlt by lia.
    destruct (_ && _); lia. }
  destruct ((p4 <? _len L) && ch_eq (_data L3 p4) ch_dquote) eqn:E.
  - apply andb_prop in E as [E _]. apply Z.ltb_lt in E.
    pose proof (filename_scan_bounds (distance L3 (p4 + 1)) L3 (p4 + 1) ltac:(lia) ltac:(lia)).
    intros [= <- <-]. split; [|done].
    eapply Htail; [| |reflexivity]; [lia | done].
  - intros [= <- <-]. split; [|done].
    eapply Htail; [| |reflexivity]; [lia | done].
Qed.


End Lexing.

(** ** Configuration strings *)

Section Config.
Context `{HDR : LexerHeader} `{COL : Collaborators}.

Lemma get_lookup (s : string) (n : nat) : String.get n s = list_ascii_of_string s !! n.
Proof. revert n. induction s as [|c s IH]; intros [|n]; simpl; auto. Qed.

Lemma slen_length (s : string) : slen s = Z.of_nat (length (list_ascii_of_string s)).
Proof. unfold slen. f_equal. induction s; simpl; auto. Qed.

Lemma text_from_cons (s : string) (pos : Z) :
  0 <= pos < slen s -> text_from s pos = char_at s pos :: text_from s (pos + 1).
Proof.
  intros Hpos. unfold text_from, char_at.
  destruct (Z.ltb_spec pos 0); [lia|].
  rewrite get_lookup.
  destruct (list_ascii_of_string s !! Z.to_nat pos) as [c|] eqn:E.
  - replace (Z.to_nat (pos + 1)) with (S (Z.to_nat pos)) by lia.
    by apply drop_S.
  - apply lookup_ge_None in E. rewrite slen_length in Hpos. lia.
Qed.

Lemma text_from_end (s : string) (pos : Z) : slen s <= pos -> text_from s pos = [].
Proof.
  intros Hpos. unfold text_from. apply drop_ge. rewrite slen_length in Hpos. lia.
Qed.

Lemma chr_eqb (a b : ascii) : (chr a =? chr b) = ch_eq a b.
Proof.
  unfold chr, ch_eq. destruct (Ascii.eqb_spec a b) as [->|N].
  - apply Z.eqb_refl.
  - apply Z.eqb_neq. intros E. apply N.
    apply Nat2Z.inj in E. rewrite <- (ascii_nat_embedding a), <- (ascii_nat_embedding b).
    by rewrite E.
Qed.

(** A comment that runs to the end of the line: [skip_line] finds where the
    configuration resumes. *)
Lemma line_comment_skipped (n : nat) (L : Lexer) (pos : Z) (depth : nat) :
  _len L < 2 ^ 32 -> 0 <= pos <= _len L -> (distance L pos <= n)%nat ->
  balancing_from (text_from (_big_string L) pos) InLineComment depth pos
  = match skip_line_scan n L pos with
    | Some p => balancing_from (text_from (_big_string L) p) InCode depth p
    | None => None
    end.
Proof.
  intros Hlen. revert pos. induction n as [|n IH]; intros pos Hpos Hn.
  { simpl. rewrite text_from_end; [done | unfold distance, _len in *; lia]. }
  simpl. destruct (Z.ltb_spec pos (_len L)).
  2:{ rewrite text_from_end; [done | unfold _len in *; lia]. }
  rewrite text_from_cons by (unfold _len in *; lia). simpl.
  fold (_data L pos).
  destruct (ch_eq (_data L pos) ch_newline); [done|].
  destruct (ch_eq (_data L pos) ch_return).
  - rewrite usub_exact by lia.
    destruct (Z.ltb_spec pos (_len L - 1)); simpl.
    + pose proof (text_from_cons (_big_string L) (pos + 1) ltac:(unfold _len in *; lia)) as Hr.
      fold (_data L (pos + 1)) in Hr.
      replace (pos + 1 + 1) with (pos + 2) in Hr by lia.
      rewrite Hr.
      destruct (ch_eq (_data L (pos + 1)) ch_newline); [done|].
      by rewrite <- Hr.
    + by rewrite (text_from_end _ (pos + 1)) by (unfold _len in *; lia).
  - apply IH; [lia | unfold distance in *; lia].
Qed.

(** A comment between slash-star and star-slash: [skip_slash_star] finds
    where the configuration resumes. *)
Lemma block_comment_skipped (n : nat) (L : Lexer) (pos : Z) (depth : nat) :
  _len L < 2 ^ 32 -> 0 <= pos <= _len L -> (distance L pos <= n)%nat ->
  balancing_from (text_from (_big_string L) pos) InBlockComment depth pos
  = let p := (skip_slash_star_scan n pos L).1 in
    balancing_from (text_from (_big_string L) p) InCode depth p.
Proof.
  revert pos L. induction n as [|n IH]; intros pos L Hlen Hpos Hn.
  { simpl. rewrite !text_from_end; [done | unfold distance, _len in *; lia..]. }
  simpl. destruct (Z.ltb_spec pos (_len L)).
  2:{ simpl. rewrite !text_from_end; [done | unfold _len in *; lia..]. }
  rewrite text_from_cons by (unfold _len in *; lia). simpl.
  fold (_data L pos).
  rewrite usub_exact by lia.
  destruct (ch_eq (_data L pos) ch_newline) eqn:Enl.
  { apply Ascii.eqb_eq in Enl. rewrite Enl. simpl.
    apply (IH (pos + 1) (incr_lineno L)); [done | len_lia | unfold distance in *; len_lia]. }
  destruct (ch_eq (_data L pos) ch_return) eqn:Ecr.
  { apply Ascii.eqb_eq in Ecr. rewrite Ecr. simpl.
    destruct (Z.ltb_spec pos (_len L - 1)); simpl.
    - destruct (ch_eq (_data L (pos + 1)) ch_newline) eqn:Enl2.
      + rewrite (text_from_cons _ (pos + 1)) by (unfold _len in *; lia).
        fold (_data L (pos + 1)). apply Ascii.eqb_eq in Enl2. rewrite Enl2. simpl.
        apply (IH (pos + 1 + 1) (incr_lineno L)); [done | len_lia | unfold distance in *; len_lia].
      + apply (IH (pos + 1) (incr_lineno L)); [done | len_lia | unfold distance in *; len_lia].
    - apply (IH (pos + 1) (incr_lineno L)); [done | len_lia | unfold distance in *; len_lia]. }
  destruct (ch_eq (_data L pos) ch_star) eqn:Est; simpl.
  - destruct (Z.ltb_spec pos (_len L - 1)); simpl.
    + pose proof (text_from_cons (_big_string L) (pos + 1) ltac:(unfold _len in *; lia)) as Hr.
      fold (_data L (pos + 1)) in Hr.
      replace (pos + 1 + 1) with (pos + 2) in Hr by lia.
      rewrite Hr.
      destruct (ch_eq (_data L (pos + 1)) ch_slash); [done|].
      rewrite <- Hr.
      apply IH; [done | lia | unfold distance in *; lia].
    + rewrite (text_from_end _ (pos + 1)) by (unfold _len in *; lia).
      specialize (IH (pos + 1) L Hlen ltac:(lia) ltac:(unfold distance in *; lia)).
      rewrite (text_from_end _ (pos + 1)) in IH by (unfold _len in *; lia).
      simpl in IH. done.
  - apply IH; [done | lia | unfold distance in *; lia].
Qed.

Lemma skip_line_scan_Some_skip_line (L : Lexer) (pos p : Z) :
  skip_line_scan (distance L pos) L pos = Some p -> skip_line pos L = (p, incr_lineno L).
Proof. unfold skip_line. by intros ->. Qed.

Lemma skip_slash_star_scan_text n pos L :
  same_text L (skip_slash_star_scan n pos L).2.
Proof.
  revert pos L. induction n as [|n IH]; intros pos L; simpl; [done|].
  repeat match goal with
         | |- context [if ?b then _ else _] => destruct b
         end; simpl; try done; (etrans; [apply IH | done]).
Qed.

Local Opaque text_from.

Lemma config_scan_finds (n : nat) (pos : Z) (depth : nat) (mode : ConfigMode) (quote : Z)
  (L : Lexer) (q : Z) :
  _len L < 2 ^ 32 -> 0 <= pos <= _len L -> (distance L pos <= n)%nat ->
  quote_of mode quote ->
  balancing_from (text_from (_big_string L) pos) mode depth pos = Some q ->
  exists L',
    lex_config_scan n pos (Z.of_nat depth + 1) quote L = (q, L')
    /\ same_text L L' /\ pos <= q < _len L /\ _data L q = ch_rparen.
Proof.
  revert pos depth mode quote L.
  induction n as [|n IH]; intros pos depth mode quote L Hlen Hpos Hn Hq Hb.
  { rewrite text_from_end in Hb; [done | unfold distance, _len in *; lia]. }
  destruct (Z.ltb_spec pos (_len L)) as [Hlt|Hge].
  2:{ rewrite text_from_end in Hb; [done | unfold _len in *; lia]. }
  (* one step of the induction hypothesis, at a later position *)
  assert (Hadv : forall p d m qu L1,
            pos < p <= _len L -> same_text L L1 -> quote_of m qu ->
            balancing_from (text_from (_big_string L) p) m d p = Some q ->
            exists L',
              lex_config_scan n p (Z.of_nat d + 1) qu L1 = (q, L')
              /\ same_text L L' /\ pos <= q < _len L /\ _data L q = ch_rparen).
  { intros p d m qu L1 Hp Ht Hqu Hbal.
    pose proof (same_text_len _ _ Ht) as Hl.
    destruct (IH p d m qu L1) as (L' & E & Ht' & Hq' & Hd');
      [lia | lia | unfold distance in *; lia | done | by rewrite Ht |].
    exists L'. split; [done|]. split; [by etrans|].
    split; [lia|]. by rewrite <- (same_text_data _ _ _ Ht). }
  pose proof (text_from_cons (_big_string L) pos ltac:(unfold _len in *; lia)) as Hcons.
  fold (_data L pos) in Hcons. rewrite Hcons in Hb. clear Hcons.
  (* the next character, when there is one *)
  assert (Hnext : pos + 1 < _len L ->
            text_from (_big_string L) (pos + 1)
            = _data L (pos + 1) :: text_from (_big_string L) (pos + 2)).
  { intros ?. rewrite text_from_cons by (unfold _len in *; lia).
    by replace (pos + 1 + 1) with (pos + 2) by lia. }
  assert (Hlast : ~ pos + 1 < _len L -> text_from (_big_string L) (pos + 1) = []).
  { intros ?. apply text_from_end. unfold _len in *; lia. }
  cbn [lex_config_scan].
  destruct (Z.ltb_spec pos (_len L)) as [_|]; [|lia].
  rewrite usub_exact by lia.
  set (c := _data L pos) in *.
  destruct Hq.
  - (* in the configuration proper *)
    rewrite Z.eqb_refl, !andb_true_r. cbn [balancing_from] in Hb.
    destruct (ch_eq c ch_lparen) eqn:E1.
    { replace (Z.of_nat depth + 1 + 1) with (Z.of_nat (S depth) + 1) by lia.
      eapply Hadv; [lia | done | constructor | done]. }
    destruct (ch_eq c ch_rparen) eqn:E2.
    { destruct depth as [|d].
      - injection Hb as <-. simpl. exists L. repeat split; try done; try lia.
        by apply Ascii.eqb_eq in E2.
      - replace (Z.of_nat (S d) + 1 - 1) with (Z.of_nat d + 1) by lia.
        destruct (Z.eqb_spec (Z.of_nat d + 1) 0); [lia|].
        eapply Hadv; [lia | done | constructor | done]. }
    destruct (ch_eq c ch_newline) eqn:E3.
    { apply Ascii.eqb_eq in E3. rewrite E3 in Hb. simpl in Hb.
      eapply Hadv; [lia | done | constructor | done]. }
    destruct (ch_eq c ch_return) eqn:E4.
    { apply Ascii.eqb_eq in E4. rewrite E4 in Hb. simpl in Hb.
      destruct (Z.ltb_spec pos (_len L - 1)); simpl.
      - destruct (ch_eq (_data L (pos + 1)) ch_newline) eqn:E5.
        + rewrite Hnext in Hb by lia. apply Ascii.eqb_eq in E5. rewrite E5 in Hb.
          simpl in Hb. replace (pos + 1 + 1) with (pos + 2) in * by lia.
          eapply Hadv; [lia | done | constructor | done].
        + eapply Hadv; [lia | done | constructor | done].
      - eapply Hadv; [lia | done | constructor | done]. }
    destruct (ch_eq c ch_slash) eqn:E6.
    { apply Ascii.eqb_eq in E6. rewrite E6 in Hb. simpl in Hb.
      destruct (Z.ltb_spec pos (_len L - 1)); simpl.
      2:{ by rewrite Hlast in Hb by lia. }
      rewrite Hnext in Hb by lia.
      destruct (ch_eq (_data L (pos + 1)) ch_slash) eqn:E7.
      - rewrite (line_comment_skipped (distance L (pos + 2)) L) in Hb; [|done | lia | lia].
        destruct (skip_line_scan _ L (pos + 2)) as [p|] eqn:Es; [|done].
        rewrite (skip_line_scan_Some_skip_line _ _ _ Es).
        apply skip_line_scan_bounds in Es; [|lia..].
        replace (p - 1 + 1) with p by lia.
        eapply Hadv; [lia | done | constructor | done].
      - destruct (ch_eq (_data L (pos + 1)) ch_star) eqn:E8.
        + rewrite (block_comment_skipped (distance L (pos + 2)) L) in Hb; [|done | lia | lia].
          cbv zeta in Hb. unfold skip_slash_star.
          pose proof (skip_slash_star_scan_text (distance L (pos + 2)) (pos + 2) L) as Ht.
          destruct (skip_slash_star_scan _ (pos + 2) L) as [p L1] eqn:Es.
          apply skip_slash_star_scan_bounds in Es as [? _]; [|lia..].
          simpl in Hb, Ht.
          replace (p - 1 + 1) with p by lia.
          eapply Hadv; [lia | done | constructor | done].
        + rewrite <- Hnext in Hb by lia.
          eapply Hadv; [lia | done | constructor | done]. }
    destruct (ch_eq c ch_squote) eqn:E9.
    { simpl. apply Ascii.eqb_eq in E9. rewrite E9 in *. 
      replace (chr ch_squote =? 0) with false by done. simpl.
      eapply Hadv; [lia | done | constructor | done]. }
    destruct (ch_eq c ch_dquote) eqn:E10.
    { simpl. apply Ascii.eqb_eq in E10. rewrite E10 in *.
      replace (chr ch_dquote =? 0) with false by done. simpl.
      eapply Hadv; [lia | done | constructor | done]. }
    simpl.
    replace (0 =? chr ch_dquote) with false by done.
    rewrite andb_false_r.
    eapply Hadv; [lia | done | constructor | done].
  - (* in a single-quoted string *)
    replace (chr ch_squote =? 0) with false by done.
    replace (chr ch_squote =? chr ch_dquote) with false by done.
    rewrite !andb_false_r. cbn [balancing_from negb andb] in *.
    rewrite (chr_eqb c ch_squote).
    destruct (ch_eq c ch_newline) eqn:E3.
    { apply Ascii.eqb_eq in E3. rewrite E3 in Hb. simpl in Hb.
      eapply Hadv; [lia | done | constructor | done]. }
    destruct (ch_eq c ch_return) eqn:E4.
    { apply Ascii.eqb_eq in E4. rewrite E4 in Hb. simpl in Hb.
      destruct (Z.ltb_spec pos (_len L - 1)); simpl.
      - destruct (ch_eq (_data L (pos + 1)) ch_newline) eqn:E5.
        + rewrite Hnext in Hb by lia. apply Ascii.eqb_eq in E5. rewrite E5 in Hb.
          simpl in Hb. replace (pos + 1 + 1) with (pos + 2) in * by lia.
          eapply Hadv; [lia | done | constructor | done].
        + eapply Hadv; [lia | done | constructor | done].
      - eapply Hadv; [lia | done | constructor | done]. }
    destruct (ch_eq c ch_squote) eqn:E9.
    { eapply Hadv; [lia | done | constructor | done]. }
    eapply Hadv; [lia | done | constructor | done].
  - (* in a double-quoted string *)
    replace (chr ch_dquote =? 0) with false by done.
    rewrite Z.eqb_refl.
    rewrite !andb_false_r, !andb_true_r. cbn [balancing_from negb andb] in *.
    rewrite (chr_eqb c ch_dquote).
    destruct (ch_eq c ch_newline) eqn:E3.
    { apply Ascii.eqb_eq in E3. rewrite E3 in Hb. simpl in Hb.
      eapply Hadv; [lia | done | constructor | done]. }
    destruct (ch_eq c ch_return) eqn:E4.
    { apply Ascii.eqb_eq in E4. rewrite E4 in Hb. simpl in Hb.
      destruct (Z.ltb_spec pos (_len L - 1)); simpl.
      - destruct (ch_eq (_data L (pos + 1)) ch_newline) eqn:E5.
        + rewrite Hnext in Hb by lia. apply Ascii.eqb_eq in E5. rewrite E5 in Hb.
          simpl in Hb. replace (pos + 1 + 1) with (pos + 2) in * by lia.
          eapply Hadv; [lia | done | constructor | done].
        + eapply Hadv; [lia | done | constructor | done].
      - eapply Hadv; [lia | done | constructor | done]. }
    destruct (ch_eq c ch_dquote) eqn:E10.
    { eapply Hadv; [lia | done | constructor | done]. }
    destruct (ch_eq c ch_backslash) eqn:E11; simpl.
    2:{ eapply Hadv; [lia | done | constructor | done]. }
    destruct (Z.ltb_spec pos (_len L - 1)); simpl.
    2:{ by rewrite Hlast in Hb by lia. }
    rewrite Hnext in Hb by lia.
    destruct (ch_eq (_data L (pos + 1)) ch_dquote || ch_eq (_data L (pos + 1)) ch_dollar).
    + replace (pos + 1 + 1) with (pos + 2) by lia.
      eapply Hadv; [lia | done | constructor | done].
    + rewrite <- Hnext in Hb by lia.
      eapply Hadv; [lia | done | constructor | done].
Qed.

(** C7: [lex_config] returns the text from the current position up to the
    parenthesis that balances the one already read, where the parentheses
    inside single- or double-quoted strings and inside comments do not
    count; it does not read the closing parenthesis: the position it leaves
    is that of the [)]. *)
Theorem lex_config_stops_at_balancing_paren (L : Lexer) (q : Z) :
  _len L < 2 ^ 32 ->
  0 <= _pos L <= _len L ->
  balancing_paren (_big_string L) (_pos L) = Some q ->
  exists L',
    lex_config L = (substring (_big_string L) (_pos L) (q - _pos L), L')
    /\ _pos L' = q
    /\ _data L' q = ch_rparen
    /\ _big_string L' = _big_string L.
Proof.
  intros Hlen Hpos Hb. unfold balancing_paren in Hb.
  destruct (config_scan_finds (distance L (_pos L)) (_pos L) 0 InCode 0 L q)
    as (L1 & E & Ht & Hq & Hd); [done | done | lia | constructor | done |].
  unfold lex_config. change (Z.of_nat 0 + 1) with 1 in E. rewrite E.
  exists (set_pos q L1). split; [by rewrite Ht|].
  split; [done|]. split; [|done].
  by rewrite <- (same_text_data _ _ _ Ht) in Hd.
Qed.

End Config.

Lemma lex_config_stops_at_balancing_paren_witness : exists L',
    lex_config (set_pos 2 (example_lexer "C(a(b) ')' /*)*/ x)y"))
    = (substring "C(a(b) ')' /*)*/ x)y" 2 (18 - 2), L')
    /\ _pos L' = 18 /\ _data L' 18 = ch_rparen
    /\ _big_string L' = "C(a(b) ')' /*)*/ x)y"%string.
Proof.
  apply (lex_config_stops_at_balancing_paren (set_pos 2 (example_lexer "C(a(b) ')' /*)*/ x)y")) 18).
  - vm_compute. reflexivity.
  - vm_compute. split; discriminate.
  - vm_compute. reflexivity.
Defined.

(** ** What a line directive does *)




Section Directive.
Context `{HDR : LexerHeader} `{COL : Collaborators}.



















End Directive.


(** What the directive of the example says, and what is read behind it. *)
Example directive_after_comment_read :
  directive_of (text_from (_big_string directive_after_comment) 8)
  = Some (mkDirective 7 (Some (String ch_dquote "f")) 12)
  /\ (next_lexeme directive_after_comment).1 = Lexeme.mk lexIdent "x"
  /\ _lineno (next_lexeme directive_after_comment).2 = 7.
Proof. vm_compute. repeat split. Qed.


(** ** Reasoning about programs of the lexer monad *)

Lemma bind_get {A B} (f : Lexer -> A) (k : A -> M B) (L : Lexer) :
  bind (get f) k L = k (f L) L.
Proof. reflexivity. Qed.

Lemma bind_modify {B} (f : Lexer -> Lexer) (k : unit -> M B) (L : Lexer) :
  bind (modify f) k L = k tt (f L).
Proof. reflexivity. Qed.

Lemma bind_ret {A B} (a : A) (k : A -> M B) (L : Lexer) : bind (ret a) k L = k a L.
Proof. reflexivity. Qed.

Lemma bind_lift {A B} (f : Lexer -> A * Lexer) (k : A -> M B) (L : Lexer) :
  bind (lift f) k L = k (f L).1 (f L).2.
Proof. unfold bind, lift. by destruct (f L). Qed.

Lemma bind_lift_res {A B} (a : A) (k : A -> M B) (L : Lexer) :
  bind (lift_res (Ret a)) k L = k a L.
Proof. reflexivity. Qed.

Lemma bind_get_res {A B} (f : Lexer -> Res A) (a : A) (k : A -> M B) (L : Lexer) :
  f L = Ret a -> bind (get_res f) k L = k a L.
Proof. intros E. unfold bind, get_res. by rewrite E. Qed.

Lemma bind_assert {B} (b : bool) (k : unit -> M B) (L : Lexer) :
  b = true -> bind (assert b) k L = k tt L.
Proof. by intros ->. Qed.

Lemma bind_bind {A B C} (m : M A) (f : A -> M B) (g : B -> M C) (L : Lexer) :
  bind (bind m f) g L = bind m (fun a => bind (f a) g) L.
Proof. unfold bind. destruct (m L) as [[a L']| |]; reflexivity. Qed.

Lemma bind_Ret {A B} (m : M A) (k : A -> M B) (L L' : Lexer) (a : A) :
  m L = Ret (a, L') -> bind m k L = k a L'.
Proof. intros E. unfold bind. by rewrite E. Qed.

(** Decomposing a successful run of a bind. *)
Lemma bind_inv {A B} (m : M A) (k : A -> M B) (L L2 : Lexer) (b : B) :
  bind m k L = Ret (b, L2) -> exists a L1, m L = Ret (a, L1) /\ k a L1 = Ret (b, L2).
Proof. unfold bind. destruct (m L) as [[a L1]| |]; [eauto | done | done]. Qed.

Lemma get_res_inv {A} (f : Lexer -> Res A) (L L' : Lexer) (a : A) :
  get_res f L = Ret (a, L') -> f L = Ret a /\ L' = L.
Proof. unfold get_res. destruct (f L); simpl; [by intros [= -> ->] | done | done]. Qed.

Lemma lift_res_inv {A} (r : Res A) (L L' : Lexer) (a : A) :
  lift_res r L = Ret (a, L') -> r = Ret a /\ L' = L.
Proof. unfold lift_res. destruct r; [by intros [= -> ->] | done | done]. Qed.

Lemma assert_inv (b : bool) (L L' : Lexer) (u : unit) :
  assert b L = Ret (u, L') -> b = true /\ L' = L.
Proof. destruct b; simpl; [by intros [= _ ->] | done]. Qed.

#[global] Arguments bind : simpl never.
#[global] Arguments get : simpl never.
#[global] Arguments get_res : simpl never.
#[global] Arguments modify : simpl never.
#[global] Arguments ret : simpl never.
#[global] Arguments lift : simpl never.
#[global] Arguments lift_res : simpl never.
#[global] Arguments assert : simpl never.

(** One step of a program applied to a state. *)
Ltac mstep :=
  first
    [ rewrite bind_get
    | rewrite bind_modify
    | rewrite bind_ret
    | rewrite bind_lift_res
    | rewrite bind_lift
    | rewrite bind_bind ];
  cbn beta iota zeta.

Ltac msteps := repeat mstep.

(** ** The element-type registry *)

Lemma is_chain_bounds next t l :
  is_chain next t l -> Forall (fun x => 0 <= x < vsize next) l.
Proof.
  revert t. induction l as [|x l IH]; intros t; simpl; [constructor|].
  intros (-> & Hx & n & Hn & Hc). constructor; [|eauto].
  apply lookup_lt_Some in Hn. unfold vsize. lia.
Qed.

Lemma is_chain_ext next next' t l :
  (forall x, x ∈ l -> next' !! Z.to_nat x = next !! Z.to_nat x) ->
  is_chain next t l -> is_chain next' t l.
Proof.
  revert t. induction l as [|x l IH]; intros t Hext; simpl; [done|].
  intros (-> & Hx & n & Hn & Hc). repeat split; [done|].
  exists n. split.
  - rewrite Hext; [done | set_solver].
  - apply IH; [|done]. intros y Hy. apply Hext. set_solver.
Qed.

Lemma is_chain_head next t l : is_chain next t l -> t = default (-1) (head l).
Proof. destruct l; simpl; [done | by intros [-> _]]. Qed.

Lemma vec_get_ok {A} (v : list A) (i : Z) (x : A) :
  0 <= i -> v !! Z.to_nat i = Some x -> vec_get v i = Ret x.
Proof.
  intros Hi H. rewrite <- (Z2Nat.id i) by done. by apply vec_get_lookup.
Qed.

Lemma vec_set_ok {A} (v : list A) (i : Z) (x : A) :
  0 <= i < vsize v -> vec_set v i x = Ret (<[Z.to_nat i := x]> v).
Proof.
  intros [Hlo Hhi]. unfold vec_set.
  destruct (Z.leb_spec 0 i); [|lia]. destruct (Z.ltb_spec i (vsize v)); [|lia]. done.
Qed.

Lemma to_nat_ne (x y : Z) : 0 <= x -> 0 <= y -> x <> y -> Z.to_nat x <> Z.to_nat y.
Proof. lia. Qed.

Lemma first_named_ext names names' chain name :
  (forall x, x ∈ chain -> names' !! Z.to_nat x = names !! Z.to_nat x) ->
  first_named names' chain name = first_named names chain name.
Proof.
  induction chain as [|x chain IH]; intros Hext; simpl; [done|].
  rewrite Hext by set_solver. rewrite IH; [done|].
  intros y Hy. apply Hext. set_solver.
Qed.

Section Registry.
Context `{HDR : LexerHeader} `{COL : Collaborators}.

(** [add_element_type] puts the new record at the head of the live chain. *)
Lemma add_element_type_spec (name : string) (e : Element) (L : Lexer) (live free : list Z) :
  wf_registry L live free ->
  exists tid L',
    add_element_type name e L = Ret (tid, L')
    /\ wf_registry L' (tid :: live) (tail free)
    /\ (tid ∉ live)
    /\ _element_type_names L' !! Z.to_nat tid = Some (registered_name name e)
    /\ _element_types L' !! Z.to_nat tid = Some (Some e)
    /\ _element_type_map L' = <[registered_name name e := tid]> (_element_type_map L)
    /\ (forall x, x ∈ live ->
          _element_type_names L' !! Z.to_nat x = _element_type_names L !! Z.to_nat x
          /\ _element_types L' !! Z.to_nat x = _element_types L !! Z.to_nat x).
Proof.
  intros [Hlive Hfree Hnd Hnames Htypes].
  pose proof (is_chain_bounds _ _ _ Hlive) as Blive.
  pose proof (is_chain_bounds _ _ _ Hfree) as Bfree.
  rewrite Forall_forall in Blive, Bfree.
  unfold add_element_type, bind, get, modify, ret, lift_res.
  fold (registered_name name e).
  destruct free as [|f free'].
  - (* a new slot *)
    simpl in Hfree. unfold free_chain in Hfree. simpl in Hfree. rewrite Hfree. simpl.
    set (tid := vsize (_element_types L)).
    assert (Htid : Z.to_nat tid = length (_element_type_next L)) by (unfold tid, vsize; lia).
    assert (Hnew : tid ∉ live).
    { intros Hin. apply Blive in Hin. unfold tid, vsize in *. lia. }
    eexists _, _. split; [reflexivity|]. simpl.
    split; [split; simpl|].
    + unfold live_chain. simpl. repeat split; [unfold tid, vsize; lia|].
      exists (_last_element_type L). split.
      * rewrite Htid. by rewrite lookup_app_r, Nat.sub_diag.
      * eapply is_chain_ext; [|exact Hlive].
        intros x Hx. apply Blive in Hx. apply lookup_app_l. unfold vsize in *. lia.
    + unfold free_chain. simpl. done.
    + rewrite app_nil_r in *. apply NoDup_cons. done.
    + rewrite !length_app. simpl. lia.
    + rewrite !length_app. simpl. lia.
    + split; [done|].
      split; [rewrite Htid, <- Hnames; by rewrite lookup_app_r, Nat.sub_diag|].
      split; [rewrite Htid, <- Htypes; by rewrite lookup_app_r, Nat.sub_diag|].
      split; [done|].
      intros x Hx. apply Blive in Hx.
      split; apply lookup_app_l; unfold vsize in *; lia.
  - (* a slot of the free list *)
    unfold free_chain in Hfree. simpl in Hfree.
    destruct Hfree as (Ef & Hf0 & n & Hn & Hfree').
    rewrite Ef. destruct (Z.ltb_spec f 0); [lia|]. simpl.
    assert (Hfb : 0 <= f < vsize (_element_type_next L)) by (apply Bfree; set_solver).
    rewrite (vec_get_ok _ _ _ Hf0 Hn). simpl.
    rewrite (vec_set_ok (_element_types L)) by (unfold vsize in *; lia). simpl.
    rewrite (vec_set_ok (_element_type_names L)) by (unfold vsize in *; lia). simpl.
    rewrite (vec_set_ok (_element_type_next L)) by (unfold vsize in *; lia). simpl.
    apply NoDup_app in Hnd as (Hndl & Hdisj & Hndf).
    apply NoDup_cons in Hndf as [Hff Hndf'].
    assert (Hnew : f ∉ live) by (intros Hin; apply (Hdisj f Hin); set_solver).
    eexists _, _. split; [reflexivity|]. simpl.
    split; [split; simpl|].
    + unfold live_chain. simpl. repeat split; [done|].
      exists (_last_element_type L). split.
      * apply list_lookup_insert_eq. unfold vsize in *. lia.
      * eapply is_chain_ext; [|exact Hlive].
        intros x Hx. apply list_lookup_insert_ne.
        apply to_nat_ne; [done | apply Blive; done | intros ->; done].
    + unfold free_chain. simpl.
      eapply is_chain_ext; [|exact Hfree'].
      intros x Hx. apply list_lookup_insert_ne.
      apply to_nat_ne; [done | apply Bfree; set_solver | intros ->; done].
    + change (NoDup ((f :: live) ++ free')).
      apply NoDup_app. split; [by apply NoDup_cons|]. split; [|done].
      intros x [->|Hx]%elem_of_cons; [done|].
      intros Hx'. apply (Hdisj x Hx). set_solver.
    + by rewrite !length_insert.
    + by rewrite !length_insert.
    + split; [done|].
      split; [apply list_lookup_insert_eq; unfold vsize in *; lia|].
      split; [apply list_lookup_insert_eq; unfold vsize in *; lia|].
      split; [done|].
      intros x Hx.
      split; apply list_lookup_insert_ne;
        (apply to_nat_ne; [done | apply Blive; done | intros ->; done]).
Qed.

Lemma find_same_name_spec (fuel : nat) (L : Lexer) (name : string) (start : Z) (rest : list Z) :
  is_chain (_element_type_next L) start rest ->
  length (_element_type_names L) = length (_element_type_next L) ->
  (length rest < fuel)%nat ->
  find_same_name fuel L name start = Ret (first_named (_element_type_names L) rest name).
Proof.
  revert fuel start. induction rest as [|x rest IH]; intros fuel start Hc Hlen Hfuel;
    (destruct fuel as [|fuel]; [simpl in Hfuel; lia|]); simpl in *.
  - by rewrite Hc.
  - destruct Hc as (-> & Hx & n & Hn & Hc).
    destruct (Z.leb_spec 0 x); [|lia].
    destruct (lookup_lt_is_Some_2 (_element_type_names L) (Z.to_nat x)) as [nm Hnm].
    { rewrite Hlen. by apply lookup_lt_Some in Hn. }
    rewrite (vec_get_ok _ _ _ Hx Hnm). simpl. rewrite Hnm.
    destruct (decide (nm = name)) as [->|Hne].
    + by rewrite !bool_decide_eq_true_2.
    + rewrite (bool_decide_eq_false_2 (nm = name)) by done.
      rewrite (bool_decide_eq_false_2 (Some nm = Some name)) by congruence. simpl.
      rewrite (vec_get_ok _ _ _ Hx Hn). simpl.
      apply IH; [done | done | lia].
Qed.

(** The registry once the newest live record [r] has been unlinked and its
    slot put on the free list. *)
Lemma removed_state_wf (L L' : Lexer) (r n : Z) (rest free : list Z) :
  wf_registry L (r :: rest) free ->
  _element_type_next L !! Z.to_nat r = Some n ->
  _element_type_next L' = <[Z.to_nat r := _free_element_type L]> (_element_type_next L) ->
  _element_type_names L' = <[Z.to_nat r := ""%string]> (_element_type_names L) ->
  _element_types L' = <[Z.to_nat r := None]> (_element_types L) ->
  _last_element_type L' = n ->
  _free_element_type L' = r ->
  wf_registry L' rest (r :: free)
  /\ _element_types L' !! Z.to_nat r = Some None
  /\ (forall x, 0 <= x -> x <> r ->
        _element_type_names L' !! Z.to_nat x = _element_type_names L !! Z.to_nat x
        /\ _element_types L' !! Z.to_nat x = _element_types L !! Z.to_nat x).
Proof.
  intros [Hlive Hfree Hnd Hnames Htypes] Hn Enext Enames Etypes Elast Efree.
  pose proof (is_chain_bounds _ _ _ Hlive) as Blive.
  pose proof (is_chain_bounds _ _ _ Hfree) as Bfree.
  rewrite Forall_forall in Blive, Bfree.
  unfold live_chain in Hlive. simpl in Hlive.
  destruct Hlive as (_ & Hr0 & n' & Hn' & Hrest).
  assert (n' = n) as -> by congruence.
  assert (Hrb : 0 <= r < vsize (_element_type_next L)) by (apply Blive; set_solver).
  apply NoDup_app in Hnd as (Hndl & Hdisj & Hndf).
  apply NoDup_cons in Hndl as [Hrr Hndl'].
  split; [split|split].
  - unfold live_chain. rewrite Enext, Elast.
    eapply is_chain_ext; [|exact Hrest].
    intros x Hx. apply list_lookup_insert_ne.
    apply to_nat_ne; [done | apply Blive; set_solver | by intros ->].
  - unfold free_chain. rewrite Enext, Efree. simpl. repeat split; [done|].
    exists (_free_element_type L). split.
    + apply list_lookup_insert_eq. unfold vsize in *. lia.
    + eapply is_chain_ext; [|exact Hfree].
      intros x Hx. apply list_lookup_insert_ne.
      apply to_nat_ne; [done | by apply Bfree | intros ->].
      apply (Hdisj x); [set_solver | done].
  - apply NoDup_app. split; [done|]. split.
    + intros x Hx [->|Hx']%elem_of_cons; [done|].
      apply (Hdisj x); [set_solver | done].
    + apply NoDup_cons. split; [|done].
      intros Hin. apply (Hdisj r); [set_solver | done].
  - by rewrite Enames, Enext, !length_insert.
  - by rewrite Etypes, Enext, !length_insert.
  - rewrite Etypes. apply list_lookup_insert_eq. unfold vsize in *. lia.
  - intros x Hx Hne. rewrite Enames, Etypes.
    split; apply list_lookup_insert_ne; by apply to_nat_ne.
Qed.

(** What [remove_element_type] does to the newest live record. *)
Lemma remove_newest_spec (fuel : nat) (r : Z) (rest free : list Z) (L : Lexer) :
  wf_registry L (r :: rest) free ->
  (length rest < fuel)%nat ->
  exists L' name,
    remove_element_type fuel r L = Ret (tt, L')
    /\ wf_registry L' rest (r :: free)
    /\ _element_type_names L !! Z.to_nat r = Some name
    /\ _element_type_map L'
       = (if decide (hm_get (_element_type_map L) name = r)
          then <[name := first_named (_element_type_names L) rest name]> (_element_type_map L)
          else _element_type_map L)
    /\ _element_types L' !! Z.to_nat r = Some None
    /\ (forall x, 0 <= x -> x <> r ->
          _element_type_names L' !! Z.to_nat x = _element_type_names L !! Z.to_nat x
          /\ _element_types L' !! Z.to_nat x = _element_types L !! Z.to_nat x).
Proof.
  intros Hwf Hfuel.
  pose proof Hwf as [Hlive Hfree Hnd Hnames Htypes].
  pose proof (is_chain_bounds _ _ _ Hlive) as Blive.
  rewrite Forall_forall in Blive.
  unfold live_chain in Hlive. simpl in Hlive.
  destruct Hlive as (Elast & Hr0 & n & Hn & Hrest).
  assert (Hrb : 0 <= r < vsize (_element_type_next L)) by (apply Blive; set_solver).
  destruct (lookup_lt_is_Some_2 (_element_type_names L) (Z.to_nat r)) as [name Hname].
  { rewrite Hnames. by apply lookup_lt_Some in Hn. }
  assert (Hfind0 : find_removed fuel L r (-1) r = Ret (-1, r)).
  { destruct fuel; [lia|]. simpl. by rewrite Z.eqb_refl. }
  unfold remove_element_type.
  mstep. rewrite Elast.
  rewrite (bind_get_res _ _ _ _ Hfind0). cbn beta iota zeta.
  destruct (Z.ltb_spec r 0); [lia|].
  msteps. rewrite (vec_get_ok _ _ _ Hr0 Hn). msteps.
  destruct (Z.leb_spec 0 (-1)); [lia|].
  msteps. simpl. rewrite (vec_get_ok _ _ _ Hr0 Hname). msteps.
  unfold element_type. simpl.
  assert (Hend : forall L1,
    _element_type_next L1 = _element_type_next L ->
    _element_type_names L1 = _element_type_names L ->
    _element_types L1 = _element_types L ->
    _free_element_type L1 = _free_element_type L ->
    _last_element_type L1 = n ->
    exists L',
      (let* names := get _element_type_names in
       let* names' := lift_res (vec_set names r ""%string) in
       let* _ := modify (set_element_type_names names') in
       let* types := get _element_types in
       let* types' := lift_res (vec_set types r None) in
       let* _ := modify (set_element_types types') in
       let* next := get _element_type_next in
       let* free := get _free_element_type in
       let* next' := lift_res (vec_set next r free) in
       let* _ := modify (set_element_type_next next') in
       modify (set_free_element_type r)) L1 = Ret (tt, L')
      /\ _element_type_map L' = _element_type_map L1
      /\ wf_registry L' rest (r :: free)
      /\ _element_types L' !! Z.to_nat r = Some None
      /\ (forall x, 0 <= x -> x <> r ->
            _element_type_names L' !! Z.to_nat x = _element_type_names L !! Z.to_nat x
            /\ _element_types L' !! Z.to_nat x = _element_types L !! Z.to_nat x)).
  { intros L1 E1 E2 E3 E4 E5.
    msteps. rewrite E2, vec_set_ok by (unfold vsize in *; lia).
    msteps. simpl. rewrite E3, vec_set_ok by (unfold vsize in *; lia).
    msteps. simpl. rewrite E1, E4, vec_set_ok by (unfold vsize in *; lia).
    msteps. eexists. split; [reflexivity|]. split; [done|].
    eapply removed_state_wf; [exact Hwf | exact Hn | done..]. }
  destruct (Z.eqb_spec (hm_get (_element_type_map L) name) r) as [E|N].
  - msteps. simpl. rewrite (vec_get_ok _ _ _ Hr0 Hn). msteps.
    pose proof (find_same_name_spec fuel (set_last_element_type n L) name n rest
                  Hrest Hnames Hfuel) as Hfind.
    rewrite (bind_get_res _ _ _ _ Hfind). cbn beta iota zeta. msteps.
    match goal with
    | |- exists _ _, _ ?L1 = _ /\ _ =>
        destruct (Hend L1) as (L' & HE & Emap & Hw & Ht & Hfr); [done..|]
    end.
    exists L', name. split; [exact HE|].
    split; [exact Hw|]. split; [exact Hname|].
    split; [rewrite Emap; simpl; by rewrite decide_True|].
    split; [exact Ht | exact Hfr].
  - msteps.
    match goal with
    | |- exists _ _, _ ?L1 = _ /\ _ =>
        destruct (Hend L1) as (L' & HE & Emap & Hw & Ht & Hfr); [done..|]
    end.
    exists L', name. split; [exact HE|].
    split; [exact Hw|]. split; [exact Hname|].
    split; [rewrite Emap; simpl; by rewrite decide_False|].
    split; [exact Ht | exact Hfr].
Qed.

(** Removing the newest record keeps the name map accurate. *)
Lemma remove_newest_accurate (L L' : Lexer) (r : Z) (rest : list Z) (name : string) :
  NoDup (r :: rest) -> Forall (fun x => 0 <= x) (r :: rest) ->
  _element_type_names L !! Z.to_nat r = Some name ->
  _element_type_map L'
  = (if decide (hm_get (_element_type_map L) name = r)
     then <[name := first_named (_element_type_names L) rest name]> (_element_type_map L)
     else _element_type_map L) ->
  (forall x, 0 <= x -> x <> r ->
     _element_type_names L' !! Z.to_nat x = _element_type_names L !! Z.to_nat x) ->
  map_accurate L (r :: rest) -> map_accurate L' rest.
Proof.
  intros [Hr Hnd]%NoDup_cons [Hr0 Hpos]%Forall_cons Hname Hmap Hframe Hacc nm.
  rewrite Forall_forall in Hpos.
  rewrite (first_named_ext (_element_type_names L)).
  2:{ intros x Hx. apply Hframe; [by apply Hpos | by intros ->]. }
  pose proof (Hacc name) as Hn. simpl in Hn. rewrite Hname in Hn.
  rewrite bool_decide_eq_true_2 in Hn by done.
  rewrite Hmap, decide_True by done.
  unfold hm_get. destruct (decide (nm = name)) as [->|Hne].
  - by rewrite lookup_insert_eq.
  - rewrite lookup_insert_ne by done.
    specialize (Hacc nm). simpl in Hacc. unfold hm_get in Hacc.
    rewrite Hacc, Hname. by rewrite bool_decide_eq_false_2 by congruence.
Qed.

(** How [add_element_type] keeps the name map accurate. *)
Lemma add_element_type_accurate (L L' : Lexer) (live : list Z) (tid : Z) (name : string) :
  tid ∉ live ->
  _element_type_names L' !! Z.to_nat tid = Some name ->
  _element_type_map L' = <[name := tid]> (_element_type_map L) ->
  (forall x, x ∈ live ->
     _element_type_names L' !! Z.to_nat x = _element_type_names L !! Z.to_nat x) ->
  map_accurate L live -> map_accurate L' (tid :: live).
Proof.
  intros Hnew Hname Hmap Hframe Hacc nm. simpl.
  rewrite Hname, Hmap. unfold hm_get.
  destruct (decide (name = nm)) as [->|Hne].
  - by rewrite lookup_insert_eq, bool_decide_eq_true_2.
  - rewrite lookup_insert_ne by done.
    rewrite bool_decide_eq_false_2 by congruence.
    rewrite (first_named_ext (_element_type_names L)) by done.
    apply Hacc.
Qed.

Lemma add_element_types_spec (adds : list (string * Element)) (L0 : Lexer)
  (live0 free0 : list Z) :
  wf_registry L0 live0 free0 ->
  exists new_ids free L,
    add_element_types adds L0 = Ret (tt, L)
    /\ wf_registry L (new_ids ++ live0) free
    /\ length new_ids = length adds
    /\ (forall x, x ∈ live0 ->
          _element_type_names L !! Z.to_nat x = _element_type_names L0 !! Z.to_nat x
          /\ _element_types L !! Z.to_nat x = _element_types L0 !! Z.to_nat x)
    /\ (map_accurate L0 live0 -> map_accurate L (new_ids ++ live0)).
Proof.
  revert L0 live0 free0. induction adds as [|[name e] adds IH]; intros L0 live0 free0 Hwf.
  { exists [], free0, L0. simpl. split; [done|]. split; [exact Hwf|]. repeat split; done. }
  destruct (add_element_type_spec name e L0 live0 free0 Hwf)
    as (tid & L1 & E1 & Hwf1 & Hnew & Hn1 & Ht1 & Hm1 & Hfr1).
  destruct (IH L1 (tid :: live0) (tail free0) Hwf1)
    as (new_ids & free & L & E & Hwf' & Hlen & Hfr & Hacc).
  exists (new_ids ++ [tid]), free, L. simpl.
  rewrite (bind_Ret _ _ _ _ _ E1). rewrite <- app_assoc. simpl.
  split; [done|]. split; [done|].
  split; [rewrite length_app; simpl; lia|].
  split.
  - intros x Hx. destruct (Hfr x) as [-> ->]; [set_solver|]. by apply Hfr1.
  - intros Hacc0. apply Hacc.
    eapply add_element_type_accurate; eauto.
    intros x Hx. by apply Hfr1.
Qed.

Lemma on_scope_chain_spec (fuel : nat) (L : Lexer) (t cookie : Z) (pre post : list Z) :
  is_chain (_element_type_next L) t (pre ++ cookie :: post) ->
  (length pre < fuel)%nat ->
  on_scope_chain fuel L t cookie = Ret true.
Proof.
  revert fuel t. induction pre as [|x pre IH]; intros fuel t Hc Hfuel;
    (destruct fuel as [|fuel]; [simpl in Hfuel; lia|]); simpl in *.
  - destruct Hc as (-> & Hx & _).
    destruct (Z.leb_spec 0 cookie); [|lia]. by rewrite Z.eqb_refl.
  - destruct Hc as (-> & Hx & n & Hn & Hc).
    destruct (Z.leb_spec 0 x); [|lia].
    destruct (Z.eqb_spec x cookie); [done|].
    rewrite (vec_get_ok _ _ _ Hx Hn). simpl.
    apply IH; [done | lia].
Qed.

Lemma remove_until_spec (fuel : nat) (cookie : Z) (ids live0 free : list Z) (L : Lexer) :
  wf_registry L (ids ++ live0) free ->
  cookie = default (-1) (head live0) ->
  (length (ids ++ live0) < fuel)%nat ->
  exists L' free',
    remove_until fuel cookie L = Ret (tt, L')
    /\ scoped_out live0 ids L L'
    /\ wf_registry L' live0 free'
    /\ (forall x, x ∈ live0 ->
          _element_type_names L' !! Z.to_nat x = _element_type_names L !! Z.to_nat x
          /\ _element_types L' !! Z.to_nat x = _element_types L !! Z.to_nat x)
    /\ (map_accurate L (ids ++ live0) -> map_accurate L' live0).
Proof.
  revert fuel free L. induction ids as [|r ids IH]; intros fuel free L Hwf Hcookie Hfuel;
    (destruct fuel as [|fuel]; [simpl in Hfuel; lia|]); simpl in *.
  - pose proof (wf_live _ _ _ Hwf) as Hlive.
    apply is_chain_head in Hlive. rewrite <- Hcookie in Hlive.
    mstep. rewrite Hlive, Z.eqb_refl. simpl.
    exists L, free. split; [done|]. split; [constructor; apply Hwf|].
    split; [exact Hwf|]. split; done.
  - pose proof (wf_live _ _ _ Hwf) as Hlive.
    pose proof (wf_nodup _ _ _ Hwf) as Hnd.
    pose proof (is_chain_bounds _ _ _ Hlive) as Hb.
    destruct Hlive as (Elast & Hr0 & _).
    apply NoDup_app in Hnd as (Hnd & _ & _).
    assert (Hne : r <> cookie).
    { subst cookie. destruct live0 as [|c live0']; simpl; [lia|].
      intros ->. apply NoDup_cons in Hnd as [Hnd _]. apply Hnd. set_solver. }
    destruct (remove_newest_spec fuel r (ids ++ live0) free L Hwf ltac:(lia))
      as (L1 & name & E1 & Hwf1 & Hname & Hmap & Htype & Hfr1).
    destruct (IH fuel (r :: free) L1 Hwf1 Hcookie ltac:(lia))
      as (L' & free' & E & Hso & Hwf' & Hfr & Hacc).
    exists L', free'.
    mstep. rewrite Elast.
    destruct (Z.eqb_spec r cookie); [done|]. simpl.
    rewrite (bind_Ret _ _ _ _ _ E1).
    split; [done|]. split.
    + eapply scoped_out_remove; eauto; [apply Hwf|].
      intros Hpt. rewrite Hmap, decide_True by done.
      unfold hm_get. by rewrite lookup_insert_eq.
    + split; [done|]. split.
      * intros x Hx. destruct (Hfr x Hx) as [-> ->].
        apply NoDup_cons in Hnd as [Hnr _].
        apply Forall_cons in Hb as [_ Hb]. rewrite Forall_forall in Hb.
        apply Hfr1; [apply Hb; set_solver | intros ->; apply Hnr; set_solver].
      * intros Hacc0. apply Hacc.
        eapply (remove_newest_accurate L L1 r); eauto.
        -- eapply Forall_impl; [exact Hb|]. simpl. lia.
        -- intros x Hx Hxr. by apply Hfr1.
Qed.

(** C5: [lexical_scoping_out], given the cookie of [lexical_scoping_in],
    removes the records registered after the checkpoint, newest first, and
    no other; with each removal the name map is repaired, so that the name
    of the removed record goes to the next older live record of that name,
    or to no record.  The chain of live records, their names and classes,
    and the name map are then as they were at the checkpoint. *)
Theorem lexical_scoping_out_restores (L0 : Lexer) (live0 free0 : list Z)
  (adds : list (string * Element)) (fuel : nat) :
  wf_registry L0 live0 free0 ->
  (length adds + length live0 < fuel)%nat ->
  exists new_ids L L',
    (* the records added after the checkpoint head the live chain *)
    add_element_types adds L0 = Ret (tt, L)
    /\ live_chain L (new_ids ++ live0)
    /\ length new_ids = length adds
    (* they are removed, newest first, and nothing else is *)
    /\ lexical_scoping_out fuel (lexical_scoping_in L0) L = Ret (tt, L')
    /\ scoped_out live0 new_ids L L'
    /\ live_chain L' live0
    /\ _last_element_type L' = _last_element_type L0
    /\ (forall x, x ∈ live0 ->
          _element_type_names L' !! Z.to_nat x = _element_type_names L0 !! Z.to_nat x
          /\ _element_types L' !! Z.to_nat x = _element_types L0 !! Z.to_nat x)
    (* and the name map is back where it was *)
    /\ (map_accurate L0 live0 ->
        map_accurate L' live0
        /\ forall name,
             hm_get (_element_type_map L') name = hm_get (_element_type_map L0) name).
Proof.
  intros Hwf0 Hfuel.
  destruct (add_element_types_spec adds L0 live0 free0 Hwf0)
    as (new_ids & free & L & Eadd & Hwf & Hlen & Hfr & Hacc).
  pose proof (is_chain_head _ _ _ (wf_live _ _ _ Hwf0)) as Hcookie.
  destruct (remove_until_spec fuel (_last_element_type L0) new_ids live0 free L Hwf Hcookie)
    as (L' & free' & Erem & Hso & Hwf' & Hfr' & Hacc').
  { rewrite length_app. lia. }
  exists new_ids, L, L'.
  split; [done|]. split; [apply Hwf|]. split; [done|].
  assert (Eout : lexical_scoping_out fuel (lexical_scoping_in L0) L = Ret (tt, L')).
  { unfold lexical_scoping_out, lexical_scoping_in.
    destruct (Z.eqb_spec (_last_element_type L0) (-1)) as [E|N]; simpl.
    - mstep. by rewrite E in *.
    - destruct live0 as [|c live0']; [done|]. simpl in Hcookie.
      rewrite (bind_get_res _ true).
      + done.
      + eapply (on_scope_chain_spec _ _ _ _ new_ids live0').
        * rewrite Hcookie. apply Hwf.
        * lia. }
  split; [done|]. split; [done|]. split; [apply Hwf'|].
  split.
  { pose proof (is_chain_head _ _ _ (wf_live _ _ _ Hwf')) as HL'.
    by rewrite HL', Hcookie. }
  split.
  { intros x Hx. destruct (Hfr' x Hx) as [-> ->]. by apply Hfr. }
  intros Hacc0. split; [by apply Hacc', Hacc|].
  intros name. rewrite (Hacc' (Hacc Hacc0) name), (Hacc0 name).
  apply first_named_ext. intros x Hx. destruct (Hfr' x Hx) as [-> _]. by apply Hfr.
Qed.

End Registry.

Lemma lexical_scoping_out_restores_witness :
  exists new_ids L L',
    add_element_types scope_adds (example_lexer "") = Ret (tt, L)
    /\ live_chain L (new_ids ++ [2; 1; 0])
    /\ length new_ids = length scope_adds
    /\ lexical_scoping_out 6 (lexical_scoping_in (example_lexer "")) L = Ret (tt, L')
    /\ scoped_out [2; 1; 0] new_ids L L'
    /\ live_chain L' [2; 1; 0]
    /\ _last_element_type L' = _last_element_type (example_lexer "")
    /\ (forall x, x ∈ [2; 1; 0] ->
          _element_type_names L' !! Z.to_nat x
          = _element_type_names (example_lexer "") !! Z.to_nat x
          /\ _element_types L' !! Z.to_nat x = _element_types (example_lexer "") !! Z.to_nat x)
    /\ (map_accurate (example_lexer "") [2; 1; 0] ->
        map_accurate L' [2; 1; 0]
        /\ forall name,
             hm_get (_element_type_map L') name
             = hm_get (_element_type_map (example_lexer "")) name).
Proof.
  apply (lexical_scoping_out_restores (example_lexer "") [2; 1; 0] [] scope_adds 6).
  - split.
    + vm_compute. repeat split; try discriminate; eexists; (split; [reflexivity|]).
      repeat split; try discriminate; eexists; (split; [reflexivity|]).
      repeat split; try discriminate; eexists; (split; [reflexivity|]). reflexivity.
    + reflexivity.
    + apply (bool_decide_unpack _). vm_compute. reflexivity.
    + reflexivity.
    + reflexivity.
  - simpl. lia.
Defined.

(** ** Building the router *)

Lemma res_bind_inv {A B} (r : Res A) (k : A -> Res B) (b : B) :
  res_bind r k = Ret b -> exists a, r = Ret a /\ k a = Ret b.
Proof. destruct r; simpl; [eauto | done | done]. Qed.

(** What a loop keeps when every turn keeps it. *)
Lemma for_range_preserves {S : Type} (P : S -> Prop) (n : nat) (i : Z)
  (body : Z -> S -> Res S) (s s' : S) :
  (forall i s s', body i s = Ret s' -> P s -> P s') ->
  for_range n i body s = Ret s' -> P s -> P s'.
Proof.
  intros Hbody. revert i s. induction n as [|n IH]; intros i s; simpl.
  - by intros [= ->].
  - intros (s1 & E1 & E)%res_bind_inv HP. eapply IH; eauto.
Qed.

Lemma for_range_M_preserves {S : Type} (P : S -> Lexer -> Prop) (n : nat) (i : Z)
  (body : Z -> S -> M S) (s s' : S) (L L' : Lexer) :
  (forall i s L s' L', body i s L = Ret (s', L') -> P s L -> P s' L') ->
  for_range_M n i body s L = Ret (s', L') -> P s L -> P s' L'.
Proof.
  intros Hbody. revert i s L. induction n as [|n IH]; intros i s L; simpl.
  - by intros [= -> ->].
  - intros (s1 & L1 & E1 & E)%bind_inv HP. eapply IH; eauto.
Qed.

Section Completion.
Context `{HDR : LexerHeader} `{COL : Collaborators}.

Lemma router_id_maps (elements router_id : list Z) (i v p : Z) :
  router_ids_of elements router_id ->
  vec_get router_id i = Ret v -> 0 <= v ->
  maps_element elements router_id (mkHookup v p).
Proof.
  intros [Hlen Htun] [Hi Hv]%vec_get_Ret Hpos. split; [done|]. simpl.
  destruct (lookup_lt_is_Some_2 elements (Z.to_nat i)) as [t Ht].
  { rewrite <- Hlen. by apply lookup_lt_Some in Hv. }
  exists (Z.to_nat i), t. split; [done|]. split; [|done].
  intros ->. rewrite (Htun _ Ht) in Hv. injection Hv as <-. lia.
Qed.

Lemma add_connection_connects elements router_id router fi fp ti tp :
  connects_elements elements router_id router ->
  maps_element elements router_id (mkHookup fi fp) ->
  maps_element elements router_id (mkHookup ti tp) ->
  connects_elements elements router_id (add_connection fi fp ti tp router).
Proof.
  intros Hc Hf Ht f t. unfold add_connection. simpl.
  intros [Hin | Hin%list_elem_of_singleton]%elem_of_app; [by apply Hc|].
  by injection Hin as -> ->.
Qed.

Lemma add_router_connections_connects fuel c elements router_id router router' L L' :
  router_ids_of elements router_id ->
  connects_elements elements router_id router ->
  add_router_connections fuel c router_id router L = Ret (router', L') ->
  connects_elements elements router_id router'.
Proof.
  intros Hids Hc. unfold add_router_connections.
  intros (hf & L1 & _ & E)%bind_inv.
  apply bind_inv in E as (hfrom & L2 & _ & E).
  apply bind_inv in E as (ht & L3 & _ & E).
  apply bind_inv in E as (hto & L4 & _ & E).
  apply lift_res_inv in E as [E _].
  eapply (for_range_preserves (connects_elements elements router_id)); [|exact E|exact Hc].
  clear E. intros f r r'.
  intros (hff & _ & E)%res_bind_inv.
  apply res_bind_inv in E as (eidx & Ee & E).
  destruct (Z.leb_spec 0 eidx); [|by injection E as <-].
  intros Hr.
  eapply (for_range_preserves (connects_elements elements router_id)); [|exact E|exact Hr].
  clear E. intros t r1 r1'.
  intros (htt & _ & E)%res_bind_inv.
  apply res_bind_inv in E as (tidx & Et & E).
  destruct (Z.leb_spec 0 tidx); [|by injection E as <-].
  injection E as <-. intros Hr1.
  apply add_connection_connects; [done | by eapply router_id_maps..].
Qed.

Lemma add_router_hookup_connects fuel i elements router_id router router' L L' :
  router_ids_of elements router_id ->
  connects_elements elements router_id router ->
  add_router_hookup fuel router_id i router L = Ret (router', L') ->
  connects_elements elements router_id router'.
Proof.
  intros Hids Hc. unfold add_router_hookup.
  intros (hf & L1 & _ & E)%bind_inv.
  apply bind_inv in E as (ht & L2 & _ & E).
  apply bind_inv in E as (fromi & L3 & [Ef _]%lift_res_inv & E).
  apply bind_inv in E as (toi & L4 & [Et _]%lift_res_inv & E).
  destruct (Z.leb_spec 0 fromi); simpl in E.
  - destruct (Z.leb_spec 0 toi); simpl in E.
    + injection E as <- _.
      apply add_connection_connects; [done | by eapply router_id_maps..].
    + by eapply add_router_connections_connects.
  - by eapply add_router_connections_connects.
Qed.

(** The loop over the elements leaves the state alone, gives every element
    an entry and every tunnel the entry [-1]. *)
Lemma add_router_elements_ids (n : nat) (L L' : Lexer) (router_id : list Z)
  (router router' : Router) (ids : list Z) :
  for_range_M n (vsize router_id) add_router_element (router_id, router) L
  = Ret ((ids, router'), L') ->
  (forall i : nat, _elements L !! i = Some TUNNEL_TYPE -> (i < length router_id)%nat ->
     router_id !! i = Some (-1)) ->
  L' = L
  /\ r_connections router' = r_connections router
  /\ length ids = (length router_id + n)%nat
  /\ forall i : nat, _elements L !! i = Some TUNNEL_TYPE -> (i < length ids)%nat ->
       ids !! i = Some (-1).
Proof.
  revert router_id router L. induction n as [|n IH]; intros router_id router L; simpl.
  { intros [= -> -> ->] Hinv. repeat split; [lia | done]. }
  intros (st & L1 & E1 & E)%bind_inv Hinv.
  assert (H1 : L1 = L /\ exists v router1,
             st = (router_id ++ [v], router1)
             /\ r_connections router1 = r_connections router
             /\ (_elements L !! length router_id = Some TUNNEL_TYPE -> v = -1)).
  { unfold add_router_element in E1.
    apply bind_inv in E1 as (t & L2 & [Et ->]%get_res_inv & E1).
    apply vec_get_Ret in Et as [_ Et].
    replace (Z.to_nat (vsize router_id)) with (length router_id) in Et
      by (unfold vsize; lia).
    destruct (Z.eqb_spec t TUNNEL_TYPE) as [->|Hne]; simpl in E1.
    - injection E1 as <- <-. split; [done|]. eexists _, _. eauto.
    - apply bind_inv in E1 as (et & L3 & [_ ->]%get_res_inv & E1).
      apply bind_inv in E1 as (tc & L4 & [_ ->]%lift_res_inv & E1).
      apply bind_inv in E1 as (name & L5 & [_ ->]%get_res_inv & E1).
      apply bind_inv in E1 as (conf & L6 & [_ ->]%get_res_inv & E1).
      apply bind_inv in E1 as (lm & L7 & [_ ->]%get_res_inv & E1).
      injection E1 as <- <-. split; [done|].
      eexists _, _. split; [done|]. split; [done|]. intros Ht'. congruence. }
  destruct H1 as (-> & v & router1 & -> & Hconn & Hv).
  replace (vsize router_id + 1) with (vsize (router_id ++ [v])) in E
    by (unfold vsize; rewrite length_app; simpl; lia).
  apply IH in E as (-> & Hconn' & Hlen & Hids).
  - rewrite length_app in Hlen. simpl in Hlen.
    repeat split; [congruence | lia | done].
  - intros i Ht. rewrite length_app. simpl. intros Hi.
    destruct (decide (i = length router_id)) as [->|Hne].
    + rewrite Hv by done. by rewrite lookup_app_r, Nat.sub_diag.
    + rewrite lookup_app_l by lia. apply Hinv; [done | lia].
Qed.

(** C3: both ends of every connection that [create_router] gives to the
    router are elements that are no tunnels, also when the connection
    comes from the expansion of a tunnel: an element of the tunnel type
    receives the router index [-1], and each end of a connection is the
    index, not negative, that the router gave to an element of another
    type. *)
Theorem create_router_connects_elements (fuel : nat) (L L' : Lexer) (router : Router) :
  create_router fuel L = Ret (router, L') ->
  exists (L1 : Lexer) (router_id : list Z) (router1 : Router),
    (* the elements once the compounds are expanded *)
    expand_compounds fuel 0 (mkEnvironments (replicate (length (_elements L)) 0) [ve_empty]) L
    = Ret (tt, L1)
    (* their indices in the router: tunnels receive [-1] *)
    /\ for_range_M (length (_elements L1)) 0 add_router_element ([], new_Router) L1
       = Ret ((router_id, router1), L1)
    /\ length router_id = length (_elements L1)
    /\ (forall i : nat, _elements L1 !! i = Some TUNNEL_TYPE -> router_id !! i = Some (-1))
    (* both ends of every connection are elements that are no tunnels *)
    /\ forall f t, (f, t) ∈ r_connections router ->
         maps_element (_elements L1) router_id f /\ maps_element (_elements L1) router_id t.
Proof.
  unfold create_router.
  intros (n & L0 & [= <- <-] & E)%bind_inv.
  apply bind_inv in E as ([] & L1 & E1 & E).
  apply bind_inv in E as (n1 & L1' & [= <- <-] & E).
  apply bind_inv in E as ([router_id router1] & L2 & E2 & E).
  pose proof E2 as Hids.
  apply (add_router_elements_ids _ _ _ [] new_Router) in Hids as (-> & Hno & Hlen & Htun);
    [|intros i _ Hi; simpl in Hi; lia].
  simpl in Hlen, Hno.
  apply bind_inv in E as (nh & L3 & [= <- <-] & E).
  apply bind_inv in E as (router2 & L4 & E3 & E).
  apply bind_inv in E as (reqs & L5 & [= <- <-] & E).
  injection E as <- <-.
  exists L1, router_id, router1.
  split; [done|]. split; [done|]. split; [done|].
  assert (Hrids : router_ids_of (_elements L1) router_id).
  { split; [done|]. intros i Ht. apply Htun; [done|].
    rewrite Hlen. by apply lookup_lt_Some in Ht. }
  split; [apply Hrids|].
  assert (Hc1 : connects_elements (_elements L1) router_id router1).
  { intros f t. rewrite Hno. by intros ?%elem_of_nil. }
  assert (Hc2 : connects_elements (_elements L1) router_id router2).
  { eapply (for_range_M_preserves
              (fun r _ => connects_elements (_elements L1) router_id r));
      [|exact E3|exact Hc1].
    intros i r La r' Lb Eh Hr. by eapply add_router_hookup_connects. }
  (* the requirements add no connection *)
  assert (Hreq : forall reqs r,
            r_connections (for_each reqs add_requirement r) = r_connections r).
  { clear. induction reqs as [|w reqs IH]; intros r; simpl; [done|]. by rewrite IH. }
  intros f t. rewrite Hreq. apply Hc2.
Qed.

End Completion.

Lemma create_router_connects_elements_witness :
  exists (L1 : Lexer) (router_id : list Z) (router1 : Router),
    expand_compounds 20 0
      (mkEnvironments (replicate (length (_elements tunnel_program)) 0) [ve_empty])
      tunnel_program
    = Ret (tt, L1)
    /\ for_range_M (length (_elements L1)) 0 add_router_element ([], new_Router) L1
       = Ret ((router_id, router1), L1)
    /\ length router_id = length (_elements L1)
    /\ (forall i : nat, _elements L1 !! i = Some TUNNEL_TYPE -> router_id !! i = Some (-1))
    /\ forall f t, (f, t) ∈ r_connections tunnel_router ->
         maps_element (_elements L1) router_id f /\ maps_element (_elements L1) router_id t.
Proof.
  apply (create_router_connects_elements 20 tunnel_program
           (state_of (create_router 20 tunnel_program)) tunnel_router).
  vm_compute. reflexivity.
Defined.

(** ** The tunnel engine *)

(** *** The primitive operations *)

Lemma te_get_run (a : nat) (e : TunnelEnd) (L : Lexer) :
  tunnel_ends L !! a = Some e -> te_get a L = Ret (e, L).
Proof. intros E. unfold te_get, get_res. by rewrite E. Qed.

Lemma te_set_run (a : nat) (e e0 : TunnelEnd) (L : Lexer) :
  tunnel_ends L !! a = Some e0 ->
  te_set a e L = Ret (tt, set_tunnel_ends (<[a := e]> (tunnel_ends L)) L).
Proof.
  intros E. unfold te_set. by rewrite (bind_Ret _ _ _ _ _ (te_get_run _ _ _ E)).
Qed.

Lemma new_TunnelEnd_run (port : Hookup) (output : bool) (next : option nat) (L : Lexer) :
  (forall n, next = Some n ->
     exists ne, tunnel_ends L !! n = Some ne /\ TunnelEnd._output ne = output) ->
  new_TunnelEnd port output next L
  = Ret (length (tunnel_ends L),
         set_tunnel_ends (tunnel_ends L ++ [TunnelEnd.mk port [] 0 output None]) L).
Proof.
  intros Hnext. unfold new_TunnelEnd.
  destruct next as [n|].
  - destruct (Hnext n eq_refl) as (ne & E & Ho).
    rewrite bind_bind, (bind_Ret _ _ _ _ _ (te_get_run _ _ _ E)).
    rewrite bind_assert by by apply bool_decide_eq_true.
    by msteps.
  - by msteps.
Qed.

Lemma pair_with_run (a d : nat) (ae de : TunnelEnd) (L : Lexer) :
  tunnel_ends L !! a = Some ae -> tunnel_ends L !! d = Some de -> a <> d ->
  pair_with a d L
  = Ret (tt, set_tunnel_ends
               (<[d := set_other (Some a) de]>
                  (<[a := set_other (Some d) ae]> (tunnel_ends L))) L).
Proof.
  intros Ea Ed Hne. unfold pair_with.
  rewrite (bind_Ret _ _ _ _ _ (te_get_run _ _ _ Ea)).
  rewrite (bind_Ret _ _ _ _ _ (te_set_run _ _ _ _ Ea)).
  assert (Ed' : tunnel_ends (set_tunnel_ends (<[a := set_other (Some d) ae]> (tunnel_ends L)) L)
                !! d = Some de).
  { simpl. by rewrite list_lookup_insert_ne. }
  rewrite (bind_Ret _ _ _ _ _ (te_get_run _ _ _ Ed')).
  rewrite (te_set_run _ _ _ _ Ed'). reflexivity.
Qed.

Lemma next_on_chain_elem (a n : nat) (l : list nat) :
  next_on_chain a l = Some n -> n ∈ l.
Proof.
  induction l as [|d rest IH]; simpl; [done|].
  case_bool_decide.
  - destruct rest; simpl; [done|]. intros [= ->]. set_solver.
  - intros H'. set_solver.
Qed.

Lemma insert_after_elem (a x y : nat) (l : list nat) :
  y ∈ insert_after a x l -> y = x \/ y ∈ l.
Proof.
  induction l as [|d rest IH]; simpl; [set_solver|].
  case_bool_decide; set_solver.
Qed.

Lemma insert_after_keeps (a x y : nat) (l : list nat) :
  y ∈ l -> y ∈ insert_after a x l.
Proof.
  induction l as [|d rest IH]; simpl; [done|].
  case_bool_decide; set_solver.
Qed.

Lemma insert_after_new (a x : nat) (l : list nat) :
  a ∈ l -> x ∈ insert_after a x l.
Proof.
  induction l as [|d rest IH]; simpl; [set_solver|].
  case_bool_decide; set_solver.
Qed.

Lemma find_walk_spec (heap : list TunnelEnd) (h : Hookup) (chain : list nat) :
  Forall (fun d => is_Some (heap !! d)) chain ->
  forall parent, exists found parent',
    find_walk heap chain h parent = Ret (found, parent')
    /\ (forall d, found = Some d -> d ∈ chain /\ port_at heap d = Some h)
    /\ (found = None -> Some h ∉ port_at heap <$> chain)
    /\ (forall p, parent' = Some p -> parent = Some p \/ p ∈ chain).
Proof.
  induction 1 as [|d rest [e E] _ IH]; intros parent; simpl.
  - exists None, parent. split; [done|]. split; [done|]. split; [set_solver | auto].
  - rewrite E. simpl. case_bool_decide as Hp.
    + exists (Some d), parent. split; [done|]. split; [|split; [done | auto]].
      intros ? [= <-]. split; [set_solver|]. unfold port_at. by rewrite E, <- Hp.
    + assert (Hd : port_at heap d <> Some h).
      { unfold port_at. rewrite E. simpl. congruence. }
      destruct (idx (TunnelEnd._port e) =? idx h).
      * destruct (IH (Some d)) as (found & parent' & E' & Hf & Hn & Hpar).
        exists found, parent'. split; [done|]. split; [|split].
        -- intros d' ->. destruct (Hf d' eq_refl). set_solver.
        -- intros ->. specialize (Hn eq_refl). set_solver.
        -- intros p ->. destruct (Hpar p eq_refl) as [[= ->]|]; set_solver.
      * destruct (IH parent) as (found & parent' & E' & Hf & Hn & Hpar).
        exists found, parent'. split; [done|]. split; [|split].
        -- intros d' ->. destruct (Hf d' eq_refl). set_solver.
        -- intros ->. specialize (Hn eq_refl). set_solver.
        -- intros p ->. destruct (Hpar p eq_refl); set_solver.
Qed.

(** *** The two chains *)

Lemma chains_disjoint (L : Lexer) (out : bool) (a : nat) :
  wf_tunnels L -> a ∈ chain_of out L -> a ∉ chain_of (negb out) L.
Proof.
  intros Hwf Ha Hb.
  pose proof (wf_chain L Hwf out) as H1. pose proof (wf_chain L Hwf (negb out)) as H2.
  rewrite Forall_forall in H1, H2.
  destruct (H1 a Ha) as (e & ? & E & Ho & _).
  destruct (H2 a Hb) as (e' & ? & E' & Ho' & _).
  rewrite E in E'. injection E' as <-. rewrite Ho in Ho'. by destruct out.
Qed.

Lemma te_next_chain (L : Lexer) (out : bool) (p : nat) :
  p ∈ chain_of out L -> p ∉ chain_of (negb out) L ->
  te_next p L = next_on_chain p (chain_of out L).
Proof.
  unfold te_next. destruct out; simpl; intros Hin Hout.
  - by rewrite bool_decide_eq_false_2.
  - by rewrite bool_decide_eq_true_2.
Qed.

Lemma link_after_chain (L : Lexer) (out : bool) (p x : nat) :
  p ∈ chain_of out L -> p ∉ chain_of (negb out) L ->
  chain_of out (link_after p x L) = insert_after p x (chain_of out L)
  /\ chain_of (negb out) (link_after p x L) = chain_of (negb out) L
  /\ tunnel_ends (link_after p x L) = tunnel_ends L
  /\ same_scope L (link_after p x L).
Proof.
  unfold link_after, same_scope. destruct out; simpl; intros Hin Hout.
  - by rewrite bool_decide_eq_false_2.
  - by rewrite bool_decide_eq_true_2.
Qed.

Lemma chain_of_set_tunnel_ends (o : bool) (x : list TunnelEnd) (L : Lexer) :
  chain_of o (set_tunnel_ends x L) = chain_of o L.
Proof. by destruct o. Qed.

Lemma te_next_set_tunnel_ends (a : nat) (x : list TunnelEnd) (L : Lexer) :
  te_next a (set_tunnel_ends x L) = te_next a L.
Proof. reflexivity. Qed.

Lemma same_scope_refl (L : Lexer) : same_scope L L.
Proof. by unfold same_scope. Qed.

Lemma same_scope_trans (L1 L2 L3 : Lexer) :
  same_scope L1 L2 -> same_scope L2 L3 -> same_scope L1 L3.
Proof. unfold same_scope. intuition congruence. Qed.

Lemma same_scope_set_tunnel_ends (x : list TunnelEnd) (L : Lexer) :
  same_scope L (set_tunnel_ends x L).
Proof. by unfold same_scope. Qed.

Lemma same_scope_hookups (L L' : Lexer) : same_scope L L' -> hookups L' = hookups L.
Proof. unfold same_scope, hookups. intuition congruence. Qed.

Lemma wf_tunnels_same_scope (L L' : Lexer) :
  wf_tunnels L -> same_scope L L' ->
  (forall out, Forall (end_ok L' out) (chain_of out L')) ->
  wf_tunnels L'.
Proof.
  intros [_ H2 H3 H4 H5 H6] Hs Hc.
  pose proof (same_scope_hookups _ _ Hs) as Hh.
  destruct Hs as (E1 & E2 & E3 & E4 & E5 & E6).
  split; [done | ..]; rewrite ?Hh, ?E1, ?E2, ?E3, ?E5, ?E6; done.
Qed.

Lemma heap_alloc (heap : list TunnelEnd) (m o m' o' : TunnelEnd) :
  <[S (length heap) := o']> (<[length heap := m']> ((heap ++ [m]) ++ [o]))
  = heap ++ [m'; o'].
Proof. induction heap as [|x heap IH]; simpl; [done | by f_equal]. Qed.

Lemma bool_cases (out o : bool) : o = out \/ o = negb out.
Proof. destruct out, o; auto. Qed.

(** [find] returns an end of the chain it searched.  When it has to
    allocate, the state gains a pair of ends in state [0], one on each chain,
    and the hookup has an end from then on. *)
Lemma find_run (L : Lexer) (out : bool) (h : Hookup) :
  wf_tunnels L ->
  exists r L',
    TunnelEnd_find out h L = Ret (r, L')
    /\ (forall d, r = Some d -> d ∈ chain_of out L')
    /\ (L' = L
        \/ exists me other,
             tunnel_ends L' = tunnel_ends L ++ [me; other]
             /\ TunnelEnd._expanded me = 0 /\ TunnelEnd._expanded other = 0
             /\ (Some h ∉ chain_ports out L)
             /\ Some h ∈ chain_ports out L'
             /\ same_scope L L'
             /\ (forall o a, a ∈ chain_of o L -> a ∈ chain_of o L')
             /\ wf_tunnels L').
Proof.
  intros Hwf.
  pose proof (wf_chain L Hwf out) as Hout. pose proof (wf_chain L Hwf (negb out)) as Hopp.
  rewrite Forall_forall in Hout, Hopp.
  unfold TunnelEnd_find. mstep.
  destruct (chain_of out L) as [|this rest] eqn:Hc.
  { exists None, L. rewrite Hc. split; [done|]. split; [done | by left]. }
  cbn beta iota. rewrite <- Hc. rewrite <- Hc in Hout.
  destruct (find_walk_spec (tunnel_ends L) h (chain_of out L)) with (parent := @None nat)
    as (found & parent & E & Hf & Hn & Hpar).
  { apply Forall_forall. intros d Hd. destruct (Hout d Hd) as (e & ? & -> & _). eauto. }
  rewrite (bind_get_res _ _ _ _ E). cbn beta iota zeta.
  destruct found as [d|].
  { exists (Some d), L. split; [done|]. split; [|by left].
    intros ? [= <-]. by destruct (Hf d eq_refl). }
  destruct parent as [p|]; [|exists None, L; split; [done|]; split; [done | by left]].
  destruct (Hpar p eq_refl) as [|Hp]; [done|].
  specialize (Hn eq_refl).
  destruct (Hout p Hp) as (pe & po & Epe & Hpe_out & Hpe_other & Hpo).
  destruct (Hopp po Hpo) as (poe & ? & Epoe & Hpoe_out & _).
  destruct (Hout this) as (te & ? & Ete & Hte_out & _); [rewrite Hc; set_solver|].
  pose proof (chains_disjoint L out p Hwf Hp) as Hp'.
  pose proof (chains_disjoint L (negb out) po Hwf Hpo) as Hpo'.
  assert (N1 : forall n, te_next p L = Some n ->
            exists ne, tunnel_ends L !! n = Some ne /\ TunnelEnd._output ne = out).
  { intros n Hnext. rewrite (te_next_chain L out p Hp Hp') in Hnext.
    apply next_on_chain_elem in Hnext.
    destruct (Hout n Hnext) as (ne & ? & ? & ? & _). eauto. }
  assert (N2 : forall x n, te_next po L = Some n ->
            exists ne, tunnel_ends (set_tunnel_ends (tunnel_ends L ++ x) L) !! n = Some ne
                       /\ TunnelEnd._output ne = negb out).
  { intros x' n Hnext. rewrite (te_next_chain L (negb out) po Hpo Hpo') in Hnext.
    apply next_on_chain_elem in Hnext.
    destruct (Hopp n Hnext) as (ne & ? & Ene & ? & _).
    exists ne. split; [|done]. simpl. by apply lookup_app_l_Some. }
  rewrite (bind_Ret _ _ _ _ _ (te_get_run _ _ _ Epe)), Hpe_other.
  unfold res_of_option. mstep.
  rewrite (bind_Ret _ _ _ _ _ (te_get_run _ _ _ Epoe)). cbn zeta.
  rewrite (bind_Ret _ _ _ _ _ (te_get_run _ _ _ Ete)), Hte_out. mstep.
  rewrite (bind_Ret _ _ _ _ _ (new_TunnelEnd_run _ _ _ _ N1)).
  mstep. rewrite te_next_set_tunnel_ends.
  rewrite (bind_Ret _ _ _ _ _ (new_TunnelEnd_run _ _ _ _ (N2 _))).
  simpl tunnel_ends.
  set (me0 := TunnelEnd.mk h [] 0 out None).
  set (other0 := TunnelEnd.mk (mkHookup (idx (TunnelEnd._port poe)) (port h)) [] 0 (negb out) None).
  set (n0 := length (tunnel_ends L)).
  match goal with |- context [bind (pair_with _ _) _ ?L2] =>
    assert (P1 : tunnel_ends L2 !! n0 = Some me0);
    [|assert (P2 : tunnel_ends L2 !! length (tunnel_ends L ++ [me0]) = Some other0);
      [|assert (P3 : n0 <> length (tunnel_ends L ++ [me0]))]]
  end.
  { simpl. rewrite lookup_app_l by (rewrite length_app; simpl; unfold n0; lia).
    by rewrite lookup_app_r, Nat.sub_diag. }
  { simpl. by rewrite lookup_app_r, Nat.sub_diag. }
  { rewrite length_app. simpl. unfold n0. lia. }
  rewrite (bind_Ret _ _ _ _ _ (pair_with_run _ _ _ _ _ P1 P2 P3)).
  msteps. simpl tunnel_ends.
  replace (length (tunnel_ends L ++ [me0])) with (S n0) by (rewrite length_app; simpl; lia).
  pose proof (heap_alloc (tunnel_ends L) me0 other0
                (set_other (Some (S n0)) me0) (set_other (Some n0) other0)) as HA.
  fold n0 in HA. rewrite HA. clear HA.
  set (me := set_other (Some (S n0)) me0). set (other := set_other (Some n0) other0).
  set (L3 := set_tunnel_ends (tunnel_ends L ++ [me; other]) _).
  assert (HL3 : L3 = set_tunnel_ends (tunnel_ends L ++ [me; other]) L) by reflexivity.
  clearbody L3.
  destruct (link_after_chain L3 out p n0) as (C1 & C2 & T1 & S1).
  { by rewrite HL3, chain_of_set_tunnel_ends. }
  { by rewrite HL3, chain_of_set_tunnel_ends. }
  set (L4 := link_after p n0 L3) in *.
  assert (Hfresh : forall o, (n0 ∉ chain_of o L) /\ (S n0 ∉ chain_of o L)).
  { intros o. pose proof (wf_chain L Hwf o) as Ho. rewrite Forall_forall in Ho.
    split; intros Hin; destruct (Ho _ Hin) as (? & ? & ?%lookup_lt_Some & _);
      unfold n0 in *; lia. }
  destruct (link_after_chain L4 (negb out) po (S n0)) as (D1 & D2 & T2 & S2).
  { by rewrite C2, HL3, chain_of_set_tunnel_ends. }
  { rewrite negb_involutive, C1, HL3, chain_of_set_tunnel_ends.
    intros [->|Hin]%insert_after_elem; [|by rewrite negb_involutive in Hpo'].
    apply lookup_lt_Some in Epoe. unfold n0 in *. lia. }
  set (L5 := link_after po (S n0) L4) in *.
  rewrite negb_involutive in D2.
  assert (Hheap : tunnel_ends L5 = tunnel_ends L ++ [me; other]).
  { by rewrite T2, T1, HL3. }
  assert (Hcout : chain_of out L5 = insert_after p n0 (chain_of out L)).
  { by rewrite D2, C1, HL3, chain_of_set_tunnel_ends. }
  assert (Hcopp : chain_of (negb out) L5 = insert_after po (S n0) (chain_of (negb out) L)).
  { by rewrite D1, C2, HL3, chain_of_set_tunnel_ends. }
  assert (Hscope : same_scope L L5).
  { eapply same_scope_trans; [|exact S2]. eapply same_scope_trans; [|exact S1].
    rewrite HL3. apply same_scope_set_tunnel_ends. }
  assert (Hkeep : forall o a, a ∈ chain_of o L -> a ∈ chain_of o L5).
  { intros o a Ha. destruct (bool_cases out o) as [->| ->].
    - rewrite Hcout. by apply insert_after_keeps.
    - rewrite Hcopp. by apply insert_after_keeps. }
  assert (Hme : tunnel_ends L5 !! n0 = Some me).
  { rewrite Hheap. by rewrite lookup_app_r, Nat.sub_diag. }
  assert (Hother : tunnel_ends L5 !! S n0 = Some other).
  { rewrite Hheap. rewrite lookup_app_r by (unfold n0; lia).
    by replace (S n0 - length (tunnel_ends L))%nat with 1%nat by (unfold n0; lia). }
  assert (Hn0 : n0 ∈ chain_of out L5) by (rewrite Hcout; by apply insert_after_new).
  assert (Hn1 : S n0 ∈ chain_of (negb out) L5) by (rewrite Hcopp; by apply insert_after_new).
  exists (Some n0), L5. split; [done|]. split; [by intros ? [= <-]|].
  right. exists me, other. split; [done|]. split; [done|]. split; [done|].
  split; [done|]. split.
  { unfold chain_ports. apply list_elem_of_fmap. exists n0. split; [|done].
    unfold port_at. by rewrite Hme. }
  split; [done|]. split; [done|].
  apply (wf_tunnels_same_scope L L5 Hwf Hscope).
  assert (Hold : forall o a, end_ok L o a -> end_ok L5 o a).
  { intros o a (e & b & Ee & Ho & Hb & Hbin). exists e, b.
    split; [rewrite Hheap; by apply lookup_app_l_Some|]. auto. }
  intros o. apply Forall_forall. intros a Ha.
  destruct (bool_cases out o) as [->| ->].
  - rewrite Hcout in Ha. apply insert_after_elem in Ha as [->|Ha].
    + exists me, (S n0). auto.
    + apply Hold. by apply Hout.
  - rewrite Hcopp in Ha. apply insert_after_elem in Ha as [->|Ha].
    + exists other, n0. rewrite negb_involutive. auto.
    + apply Hold. by apply Hopp.
Qed.

(** *** The budget *)

Lemma filter_length_le {A} (P Q : A -> Prop) `{!forall x, Decision (P x)}
  `{!forall x, Decision (Q x)} (l : list A) :
  (forall x, x ∈ l -> P x -> Q x) ->
  (length (filter P l) <= length (filter Q l))%nat.
Proof.
  induction l as [|x l IH]; intros HPQ; [done|].
  rewrite !filter_cons.
  assert (IH' : (length (filter P l) <= length (filter Q l))%nat).
  { apply IH. intros y Hy. apply HPQ. set_solver. }
  destruct (decide (P x)) as [HP|HP].
  - rewrite decide_True by (apply HPQ; [set_solver | done]). simpl. lia.
  - destruct (decide (Q x)); simpl; lia.
Qed.

Lemma filter_length_lt {A} (P Q : A -> Prop) `{!forall x, Decision (P x)}
  `{!forall x, Decision (Q x)} (l : list A) (x : A) :
  (forall x, x ∈ l -> P x -> Q x) -> x ∈ l -> Q x -> ~ P x ->
  (length (filter P l) < length (filter Q l))%nat.
Proof.
  induction l as [|y l IH]; intros HPQ Hx HQ HnP; [by apply elem_of_nil in Hx|].
  rewrite !filter_cons.
  assert (Hle : (length (filter P l) <= length (filter Q l))%nat).
  { apply filter_length_le. intros z Hz. apply HPQ. set_solver. }
  apply elem_of_cons in Hx as [<-|Hx].
  - rewrite decide_False by done. rewrite decide_True by done. simpl. lia.
  - assert (Hlt : (length (filter P l) < length (filter Q l))%nat).
    { apply IH; [|done..]. intros z Hz. apply HPQ. set_solver. }
    destruct (decide (P y)) as [HP|HP].
    + rewrite decide_True by (apply HPQ; [set_solver | done]). simpl. lia.
    + destruct (decide (Q y)); simpl; lia.
Qed.

Lemma filter_length_insert {A} (P : A -> Prop) `{!forall x, Decision (P x)}
  (l : list A) (a : nat) (e e' : A) :
  l !! a = Some e ->
  (length (filter P (<[a := e']> l)) + (if decide (P e) then 1 else 0)
   = length (filter P l) + (if decide (P e') then 1 else 0))%nat.
Proof.
  revert a. induction l as [|x l IH]; intros a E; [done|].
  destruct a as [|a]; simpl in *.
  - injection E as ->. rewrite !filter_cons.
    destruct (decide (P e)), (decide (P e')); simpl; lia.
  - rewrite !filter_cons. specialize (IH a E).
    destruct (decide (P x)); simpl; lia.
Qed.

Lemma same_tunnels_chain (L L' : Lexer) (o : bool) :
  same_tunnels L L' -> chain_of o L' = chain_of o L.
Proof. intros (_ & _ & E1 & E2). by destruct o. Qed.

Lemma same_tunnels_errh (lm fmt : string) (args : list Arg) (L : Lexer) :
  same_tunnels L (errh_error_at lm fmt args L).
Proof. by unfold same_tunnels, same_scope. Qed.

Lemma chain_ports_mono (L L' : Lexer) (out : bool) (h : Hookup) :
  (forall a, a ∈ chain_of out L -> a ∈ chain_of out L') ->
  (forall a e, tunnel_ends L !! a = Some e ->
     exists e', tunnel_ends L' !! a = Some e' /\ TunnelEnd._port e' = TunnelEnd._port e) ->
  Some h ∈ chain_ports out L -> Some h ∈ chain_ports out L'.
Proof.
  intros Hc He. unfold chain_ports, port_at.
  intros (a & Ea & Ha)%list_elem_of_fmap. apply list_elem_of_fmap.
  exists a. split; [|by apply Hc].
  destruct (tunnel_ends L !! a) as [e|] eqn:E; [|done].
  destruct (He a e E) as (e' & -> & Hp). simpl in *. congruence.
Qed.

Lemma missing_on_mono (L L' : Lexer) (out : bool) :
  hookups L' = hookups L ->
  (forall h, Some h ∈ chain_ports out L -> Some h ∈ chain_ports out L') ->
  (missing_on out L' <= missing_on out L)%nat.
Proof.
  intros Hh Hp. unfold missing_on. rewrite Hh.
  apply filter_length_le. intros h _ Hn Hin. by apply Hn, Hp.
Qed.

Lemma missing_on_less (L L' : Lexer) (out : bool) (h : Hookup) :
  hookups L' = hookups L ->
  (forall h, Some h ∈ chain_ports out L -> Some h ∈ chain_ports out L') ->
  h ∈ hookups L -> Some h ∉ chain_ports out L -> Some h ∈ chain_ports out L' ->
  (missing_on out L' < missing_on out L)%nat.
Proof.
  intros Hh Hp Hin Hold Hnew. unfold missing_on. rewrite Hh.
  apply (filter_length_lt _ _ _ h); [|done|done|by intros Hn].
  intros h' _ Hn Hin'. by apply Hn, Hp.
Qed.

(** *** Runs *)

Lemma same_identity_refl (e : TunnelEnd) : same_identity e e.
Proof. by unfold same_identity. Qed.

Lemma same_identity_trans (e1 e2 e3 : TunnelEnd) :
  same_identity e1 e2 -> same_identity e2 e3 -> same_identity e1 e3.
Proof. unfold same_identity. intuition congruence. Qed.

Lemma end_advances_identity (e e' : TunnelEnd) : end_advances e e' -> same_identity e e'.
Proof. intros [->|(_ & _ & H)]; [apply same_identity_refl | done]. Qed.

Lemma end_advances_trans (e1 e2 e3 : TunnelEnd) :
  end_advances e1 e2 -> end_advances e2 e3 -> end_advances e1 e3.
Proof.
  intros [->|(H0 & H2 & Hi)]; [done|].
  intros [->|(H0' & _)]; [right; auto | lia].
Qed.

Lemma end_held_trans (e1 e2 e3 : TunnelEnd) :
  end_held e1 e2 -> end_held e2 e3 -> end_held e1 e3.
Proof.
  intros [E1 I1] [E2 I2]. split; [congruence | by eapply same_identity_trans].
Qed.

Lemma end_unchanged (o : option nat) (a : nat) (e : TunnelEnd) :
  if bool_decide (o = Some a) then end_held e e else end_advances e e.
Proof.
  destruct (bool_decide _); [split; [done | apply same_identity_refl] | by left].
Qed.

Lemma expands_to_refl (o : option nat) (L : Lexer) : expands_to o L L.
Proof.
  split; [apply same_scope_refl | | done].
  intros a e E. exists e. split; [done|]. apply end_unchanged.
Qed.

Lemma expands_to_trans (o : option nat) (L1 L2 L3 : Lexer) :
  expands_to o L1 L2 -> expands_to o L2 L3 -> expands_to o L1 L3.
Proof.
  intros [S1 E1 C1] [S2 E2 C2].
  split; [by eapply same_scope_trans | | auto].
  intros a e E. destruct (E1 a e E) as (e' & E' & H1).
  destruct (E2 a e' E') as (e'' & E'' & H2).
  exists e''. split; [done|].
  case_bool_decide; [by eapply end_held_trans | by eapply end_advances_trans].
Qed.

(** A run seen from outside is a run seen from inside the call on an end
    that is not in state [0]. *)
Lemma expands_to_held (a : nat) (L L' : Lexer) :
  (forall e, tunnel_ends L !! a = Some e -> TunnelEnd._expanded e <> 0) ->
  expands_to None L L' -> expands_to (Some a) L L'.
Proof.
  intros Ha [S1 E1 C1]. split; [done | | done].
  intros b e E. destruct (E1 b e E) as (e' & E' & H1).
  rewrite bool_decide_eq_false_2 in H1 by done.
  exists e'. split; [done|]. case_bool_decide as Hb; [|done].
  injection Hb as <-. destruct H1 as [->|(H0 & _)].
  - split; [done | apply same_identity_refl].
  - by destruct (Ha e E).
Qed.

Lemma expands_to_port (o : option nat) (L L' : Lexer) (a : nat) (e : TunnelEnd) :
  expands_to o L L' -> tunnel_ends L !! a = Some e ->
  exists e', tunnel_ends L' !! a = Some e' /\ same_identity e e'.
Proof.
  intros [_ E1 _] E. destruct (E1 a e E) as (e' & E' & H1).
  exists e'. split; [done|].
  destruct (bool_decide _); [by destruct H1 | by apply end_advances_identity].
Qed.

Lemma expands_to_missing (o : option nat) (L L' : Lexer) (out : bool) :
  expands_to o L L' -> (missing_on out L' <= missing_on out L)%nat.
Proof.
  intros Hex. apply missing_on_mono.
  - apply same_scope_hookups, Hex.
  - intros h. apply chain_ports_mono; [apply Hex|].
    intros a e E. destruct (expands_to_port _ _ _ _ _ Hex E) as (e' & E' & Hp & _).
    eauto.
Qed.

Lemma runs_to_refl (o : option nat) (L : Lexer) : wf_tunnels L -> runs_to o L L.
Proof. intros Hwf. split; [done|]. split; [apply expands_to_refl | done]. Qed.

Lemma runs_to_trans (o : option nat) (L1 L2 L3 : Lexer) :
  runs_to o L1 L2 -> runs_to o L2 L3 -> runs_to o L1 L3.
Proof.
  intros (W1 & E1 & B1) (W2 & E2 & B2).
  split; [done|]. split; [by eapply expands_to_trans | lia].
Qed.

Lemma wf_same_tunnels (L L' : Lexer) : wf_tunnels L -> same_tunnels L L' -> wf_tunnels L'.
Proof.
  intros Hwf Hs. apply (wf_tunnels_same_scope L L' Hwf); [apply Hs|].
  intros out. rewrite (same_tunnels_chain _ _ out Hs).
  eapply Forall_impl; [apply (wf_chain L Hwf)|].
  intros a (e & b & E & Ho & Hb & Hin). exists e, b.
  rewrite (same_tunnels_chain L L' (negb out) Hs).
  destruct Hs as (_ & -> & _). done.
Qed.

Lemma runs_to_same_tunnels (o : option nat) (L L' : Lexer) :
  wf_tunnels L -> same_tunnels L L' -> runs_to o L L'.
Proof.
  intros Hwf Hs. split; [by eapply wf_same_tunnels|].
  pose proof Hs as (Hsc & Hh & _).
  assert (Hp : forall out, chain_ports out L' = chain_ports out L).
  { intros out. unfold chain_ports. by rewrite (same_tunnels_chain _ _ out Hs), Hh. }
  split.
  - split; [done | |].
    + intros a e E. rewrite Hh. exists e. split; [done|].
      apply end_unchanged.
    + intros out a. by rewrite (same_tunnels_chain _ _ out Hs).
  - unfold expand_budget, missing_on, fresh_ends.
    by rewrite !Hp, (same_scope_hookups _ _ Hsc), Hh.
Qed.

Lemma port_at_insert (heap : list TunnelEnd) (a b : nat) (e e' : TunnelEnd) :
  heap !! a = Some e -> TunnelEnd._port e' = TunnelEnd._port e ->
  port_at (<[a := e']> heap) b = port_at heap b.
Proof.
  intros E Hp. unfold port_at. destruct (decide (a = b)) as [<-|Hne].
  - rewrite list_lookup_insert_eq by by eapply lookup_lt_Some.
    rewrite E. simpl. by rewrite Hp.
  - by rewrite list_lookup_insert_ne.
Qed.

Lemma with_end_missing (L : Lexer) (a : nat) (e e' : TunnelEnd) (out : bool) :
  tunnel_ends L !! a = Some e -> TunnelEnd._port e' = TunnelEnd._port e ->
  missing_on out (with_end a e' L) = missing_on out L.
Proof.
  intros E Hp. unfold missing_on, chain_ports, with_end.
  rewrite chain_of_set_tunnel_ends. simpl tunnel_ends.
  assert (Hl : port_at (<[a := e']> (tunnel_ends L)) <$> chain_of out L
               = port_at (tunnel_ends L) <$> chain_of out L).
  { apply list_fmap_ext. intros _ b _. by eapply port_at_insert. }
  by rewrite Hl.
Qed.

Lemma with_end_wf (L : Lexer) (a : nat) (e e' : TunnelEnd) :
  wf_tunnels L -> tunnel_ends L !! a = Some e -> same_identity e e' ->
  wf_tunnels (with_end a e' L).
Proof.
  intros Hwf E (Hp & Ho & Hot).
  apply (wf_tunnels_same_scope L _ Hwf); [apply same_scope_set_tunnel_ends|].
  intros out. unfold with_end. rewrite chain_of_set_tunnel_ends.
  eapply Forall_impl; [apply (wf_chain L Hwf)|].
  intros b (eb & c & Eb & Hbo & Hbc & Hin).
  unfold end_ok. rewrite chain_of_set_tunnel_ends. simpl tunnel_ends.
  destruct (decide (a = b)) as [<-|Hne].
  - exists e', c. rewrite list_lookup_insert_eq by by eapply lookup_lt_Some.
    rewrite E in Eb. injection Eb as <-. rewrite Ho, Hot. auto.
  - exists eb, c. by rewrite list_lookup_insert_ne.
Qed.

Lemma with_end_fresh (L : Lexer) (a : nat) (e e' : TunnelEnd) :
  tunnel_ends L !! a = Some e ->
  (fresh_ends (with_end a e' L) + (if decide (TunnelEnd._expanded e = 0%Z) then 1 else 0)
   = fresh_ends L + (if decide (TunnelEnd._expanded e' = 0%Z) then 1 else 0))%nat.
Proof.
  intros E. unfold fresh_ends, with_end. simpl tunnel_ends.
  exact (filter_length_insert (fun x => TunnelEnd._expanded x = 0) (tunnel_ends L) a e e' E).
Qed.

Lemma with_end_expands (o : option nat) (L : Lexer) (a : nat) (e e' : TunnelEnd) :
  tunnel_ends L !! a = Some e ->
  (if bool_decide (o = Some a) then end_held e e' else end_advances e e') ->
  expands_to o L (with_end a e' L).
Proof.
  intros E He. split; [apply same_scope_set_tunnel_ends | |].
  - intros b eb Eb. unfold with_end. simpl tunnel_ends.
    destruct (decide (a = b)) as [<-|Hne].
    + exists e'. rewrite list_lookup_insert_eq by by eapply lookup_lt_Some.
      rewrite E in Eb. by injection Eb as <-.
    + exists eb. rewrite list_lookup_insert_ne by done. split; [done|].
      apply end_unchanged.
  - intros out b. unfold with_end. by rewrite chain_of_set_tunnel_ends.
Qed.

Lemma with_end_runs (o : option nat) (L : Lexer) (a : nat) (e e' : TunnelEnd) :
  wf_tunnels L -> tunnel_ends L !! a = Some e ->
  (if bool_decide (o = Some a) then end_held e e' else end_advances e e') ->
  runs_to o L (with_end a e' L).
Proof.
  intros Hwf E He.
  assert (Hid : same_identity e e').
  { destruct (bool_decide _); [by destruct He | by apply end_advances_identity]. }
  assert (Hx : TunnelEnd._expanded e' = 0 -> TunnelEnd._expanded e = 0).
  { destruct (bool_decide _).
    - destruct He as [-> _]. done.
    - destruct He as [->|(? & ? & _)]; [done | lia]. }
  split; [by apply (with_end_wf L a e e')|]. split; [by apply (with_end_expands o L a e e')|].
  pose proof (with_end_fresh L a e e' E) as Hf.
  unfold expand_budget.
  rewrite !(with_end_missing L a e e') by (done || apply Hid).
  destruct (decide (TunnelEnd._expanded e' = 0)) as [H0|H0].
  - rewrite decide_True in Hf by auto. lia.
  - destruct (decide (TunnelEnd._expanded e = 0)); lia.
Qed.

(** [find], as a run. *)
Lemma find_runs (o : option nat) (L : Lexer) (out : bool) (h : Hookup) :
  wf_tunnels L -> h ∈ hookups L ->
  exists r L',
    TunnelEnd_find out h L = Ret (r, L')
    /\ runs_to o L L'
    /\ forall d, r = Some d -> d ∈ chain_of out L'.
Proof.
  intros Hwf Hh.
  destruct (find_run L out h Hwf) as (r & L' & E & Hr & [->|Hnew]).
  { exists r, L. split; [done|]. split; [by apply runs_to_refl | done]. }
  destruct Hnew as (me & other & Hheap & Hme & Hother & Hold & Hin & Hsc & Hc & Hwf').
  exists r, L'. split; [done|]. split; [|done].
  assert (Hex : expands_to o L L').
  { split; [done | | done].
    intros a e Ea. exists e. rewrite Hheap. split; [by apply lookup_app_l_Some|].
    apply end_unchanged. }
  split; [done|]. split; [done|].
  assert (Hports : forall o' h', Some h' ∈ chain_ports o' L -> Some h' ∈ chain_ports o' L').
  { intros o' h'. apply chain_ports_mono; [apply Hc|].
    intros a e Ea. exists e. rewrite Hheap. split; [by apply lookup_app_l_Some | done]. }
  pose proof (missing_on_less L L' out h (same_scope_hookups _ _ Hsc) (Hports out)
                Hh Hold Hin) as Hless.
  pose proof (expands_to_missing o L L' (negb out) Hex) as Hle.
  assert (Hf : fresh_ends L' = (fresh_ends L + 2)%nat).
  { unfold fresh_ends. rewrite Hheap, filter_app, length_app.
    rewrite !filter_cons, filter_nil.
    rewrite !decide_True by done. simpl. lia. }
  unfold expand_budget. rewrite Hf. destruct out; simpl in *; lia.
Qed.

(** *** Diagnostics and connections *)

Lemma vec_get_in_range {A} (v : list A) (i : Z) :
  0 <= i < vsize v -> exists x, vec_get v i = Ret x /\ v !! Z.to_nat i = Some x.
Proof.
  intros [Hlo Hhi]. unfold vsize in Hhi.
  destruct (lookup_lt_is_Some_2 v (Z.to_nat i)) as [x E]; [lia|].
  exists x. split; [by apply vec_get_ok | done].
Qed.

Lemma element_name_run (L : Lexer) (i : Z) :
  wf_tunnels L -> exists s, element_name i L = Ret s.
Proof.
  intros Hwf. unfold element_name.
  destruct (Z.ltb_spec i 0); simpl; [eauto|].
  destruct (Z.leb_spec (vsize (_elements L)) i); simpl; [eauto|].
  destruct (vec_get_in_range (_element_names L) i) as (name & -> & E).
  { unfold vsize in *. rewrite (wf_names_len L Hwf). lia. }
  simpl.
  pose proof (wf_names_nonempty L Hwf) as Hne. rewrite Forall_forall in Hne.
  rewrite bool_decide_eq_false_2; [simpl; eauto|].
  apply Hne. by eapply list_elem_of_lookup_2.
Qed.

Lemma element_landmark_run (L : Lexer) (i : Z) :
  wf_tunnels L -> exists s, element_landmark i L = Ret s.
Proof.
  intros Hwf. unfold element_landmark.
  destruct (Z.ltb_spec i 0); simpl; [eauto|].
  destruct (Z.leb_spec (vsize (_elements L)) i); simpl; [eauto|].
  destruct (vec_get_in_range (_element_landmarks L) i) as (lm & -> & E).
  { unfold vsize in *. rewrite (wf_landmarks_len L Hwf). lia. }
  simpl. destruct (negb _); eauto.
Qed.

Lemma report_unused_tunnel_run (L : Lexer) (e other : TunnelEnd) :
  wf_tunnels L ->
  exists L', report_unused_tunnel e other L = Ret (tt, L') /\ same_tunnels L L'.
Proof.
  intros Hwf. unfold report_unused_tunnel. cbv zeta.
  set (inh := if TunnelEnd._output e then _ else _).
  set (outh := if TunnelEnd._output e then _ else _).
  destruct (element_name_run L (idx inh) Hwf) as (in_name & E1).
  destruct (element_name_run L (idx outh) Hwf) as (out_name & E2).
  rewrite (bind_get_res _ _ _ _ E1), (bind_get_res _ _ _ _ E2).
  destruct (bool_decide _).
  { destruct (element_landmark_run L (idx inh) Hwf) as (lm & E3).
    rewrite (bind_get_res _ _ _ _ E3). eexists. split; [reflexivity|].
    apply same_tunnels_errh. }
  destruct (bool_decide _).
  { destruct (element_landmark_run L (idx outh) Hwf) as (lm & E3).
    rewrite (bind_get_res _ _ _ _ E3). eexists. split; [reflexivity|].
    apply same_tunnels_errh. }
  destruct (element_landmark_run L (idx (TunnelEnd._port other)) Hwf) as (lm & E3).
  rewrite (bind_get_res _ _ _ _ E3). eexists. split; [reflexivity|].
  apply same_tunnels_errh.
Qed.

Lemma find_connections_run (L : Lexer) (h : Hookup) (is_out : bool) :
  wf_tunnels L ->
  exists cs, find_connections h is_out L = Ret cs /\ forall c, c ∈ cs -> c ∈ hookups L.
Proof.
  intros Hwf. unfold find_connections. cbv zeta.
  set (this := if is_out then _hookup_from L else _hookup_to L).
  set (that := if is_out then _hookup_to L else _hookup_from L).
  assert (Hlen : length that = length this).
  { pose proof (wf_hookup_len L Hwf). unfold this, that. by destruct is_out. }
  assert (Hthat : forall c, c ∈ that -> c ∈ hookups L).
  { unfold that, hookups. destruct is_out; set_solver. }
  apply (for_range_invariant (fun _ cs => forall c, c ∈ cs -> c ∈ hookups L)).
  { set_solver. }
  intros k cs Hk Hcs.
  destruct (lookup_lt_is_Some_2 this k Hk) as [x Ex].
  destruct (lookup_lt_is_Some_2 that k) as [y Ey]; [lia|].
  rewrite (vec_get_lookup _ _ _ Ex). simpl.
  case_bool_decide.
  - rewrite (vec_get_lookup _ _ _ Ey). simpl. eexists. split; [done|].
    intros c [Hc|Hc]%elem_of_app; [auto|].
    apply list_elem_of_singleton in Hc as ->.
    apply Hthat. by eapply list_elem_of_lookup_2.
  - eauto.
Qed.

(** *** Termination *)

Lemma with_end_budget (L : Lexer) (a : nat) (e e' : TunnelEnd) :
  tunnel_ends L !! a = Some e -> TunnelEnd._port e' = TunnelEnd._port e ->
  TunnelEnd._expanded e' <> 0 ->
  (expand_budget (with_end a e' L) + (if decide (TunnelEnd._expanded e = 0%Z) then 1 else 0)
   = expand_budget L)%nat.
Proof.
  intros E Hp Hx. pose proof (with_end_fresh L a e e' E) as Hf.
  rewrite (decide_False (P := TunnelEnd._expanded e' = 0)) in Hf by done.
  unfold expand_budget. rewrite !(with_end_missing L a e e') by done. lia.
Qed.

Lemma expand_connection_runs (f : nat) (L : Lexer) (h : Hookup) (is_out : bool) :
  expand_returns f -> wf_tunnels L -> h ∈ hookups L -> (expand_budget L < f)%nat ->
  exists r L',
    expand_connection_with (TunnelEnd_expand f) h is_out L = Ret (r, L')
    /\ runs_to None L L'.
Proof.
  intros IH Hwf Hh Hb. unfold expand_connection_with.
  pose proof (wf_hookup_idx L Hwf) as Hidx. rewrite Forall_forall in Hidx.
  destruct (vec_get_in_range (_elements L) (idx h) (Hidx h Hh)) as (t & Et & _).
  rewrite (bind_get_res _ _ _ _ Et).
  destruct (negb (t =? TUNNEL_TYPE)).
  { exists [h], L. split; [done | by apply runs_to_refl]. }
  destruct (find_runs None L is_out h Hwf Hh) as (dp & L2 & E2 & R2 & Hd).
  rewrite (bind_Ret _ _ _ _ _ E2).
  pose proof R2 as (Hwf2 & Hex2 & Hb2).
  destruct dp as [d|].
  { destruct (IH L2 d Hwf2) as (r & L' & E & R & _); [eauto | lia |].
    exists r, L'. split; [done | by eapply runs_to_trans]. }
  assert (Hh2 : h ∈ hookups L2) by by rewrite (same_scope_hookups L L2 (ex_scope _ _ _ Hex2)).
  destruct (find_runs None L2 (negb is_out) h Hwf2 Hh2) as (dp' & L3 & E3 & R3 & _).
  rewrite (bind_Ret _ _ _ _ _ E3).
  pose proof R3 as (Hwf3 & Hex3 & Hb3).
  assert (R13 : runs_to None L L3) by by eapply runs_to_trans.
  destruct dp' as [d'|]; [|by exists [], L3].
  assert (Hh3 : h ∈ hookups L3) by by rewrite (same_scope_hookups L2 L3 (ex_scope _ _ _ Hex3)).
  pose proof (wf_hookup_idx L3 Hwf3) as Hidx3. rewrite Forall_forall in Hidx3.
  destruct (vec_get_in_range (_element_landmarks L3) (idx h)) as (lm & Elm & _).
  { unfold vsize in *. rewrite (wf_landmarks_len L3 Hwf3). by apply Hidx3. }
  destruct (element_name_run L3 (idx h) Hwf3) as (name & Ename).
  rewrite (bind_get_res _ _ _ _ Elm), (bind_get_res _ _ _ _ Ename).
  mstep. eexists _, _. split; [reflexivity|].
  eapply runs_to_trans; [exact R13|].
  apply runs_to_same_tunnels; [done | apply same_tunnels_errh].
Qed.

Lemma expand_each_runs (f : nat) (a : nat) (out : bool) (cs : list Hookup) :
  expand_returns f ->
  forall L e, wf_tunnels L -> (forall c, c ∈ cs -> c ∈ hookups L) ->
    (expand_budget L < f)%nat ->
    tunnel_ends L !! a = Some e -> TunnelEnd._expanded e = 1 ->
    exists L', expand_each (expand_connection_with (TunnelEnd_expand f)) a out cs L
               = Ret (tt, L')
      /\ runs_to (Some a) L L'.
Proof.
  intros IH. induction cs as [|c cs IHcs]; intros L e Hwf Hcs Hb Ea Hx; simpl.
  { exists L. split; [done | by apply runs_to_refl]. }
  destruct (expand_connection_runs f L c out IH Hwf) as (app & L2 & E2 & R2);
    [set_solver | done |].
  rewrite (bind_Ret _ _ _ _ _ E2).
  destruct R2 as (Hwf2 & Hex2 & Hb2).
  assert (Hheld : expands_to (Some a) L L2).
  { apply expands_to_held; [|done]. intros e0 E0. rewrite Ea in E0.
    injection E0 as <-. lia. }
  destruct (ex_ends _ _ _ Hheld a e Ea) as (e2 & Ea2 & H2).
  rewrite bool_decide_eq_true_2 in H2 by done. destruct H2 as [Hx2 Hid2].
  rewrite (bind_Ret _ _ _ _ _ (te_get_run _ _ _ Ea2)).
  rewrite (bind_Ret _ _ _ _ _ (te_set_run _ _ _ _ Ea2)).
  set (e3 := set_correspond _ e2).
  fold (with_end a e3 L2).
  assert (R3 : runs_to (Some a) L2 (with_end a e3 L2)).
  { apply (with_end_runs _ _ _ e2); [done | done |].
    rewrite bool_decide_eq_true_2 by done. by split. }
  destruct (IHcs (with_end a e3 L2) e3) as (L' & E' & R').
  - apply R3.
  - intros c' Hc'.
    rewrite (same_scope_hookups _ _ (ex_scope _ _ _ (proj1 (proj2 R3)))).
    rewrite (same_scope_hookups _ _ (ex_scope _ _ _ Hex2)). set_solver.
  - destruct R3 as (_ & _ & Hb3). lia.
  - unfold with_end. simpl tunnel_ends.
    apply list_lookup_insert_eq. by eapply lookup_lt_Some.
  - simpl. congruence.
  - exists L'. split; [done|].
    eapply runs_to_trans; [|exact R'].
    eapply runs_to_trans; [|exact R3]. by split.
Qed.

Lemma expand_returns_any (f : nat) : expand_returns f.
Proof.
  induction f as [|f IH]; intros L a Hwf [out Ha] Hb; [lia|].
  pose proof (wf_chain L Hwf out) as Hout. rewrite Forall_forall in Hout.
  destruct (Hout a Ha) as (e & o & Ea & Ho & Hother & Hoin).
  cbn [TunnelEnd_expand].
  rewrite (bind_Ret _ _ _ _ _ (te_get_run _ _ _ Ea)).
  destruct (Z.eqb_spec (TunnelEnd._expanded e) 1) as [H1|H1].
  { exists [], L. split; [done|]. split; [by apply runs_to_refl|].
    exists e. split; [done|]. split; [done|]. split; [done | lia]. }
  destruct (Z.eqb_spec (TunnelEnd._expanded e) 0) as [H0|H0]; cycle 1.
  { mstep. rewrite (bind_Ret _ _ _ _ _ (te_get_run _ _ _ Ea)).
    exists (TunnelEnd._correspond e), L. split; [done|]. split; [by apply runs_to_refl|].
    exists e. split; [done|]. split; [done|]. split; [done | done]. }
  (* the end is entered *)
  set (e1 := set_expanded 1 e).
  set (L1 := with_end a e1 L).
  assert (Hwf1 : wf_tunnels L1) by by apply (with_end_wf L a e e1).
  assert (Hb1 : (expand_budget L1 + 1 = expand_budget L)%nat).
  { pose proof (with_end_budget L a e e1 Ea eq_refl) as Hbud.
    rewrite decide_True in Hbud by done. apply Hbud. simpl. lia. }
  assert (Ea1 : tunnel_ends L1 !! a = Some e1).
  { unfold L1, with_end. simpl tunnel_ends.
    apply list_lookup_insert_eq. by eapply lookup_lt_Some. }
  assert (Eo1 : exists other, tunnel_ends L1 !! o = Some other).
  { pose proof (wf_chain L Hwf (negb out)) as Hopp. rewrite Forall_forall in Hopp.
    destruct (Hopp o Hoin) as (oe & _ & Eo & _).
    apply lookup_lt_is_Some. unfold L1, with_end. simpl tunnel_ends.
    rewrite length_insert. by eapply lookup_lt_Some. }
  destruct Eo1 as (other & Eo1).
  destruct (find_connections_run L1 (TunnelEnd._port other) (negb (TunnelEnd._output e)) Hwf1)
    as (cs & Ecs & Hcs).
  assert (Hrep : exists L2,
            (if bool_decide (cs = []) then report_unused_tunnel e other else ret tt) L1
            = Ret (tt, L2) /\ same_tunnels L1 L2).
  { destruct (bool_decide _); [by apply report_unused_tunnel_run|].
    exists L1. split; [done|]. by unfold same_tunnels, same_scope. }
  destruct Hrep as (L2 & Erep & Hsame).
  pose proof (runs_to_same_tunnels (Some a) L1 L2 Hwf1 Hsame) as (Hwf2 & Hex2 & Hb2).
  assert (Ea2 : tunnel_ends L2 !! a = Some e1).
  { destruct Hsame as (_ & -> & _). done. }
  destruct (expand_each_runs f a (TunnelEnd._output e) cs IH L2 e1) as (Lk & Ek & Rk).
  { done. }
  { intros c Hc. rewrite (same_scope_hookups _ _ (ex_scope _ _ _ Hex2)). auto. }
  { lia. }
  { done. }
  { done. }
  destruct Rk as (Hwfk & Hexk & Hbk).
  destruct (ex_ends _ _ _ Hexk a e1 Ea2) as (ek & Eak & Hk).
  rewrite bool_decide_eq_true_2 in Hk by done. destruct Hk as [Hxk Hidk].
  set (e' := set_expanded 2 ek).
  set (L' := with_end a e' Lk).
  assert (Ea' : tunnel_ends L' !! a = Some e').
  { unfold L', with_end. simpl tunnel_ends.
    apply list_lookup_insert_eq. by eapply lookup_lt_Some. }
  exists (TunnelEnd._correspond ek), L'. split.
  { rewrite bind_bind.
    rewrite (bind_Ret _ _ _ _ _ (te_set_run _ _ _ _ Ea)).
    fold e1. fold (with_end a e1 L). fold L1.
    rewrite Hother. unfold res_of_option. rewrite bind_bind. mstep.
    rewrite bind_bind, (bind_Ret _ _ _ _ _ (te_get_run _ _ _ Eo1)).
    rewrite bind_bind, (bind_get_res _ _ _ _ Ecs).
    rewrite bind_bind, (bind_Ret _ _ _ _ _ Erep).
    rewrite bind_bind, (bind_Ret _ _ _ _ _ Ek).
    rewrite bind_bind, (bind_Ret _ _ _ _ _ (te_get_run _ _ _ Eak)).
    rewrite (bind_Ret _ _ _ _ _ (te_set_run _ _ _ _ Eak)).
    fold e'. fold (with_end a e' Lk). fold L'.
    by rewrite (bind_Ret _ _ _ _ _ (te_get_run _ _ _ Ea')). }
  assert (Hid : same_identity e e').
  { eapply same_identity_trans; [|eapply same_identity_trans; [exact Hidk|]];
      by unfold same_identity. }
  split.
  2:{ exists e. split; [done|]. split; [lia|]. split; [lia|]. intros _.
      exists o, other, cs, L2, Lk, ek. split; [done|]. split; [done|].
      split; [done|]. split; [done|]. split; [done|]. split; [done|].
      split; [done|]. split; [by rewrite Hxk | done]. }
  split; [by apply (with_end_wf Lk a ek e')|].
  split.
  - split.
    + eapply same_scope_trans; [apply same_scope_set_tunnel_ends|].
      eapply same_scope_trans; [apply Hex2|].
      eapply same_scope_trans; [apply Hexk|]. apply same_scope_set_tunnel_ends.
    + intros b eb Eb. simpl bool_decide.
      destruct (decide (b = a)) as [->|Hne].
      * exists e'. split; [done|]. rewrite Ea in Eb. injection Eb as <-.
        right. split; [done|]. split; [done | exact Hid].
      * assert (Eb2 : tunnel_ends L2 !! b = Some eb).
        { destruct Hsame as (_ & -> & _). unfold L1, with_end. simpl tunnel_ends.
          by rewrite list_lookup_insert_ne. }
        destruct (ex_ends _ _ _ Hexk b eb Eb2) as (eb' & Ebk & Hadv).
        rewrite bool_decide_eq_false_2 in Hadv by congruence.
        exists eb'. split; [|done]. unfold L', with_end. simpl tunnel_ends.
        by rewrite list_lookup_insert_ne.
    + intros o' b Hb'. unfold L', with_end. rewrite chain_of_set_tunnel_ends.
      apply (ex_chain _ _ _ Hexk). apply (ex_chain _ _ _ Hex2).
      unfold L1, with_end. by rewrite chain_of_set_tunnel_ends.
  - pose proof (with_end_budget Lk a ek e' Eak eq_refl) as Hbud.
    assert (Hek : TunnelEnd._expanded ek = 1) by (by rewrite Hxk).
    rewrite decide_False in Hbud by lia.
    assert ((expand_budget L' + 0 = expand_budget Lk)%nat) by (apply Hbud; simpl; lia).
    lia.
Qed.

(** C4: [expand] returns, for any pairing of the ends and any hookups, also
    when the tunnels form a cycle.  On an end in state [1] (expanding) it
    returns at once and appends nothing; on an end in state [2] (done) it
    appends the stored list and changes nothing; an end in state [0] (fresh)
    is put in state [1], the connections that [find_connections] gives for
    the port of its partner are expanded one after the other while it is in
    state [1], and it is left in state [2], holding the list that is
    appended.  No other end goes back: each is left as it was, or has gone
    from state [0] to state [2]. *)
Theorem expand_terminates (fuel : nat) (L : Lexer) (a : nat) (out : bool) :
  wf_tunnels L -> a ∈ chain_of out L -> (expand_budget L < fuel)%nat ->
  exists e r L',
    tunnel_ends L !! a = Some e
    /\ TunnelEnd_expand fuel a L = Ret (r, L')
    /\ (TunnelEnd._expanded e = 1 -> r = [] /\ L' = L)
    /\ (TunnelEnd._expanded e = 2 -> r = TunnelEnd._correspond e /\ L' = L)
    /\ (TunnelEnd._expanded e = 0 ->
          expand_enters (pred fuel) a e L r L'
          /\ exists e', tunnel_ends L' !! a = Some e'
               /\ TunnelEnd._expanded e' = 2 /\ TunnelEnd._correspond e' = r)
    /\ wf_tunnels L'
    /\ (forall b eb, tunnel_ends L !! b = Some eb ->
          exists eb', tunnel_ends L' !! b = Some eb' /\ end_advances eb eb')
    /\ (expand_budget L' <= expand_budget L)%nat.
Proof.
  intros Hwf Ha Hb.
  destruct (expand_returns_any fuel L a Hwf (ex_intro _ out Ha) Hb)
    as (r & L' & E & (Hwf' & Hex & Hb') & (e & Ea & H1 & H2 & H0)).
  exists e, r, L'. split; [done|]. split; [done|]. split; [done|].
  split; [intros H; apply H2; lia|]. split.
  - intros Hfresh. pose proof (H0 Hfresh) as Hent. split; [done|].
    destruct Hent as (o & other & cs & L1 & Lk & ek & _ & _ & _ & _ & _ & _ & Ek & _ & -> & ->).
    exists (set_expanded 2 ek). split; [|done].
    unfold with_end. simpl tunnel_ends.
    apply list_lookup_insert_eq. by eapply lookup_lt_Some.
  - split; [done|]. split; [|done].
    intros b eb Eb. destruct (ex_ends _ _ _ Hex b eb Eb) as (eb' & Eb' & Hadv).
    exists eb'. by split.
Qed.

Lemma expand_terminates_witness :
  exists e r L',
    tunnel_ends tunnel_cycle !! 0%nat = Some e
    /\ TunnelEnd_expand 9 0 tunnel_cycle = Ret (r, L')
    /\ (TunnelEnd._expanded e = 1 -> r = [] /\ L' = tunnel_cycle)
    /\ (TunnelEnd._expanded e = 2 -> r = TunnelEnd._correspond e /\ L' = tunnel_cycle)
    /\ (TunnelEnd._expanded e = 0 ->
          expand_enters (pred 9) 0 e tunnel_cycle r L'
          /\ exists e', tunnel_ends L' !! 0%nat = Some e'
               /\ TunnelEnd._expanded e' = 2 /\ TunnelEnd._correspond e' = r)
    /\ wf_tunnels L'
    /\ (forall b eb, tunnel_ends tunnel_cycle !! b = Some eb ->
          exists eb', tunnel_ends L' !! b = Some eb' /\ end_advances eb eb')
    /\ (expand_budget L' <= expand_budget tunnel_cycle)%nat.
Proof.
  apply (expand_terminates 9 tunnel_cycle 0 false).
  - split.
    + intros out. destruct out; vm_compute;
        (apply Forall_cons; split; [|apply Forall_nil_2]);
        eexists _, _; (split; [reflexivity|]); (split; [reflexivity|]);
        (split; [reflexivity|]); constructor.
    + reflexivity.
    + vm_compute.
      repeat (apply Forall_cons; split; [cbv; split; [discriminate | reflexivity]|]).
      apply Forall_nil_2.
    + reflexivity.
    + reflexivity.
    + vm_compute. repeat (apply Forall_cons; split; [discriminate|]). apply Forall_nil_2.
  - vm_compute. constructor.
  - vm_compute. lia.
Defined.

(** ** Redeclaration *)

Section Redeclaration.
Context `{HDR : LexerHeader} `{COL : Collaborators}.

(** The check at the end of [ydeclaration]: a name that the element map
    holds is reported as redeclared, and no element is made or changed. *)
Lemma declare_reports_redeclaration (etype : Z) (conf lm name : string) (L : Lexer) :
  0 <= hm_get (_element_map L) name < vsize (_elements L) ->
  length (_element_landmarks L) = length (_elements L) ->
  exists L',
    declare etype conf lm name L = Ret (tt, L')
    /\ mkDiag Error (landmark L) "redeclaration of element `%s'" [AStr name] None ∈ _errh L'
    /\ _elements L' = _elements L
    /\ _element_names L' = _element_names L
    /\ _element_configurations L' = _element_configurations L
    /\ _element_landmarks L' = _element_landmarks L
    /\ _element_map L' = _element_map L.
Proof.
  intros [Hlo Hhi] Hlen. unfold declare. mstep.
  destruct (Z.leb_spec 0 (hm_get (_element_map L) name)); [|lia].
  mstep.
  set (L1 := lerror _ _ L).
  assert (Hd : mkDiag Error (landmark L) "redeclaration of element `%s'" [AStr name] None
               ∈ _errh L1).
  { unfold L1, lerror, errh_lerror. simpl. set_solver. }
  destruct (lookup_lt_is_Some_2 (_elements L) (Z.to_nat (hm_get (_element_map L) name)))
    as [t Et]; [unfold vsize in Hhi; lia|].
  destruct (lookup_lt_is_Some_2 (_element_landmarks L)
              (Z.to_nat (hm_get (_element_map L) name))) as [elm Elm];
    [unfold vsize in Hhi; lia|].
  rewrite (bind_get_res (fun L => vec_get (_elements L) _) t) by by apply vec_get_ok.
  destruct (negb (t =? TUNNEL_TYPE)).
  - rewrite (bind_get_res (fun L => vec_get (_element_landmarks L) _) elm)
      by by apply vec_get_ok.
    eexists. split; [reflexivity|]. split; [|done].
    unfold errh_error_at, errh_lerror. simpl. set_solver.
  - exists L1. split; [done|]. by split.
Qed.

End Redeclaration.

(** C6: on [a :: Id; a :: Id;] the second statement does not reach the
    check of [ydeclaration]: [yelement] finds [a] declared and returns, the
    connection loop reports a syntax error at [::], and the [Id] that follows
    is read as a statement that makes an anonymous element.  No redeclaration
    is reported and the element list has a second entry.  The check is
    reached for the names of a list, as in [a :: Id; b, a :: Id;]. *)
Theorem redeclaration_statement_not_checked :
  _element_names (run_statements 20 6 (example_lexer "a :: Id; a :: Id;")) = ["a"; "Id@2"]%string
  /\ _elements (run_statements 20 6 (example_lexer "a :: Id; a :: Id;")) = [2; 2]
  /\ _errh (run_statements 20 6 (example_lexer "a :: Id; a :: Id;"))
     = [mkDiag Error "conf:1" "syntax error before `%s'" [AStr "::"] None]
  /\ _pos (run_statements 20 6 (example_lexer "a :: Id; a :: Id;")) = 17
  /\ _element_names (run_statements 20 6 (example_lexer "a :: Id; b, a :: Id;"))
     = ["a"; "b"]%string
  /\ _errh (run_statements 20 6 (example_lexer "a :: Id; b, a :: Id;"))
     = [mkDiag Error "conf:1" "redeclaration of element `%s'" [AStr "a"] None;
        mkDiag Error "conf:1" "element `%s' previously declared here" [AStr "a"] None].
Proof. vm_compute. repeat split. Qed.

(** ** Lexemes are pieces of the text *)

Section Lexemes.
Context `{HDR : LexerHeader} `{COL : Collaborators}.

Lemma find_word_bounds (n : nat) (pos : Z) (L : Lexer) (r : option Z) (L' : Lexer) :
  _len L < 2 ^ 32 -> 0 <= pos <= _len L ->
  find_word n pos L = (r, L') ->
  same_text L L' /\ forall wp, r = Some wp -> pos <= wp < _len L.
Proof.
  revert pos L. induction n as [|n IH]; intros pos L Hlen Hpos; simpl.
  { intros [= <- <-]. split; [done | discriminate]. }
  destruct (skip_space pos L) as [p1 L1] eqn:E1.
  apply skip_space_bounds in E1 as [Hp1 Ht1]; [|done..].
  pose proof (same_text_len _ _ Ht1) as Hl1.
  assert (Hrec : forall p2 L2, p1 <= p2 <= _len L -> same_text L1 L2 ->
            find_word n p2 L2 = (r, L') ->
            same_text L L' /\ forall wp, r = Some wp -> pos <= wp < _len L).
  { intros p2 L2 Hp2 Ht2 E.
    pose proof (same_text_len _ _ Ht2) as Hl2.
    apply IH in E as [Ht Hwp]; [|lia..].
    split; [unfold same_text in *; congruence|].
    intros wp Hr. specialize (Hwp wp Hr). lia. }
  destruct (Z.leb_spec (_len L1) p1).
  { intros [= <- <-]. split; [done | discriminate]. }
  assert (Hhere : (Some p1, L1) = (r, L') ->
            same_text L L' /\ forall wp, r = Some wp -> pos <= wp < _len L).
  { intros [= <- <-]. split; [done|]. intros wp [= <-]. lia. }
  rewrite (usub_exact (_len L1) 1) by lia.
  destruct (ch_eq (_data L1 p1) ch_slash && (p1 <? _len L1 - 1)) eqn:Eslash.
  - apply andb_prop in Eslash as [_ Hlt%Z.ltb_lt].
    destruct (ch_eq (_data L1 (p1 + 1)) ch_slash).
    { destruct (skip_line (p1 + 2) L1) as [p2 L2] eqn:E2.
      apply skip_line_bounds in E2 as [? ?]; [|lia..]. apply Hrec; [lia | done]. }
    destruct (ch_eq (_data L1 (p1 + 1)) ch_star); [|done].
    destruct (skip_slash_star (p1 + 2) L1) as [p2 L2] eqn:E2.
    apply skip_slash_star_bounds in E2 as [? ?]; [|lia..]. apply Hrec; [lia | done].
  - destruct (ch_eq (_data L1 p1) ch_hash && at_line_start L1 p1); [|done].
    destruct (process_line_directive p1 L1) as [p2 L2] eqn:E2.
    apply process_line_directive_bounds in E2 as [? ?]; [|lia..]. apply Hrec; [lia | done].
Qed.

Lemma word_scan_bounds (n : nat) (L : Lexer) (pos : Z) :
  pos <= _len L -> pos <= word_scan n L pos <= _len L.
Proof.
  revert pos. induction n as [|n IH]; intros pos Hpos; simpl; [lia|].
  destruct (Z.ltb_spec pos (_len L)); simpl; [|lia].
  destruct (is_word_char _); [|lia].
  destruct (_ && _ && _); [lia|]. specialize (IH (pos + 1)). lia.
Qed.

Lemma variable_scan_bounds (n : nat) (L : Lexer) (pos : Z) :
  pos <= _len L -> pos <= variable_scan n L pos <= _len L.
Proof.
  revert pos. induction n as [|n IH]; intros pos Hpos; simpl; [lia|].
  destruct (Z.ltb_spec pos (_len L)); simpl; [|lia].
  destruct (_ || _); [|lia]. specialize (IH (pos + 1)). lia.
Qed.

(** What [next_lexeme] returns once it has found the start of a lexeme: the
    piece of the text from there to the position it leaves. *)
Lemma lexeme_at_text (wp : Z) (L : Lexer) (t : Lexeme) (L' : Lexer) :
  _len L < 2 ^ 32 -> 0 <= wp < _len L ->
  lexeme_at wp L = (t, L') ->
  _big_string L' = _big_string L
  /\ wp < _pos L' <= _len L
  /\ Lexeme.string t = substring (_big_string L) wp (_pos L' - wp).
Proof.
  intros Hlen Hwp. unfold lexeme_at. cbv zeta.
  destruct (is_word_start (_data L wp)).
  { pose proof (word_scan_bounds (distance L (wp + 1)) L (wp + 1)) as Hb.
    repeat case_bool_decide; intros [= <- <-]; simpl; (split; [done|]);
      (split; [lia | done]). }
  set (var_end := if ch_eq (_data L wp) ch_dollar then _ else wp).
  assert (Hve : var_end <= _len L).
  { unfold var_end. destruct (ch_eq _ _); [|lia].
    pose proof (variable_scan_bounds (distance L (wp + 1)) L (wp + 1)). lia. }
  destruct (ch_eq (_data L wp) ch_dollar && (wp + 1 <? var_end)) eqn:Ev.
  { apply andb_prop in Ev as [_ Hlt%Z.ltb_lt].
    intros [= <- <-]. simpl. split; [done|]. split; [lia | done]. }
  rewrite (usub_exact (_len L) 1) by lia.
  destruct ((wp <? _len L - 1) && ch_eq (_data L wp) "-" && ch_eq (_data L (wp + 1)) ">") eqn:E1.
  { apply andb_prop in E1 as [[Hlt%Z.ltb_lt _]%andb_prop _].
    intros [= <- <-]. simpl. split; [done|]. split; [lia|]. f_equal. lia. }
  destruct ((wp <? _len L - 1) && ch_eq (_data L wp) ":" && ch_eq (_data L (wp + 1)) ":") eqn:E2.
  { apply andb_prop in E2 as [[Hlt%Z.ltb_lt _]%andb_prop _].
    intros [= <- <-]. simpl. split; [done|]. split; [lia|]. f_equal. lia. }
  destruct ((wp <? _len L - 1) && ch_eq (_data L wp) "|" && ch_eq (_data L (wp + 1)) "|") eqn:E3.
  { apply andb_prop in E3 as [[Hlt%Z.ltb_lt _]%andb_prop _].
    intros [= <- <-]. simpl. split; [done|]. split; [lia|]. f_equal. lia. }
  destruct ((wp <? usub (_len L) 2) && ch_eq (_data L wp) "." && ch_eq (_data L (wp + 1)) "."
            && ch_eq (_data L (wp + 2)) ".") eqn:E4.
  { apply andb_prop in E4 as [[[_ _]%andb_prop _]%andb_prop Hdot].
    assert (wp + 2 < _len L).
    { destruct (Z.lt_ge_cases (wp + 2) (_len L)) as [|Hout]; [done|].
      rewrite (data_outside L (wp + 2)) in Hdot by lia. discriminate. }
    intros [= <- <-]. simpl. split; [done|]. split; [lia|]. f_equal. lia. }
  intros [= <- <-]. simpl. split; [done|]. split; [lia|]. f_equal. lia.
Qed.

(** X1: [next_lexeme] leaves the text alone and moves the position forwards,
    never past the end of the text.  At the end of the text it returns the
    end-of-file lexeme and the position is the length of the text; otherwise
    the string of the lexeme it returns is the piece of the text from the
    first character of the lexeme to the new position, and that piece is
    not empty. *)
Theorem next_lexeme_advances (L : Lexer) (t : Lexeme) (L' : Lexer) :
  _len L < 2 ^ 32 -> 0 <= _pos L <= _len L ->
  next_lexeme L = (t, L') ->
  _big_string L' = _big_string L
  /\ _pos L <= _pos L' <= _len L
  /\ ((t = Lexeme_EOF /\ _pos L' = _len L)
      \/ exists word_pos,
           _pos L <= word_pos < _pos L'
           /\ Lexeme.string t = substring (_big_string L) word_pos (_pos L' - word_pos)).
Proof.
  intros Hlen Hpos. unfold next_lexeme, next_lexeme_from.
  destruct (find_word _ _ L) as [r L1] eqn:E1.
  apply find_word_bounds in E1 as [Ht1 Hwp]; [|done..].
  pose proof (same_text_len _ _ Ht1) as Hl1.
  destruct r as [wp|].
  - specialize (Hwp wp eq_refl). intros E.
    apply lexeme_at_text in E as (Hbig & Hp' & Hs); [|lia..].
    unfold same_text in Ht1. rewrite Ht1 in Hbig, Hs.
    split; [done|]. split; [lia|]. right. exists wp. split; [lia | done].
  - intros [= <- <-]. simpl. split; [done|]. split; [lia|]. left. split; [done | lia].
Qed.

End Lexemes.

Lemma next_lexeme_advances_witness :
  _big_string (next_lexeme two_lines).2 = _big_string two_lines
  /\ _pos two_lines <= _pos (next_lexeme two_lines).2 <= _len two_lines
  /\ (((next_lexeme two_lines).1 = Lexeme_EOF /\ _pos (next_lexeme two_lines).2 = _len two_lines)
      \/ exists word_pos,
           _pos two_lines <= word_pos < _pos (next_lexeme two_lines).2
           /\ Lexeme.string (next_lexeme two_lines).1
              = substring (_big_string two_lines) word_pos
                  (_pos (next_lexeme two_lines).2 - word_pos)).
Proof.
  apply (next_lexeme_advances two_lines (next_lexeme two_lines).1 (next_lexeme two_lines).2).
  - vm_compute. reflexivity.
  - vm_compute. split; discriminate.
  - by destruct (next_lexeme two_lines).
Defined.

(** ** The pushback circle *)

Section Pushback.
Context `{HDR : LexerHeader} `{COL : Collaborators}.

Lemma pending_count_range (L : Lexer) : circle_ok L -> 0 <= pending_count L < TCIRCLE_SIZE.
Proof. intros (_ & ? & ?). unfold pending_count. apply Z.mod_pos_bound. lia. Qed.

Lemma mod_step (a n : Z) : 0 <= a < n -> (a + 1) mod n = if a + 1 =? n then 0 else a + 1.
Proof.
  intros H. destruct (Z.eqb_spec (a + 1) n) as [->|].
  - apply Z.mod_same. lia.
  - apply Z.mod_small. lia.
Qed.

Lemma mod_diff (a b n : Z) :
  0 <= a < n -> 0 <= b < n -> (a - b) mod n = if b <=? a then a - b else a - b + n.
Proof.
  intros Ha Hb. destruct (Z.leb_spec b a).
  - apply Z.mod_small. lia.
  - rewrite <- (Z.mod_add _ 1) by lia. rewrite Z.mul_1_l. apply Z.mod_small. lia.
Qed.

Lemma mod_sum (a i n : Z) :
  0 <= a < n -> 0 <= i < n -> (a + i) mod n = if a + i <? n then a + i else a + i - n.
Proof.
  intros Ha Hi. destruct (Z.ltb_spec (a + i) n).
  - apply Z.mod_small. lia.
  - rewrite <- (Z.mod_add _ (-1)) by lia.
    replace (a + i + -1 * n) with (a + i - n) by lia. apply Z.mod_small. lia.
Qed.

(** [unlex] appends to the lexemes that wait. *)
Lemma unlex_pending (t : Lexeme) (L : Lexer) :
  circle_ok L -> pending_count L < TCIRCLE_SIZE - 1 ->
  exists L',
    unlex t L = Ret (tt, L')
    /\ circle_ok L' /\ pending L' = pending L ++ [t] /\ same_reading L L'.
Proof.
  intros Hok Hcount. pose proof Hok as (Hsize & Hpos & Hfull).
  unfold pending_count in Hcount. rewrite mod_diff in Hcount by done.
  unfold unlex, bind, get, lift_res, modify, assert, vec_set.
  destruct (Z.leb_spec 0 (_tfull L)); [|lia].
  destruct (Z.ltb_spec (_tfull L) (vsize (_tcircle L))); [|lia]. simpl.
  rewrite mod_step by done.
  set (tfull' := if _tfull L + 1 =? TCIRCLE_SIZE then 0 else _tfull L + 1).
  assert (Hne : tfull' <> _tpos L).
  { unfold tfull'. destruct (Z.eqb_spec (_tfull L + 1) TCIRCLE_SIZE);
      destruct (Z.leb_spec (_tpos L) (_tfull L)); lia. }
  destruct (Z.eqb_spec tfull' (_tpos L)); [done|]. simpl.
  eexists. split; [reflexivity|].
  assert (Hr' : 0 <= tfull' < TCIRCLE_SIZE).
  { unfold tfull'. destruct (Z.eqb_spec (_tfull L + 1) TCIRCLE_SIZE); lia. }
  split; [|split; [|done]].
  { unfold circle_ok, vsize in *. simpl. rewrite length_insert. done. }
  unfold pending, pending_count. simpl.
  rewrite !mod_diff by done.
  assert (Hc' : (if _tpos L <=? tfull' then tfull' - _tpos L else tfull' - _tpos L + TCIRCLE_SIZE)
                = (if _tpos L <=? _tfull L then _tfull L - _tpos L
                   else _tfull L - _tpos L + TCIRCLE_SIZE) + 1).
  { unfold tfull'. destruct (Z.eqb_spec (_tfull L + 1) TCIRCLE_SIZE);
      destruct (Z.leb_spec (_tpos L) (_tfull L));
      repeat match goal with |- context [?a <=? ?b] => destruct (Z.leb_spec a b) end; lia. }
  rewrite Hc'.
  set (c := if _tpos L <=? _tfull L then _ else _) in *.
  assert (0 <= c) by (unfold c; destruct (Z.leb_spec (_tpos L) (_tfull L)); lia).
  rewrite Z2Nat.inj_add by lia. change (Z.to_nat 1) with 1%nat.
  rewrite seq_app, fmap_app. simpl. f_equal.
  - apply list_fmap_ext. intros k i Hi. apply lookup_seq in Hi as [-> Hk]. simpl.
    rewrite list_lookup_insert_ne; [done|].
    rewrite mod_sum by lia.
    unfold c in *. destruct (Z.leb_spec (_tpos L) (_tfull L));
      destruct (Z.ltb_spec (_tpos L + Z.of_nat k) TCIRCLE_SIZE); lia.
  - f_equal. rewrite Z2Nat.id by lia.
    replace ((_tpos L + c) mod TCIRCLE_SIZE) with (_tfull L).
    + rewrite list_lookup_insert_eq; [done|]. unfold vsize in Hsize. lia.
    + rewrite mod_sum by lia. unfold c in *.
      destruct (Z.leb_spec (_tpos L) (_tfull L));
        match goal with |- context [?a <? ?b] => destruct (Z.ltb_spec a b) end; lia.
Qed.

Lemma pending_length (L : Lexer) : length (pending L) = Z.to_nat (pending_count L).
Proof. unfold pending. by rewrite length_fmap, length_seq. Qed.

(** A [lex] that finds a lexeme waiting takes it from the front. *)
Lemma lex_pending (t : Lexeme) (q : list Lexeme) (L : Lexer) :
  circle_ok L -> pending L = t :: q ->
  exists L',
    lex L = Ret (t, L')
    /\ circle_ok L' /\ pending L' = q /\ same_reading L L'.
Proof.
  intros Hok Hq. pose proof Hok as (Hsize & Hpos & Hfull).
  pose proof (pending_length L) as Hlen. rewrite Hq in Hlen. simpl in Hlen.
  pose proof (pending_count_range L Hok) as Hrange.
  assert (Hc : 1 <= pending_count L) by lia.
  unfold pending_count in Hc, Hrange. rewrite mod_diff in Hc, Hrange by done.
  unfold lex, bind, get, lift_res, modify, ret.
  destruct (Z.eqb_spec (_tpos L) (_tfull L)) as [Heq|Hne0].
  { rewrite Heq in Hc. destruct (Z.leb_spec (_tfull L) (_tfull L)); lia. }
  simpl. rewrite mod_step by done.
  set (tpos' := if _tpos L + 1 =? TCIRCLE_SIZE then 0 else _tpos L + 1).
  assert (Hr' : 0 <= tpos' < TCIRCLE_SIZE).
  { unfold tpos'. destruct (Z.eqb_spec (_tpos L + 1) TCIRCLE_SIZE); lia. }
  assert (Hhead : _tcircle L !! Z.to_nat (_tpos L) = Some t).
  { unfold pending in Hq.
    destruct (Z.to_nat (pending_count L)) as [|c] eqn:Ec; [discriminate|].
    simpl in Hq. injection Hq as Hh _.
    rewrite Z.add_0_r, Z.mod_small in Hh by lia.
    destruct (lookup_lt_is_Some_2 (_tcircle L) (Z.to_nat (_tpos L))) as [x Hx];
      [unfold vsize in Hsize; lia|].
    rewrite Hx in Hh |- *. simpl in Hh. congruence. }
  unfold vec_get. destruct (Z.leb_spec 0 (_tpos L)); [|lia].
  destruct (Z.ltb_spec (_tpos L) (vsize (_tcircle L))); [|lia]. simpl.
  rewrite Hhead. simpl.
  eexists. split; [reflexivity|].
  split; [by unfold circle_ok|]. split; [|done].
  unfold pending in Hq |- *. unfold pending_count in *. simpl.
  rewrite mod_diff by done. rewrite mod_diff in Hq by done.
  set (c := if _tpos L <=? _tfull L then _ else _) in *.
  assert (Hc' : (if tpos' <=? _tfull L then _tfull L - tpos'
                 else _tfull L - tpos' + TCIRCLE_SIZE) = c - 1).
  { unfold tpos', c in *. destruct (Z.eqb_spec (_tpos L + 1) TCIRCLE_SIZE);
      destruct (Z.leb_spec (_tpos L) (_tfull L));
      repeat match goal with |- context [?a <=? ?b] => destruct (Z.leb_spec a b) end; lia. }
  rewrite Hc'.
  replace (Z.to_nat c) with (S (Z.to_nat (c - 1))) in Hq by lia.
  rewrite <- cons_seq, fmap_cons in Hq. injection Hq as _ Hq. rewrite <- Hq.
  rewrite <- fmap_S_seq, <- list_fmap_compose.
  apply list_fmap_ext. intros k i Hi. apply lookup_seq in Hi as [-> Hk]. simpl.
  do 3 f_equal.
  rewrite !mod_sum by lia.
  unfold tpos'. destruct (Z.eqb_spec (_tpos L + 1) TCIRCLE_SIZE);
    repeat match goal with |- context [?a <? ?b] => destruct (Z.ltb_spec a b) end; lia.
Qed.

End Pushback.

(** ** What reading writes *)

Lemma reads_on_refl (L : Lexer) : reads_on L L.
Proof. exists (_pos L), (_lineno L), (_filename L), (_errh L). by destruct L. Qed.

Lemma reads_on_trans (L1 L2 L3 : Lexer) : reads_on L1 L2 -> reads_on L2 L3 -> reads_on L1 L3.
Proof.
  intros (p1 & l1 & f1 & e1 & ->) (p2 & l2 & f2 & e2 & ->).
  exists p2, l2, f2, e2. by destruct L1.
Qed.

Lemma reads_on_set_pos (p : Z) (L : Lexer) : reads_on L (set_pos p L).
Proof. exists p, (_lineno L), (_filename L), (_errh L). by destruct L. Qed.

Lemma reads_on_set_lineno (l : Z) (L : Lexer) : reads_on L (set_lineno l L).
Proof. exists (_pos L), l, (_filename L), (_errh L). by destruct L. Qed.

Lemma reads_on_incr_lineno (L : Lexer) : reads_on L (incr_lineno L).
Proof. apply reads_on_set_lineno. Qed.

Lemma reads_on_set_filename (f : string) (L : Lexer) : reads_on L (set_filename f L).
Proof. exists (_pos L), (_lineno L), f, (_errh L). by destruct L. Qed.

Lemma reads_on_set_errh (e : ErrorHandler) (L : Lexer) : reads_on L (set_errh e L).
Proof. exists (_pos L), (_lineno L), (_filename L), e. by destruct L. Qed.

Section Frame.
Context `{HDR : LexerHeader} `{COL : Collaborators}.

Lemma reads_on_lerror fmt args (L : Lexer) : reads_on L (lerror fmt args L).
Proof. apply reads_on_set_errh. Qed.

Lemma skip_line_reads pos L : reads_on L (skip_line pos L).2.
Proof.
  unfold skip_line. destruct (skip_line_scan _ _ _); simpl.
  - apply reads_on_incr_lineno.
  - eapply reads_on_trans; [apply reads_on_incr_lineno | apply reads_on_set_lineno].
Qed.

Lemma skip_slash_star_scan_reads n pos L : reads_on L (skip_slash_star_scan n pos L).2.
Proof.
  revert pos L. induction n as [|n IH]; intros pos L; simpl; [apply reads_on_refl|].
  destruct (pos <? _len L); [|apply reads_on_refl].
  destruct (ch_eq _ ch_newline).
  { eapply reads_on_trans; [apply reads_on_incr_lineno | apply IH]. }
  destruct (ch_eq _ ch_return).
  { eapply reads_on_trans; [apply reads_on_incr_lineno | apply IH]. }
  destruct (_ && _ && _); [apply reads_on_refl | apply IH].
Qed.

Lemma skip_space_scan_reads n pos L : reads_on L (skip_space_scan n pos L).2.
Proof.
  revert pos L. induction n as [|n IH]; intros pos L; simpl; [apply reads_on_refl|].
  destruct (_ && _); [|apply reads_on_refl].
  destruct (ch_eq _ ch_newline).
  { eapply reads_on_trans; [apply reads_on_incr_lineno | apply IH]. }
  destruct (ch_eq _ ch_return); [|apply IH].
  eapply reads_on_trans; [apply reads_on_incr_lineno | apply IH].
Qed.

Lemma process_line_directive_reads pos L : reads_on L (process_line_directive pos L).2.
Proof.
  unfold process_line_directive. cbv zeta.
  match goal with |- context [if ?b then skip_line _ _ else _] => destruct b end.
  { eapply reads_on_trans; [apply reads_on_lerror | apply skip_line_reads]. }
  destruct (line_number_scan _ _ _ _) as [p lineno].
  match goal with |- context [if ?b then (_, set_filename _ _) else _] => destruct b end; simpl.
  - eapply reads_on_trans; [apply reads_on_set_lineno | apply reads_on_set_filename].
  - apply reads_on_set_lineno.
Qed.

Lemma find_word_reads n pos L : reads_on L (find_word n pos L).2.
Proof.
  revert pos L. induction n as [|n IH]; intros pos L; simpl; [apply reads_on_refl|].
  pose proof (skip_space_scan_reads (distance L pos) pos L) as H1.
  fold (skip_space pos L) in H1.
  destruct (skip_space pos L) as [p1 L1]. simpl in H1.
  assert (Hrec : forall x, reads_on L1 x.2 -> reads_on L (find_word n x.1 x.2).2).
  { intros [p2 L2] H2. simpl in *.
    eapply reads_on_trans; [exact H1|]. eapply reads_on_trans; [exact H2 | apply IH]. }
  destruct (_len L1 <=? p1); [done|].
  destruct (_ && _).
  - destruct (ch_eq _ ch_slash).
    { specialize (Hrec (skip_line (p1 + 2) L1) (skip_line_reads _ _)).
      by destruct (skip_line (p1 + 2) L1). }
    destruct (ch_eq _ ch_star); [|done].
    specialize (Hrec (skip_slash_star (p1 + 2) L1) (skip_slash_star_scan_reads _ _ _)).
    by destruct (skip_slash_star (p1 + 2) L1).
  - destruct (_ && _); [|done].
    specialize (Hrec (process_line_directive p1 L1) (process_line_directive_reads _ _)).
    by destruct (process_line_directive p1 L1).
Qed.

Lemma lexeme_at_reads wp L : reads_on L (lexeme_at wp L).2.
Proof.
  unfold lexeme_at. cbv zeta.
  repeat match goal with
         | |- context [if ?b then _ else _] => destruct b
         end; simpl; apply reads_on_set_pos.
Qed.

Lemma next_lexeme_reads (L : Lexer) : reads_on L (next_lexeme L).2.
Proof.
  unfold next_lexeme, next_lexeme_from.
  pose proof (find_word_reads (S (distance L (_pos L))) (_pos L) L) as H1.
  destruct (find_word _ _ L) as [[wp|] L1]; simpl in H1.
  - eapply reads_on_trans; [exact H1 | apply lexeme_at_reads].
  - eapply reads_on_trans; [exact H1 | apply reads_on_set_pos].
Qed.

(** X2: [next_lexeme] writes four members of the lexer and no other: the
    position, the line number, the file name and the error log.  The
    elements, the connections, the classes, the tunnels and the lexemes that
    were pushed back are as they were. *)
Theorem next_lexeme_reads_on (L : Lexer) : reads_on L (next_lexeme L).2.
Proof. apply next_lexeme_reads. Qed.

Lemma reads_on_circle (L L' : Lexer) :
  reads_on L L' ->
  _tcircle L' = _tcircle L /\ _tpos L' = _tpos L /\ _tfull L' = _tfull L.
Proof. intros (p & l & f & e & ->). by destruct L. Qed.

(** A [lex] that finds nothing waiting reads the next lexeme of the text. *)
Lemma lex_reads (L : Lexer) :
  circle_ok L -> pending L = [] ->
  exists L',
    lex L = Ret ((next_lexeme L).1, L')
    /\ circle_ok L' /\ pending L' = [] /\ same_reading (next_lexeme L).2 L'.
Proof.
  intros Hok Hq. pose proof Hok as (Hsize & Hpos & Hfull).
  pose proof (pending_length L) as Hlen. rewrite Hq in Hlen. simpl in Hlen.
  pose proof (pending_count_range L Hok) as Hrange.
  assert (Hc : pending_count L = 0) by lia.
  unfold pending_count in Hc. rewrite mod_diff in Hc by done.
  assert (Heq : _tpos L = _tfull L) by (destruct (Z.leb_spec (_tpos L) (_tfull L)); lia).
  pose proof (reads_on_circle _ _ (next_lexeme_reads L)) as (Hc1 & Hp1 & Hf1).
  unfold lex, bind, get, lift, lift_res, modify, ret.
  rewrite Heq, Z.eqb_refl.
  destruct (next_lexeme L) as [t L1] eqn:E1. simpl in *.
  unfold vec_set. rewrite Hc1.
  destruct (Z.leb_spec 0 (_tfull L)); [|lia].
  destruct (Z.ltb_spec (_tfull L) (vsize (_tcircle L))); [|lia]. simpl.
  rewrite Hf1, Hp1, Heq, !mod_step by done.
  set (i' := if _tfull L + 1 =? TCIRCLE_SIZE then 0 else _tfull L + 1).
  assert (Hr' : 0 <= i' < TCIRCLE_SIZE).
  { unfold i'. destruct (Z.eqb_spec (_tfull L + 1) TCIRCLE_SIZE); lia. }
  unfold vec_get, vsize. rewrite length_insert.
  destruct (Z.leb_spec 0 (_tfull L)); [|lia].
  destruct (Z.ltb_spec (_tfull L) (Z.of_nat (length (_tcircle L)))); [|unfold vsize in *; lia].
  simpl. rewrite list_lookup_insert_eq by (unfold vsize in *; lia). simpl.
  eexists. split; [reflexivity|].
  split; [|split; [|done]].
  - unfold circle_ok, vsize in *. simpl. rewrite length_insert. done.
  - unfold pending, pending_count. simpl. by rewrite Z.sub_diag, Z.mod_0_l by lia.
Qed.

End Frame.

(** ** Pushing lexemes back *)

Lemma same_reading_refl (L : Lexer) : same_reading L L.
Proof. by unfold same_reading. Qed.

Lemma same_reading_trans (L1 L2 L3 : Lexer) :
  same_reading L1 L2 -> same_reading L2 L3 -> same_reading L1 L3.
Proof. unfold same_reading. intuition congruence. Qed.

Section Queue.
Context `{HDR : LexerHeader} `{COL : Collaborators}.

Lemma unlex_all_pending (ts : list Lexeme) (L : Lexer) :
  circle_ok L -> Z.of_nat (length (pending L) + length ts) < TCIRCLE_SIZE ->
  exists L',
    unlex_all ts L = Ret (tt, L')
    /\ circle_ok L' /\ pending L' = pending L ++ ts /\ same_reading L L'.
Proof.
  revert L. induction ts as [|t ts IH]; intros L Hok Hlen; simpl.
  { exists L. rewrite app_nil_r. split; [done|]. split; [done|]. split; [done|].
    apply same_reading_refl. }
  destruct (unlex_pending t L Hok) as (L1 & E1 & Hok1 & Hq1 & Hs1).
  { pose proof (pending_length L). pose proof (pending_count_range L Hok). simpl in Hlen. lia. }
  destruct (IH L1 Hok1) as (L' & E' & Hok' & Hq' & Hs').
  { rewrite Hq1, length_app. simpl in *. lia. }
  exists L'. unfold bind. rewrite E1. split; [done|]. split; [done|].
  split; [by rewrite Hq', Hq1, <- app_assoc | by eapply same_reading_trans].
Qed.

Lemma lex_times_pending (q : list Lexeme) (L : Lexer) :
  circle_ok L -> pending L = q ->
  exists L',
    lex_times (length q) L = Ret (q, L')
    /\ circle_ok L' /\ pending L' = [] /\ same_reading L L'.
Proof.
  revert L. induction q as [|t q IH]; intros L Hok Hq; simpl.
  { exists L. split; [done|]. split; [done|]. split; [done | apply same_reading_refl]. }
  destruct (lex_pending t q L Hok Hq) as (L1 & E1 & Hok1 & Hq1 & Hs1).
  destruct (IH L1 Hok1 Hq1) as (L' & E' & Hok' & Hq' & Hs').
  exists L'. unfold bind. rewrite E1, E'. split; [done|]. split; [done|].
  split; [done | by eapply same_reading_trans].
Qed.

(** X5: the lexemes given to [unlex] come back from [lex] in the order in
    which they were given, first in first out, after the lexemes that were
    waiting already, as long as fewer than [TCIRCLE_SIZE] lexemes wait.
    When they have been read back no lexeme waits, and the text, the
    position, the line number, the file name and the error log are as before
    the first [unlex]. *)
Theorem pushback_first_in_first_out (ts : list Lexeme) (L : Lexer) :
  circle_ok L -> Z.of_nat (length (pending L) + length ts) < TCIRCLE_SIZE ->
  exists L1 L2,
    unlex_all ts L = Ret (tt, L1)
    /\ pending L1 = pending L ++ ts
    /\ lex_times (length (pending L ++ ts)) L1 = Ret (pending L ++ ts, L2)
    /\ pending L2 = []
    /\ circle_ok L2
    /\ same_reading L L2.
Proof.
  intros Hok Hlen.
  destruct (unlex_all_pending ts L Hok Hlen) as (L1 & E1 & Hok1 & Hq1 & Hs1).
  destruct (lex_times_pending (pending L ++ ts) L1 Hok1 Hq1) as (L2 & E2 & Hok2 & Hq2 & Hs2).
  exists L1, L2. split; [done|]. split; [done|]. split; [done|]. split; [done|].
  split; [done | by eapply same_reading_trans].
Qed.

(** X6: [unlex] on a circle in which [TCIRCLE_SIZE - 1] lexemes wait
    fails its assertion: the circle holds one lexeme less than its size. *)
Theorem unlex_full_circle (t : Lexeme) (L : Lexer) :
  circle_ok L -> Z.of_nat (length (pending L)) = TCIRCLE_SIZE - 1 ->
  unlex t L = Fault.
Proof.
  intros Hok Hfull. pose proof Hok as (Hsize & Hpos & Hf).
  rewrite pending_length in Hfull.
  pose proof (pending_count_range L Hok) as Hrange.
  unfold pending_count in *. rewrite mod_diff in Hfull, Hrange by done.
  unfold unlex, bind, get, lift_res, modify, assert, vec_set.
  destruct (Z.leb_spec 0 (_tfull L)); [|lia].
  destruct (Z.ltb_spec (_tfull L) (vsize (_tcircle L))); [|lia]. simpl.
  rewrite mod_step by done.
  destruct (Z.eqb_spec (_tfull L + 1) TCIRCLE_SIZE);
    destruct (Z.leb_spec (_tpos L) (_tfull L));
    match goal with |- context [?a =? ?b] => destruct (Z.eqb_spec a b) end;
    simpl; (reflexivity || lia).
Qed.

(** What a call of [lex] returns and leaves: the first lexeme that waits,
    or the next lexeme of the text if none waits. *)
Lemma lex_outcome (L : Lexer) :
  circle_ok L ->
  exists t L1,
    lex L = Ret (t, L1)
    /\ circle_ok L1 /\ pending L1 = tail (pending L)
    /\ match pending L with
       | [] => t = (next_lexeme L).1 /\ same_reading (next_lexeme L).2 L1
       | t0 :: _ => t = t0 /\ same_reading L L1
       end.
Proof.
  intros Hok. destruct (pending L) as [|t0 q] eqn:Hq.
  - destruct (lex_reads L Hok Hq) as (L1 & E1 & Hok1 & Hq1 & Hs1).
    exists (next_lexeme L).1, L1. by rewrite Hq1.
  - destruct (lex_pending t0 q L Hok Hq) as (L1 & E1 & Hok1 & Hq1 & Hs1).
    exists t0, L1. by rewrite Hq1.
Qed.

(** X7: [expect] reads one lexeme with [lex]: the first of the lexemes
    that wait in the circle or, when none waits, the next lexeme of the
    text; it returns whether the lexeme is of the kind asked for.  A
    lexeme of that kind is consumed, and [expect] does nothing more than
    [lex].  Any other lexeme is pushed back with [unlex], which puts it
    behind the lexemes that still wait, and with [report_error] one error
    [expected ...] is reported at the landmark reached by reading the
    lexeme; the text, the position, the line and the file name are as
    [lex] left them. *)
Theorem expect_pushes_back (kind : Z) (report_error : bool) (L : Lexer) :
  circle_ok L ->
  exists t L1 L',
    lex L = Ret (t, L1)
    /\ match pending L with
       | [] => t = (next_lexeme L).1 /\ same_reading (next_lexeme L).2 L1
       | t0 :: _ => t = t0 /\ same_reading L L1
       end
    /\ expect kind report_error L = Ret (Lexeme.is_kind t kind, L')
    /\ circle_ok L'
    /\ _big_string L' = _big_string L1 /\ _pos L' = _pos L1
    /\ _lineno L' = _lineno L1 /\ _filename L' = _filename L1
    /\ if Lexeme.is_kind t kind
       then L' = L1 /\ pending L' = tail (pending L)
       else pending L' = tail (pending L) ++ [t]
            /\ _errh L'
               = _errh L1
                 ++ (if report_error
                     then [mkDiag Error (landmark L1) "expected %s"
                             [AStr (lexeme_string kind)] None]
                     else []).
Proof.
  intros Hok.
  destruct (lex_outcome L Hok) as (t & L1 & E1 & Hok1 & Hq1 & Hread).
  exists t, L1. unfold expect, bind. rewrite E1.
  destruct (Lexeme.is_kind t kind).
  { exists L1. do 8 (split; [done|]). by split. }
  set (L2 := if report_error then lerror "expected %s" [AStr (lexeme_string kind)] L1 else L1).
  assert (E2 : (if report_error
                then modify (lerror "expected %s" [AStr (lexeme_string kind)])
                else ret tt) L1 = Ret (tt, L2)).
  { unfold L2. by destruct report_error. }
  rewrite E2.
  assert (Hok2 : circle_ok L2) by (unfold L2; by destruct report_error).
  assert (Hq2 : pending L2 = pending L1) by (unfold L2; by destruct report_error).
  destruct (unlex_pending t L2 Hok2) as (L3 & E3 & Hok3 & Hq3 & Hs3).
  { pose proof (pending_length L2) as Hlen2. rewrite Hq2, Hq1 in Hlen2.
    pose proof (pending_length L) as Hlen.
    pose proof (pending_count_range L Hok). pose proof (pending_count_range L2 Hok2).
    pose proof TCIRCLE_SIZE_ge.
    destruct (pending L) as [|t0 q]; simpl in Hlen, Hlen2; lia. }
  rewrite E3. exists L3. split; [done|]. split; [done|]. split; [done|]. split; [done|].
  destruct Hs3 as (Hb3 & Hp3 & Hl3 & Hf3 & He3).
  split; [rewrite Hb3; unfold L2; by destruct report_error|].
  split; [rewrite Hp3; unfold L2; by destruct report_error|].
  split; [rewrite Hl3; unfold L2; by destruct report_error|].
  split; [rewrite Hf3; unfold L2; by destruct report_error|].
  split; [by rewrite Hq3, Hq2, Hq1|].
  rewrite He3. unfold L2. destruct report_error; simpl.
  - reflexivity.
  - by rewrite app_nil_r.
Qed.

End Queue.

Lemma pushback_first_in_first_out_witness :
  exists L1 L2,
    unlex_all two_lexemes two_lines = Ret (tt, L1)
    /\ pending L1 = pending two_lines ++ two_lexemes
    /\ lex_times (length (pending two_lines ++ two_lexemes)) L1
       = Ret (pending two_lines ++ two_lexemes, L2)
    /\ pending L2 = []
    /\ circle_ok L2
    /\ same_reading two_lines L2.
Proof.
  apply (pushback_first_in_first_out two_lexemes two_lines).
  - vm_compute. repeat split; discriminate.
  - vm_compute. reflexivity.
Defined.

Lemma unlex_full_circle_witness : unlex (Lexeme.mk lexIdent "y") full_circle = Fault.
Proof.
  apply (unlex_full_circle (Lexeme.mk lexIdent "y") full_circle).
  - vm_compute. repeat split; discriminate.
  - vm_compute. reflexivity.
Defined.

Lemma expect_pushes_back_witness :
  exists t L1 L',
    lex two_waiting = Ret (t, L1)
    /\ match pending two_waiting with
       | [] => t = (next_lexeme two_waiting).1 /\ same_reading (next_lexeme two_waiting).2 L1
       | t0 :: _ => t = t0 /\ same_reading two_waiting L1
       end
    /\ expect lexArrow true two_waiting = Ret (Lexeme.is_kind t lexArrow, L')
    /\ circle_ok L'
    /\ _big_string L' = _big_string L1 /\ _pos L' = _pos L1
    /\ _lineno L' = _lineno L1 /\ _filename L' = _filename L1
    /\ if Lexeme.is_kind t lexArrow
       then L' = L1 /\ pending L' = tail (pending two_waiting)
       else pending L' = tail (pending two_waiting) ++ [t]
            /\ _errh L'
               = _errh L1
                 ++ (if true
                     then [mkDiag Error (landmark L1) "expected %s"
                             [AStr (lexeme_string lexArrow)] None]
                     else []).
Proof.
  apply (expect_pushes_back lexArrow true two_waiting).
  vm_compute. repeat split; discriminate.
Defined.

(** ** Line numbers *)






















Section Lines.
Context `{HDR : LexerHeader} `{COL : Collaborators}.



Lemma word_start_not_space (c : ascii) : is_word_start c = true -> isspace c = false.
Proof. destruct c as [[] [] [] [] [] [] [] []]; vm_compute; done. Qed.









End Lines.



(** ** A new lexer *)

Section Fresh.
Context `{HDR : LexerHeader} `{COL : Collaborators}.

Lemma new_Lexer_run (fuel : nat) (errh : ErrorHandler) :
  (0 < fuel)%nat ->
  new_Lexer fuel errh
  = Ret (mkLexer "" 0 "" "" 0 None (replicate (Z.to_nat TCIRCLE_SIZE) Lexeme_EOF) 0 0
           [Some (ErrorElement (LexerObj 0)); Some (ErrorElement (LexerObj 1))]
           ["<tunnel>"; "Error"]%string [-1; 0]
           (<["Error"%string := 1]> (<["<tunnel>"%string := 0]> ∅)) 1 (-1)
           [] [] [] [] ∅ [] [] [] [] [] 0 0 errh [] 2).
Proof.
  intros Hfuel. destruct fuel as [|fuel]; [lia|].
  unfold new_Lexer. cbv zeta. reflexivity.
Qed.

(** X8: a lexer fresh from its constructor that begins a parse reads the
    text from position [0] at line [1], with the error handler and the
    extra it was given; no lexeme waits; the vectors of the elements, of
    their names, configurations and landmarks, the element map, the
    hookups, the requirements, the two tunnel chains and the store of
    tunnel ends are all empty, and the anonymous offset and the compound
    depth are zero; its registry holds the classes [<tunnel>] and [Error],
    with the ids [TUNNEL_TYPE] and [ERROR_TYPE], the name map points at
    them, and [begin_parse] returns the id of the newer one as its
    checkpoint.  The conditions that the properties of the lexer, the
    registry, the elements and the tunnels ask for hold of this state. *)
Theorem new_Lexer_begin_parse (fuel : nat) (errh : ErrorHandler) (data filename : string)
  (lextra : option LexerExtra) :
  (0 < fuel)%nat ->
  exists L0 L,
    new_Lexer fuel errh = Ret L0
    /\ begin_parse data filename lextra L0 = Ret (1, L)
    /\ _big_string L = data /\ _pos L = 0 /\ _lineno L = 1
    /\ _filename L = _original_filename L
    /\ _lextra L = lextra
    /\ _errh L = errh
    /\ _elements L = [] /\ _element_names L = []
    /\ _element_configurations L = [] /\ _element_landmarks L = []
    /\ _element_map L = ∅
    /\ _hookup_from L = [] /\ _hookup_to L = []
    /\ _requirements L = []
    /\ _definputs L = [] /\ _defoutputs L = [] /\ tunnel_ends L = []
    /\ _anonymous_offset L = 0 /\ _compound_depth L = 0
    /\ circle_ok L /\ pending L = []
    /\ wf_tunnels L /\ elements_consistent L
    /\ wf_registry L [ERROR_TYPE; TUNNEL_TYPE] []
    /\ map_accurate L [ERROR_TYPE; TUNNEL_TYPE]
    /\ element_type "<tunnel>" L = TUNNEL_TYPE
    /\ element_type "Error" L = ERROR_TYPE.
Proof.
  intros Hfuel. eexists _, _. split; [by apply new_Lexer_run|].
  split; [reflexivity|]. simpl.
  pose proof TCIRCLE_SIZE_ge as Hge.
  do 19 (split; [done|]).
  split.
  { unfold circle_ok. simpl. unfold vsize. rewrite length_replicate. lia. }
  split.
  { unfold pending.
    match goal with |- context [pending_count ?X] =>
      assert (pending_count X = 0) as -> by (unfold pending_count; apply Z.mod_0_l; lia)
    end. done. }
  split.
  { split; simpl; try done. intros out. destruct out; apply Forall_nil_2. }
  split.
  { split; simpl; done. }
  split.
  { split; simpl; try done.
    - unfold live_chain. simpl. unfold ERROR_TYPE, TUNNEL_TYPE.
      split; [done|]. split; [lia|]. exists 0. split; [done|].
      split; [done|]. split; [lia|]. exists (-1). done.
    - unfold ERROR_TYPE, TUNNEL_TYPE. repeat constructor; set_solver. }
  split.
  { intros name. simpl. unfold hm_get, ERROR_TYPE, TUNNEL_TYPE. simpl.
    destruct (decide (name = "Error"%string)) as [->|Hne]; [done|].
    rewrite lookup_insert_ne by done. rewrite bool_decide_eq_false_2 by congruence.
    destruct (decide (name = "<tunnel>"%string)) as [->|Hne2]; [done|].
    rewrite lookup_insert_ne by done. rewrite bool_decide_eq_false_2 by congruence.
    by rewrite lookup_empty. }
  done.
Qed.

End Fresh.

Lemma new_Lexer_begin_parse_witness :
  exists L0 L,
    new_Lexer 1 [] = Ret L0
    /\ begin_parse "x -> y" "conf" None L0 = Ret (1, L)
    /\ _big_string L = "x -> y"%string /\ _pos L = 0 /\ _lineno L = 1
    /\ _filename L = _original_filename L
    /\ _lextra L = None
    /\ _errh L = []
    /\ _elements L = [] /\ _element_names L = []
    /\ _element_configurations L = [] /\ _element_landmarks L = []
    /\ _element_map L = ∅
    /\ _hookup_from L = [] /\ _hookup_to L = []
    /\ _requirements L = []
    /\ _definputs L = [] /\ _defoutputs L = [] /\ tunnel_ends L = []
    /\ _anonymous_offset L = 0 /\ _compound_depth L = 0
    /\ circle_ok L /\ pending L = []
    /\ wf_tunnels L /\ elements_consistent L
    /\ wf_registry L [ERROR_TYPE; TUNNEL_TYPE] []
    /\ map_accurate L [ERROR_TYPE; TUNNEL_TYPE]
    /\ element_type "<tunnel>" L = TUNNEL_TYPE
    /\ element_type "Error" L = ERROR_TYPE.
Proof. apply (new_Lexer_begin_parse 1 [] "x -> y" "conf" None). lia. Defined.

(** ** Registering classes *)

Lemma wf_registry_same (L L' : Lexer) (live free : list Z) :
  same_registry L L' -> wf_registry L live free -> wf_registry L' live free.
Proof.
  intros (E1 & E2 & E3 & E4 & E5 & E6) [H1 H2 H3 H4 H5].
  split; unfold live_chain, free_chain in *; rewrite ?E1, ?E2, ?E3, ?E5, ?E6; done.
Qed.

Lemma hm_get_insert (m : gmap string Z) (k k' : string) (v : Z) :
  hm_get (<[k := v]> m) k' = if decide (k = k') then v else hm_get m k'.
Proof.
  unfold hm_get. destruct (decide (k = k')) as [->|Hne].
  - by rewrite lookup_insert_eq.
  - by rewrite lookup_insert_ne.
Qed.

Section Registry_more.
Context `{HDR : LexerHeader} `{COL : Collaborators}.

(** The slot [add_element_type] takes. *)
Lemma add_element_type_slot (name : string) (e : Element) (L L' : Lexer) (tid : Z) :
  add_element_type name e L = Ret (tid, L') ->
  tid = if _free_element_type L <? 0 then vsize (_element_types L) else _free_element_type L.
Proof.
  unfold add_element_type. cbv zeta. rewrite !bind_get.
  destruct (_free_element_type L <? 0).
  - rewrite !bind_bind, bind_get. cbn beta. rewrite bind_bind, bind_modify, bind_ret.
    rewrite bind_modify, bind_modify. by intros [= <- _].
  - intros H. repeat (apply bind_inv in H as (? & ? & Hstep & H)).
    revert H. rewrite bind_modify, bind_modify. intros [= <- _].
    clear -Hstep.
    repeat match goal with
           | H : bind _ _ _ = Ret _ |- _ => apply bind_inv in H as (? & ? & ? & H)
           | H : ret _ _ = Ret _ |- _ => injection H as <- <-
           end. done.
Qed.

Lemma add_element_type_effect (name : string) (e : Element) (L : Lexer)
  (live free : list Z) :
  wf_registry L live free ->
  exists tid L',
    add_element_type name e L = Ret (tid, L')
    /\ tid = default (vsize (_element_types L)) (head free)
    /\ element_type (registered_name name e) L' = tid
    /\ _element_types L' !! Z.to_nat tid = Some (Some e)
    /\ (forall other, other <> registered_name name e ->
          element_type other L' = element_type other L)
    /\ wf_registry L' (tid :: live) (tail free)
    /\ (map_accurate L live -> map_accurate L' (tid :: live)).
Proof.
  intros Hwf.
  destruct (add_element_type_spec name e L live free Hwf)
    as (tid & L' & E & Hwf' & Hnew & Hname & Hty & Hmap & Hold).
  exists tid, L'. split; [done|]. split; [|split; [|split; [done|split; [|split; [done|]]]]].
  - rewrite (add_element_type_slot _ _ _ _ _ E).
    pose proof (is_chain_head _ _ _ (wf_free _ _ _ Hwf)) as Hf.
    destruct free as [|f free']; simpl in *.
    + by rewrite Hf.
    + rewrite Hf. destruct (wf_free _ _ _ Hwf) as (_ & ? & _).
      destruct (Z.ltb_spec f 0); [lia | done].
  - unfold element_type. rewrite Hmap, hm_get_insert. by rewrite decide_True.
  - intros other Hne. unfold element_type. rewrite Hmap, hm_get_insert.
    by rewrite decide_False.
  - intros Hacc. eapply add_element_type_accurate; eauto.
    intros x Hx. by apply Hold.
Qed.

(** X9: [add_element_type] puts the class in the first slot of the free
    list, or in a new slot at the end when no slot is free.  Afterwards the
    name, which is the class name of the element when no name is given, maps
    to that slot and the slot holds the element; every other name maps
    where it did; the new record is the newest live one, and the name map
    still points every name at its newest live record. *)
Theorem add_element_type_registers (name : string) (e : Element) (L : Lexer)
  (live free : list Z) :
  wf_registry L live free ->
  exists tid L',
    add_element_type name e L = Ret (tid, L')
    /\ tid = default (vsize (_element_types L)) (head free)
    /\ element_type (registered_name name e) L' = tid
    /\ _element_types L' !! Z.to_nat tid = Some (Some e)
    /\ (forall other, other <> registered_name name e ->
          element_type other L' = element_type other L)
    /\ wf_registry L' (tid :: live) (tail free)
    /\ (map_accurate L live -> map_accurate L' (tid :: live)).
Proof. apply add_element_type_effect. Qed.

(** X10: for a name that no class has, [force_element_type] reports
    [unknown element class] once and registers an error element under the
    name: a second call returns the same id, reports nothing and changes
    nothing. *)
Theorem force_element_type_reports_once (s : string) (L : Lexer) (live free : list Z) :
  wf_registry L live free -> s <> ""%string -> element_type s L < 0 ->
  exists tid L',
    force_element_type s L = Ret (tid, L')
    /\ _errh L' = _errh L ++ [mkDiag Error (landmark L) "unknown element class `%s'" [AStr s] None]
    /\ _element_types L' !! Z.to_nat tid = Some (Some (ErrorElement (LexerObj (next_oid L))))
    /\ element_type s L' = tid
    /\ 0 <= tid
    /\ force_element_type s L' = Ret (tid, L').
Proof.
  intros Hwf Hs Hunknown.
  unfold force_element_type at 1. rewrite bind_get.
  destruct (Z.leb_spec 0 (element_type s L)); [lia|].
  rewrite bind_modify. unfold new_oid. rewrite !bind_bind, bind_get. cbn beta.
  rewrite bind_bind, bind_modify, bind_ret.
  set (L1 := set_next_oid _ _).
  assert (Hwf1 : wf_registry L1 live free).
  { eapply wf_registry_same; [|exact Hwf]. by unfold same_registry. }
  destruct (add_element_type_effect s (ErrorElement (LexerObj (next_oid L))) L1 live free Hwf1)
    as (tid & L' & E & _ & Hlook & Hty & _ & Hwf' & _).
  assert (Hreg : registered_name s (ErrorElement (LexerObj (next_oid L))) = s).
  { unfold registered_name. by rewrite bool_decide_eq_false_2. }
  rewrite Hreg in Hlook.
  assert (Htid : 0 <= tid).
  { destruct (wf_live _ _ _ Hwf') as (_ & ? & _). done. }
  exists tid, L'. split; [done|].
  split; [|split; [done|split; [done|split; [done|]]]].
  - destruct (add_element_type_spec s (ErrorElement (LexerObj (next_oid L))) L1 live free Hwf1)
      as (tid2 & L2 & E2 & _).
    rewrite E in E2. injection E2 as <- <-.
    clear -E. revert E. unfold add_element_type. cbv zeta. intros H.
    assert (G : _errh L' = _errh L1).
    { repeat match goal with
             | H : bind _ _ _ = Ret _ |- _ => apply bind_inv in H as (? & ? & ? & H)
             | H : (if ?b then _ else _) _ = Ret _ |- _ => destruct b
             | H : get _ _ = Ret _ |- _ => injection H as <- <-
             | H : modify _ _ = Ret _ |- _ => injection H as <- <-
             | H : ret _ _ = Ret _ |- _ => injection H as <- <-
             | H : lift_res _ _ = Ret _ |- _ => apply lift_res_inv in H as [_ ->]
             end; reflexivity. }
    rewrite G. reflexivity.
  - unfold force_element_type. rewrite bind_get, Hlook.
    destruct (Z.leb_spec 0 tid); [done | lia].
Qed.

End Registry_more.

(** The registry of [example_lexer]: the two classes of the constructor and
    [Id], the newest first. *)
Ltac example_registry :=
  split;
    [ vm_compute; repeat split; try discriminate; eexists; (split; [reflexivity|]);
      repeat split; try discriminate; eexists; (split; [reflexivity|]);
      repeat split; try discriminate; eexists; (split; [reflexivity|]); reflexivity
    | reflexivity
    | apply (bool_decide_unpack _); vm_compute; reflexivity
    | reflexivity
    | reflexivity ].

Lemma add_element_type_registers_witness :
  exists tid L',
    add_element_type "" (Primitive (ForeignObj 1) "Queue") (example_lexer "")
    = Ret (tid, L')
    /\ tid = default (vsize (_element_types (example_lexer ""))) (head [])
    /\ element_type (registered_name "" (Primitive (ForeignObj 1) "Queue")) L' = tid
    /\ _element_types L' !! Z.to_nat tid = Some (Some (Primitive (ForeignObj 1) "Queue"))
    /\ (forall other, other <> registered_name "" (Primitive (ForeignObj 1) "Queue") ->
          element_type other L' = element_type other (example_lexer ""))
    /\ wf_registry L' (tid :: [2; 1; 0]) (tail [])
    /\ (map_accurate (example_lexer "") [2; 1; 0] -> map_accurate L' (tid :: [2; 1; 0])).
Proof.
  apply (add_element_type_registers "" (Primitive (ForeignObj 1) "Queue") (example_lexer "")
           [2; 1; 0] []).
  example_registry.
Defined.

Lemma force_element_type_reports_once_witness :
  exists tid L',
    force_element_type "Nope" (example_lexer "") = Ret (tid, L')
    /\ _errh L'
       = _errh (example_lexer "")
         ++ [mkDiag Error (landmark (example_lexer "")) "unknown element class `%s'"
               [AStr "Nope"] None]
    /\ _element_types L' !! Z.to_nat tid
       = Some (Some (ErrorElement (LexerObj (next_oid (example_lexer "")))))
    /\ element_type "Nope" L' = tid
    /\ 0 <= tid
    /\ force_element_type "Nope" L' = Ret (tid, L').
Proof.
  apply (force_element_type_reports_once "Nope" (example_lexer "") [2; 1; 0] []).
  - example_registry.
  - discriminate.
  - vm_compute. reflexivity.
Defined.

(** ** Records that are not live, and the checkpoint of the constructor *)

Lemma on_scope_chain_absent (fuel : nat) (L : Lexer) (t cookie : Z) (l : list Z) :
  is_chain (_element_type_next L) t l -> cookie ∉ l -> (length l < fuel)%nat ->
  on_scope_chain fuel L t cookie = Ret false.
Proof.
  revert fuel t. induction l as [|x l IH]; intros fuel t Hc Hno Hfuel;
    (destruct fuel as [|fuel]; [simpl in Hfuel; lia|]); simpl in *.
  - by rewrite Hc.
  - destruct Hc as (-> & Hx & n & Hn & Hc).
    destruct (Z.leb_spec 0 x); [|lia].
    destruct (Z.eqb_spec x cookie) as [->|]; [destruct Hno; set_solver|].
    rewrite (vec_get_ok _ _ _ Hx Hn). simpl.
    apply IH; [done | set_solver | lia].
Qed.

Lemma find_removed_absent (fuel : nat) (L : Lexer) (removed prev t : Z) (l : list Z) :
  is_chain (_element_type_next L) t l -> removed ∉ l -> (length l < fuel)%nat ->
  exists p, find_removed fuel L removed prev t = Ret (p, -1).
Proof.
  revert fuel prev t. induction l as [|x l IH]; intros fuel prev t Hc Hno Hfuel;
    (destruct fuel as [|fuel]; [simpl in Hfuel; lia|]); simpl in *.
  - rewrite Hc. rewrite andb_false_r. eauto.
  - destruct Hc as (-> & Hx & n & Hn & Hc).
    destruct (Z.leb_spec 0 x); [|lia].
    destruct (Z.eqb_spec x removed) as [->|]; [destruct Hno; set_solver|]. simpl.
    rewrite (vec_get_ok _ _ _ Hx Hn). simpl.
    apply IH; [done | set_solver | lia].
Qed.

Section Registry_edges.
Context `{HDR : LexerHeader} `{COL : Collaborators}.

(** X11: [remove_element_type] of an id that is no live record (a free
    slot, a negative id, an id past the end) changes nothing, and so does
    [lexical_scoping_out] with a checkpoint other than [-1] that is no live
    record. *)
Theorem remove_element_type_not_live (fuel : nat) (removed : Z) (L : Lexer)
  (live free : list Z) :
  wf_registry L live free -> (removed ∉ live) -> (length live < fuel)%nat ->
  remove_element_type fuel removed L = Ret (tt, L)
  /\ (removed <> -1 -> lexical_scoping_out fuel removed L = Ret (tt, L)).
Proof.
  intros Hwf Hno Hfuel. pose proof (wf_live _ _ _ Hwf) as Hlive. split.
  - destruct (find_removed_absent fuel L removed (-1) _ live Hlive Hno Hfuel) as [p E].
    unfold remove_element_type. rewrite bind_get.
    by rewrite (bind_get_res _ (p, -1)).
  - intros Hne. unfold lexical_scoping_out.
    destruct (Z.eqb_spec removed (-1)); [done|]. simpl.
    rewrite (bind_get_res _ false); [done|].
    by apply (on_scope_chain_absent fuel L _ removed live).
Qed.

(** X12: [lexical_scoping_out] with the checkpoint [-1] removes every
    live record: afterwards no record is live, and [element_type] answers
    [-1] for every name. *)
Theorem lexical_scoping_out_everything (fuel : nat) (L : Lexer) (live free : list Z) :
  wf_registry L live free -> map_accurate L live -> (length live < fuel)%nat ->
  exists L',
    lexical_scoping_out fuel (-1) L = Ret (tt, L')
    /\ _last_element_type L' = -1
    /\ (exists free', wf_registry L' [] free')
    /\ forall name, element_type name L' = -1.
Proof.
  intros Hwf Hacc Hfuel.
  destruct (remove_until_spec fuel (-1) live [] free L) as (L' & free' & E & Hso & Hwf' & _ & Ha).
  { by rewrite app_nil_r. }
  { done. }
  { by rewrite app_nil_r. }
  exists L'. split.
  { unfold lexical_scoping_out. simpl. by rewrite bind_ret. }
  split.
  { pose proof (wf_live _ _ _ Hwf') as Hl. by apply is_chain_head in Hl. }
  split; [by exists free'|].
  intros name. unfold element_type. rewrite app_nil_r in Ha. by rewrite (Ha Hacc name).
Qed.

End Registry_edges.

Lemma remove_element_type_not_live_witness :
  remove_element_type 4 7 (example_lexer "") = Ret (tt, example_lexer "")
  /\ (7 <> -1 -> lexical_scoping_out 4 7 (example_lexer "") = Ret (tt, example_lexer "")).
Proof.
  apply (remove_element_type_not_live 4 7 (example_lexer "") [2; 1; 0] []).
  - example_registry.
  - rewrite !elem_of_cons, elem_of_nil. lia.
  - simpl. lia.
Defined.

Ltac example_map_accurate text :=
  let name := fresh "name" in
  intros name;
  change (_element_type_map (example_lexer text))
    with (<["Id"%string := 2]> (<["Error"%string := 1]> (<["<tunnel>"%string := 0]>
            (∅ : gmap string Z))));
  change (_element_type_names (example_lexer text)) with ["<tunnel>"; "Error"; "Id"]%string;
  unfold hm_get; simpl;
  destruct (decide (name = "Id"%string)) as [->|?]; [done|];
  rewrite lookup_insert_ne by done; rewrite bool_decide_eq_false_2 by congruence;
  destruct (decide (name = "Error"%string)) as [->|?]; [done|];
  rewrite lookup_insert_ne by done; rewrite bool_decide_eq_false_2 by congruence;
  destruct (decide (name = "<tunnel>"%string)) as [->|?]; [done|];
  rewrite lookup_insert_ne by done; rewrite bool_decide_eq_false_2 by congruence;
  by rewrite lookup_empty.

Lemma lexical_scoping_out_everything_witness :
  exists L',
    lexical_scoping_out 4 (-1) (example_lexer "") = Ret (tt, L')
    /\ _last_element_type L' = -1
    /\ (exists free', wf_registry L' [] free')
    /\ forall name, element_type name L' = -1.
Proof.
  apply (lexical_scoping_out_everything 4 (example_lexer "") [2; 1; 0] []).
  - example_registry.
  - example_map_accurate ""%string.
  - simpl. lia.
Defined.

(** ** Elements and their names *)

Section Elements.
Context `{HDR : LexerHeader} `{COL : Collaborators}.

Lemma get_element_run (name : string) (etype : Z) (conf lm : string) (L : Lexer) :
  name <> ""%string -> 0 <= etype < vsize (_element_types L) ->
  get_element name etype conf lm L
  = Ret (if 0 <=? hm_get (_element_map L) name then (hm_get (_element_map L) name, L)
         else (vsize (_elements L),
               set_elements (_elements L ++ [etype])
                 (set_element_landmarks
                    (_element_landmarks L
                     ++ [if bool_decide (lm = ""%string) then landmark L else lm])
                    (set_element_configurations (_element_configurations L ++ [conf])
                       (set_element_names (_element_names L ++ [name])
                          (set_element_map
                             (<[name := vsize (_elements L)]> (_element_map L)) L)))))).
Proof.
  intros Hname Hetype.
  unfold get_element. rewrite bind_get, bind_assert; cycle 1.
  { rewrite bool_decide_eq_false_2 by done. simpl.
    apply andb_true_intro. split; [apply Z.leb_le | apply Z.ltb_lt]; lia. }
  rewrite bind_get. destruct (0 <=? hm_get (_element_map L) name); [done|].
  by rewrite bind_get, bind_modify.
Qed.

Lemma get_element_effect (name : string) (etype : Z) (conf lm : string) (L : Lexer) :
  elements_consistent L ->
  name <> ""%string -> 0 <= etype < vsize (_element_types L) ->
  exists eid L',
    get_element name etype conf lm L = Ret (eid, L')
    /\ elements_consistent L'
    /\ hm_get (_element_map L') name = eid
    /\ _element_names L' !! Z.to_nat eid = Some name
    /\ (hm_get (_element_map L) name < 0 ->
          eid = vsize (_elements L)
          /\ _elements L' = _elements L ++ [etype]
          /\ _element_names L' = _element_names L ++ [name]
          /\ _element_configurations L' = _element_configurations L ++ [conf]
          /\ _element_landmarks L'
             = _element_landmarks L ++ [if bool_decide (lm = ""%string) then landmark L else lm]
          /\ forall other, other <> name ->
               hm_get (_element_map L') other = hm_get (_element_map L) other).
Proof.
  intros Hec Hname Hetype.
  destruct (Z.le_gt_cases 0 (hm_get (_element_map L) name)) as [Hex|Hnew].
  { exists (hm_get (_element_map L) name), L.
    split; [|split; [done|]; split; [done|]].
    { unfold get_element. rewrite bind_get, bind_assert; cycle 1.
      { rewrite bool_decide_eq_false_2 by done. simpl.
        apply andb_true_intro. split; [apply Z.leb_le | apply Z.ltb_lt]; lia. }
      rewrite bind_get. by destruct (Z.leb_spec 0 (hm_get (_element_map L) name)); [|lia]. }
    split; [by apply (ec_mapped L Hec) | lia]. }
  destruct Hec as [H1 H2 H3 H4 H5].
  unfold get_element. rewrite bind_get, bind_assert; cycle 1.
  { rewrite bool_decide_eq_false_2 by done. simpl.
    apply andb_true_intro. split; [apply Z.leb_le | apply Z.ltb_lt]; lia. }
  rewrite bind_get. destruct (Z.leb_spec 0 (hm_get (_element_map L) name)); [lia|].
  rewrite bind_get, bind_modify. cbn beta.
  eexists _, _. split; [reflexivity|].
  assert (Hsz : Z.to_nat (vsize (_elements L)) = length (_element_names L)).
  { unfold vsize. lia. }
  split; [|split; [|split; [|intros _; repeat split]]].
  - split; simpl.
    + rewrite !length_app. simpl. lia.
    + rewrite !length_app. simpl. lia.
    + rewrite !length_app. simpl. lia.
    + intros n. rewrite hm_get_insert. destruct (decide (name = n)) as [<-|Hne].
      * intros _. rewrite Hsz. by rewrite lookup_app_r, Nat.sub_diag.
      * intros Hn. apply lookup_app_l_Some. by apply H4.
    + intros i n Hi. rewrite hm_get_insert.
      apply lookup_app_Some in Hi as [Hi|[Hge Hi]].
      * specialize (H5 i n Hi). destruct (decide (name = n)) as [<-|]; [lia | done].
      * destruct (i - length (_element_names L))%nat as [|k] eqn:Ek; [|done].
        simpl in Hi. injection Hi as <-. rewrite decide_True by done.
        unfold vsize. lia.
  - simpl. rewrite hm_get_insert. by rewrite decide_True.
  - simpl. rewrite Hsz. by rewrite lookup_app_r, Nat.sub_diag.
  - intros other Hne. simpl. rewrite hm_get_insert. by rewrite decide_False.
Qed.

(** X13: [get_element] returns the index of the element of the given
    name, and keeps the tables of the elements consistent: the vectors of
    names, configurations and landmarks are as long as the vector of
    elements, and the name map and the vector of names agree.  For a name
    that is new the index is the old number of elements, each vector gains
    one entry (the type, the name, the configuration, and the landmark given
    or else the current landmark), and every other name keeps its index. *)
Theorem get_element_keeps_tables (name : string) (etype : Z) (conf lm : string) (L : Lexer) :
  elements_consistent L ->
  name <> ""%string -> 0 <= etype < vsize (_element_types L) ->
  exists eid L',
    get_element name etype conf lm L = Ret (eid, L')
    /\ elements_consistent L'
    /\ hm_get (_element_map L') name = eid
    /\ _element_names L' !! Z.to_nat eid = Some name
    /\ (hm_get (_element_map L) name < 0 ->
          eid = vsize (_elements L)
          /\ _elements L' = _elements L ++ [etype]
          /\ _element_names L' = _element_names L ++ [name]
          /\ _element_configurations L' = _element_configurations L ++ [conf]
          /\ _element_landmarks L'
             = _element_landmarks L ++ [if bool_decide (lm = ""%string) then landmark L else lm]
          /\ forall other, other <> name ->
               hm_get (_element_map L') other = hm_get (_element_map L) other).
Proof. apply get_element_effect. Qed.

Lemma candidate_inj (prefix : string) (i j : Z) : candidate prefix i = candidate prefix j -> i = j.
Proof.
  unfold candidate, String_of_int. intros H.
  apply (inj (String.app prefix)) in H. by apply (inj pretty) in H.
Qed.

Lemma unused_name_terminates (m : gmap string Z) (prefix : string) (fuel : nat) :
  forall (D : gset string) (k : Z),
    (forall j, k <= j -> 0 <= hm_get m (candidate prefix j) -> candidate prefix j ∈ D) ->
    (size D < fuel)%nat ->
    exists j, k <= j
      /\ unused_name fuel m prefix k = Ret (candidate prefix j)
      /\ hm_get m (candidate prefix j) < 0
      /\ forall i, k <= i < j -> 0 <= hm_get m (candidate prefix i).
Proof.
  induction fuel as [|fuel IH]; intros D k HD Hsize; [lia|]. simpl.
  fold (candidate prefix k).
  destruct (Z.leb_spec 0 (hm_get m (candidate prefix k))) as [Hused|Hfree].
  - assert (Hin : candidate prefix k ∈ D) by (apply HD; [lia | done]).
    destruct (IH (D ∖ {[candidate prefix k]}) (k + 1)) as (j & Hj & E & Hf & Hbelow).
    + intros j Hj Hu. apply elem_of_difference. split; [apply HD; [lia | done]|].
      intros ->%elem_of_singleton%candidate_inj. lia.
    + pose proof (size_difference D {[candidate prefix k]}) as Hd.
      rewrite size_singleton in Hd.
      assert (size D <> 0)%nat by (intros ?%size_empty_inv; set_solver).
      rewrite Hd by set_solver. lia.
    + exists j. split; [lia|]. split; [done|]. split; [done|].
      intros i Hi. destruct (decide (i = k)) as [->|]; [done | apply Hbelow; lia].
  - exists k. split; [lia|]. split; [done|]. split; [done | intros i Hi; lia].
Qed.

(** X14: [anon_element_name] returns [class_name@N] for the least [N],
    from the number of elements less the anonymous offset plus one on, that
    is not the name of an element.  The search ends within one step more
    than the element map has entries, and the state is not changed. *)
Theorem anon_element_name_unused (fuel : nat) (class_name : string) (L : Lexer) :
  (size (_element_map L) < fuel)%nat ->
  exists j,
    vsize (_elements L) - _anonymous_offset L + 1 <= j
    /\ anon_element_name fuel class_name L
       = Ret ((class_name ++ "@") ++ String_of_int j, L)%string
    /\ hm_get (_element_map L) ((class_name ++ "@") ++ String_of_int j)%string < 0
    /\ forall i, vsize (_elements L) - _anonymous_offset L + 1 <= i < j ->
         0 <= hm_get (_element_map L) ((class_name ++ "@") ++ String_of_int i)%string.
Proof.
  intros Hfuel.
  destruct (unused_name_terminates (_element_map L) (class_name ++ "@") fuel
              (dom (_element_map L)) (vsize (_elements L) - _anonymous_offset L + 1))
    as (j & Hj & E & Hf & Hbelow).
  - intros j _ Hu. apply elem_of_dom. unfold hm_get in Hu.
    destruct (_element_map L !! candidate (class_name ++ "@") j); [done | simpl in Hu; lia].
  - by rewrite size_dom.
  - exists j. split; [done|]. split; [|split; [done | exact Hbelow]].
    unfold anon_element_name, get_res. by rewrite E.
Qed.

(** X15: [anon_element_class_name] returns the prefix followed by the
    least [N], from the number of elements less the anonymous offset plus
    one on, for which no class has that name; the search ends within one
    step more than the class map has entries, and the state is not
    changed. *)
Theorem anon_element_class_name_unused (fuel : nat) (prefix : string) (L : Lexer) :
  (size (_element_type_map L) < fuel)%nat ->
  exists j,
    vsize (_elements L) - _anonymous_offset L + 1 <= j
    /\ anon_element_class_name fuel prefix L = Ret (prefix ++ String_of_int j, L)%string
    /\ element_type (prefix ++ String_of_int j) L < 0
    /\ forall i, vsize (_elements L) - _anonymous_offset L + 1 <= i < j ->
         0 <= element_type (prefix ++ String_of_int i) L.
Proof.
  intros Hfuel.
  destruct (unused_name_terminates (_element_type_map L) prefix fuel
              (dom (_element_type_map L)) (vsize (_elements L) - _anonymous_offset L + 1))
    as (j & Hj & E & Hf & Hbelow).
  - intros j _ Hu. apply elem_of_dom. unfold hm_get in Hu.
    destruct (_element_type_map L !! candidate prefix j); [done | simpl in Hu; lia].
  - by rewrite size_dom.
  - exists j. split; [done|]. split; [|split; [done | exact Hbelow]].
    unfold anon_element_class_name, get_res. by rewrite E.
Qed.

End Elements.

Lemma get_element_keeps_tables_witness :
  exists eid L',
    get_element "a" 2 "conf" "here" two_lines = Ret (eid, L')
    /\ elements_consistent L'
    /\ hm_get (_element_map L') "a" = eid
    /\ _element_names L' !! Z.to_nat eid = Some "a"%string
    /\ (hm_get (_element_map two_lines) "a" < 0 ->
          eid = vsize (_elements two_lines)
          /\ _elements L' = _elements two_lines ++ [2]
          /\ _element_names L' = _element_names two_lines ++ ["a"%string]
          /\ _element_configurations L' = _element_configurations two_lines ++ ["conf"%string]
          /\ _element_landmarks L'
             = _element_landmarks two_lines
               ++ [if bool_decide ("here"%string = ""%string) then landmark two_lines
                   else "here"%string]
          /\ forall other, other <> "a"%string ->
               hm_get (_element_map L') other = hm_get (_element_map two_lines) other).
Proof.
  apply (get_element_keeps_tables "a" 2 "conf" "here" two_lines).
  - split; try reflexivity.
    + intros name. vm_compute. intros H. by destruct H.
    + intros i name. vm_compute. by destruct i.
  - discriminate.
  - vm_compute. split; [discriminate | reflexivity].
Defined.

Lemma anon_element_name_unused_witness :
  exists j,
    vsize (_elements one_element) - _anonymous_offset one_element + 1 <= j
    /\ anon_element_name 5 "Id" one_element
       = Ret (("Id" ++ "@") ++ String_of_int j, one_element)%string
    /\ hm_get (_element_map one_element) (("Id" ++ "@") ++ String_of_int j)%string < 0
    /\ forall i, vsize (_elements one_element) - _anonymous_offset one_element + 1 <= i < j ->
         0 <= hm_get (_element_map one_element) (("Id" ++ "@") ++ String_of_int i)%string.
Proof.
  apply (anon_element_name_unused 5 "Id" one_element).
  vm_compute. lia.
Defined.

Lemma anon_element_class_name_unused_witness :
  exists j,
    vsize (_elements one_element) - _anonymous_offset one_element + 1 <= j
    /\ anon_element_class_name 5 "@Class" one_element
       = Ret ("@Class" ++ String_of_int j, one_element)%string
    /\ element_type ("@Class" ++ String_of_int j) one_element < 0
    /\ forall i, vsize (_elements one_element) - _anonymous_offset one_element + 1 <= i < j ->
         0 <= element_type ("@Class" ++ String_of_int i) one_element.
Proof.
  apply (anon_element_class_name_unused 5 "@Class" one_element).
  vm_compute. lia.
Defined.

(** ** Connections *)

Lemma partners_snoc (h a b : Hookup) (this that : list Hookup) :
  length this = length that ->
  partners h (this ++ [a]) (that ++ [b])
  = partners h this that ++ (if bool_decide (a = h) then [b] else []).
Proof.
  intros Hlen. unfold partners. rewrite zip_with_app by done.
  rewrite filter_app, fmap_app. f_equal. simpl.
  rewrite filter_cons. simpl. case_bool_decide.
  - by rewrite decide_True.
  - by rewrite decide_False.
Qed.

Lemma find_connections_loop (h : Hookup) (this that : list Hookup) (done_this rest : list Hookup)
  (into : list Hookup) :
  this = done_this ++ rest -> length this = length that ->
  for_range (length rest) (Z.of_nat (length done_this))
    (fun i into =>
       let? x := vec_get this i in
       if bool_decide (x = h) then let? y := vec_get that i in Ret (into ++ [y]) else Ret into)
    into
  = Ret (into ++ partners h rest (drop (length done_this) that)).
Proof.
  revert done_this into. induction rest as [|x rest IH]; intros done_this into Hthis Hlen.
  { simpl. unfold partners. simpl. by rewrite app_nil_r. }
  simpl.
  assert (Hx : this !! length done_this = Some x).
  { rewrite Hthis. by rewrite lookup_app_r, Nat.sub_diag. }
  rewrite (vec_get_ok this _ x); [|lia | by rewrite Nat2Z.id]. simpl.
  assert (Hlt : (length done_this < length that)%nat).
  { rewrite <- Hlen, Hthis, length_app. simpl. lia. }
  destruct (lookup_lt_is_Some_2 that (length done_this) Hlt) as [y Hy].
  rewrite (drop_S that y (length done_this) Hy).
  replace (Z.of_nat (length done_this) + 1) with (Z.of_nat (length (done_this ++ [x])))
    by (rewrite length_app; simpl; lia).
  assert (Hd : drop (S (length done_this)) that = drop (length (done_this ++ [x])) that).
  { f_equal. rewrite length_app. simpl. lia. }
  unfold partners at 1. simpl. rewrite filter_cons. simpl.
  case_bool_decide as Hxh.
  - rewrite decide_True by done.
    rewrite (vec_get_ok that _ y); [|lia | by rewrite Nat2Z.id]. simpl.
    etrans; [apply (IH (done_this ++ [x])); [by rewrite <- app_assoc | done]|].
    rewrite <- app_assoc. simpl. unfold partners. by rewrite Hd.
  - rewrite decide_False by done.
    etrans; [apply (IH (done_this ++ [x])); [by rewrite <- app_assoc | done]|].
    unfold partners. by rewrite Hd.
Qed.

Lemma find_connections_partners (h : Hookup) (is_out : bool) (L : Lexer) :
  length (_hookup_from L) = length (_hookup_to L) ->
  find_connections h is_out L
  = Ret (partners h (if is_out then _hookup_from L else _hookup_to L)
           (if is_out then _hookup_to L else _hookup_from L)).
Proof.
  intros Hlen. unfold find_connections. cbv zeta.
  set (this := if is_out then _hookup_from L else _hookup_to L).
  set (that := if is_out then _hookup_to L else _hookup_from L).
  assert (Hl : length this = length that) by (unfold this, that; by destruct is_out).
  exact (find_connections_loop h this that [] this [] eq_refl Hl).
Qed.

(** X16: [connect] adds one connection, storing a negative port as port
    [0]: [find_connections] finds afterwards what it found before and, when
    it is asked for the end that was stored, the other end of the new
    connection after them.  The two vectors of hookups keep one length. *)
Theorem connect_then_find_connections (element1 port1 element2 port2 : Z) (L : Lexer)
  (h : Hookup) (is_out : bool) :
  length (_hookup_from L) = length (_hookup_to L) ->
  let L' := connect element1 port1 element2 port2 L in
  let from := mkHookup element1 (stored_port port1) in
  let to := mkHookup element2 (stored_port port2) in
  length (_hookup_from L') = length (_hookup_to L')
  /\ exists cs,
       find_connections h is_out L = Ret cs
       /\ find_connections h is_out L'
          = Ret (cs ++ if bool_decide (h = if is_out then from else to)
                       then [if is_out then to else from] else []).
Proof.
  intros Hlen L' from to.
  assert (Hlen' : length (_hookup_from L') = length (_hookup_to L')).
  { unfold L', connect. simpl. rewrite !length_app. simpl. lia. }
  split; [done|].
  eexists. split; [by apply find_connections_partners|].
  rewrite find_connections_partners by done.
  unfold L', connect. simpl. fold (stored_port port1) (stored_port port2). fold from to.
  destruct is_out; rewrite partners_snoc by done; do 2 f_equal;
    repeat case_bool_decide; congruence.
Qed.

Lemma connect_then_find_connections_witness :
  length (_hookup_from (connect 0 (-1) 1 2 plain_program))
  = length (_hookup_to (connect 0 (-1) 1 2 plain_program))
  /\ exists cs,
       find_connections (mkHookup 0 0) true plain_program = Ret cs
       /\ find_connections (mkHookup 0 0) true (connect 0 (-1) 1 2 plain_program)
          = Ret (cs ++ if bool_decide
                            (mkHookup 0 0
                             = if true then mkHookup 0 (stored_port (-1))
                               else mkHookup 1 (stored_port 2))
                       then [if true then mkHookup 1 (stored_port 2)
                             else mkHookup 0 (stored_port (-1))]
                       else []).
Proof.
  apply (connect_then_find_connections 0 (-1) 1 2 plain_program (mkHookup 0 0) true).
  reflexivity.
Defined.

(** ** Finding tunnel ends *)

Lemma find_walk_no_parent (heap : list TunnelEnd) (h : Hookup) (chain : list nat)
  (parent : option nat) (found : option nat) :
  find_walk heap chain h parent = Ret (found, None) -> found = None ->
  forall a e, a ∈ chain -> heap !! a = Some e -> idx (TunnelEnd._port e) <> idx h.
Proof.
  revert parent. induction chain as [|d rest IH]; intros parent; simpl.
  { intros _ _ a e Ha. by apply elem_of_nil in Ha. }
  destruct (heap !! d) as [ed|] eqn:Ed; simpl; [|done].
  case_bool_decide; [by intros [= <- _]|].
  destruct (Z.eqb_spec (idx (TunnelEnd._port ed)) (idx h)) as [Heq|Hne].
  - intros E Hf. exfalso.
    assert (G : forall chain p f p', find_walk heap chain h (Some p) = Ret (f, p') -> p' <> None).
    { clear. induction chain as [|d rest IH]; intros p f p'; simpl; [by intros [= _ <-]|].
      destruct (heap !! d); simpl; [|done].
      case_bool_decide; [by intros [= _ <-]|].
      destruct (_ =? _); apply IH. }
    by apply (G _ _ _ _ E).
  - intros E Hf a e Ha Ea. apply elem_of_cons in Ha as [->|Ha].
    + rewrite Ed in Ea. by injection Ea as <-.
    + by apply (IH parent E Hf a e).
Qed.

Lemma find_effect (L : Lexer) (out : bool) (h : Hookup) :
  wf_tunnels L ->
  exists r L',
    TunnelEnd_find out h L = Ret (r, L') /\ wf_tunnels L' /\ find_outcome out h L r L'.
Proof.
  intros Hwf.
  pose proof (wf_chain L Hwf out) as Hout. pose proof (wf_chain L Hwf (negb out)) as Hopp.
  rewrite Forall_forall in Hout, Hopp.
  unfold TunnelEnd_find. mstep.
  destruct (chain_of out L) as [|this rest] eqn:Hc.
  { exists None, L. split; [done|]. split; [done|]. split; [done|].
    intros a e Ha. rewrite Hc in Ha. by apply elem_of_nil in Ha. }
  cbn beta iota. rewrite <- Hc. rewrite <- Hc in Hout.
  destruct (find_walk_spec (tunnel_ends L) h (chain_of out L)) with (parent := @None nat)
    as (found & parent & E & Hf & Hn & Hpar).
  { apply Forall_forall. intros d Hd. destruct (Hout d Hd) as (e & ? & -> & _). eauto. }
  rewrite (bind_get_res _ _ _ _ E). cbn beta iota zeta.
  destruct found as [d|].
  { exists (Some d), L. split; [done|]. split; [done|].
    destruct (Hf d eq_refl). split; [done|]. split; [done | by left]. }
  destruct parent as [p|]; cycle 1.
  { exists None, L. split; [done|]. split; [done|]. split; [done|].
    intros a e Ha Ea. by apply (find_walk_no_parent _ _ _ _ _ E eq_refl a e). }
  destruct (Hpar p eq_refl) as [|Hp]; [done|].
  specialize (Hn eq_refl).
  destruct (Hout p Hp) as (pe & po & Epe & Hpe_out & Hpe_other & Hpo).
  destruct (Hopp po Hpo) as (poe & ? & Epoe & Hpoe_out & _).
  destruct (Hout this) as (te & ? & Ete & Hte_out & _); [rewrite Hc; set_solver|].
  pose proof (chains_disjoint L out p Hwf Hp) as Hp'.
  pose proof (chains_disjoint L (negb out) po Hwf Hpo) as Hpo'.
  assert (N1 : forall n, te_next p L = Some n ->
            exists ne, tunnel_ends L !! n = Some ne /\ TunnelEnd._output ne = out).
  { intros n Hnext. rewrite (te_next_chain L out p Hp Hp') in Hnext.
    apply next_on_chain_elem in Hnext.
    destruct (Hout n Hnext) as (ne & ? & ? & ? & _). eauto. }
  assert (N2 : forall x n, te_next po L = Some n ->
            exists ne, tunnel_ends (set_tunnel_ends (tunnel_ends L ++ x) L) !! n = Some ne
                       /\ TunnelEnd._output ne = negb out).
  { intros x' n Hnext. rewrite (te_next_chain L (negb out) po Hpo Hpo') in Hnext.
    apply next_on_chain_elem in Hnext.
    destruct (Hopp n Hnext) as (ne & ? & Ene & ? & _).
    exists ne. split; [|done]. simpl. by apply lookup_app_l_Some. }
  rewrite (bind_Ret _ _ _ _ _ (te_get_run _ _ _ Epe)), Hpe_other.
  unfold res_of_option. mstep.
  rewrite (bind_Ret _ _ _ _ _ (te_get_run _ _ _ Epoe)). cbn zeta.
  rewrite (bind_Ret _ _ _ _ _ (te_get_run _ _ _ Ete)), Hte_out. mstep.
  rewrite (bind_Ret _ _ _ _ _ (new_TunnelEnd_run _ _ _ _ N1)).
  mstep. rewrite te_next_set_tunnel_ends.
  rewrite (bind_Ret _ _ _ _ _ (new_TunnelEnd_run _ _ _ _ (N2 _))).
  simpl tunnel_ends.
  set (me0 := TunnelEnd.mk h [] 0 out None).
  set (other0 := TunnelEnd.mk (mkHookup (idx (TunnelEnd._port poe)) (port h)) [] 0 (negb out) None).
  set (n0 := length (tunnel_ends L)).
  match goal with |- context [bind (pair_with _ _) _ ?L2] =>
    assert (P1 : tunnel_ends L2 !! n0 = Some me0);
    [|assert (P2 : tunnel_ends L2 !! length (tunnel_ends L ++ [me0]) = Some other0);
      [|assert (P3 : n0 <> length (tunnel_ends L ++ [me0]))]]
  end.
  { simpl. rewrite lookup_app_l by (rewrite length_app; simpl; unfold n0; lia).
    by rewrite lookup_app_r, Nat.sub_diag. }
  { simpl. by rewrite lookup_app_r, Nat.sub_diag. }
  { rewrite length_app. simpl. unfold n0. lia. }
  rewrite (bind_Ret _ _ _ _ _ (pair_with_run _ _ _ _ _ P1 P2 P3)).
  msteps. simpl tunnel_ends.
  replace (length (tunnel_ends L ++ [me0])) with (S n0) by (rewrite length_app; simpl; lia).
  pose proof (heap_alloc (tunnel_ends L) me0 other0
                (set_other (Some (S n0)) me0) (set_other (Some n0) other0)) as HA.
  fold n0 in HA. rewrite HA. clear HA.
  set (me := set_other (Some (S n0)) me0). set (other := set_other (Some n0) other0).
  set (L3 := set_tunnel_ends (tunnel_ends L ++ [me; other]) _).
  assert (HL3 : L3 = set_tunnel_ends (tunnel_ends L ++ [me; other]) L) by reflexivity.
  clearbody L3.
  destruct (link_after_chain L3 out p n0) as (C1 & C2 & T1 & S1).
  { by rewrite HL3, chain_of_set_tunnel_ends. }
  { by rewrite HL3, chain_of_set_tunnel_ends. }
  set (L4 := link_after p n0 L3) in *.
  assert (Hfresh : forall o, (n0 ∉ chain_of o L) /\ (S n0 ∉ chain_of o L)).
  { intros o. pose proof (wf_chain L Hwf o) as Ho. rewrite Forall_forall in Ho.
    split; intros Hin; destruct (Ho _ Hin) as (? & ? & ?%lookup_lt_Some & _);
      unfold n0 in *; lia. }
  destruct (link_after_chain L4 (negb out) po (S n0)) as (D1 & D2 & T2 & S2).
  { by rewrite C2, HL3, chain_of_set_tunnel_ends. }
  { rewrite negb_involutive, C1, HL3, chain_of_set_tunnel_ends.
    intros [->|Hin]%insert_after_elem; [|by rewrite negb_involutive in Hpo'].
    apply lookup_lt_Some in Epoe. unfold n0 in *. lia. }
  set (L5 := link_after po (S n0) L4) in *.
  rewrite negb_involutive in D2.
  assert (Hheap : tunnel_ends L5 = tunnel_ends L ++ [me; other]).
  { by rewrite T2, T1, HL3. }
  assert (Hcout : chain_of out L5 = insert_after p n0 (chain_of out L)).
  { by rewrite D2, C1, HL3, chain_of_set_tunnel_ends. }
  assert (Hcopp : chain_of (negb out) L5 = insert_after po (S n0) (chain_of (negb out) L)).
  { by rewrite D1, C2, HL3, chain_of_set_tunnel_ends. }
  assert (Hscope : same_scope L L5).
  { eapply same_scope_trans; [|exact S2]. eapply same_scope_trans; [|exact S1].
    rewrite HL3. apply same_scope_set_tunnel_ends. }
  assert (Hkeep : forall o a, a ∈ chain_of o L -> a ∈ chain_of o L5).
  { intros o a Ha. destruct (bool_cases out o) as [->| ->].
    - rewrite Hcout. by apply insert_after_keeps.
    - rewrite Hcopp. by apply insert_after_keeps. }
  assert (Hme : tunnel_ends L5 !! n0 = Some me).
  { rewrite Hheap. by rewrite lookup_app_r, Nat.sub_diag. }
  assert (Hother : tunnel_ends L5 !! S n0 = Some other).
  { rewrite Hheap. rewrite lookup_app_r by (unfold n0; lia).
    by replace (S n0 - length (tunnel_ends L))%nat with 1%nat by (unfold n0; lia). }
  assert (Hn0 : n0 ∈ chain_of out L5) by (rewrite Hcout; by apply insert_after_new).
  assert (Hn1 : S n0 ∈ chain_of (negb out) L5) by (rewrite Hcopp; by apply insert_after_new).
  assert (Hwf5 : wf_tunnels L5).
  { apply (wf_tunnels_same_scope L L5 Hwf Hscope).
    assert (Hold : forall o a, end_ok L o a -> end_ok L5 o a).
    { intros o a (e & b & Ee & Ho & Hb & Hbin). exists e, b.
      split; [rewrite Hheap; by apply lookup_app_l_Some|]. auto. }
    intros o. apply Forall_forall. intros a Ha.
    destruct (bool_cases out o) as [->| ->].
    - rewrite Hcout in Ha. apply insert_after_elem in Ha as [->|Ha].
      + exists me, (S n0). auto.
      + apply Hold. by apply Hout.
    - rewrite Hcopp in Ha. apply insert_after_elem in Ha as [->|Ha].
      + exists other, n0. rewrite negb_involutive. auto.
      + apply Hold. by apply Hopp. }
  exists (Some n0), L5. split; [done|]. split; [done|]. split; [done|].
  split; [unfold port_at; by rewrite Hme|].
  right. split; [done|]. split; [done|].
  exists p, po, poe. split; [done|]. split; [done|]. split; [done|]. split; [done|].
  split; [done|]. split; [done|]. split; [done|].
  rewrite Hheap. unfold L5, L4. by rewrite HL3.
Qed.

(** X17: on a well-formed scope [TunnelEnd::find] returns.  It returns no
    end, and changes nothing, only when no end of its chain belongs to the
    element of the hookup.  Otherwise it returns an end of the chain whose
    port is the hookup: an end that was there, the state unchanged, or a new
    end, added to the chain together with its partner, which is added to the
    other chain and has the port number of the hookup on the element of an
    end of that other chain.  The scope stays well formed, and [find] for the
    same hookup again returns the same end and changes nothing. *)
Theorem find_returns_the_end (L : Lexer) (out : bool) (h : Hookup) :
  wf_tunnels L ->
  exists r L',
    TunnelEnd_find out h L = Ret (r, L')
    /\ wf_tunnels L'
    /\ find_outcome out h L r L'
    /\ TunnelEnd_find out h L' = Ret (r, L').
Proof.
  intros Hwf.
  destruct (find_effect L out h Hwf) as (r & L' & E & Hwf' & Hout).
  exists r, L'. split; [done|]. split; [done|]. split; [done|].
  destruct r as [d|]; [|by destruct Hout as [-> _]].
  destruct Hout as (Hd & Hport & [->|(Hnew & -> & p & po & poe & Hp & Hpo & Epo & Hheap & Hc & _)]);
    [done|].
  destruct (find_effect L' out h Hwf') as (r2 & L2 & E2 & _ & Hout2).
  rewrite E2. destruct r2 as [d2|].
  - destruct Hout2 as (Hd2 & Hport2 & [->|(Hnew2 & _)]).
    + do 2 f_equal. f_equal. rewrite Hc in Hd2.
      apply insert_after_elem in Hd2 as [->|Hold]; [done|].
      exfalso. apply Hnew. unfold chain_ports. apply list_elem_of_fmap.
      exists d2. split; [|done].
      pose proof (wf_chain L Hwf out) as Hch. rewrite Forall_forall in Hch.
      destruct (Hch d2 Hold) as (e2 & _ & Ee2 & _).
      unfold port_at in *. rewrite Hheap in Hport2.
      rewrite (lookup_app_l_Some _ _ _ _ Ee2) in Hport2. by rewrite Ee2.
    + exfalso. apply Hnew2. unfold chain_ports. apply list_elem_of_fmap.
      by exists (length (tunnel_ends L)).
  - exfalso. destruct Hout2 as (_ & Hno).
    unfold port_at in Hport.
    destruct (tunnel_ends L' !! length (tunnel_ends L)) as [e|] eqn:Ee; [|done].
    simpl in Hport. injection Hport as Hp'.
    apply (Hno _ e Hd Ee). by rewrite Hp'.
Qed.

Lemma find_returns_the_end_witness :
  exists r L',
    TunnelEnd_find false (mkHookup 0 1) tunnel_cycle = Ret (r, L')
    /\ wf_tunnels L'
    /\ find_outcome false (mkHookup 0 1) tunnel_cycle r L'
    /\ TunnelEnd_find false (mkHookup 0 1) L' = Ret (r, L').
Proof.
  apply (find_returns_the_end tunnel_cycle false (mkHookup 0 1)).
  split.
  - intros out. destruct out; vm_compute;
      (apply Forall_cons; split; [|apply Forall_nil_2]);
      eexists _, _; (split; [reflexivity|]); (split; [reflexivity|]);
      (split; [reflexivity|]); constructor.
  - reflexivity.
  - vm_compute.
    repeat (apply Forall_cons; split; [cbv; split; [discriminate | reflexivity]|]).
    apply Forall_nil_2.
  - reflexivity.
  - reflexivity.
  - vm_compute. repeat (apply Forall_cons; split; [discriminate|]). apply Forall_nil_2.
Defined.

Lemma find_walk_none (heap : list TunnelEnd) (h : Hookup) (chain : list nat)
  (parent : option nat) :
  (forall a, a ∈ chain ->
     exists e, heap !! a = Some e /\ idx (TunnelEnd._port e) <> idx h) ->
  find_walk heap chain h parent = Ret (None, parent).
Proof.
  revert parent. induction chain as [|d rest IH]; intros parent Hno; simpl; [done|].
  destruct (Hno d) as (e & -> & Hne); [set_solver|]. simpl.
  rewrite bool_decide_eq_false_2 by (intros Hp; by rewrite Hp in Hne).
  destruct (Z.eqb_spec (idx (TunnelEnd._port e)) (idx h)); [done|].
  apply IH. intros a Ha. apply Hno. set_solver.
Qed.

(** [find] finds nothing, and makes nothing, for a hookup of an element that
    has no end on the chain. *)
Lemma TunnelEnd_find_none (L : Lexer) (out : bool) (h : Hookup) :
  (forall a, a ∈ chain_of out L ->
     exists e, tunnel_ends L !! a = Some e /\ idx (TunnelEnd._port e) <> idx h) ->
  TunnelEnd_find out h L = Ret (None, L).
Proof.
  intros Hno. unfold TunnelEnd_find. rewrite bind_get.
  pose proof (find_walk_none (tunnel_ends L) h (chain_of out L) None Hno) as E.
  destruct (chain_of out L) as [|this rest] eqn:Hc; [done|].
  by rewrite (bind_get_res _ _ _ _ E).
Qed.

(** ** Declaring a tunnel *)

Lemma same_tables_refl (L : Lexer) : same_tables L L.
Proof. split; [apply same_scope_refl | done]. Qed.

Lemma same_tables_trans (L1 L2 L3 : Lexer) :
  same_tables L1 L2 -> same_tables L2 L3 -> same_tables L1 L3.
Proof.
  intros (S1 & C1 & M1) (S2 & C2 & M2).
  split; [by eapply same_scope_trans | split; congruence].
Qed.

Lemma same_tables_consistent (L L' : Lexer) :
  same_tables L L' -> elements_consistent L -> elements_consistent L'.
Proof.
  intros ((E1 & E2 & E3 & _) & C & M) [H1 H2 H3 H4 H5].
  split; rewrite ?E1, ?E2, ?E3, ?C, ?M; done.
Qed.

Lemma same_tables_set_errh (e : ErrorHandler) (L : Lexer) : same_tables L (set_errh e L).
Proof. by unfold same_tables, same_scope. Qed.

Lemma wf_tunnels_set_errh (e : ErrorHandler) (L : Lexer) :
  wf_tunnels L -> wf_tunnels (set_errh e L).
Proof.
  intros Hwf. apply (wf_tunnels_same_scope L); [done | by unfold same_scope|].
  intros out. destruct out; apply (wf_chain L Hwf).
Qed.

Lemma link_after_tables (a x : nat) (L : Lexer) :
  _element_configurations (link_after a x L) = _element_configurations L
  /\ _element_map (link_after a x L) = _element_map L
  /\ _errh (link_after a x L) = _errh L.
Proof. unfold link_after. by case_bool_decide. Qed.

Lemma find_outcome_tables (out : bool) (h : Hookup) (L : Lexer) (r : option nat) (L' : Lexer) :
  find_outcome out h L r L' -> same_tables L L' /\ _errh L' = _errh L.
Proof.
  destruct r as [d|]; simpl.
  - intros (_ & _ & [->|(_ & _ & p & po & poe & _ & _ & _ & _ & _ & _ & Hs & HL')]).
    + split; [apply same_tables_refl | done].
    + pose proof (f_equal _element_configurations HL') as E1.
      pose proof (f_equal _element_map HL') as E2.
      pose proof (f_equal _errh HL') as E3.
      destruct (link_after_tables po (S d)
                  (link_after p d (set_tunnel_ends (tunnel_ends L') L))) as (A1 & A2 & A3).
      destruct (link_after_tables p d (set_tunnel_ends (tunnel_ends L') L)) as (B1 & B2 & B3).
      rewrite A1, B1 in E1. rewrite A2, B2 in E2. rewrite A3, B3 in E3.
      by split; [split|].
  - intros [-> _]. split; [apply same_tables_refl | done].
Qed.

Section Tunnels_decl.
Context `{HDR : LexerHeader} `{COL : Collaborators}.

Lemma get_element_scope (name : string) (etype : Z) (conf lm : string) (L : Lexer) :
  wf_tunnels L -> elements_consistent L ->
  name <> ""%string -> 0 <= etype < vsize (_element_types L) ->
  exists eid L',
    get_element name etype conf lm L = Ret (eid, L')
    /\ wf_tunnels L' /\ elements_consistent L'
    /\ 0 <= eid < vsize (_elements L')
    /\ vsize (_elements L) <= vsize (_elements L')
    /\ hm_get (_element_map L') name = eid
    /\ (forall other, 0 <= hm_get (_element_map L) other ->
          hm_get (_element_map L') other = hm_get (_element_map L) other)
    /\ _element_types L' = _element_types L
    /\ tunnel_ends L' = tunnel_ends L
    /\ _definputs L' = _definputs L
    /\ _defoutputs L' = _defoutputs L
    /\ _errh L' = _errh L.
Proof.
  intros Hwf Hec Hname Hetype.
  destruct (get_element_effect name etype conf lm L Hec Hname Hetype)
    as (eid & L' & E & Hec' & Hmap & Hnm & Hnew).
  exists eid, L'. split; [done|].
  assert (Hrange : 0 <= eid < vsize (_elements L')).
  { apply lookup_lt_Some in Hnm. rewrite (ec_names L' Hec') in Hnm.
    rewrite get_element_run in E by done.
    destruct (Z.leb_spec 0 (hm_get (_element_map L) name)); injection E as <- <-;
      unfold vsize; simpl.
    - lia.
    - rewrite length_app. simpl. lia. }
  rewrite get_element_run in E by done.
  destruct (Z.leb_spec 0 (hm_get (_element_map L) name)) as [Hex|Hlt]; injection E as <- <-.
  { do 3 (split; [done|]). split; [lia|]. split; [done|]. by repeat split. }
  split; [|split; [done|]; split; [done|]; split;
             [|split; [done|]; split; [|by repeat split]]].
  - destruct Hwf as [H1 H2 H3 H4 H5 H6]. split; simpl.
    + intros out. eapply Forall_impl; [apply (H1 out)|].
      intros a (e & b & Ea & Ho & Hb & Hin). exists e, b. by destruct out.
    + done.
    + unfold hookups in *. simpl. eapply Forall_impl; [exact H3|].
      intros h Hh. simpl in Hh. unfold vsize in *. rewrite length_app. simpl. lia.
    + rewrite !length_app. simpl. lia.
    + rewrite !length_app. simpl. lia.
    + apply Forall_app. split; [done|]. by apply Forall_singleton.
  - unfold vsize. simpl. rewrite length_app. lia.
  - intros other Hother. simpl. rewrite hm_get_insert.
    destruct (decide (name = other)) as [<-|]; [lia | done].
Qed.

(** The [if] of [add_tunnel] that rejects a name of an element that is no
    tunnel. *)
Lemma add_tunnel_redeclared (name : string) (i t : Z) (ok : bool) (L : Lexer) :
  0 <= i < vsize (_element_landmarks L) ->
  exists ok' ds,
    (if negb (t =? TUNNEL_TYPE) then
       let* _ := modify (lerror "redeclaration of element `%s'" [AStr name]) in
       let* lm := get_res (fun L => vec_get (_element_landmarks L) i) in
       let* _ := modify (errh_error_at lm "`%s' previously declared here" [AStr name]) in
       ret false
     else ret ok) L = Ret (ok', set_errh (_errh L ++ ds) L)
    /\ (ok' = true -> ok = true /\ ds = [] /\ t = TUNNEL_TYPE)
    /\ (ok' = false -> ok = false \/ ds <> []).
Proof.
  intros Hi. destruct (Z.eqb_spec t TUNNEL_TYPE); simpl.
  - exists ok, []. rewrite app_nil_r. split; [by destruct L|]. split; [done | by left].
  - destruct (vec_get_in_range (_element_landmarks L) i Hi) as (lm & E & _).
    rewrite bind_modify. rewrite (bind_get_res _ lm) by done. rewrite bind_modify.
    eexists false, [_; _]. split.
    + unfold ret, errh_error_at, lerror, errh_lerror. simpl. by rewrite <- app_assoc.
    + split; [done | by right].
Qed.

Lemma add_tunnel_found (fmt : string) (name : string) (found : option nat) (ok : bool)
  (L : Lexer) :
  exists ok' ds,
    (if bool_decide (found <> None) then
       let* _ := modify (lerror fmt [AStr name]) in ret false
     else ret ok) L = Ret (ok', set_errh (_errh L ++ ds) L)
    /\ (ok' = true -> ok = true /\ ds = [] /\ found = None)
    /\ (ok' = false -> ok = false \/ ds <> []).
Proof.
  case_bool_decide as Hf.
  - eexists false, [_]. split; [reflexivity|]. split; [done | by right].
  - exists ok, []. rewrite app_nil_r. split; [by destruct L|].
    split; [|by left]. intros ->. repeat split. by destruct found; [destruct Hf|].
Qed.

Lemma set_errh_nil (L : Lexer) : set_errh (_errh L ++ []) L = L.
Proof. rewrite app_nil_r. by destruct L. Qed.

Lemma tunnel_declared_wf (i1 i2 : Z) (L : Lexer) :
  wf_tunnels L -> wf_tunnels (tunnel_declared i1 i2 L).
Proof.
  intros Hwf. unfold tunnel_declared. cbv zeta.
  set (n0 := length (tunnel_ends L)).
  set (A := TunnelEnd.mk (mkHookup i1 0) [] 0 false (Some (S n0))).
  set (B := TunnelEnd.mk (mkHookup i2 0) [] 0 true (Some n0)).
  apply (wf_tunnels_same_scope L); [done | by unfold same_scope|].
  assert (Hold : forall o a, end_ok L o a ->
            end_ok (set_tunnel_ends (tunnel_ends L ++ [A; B])
                      (set_defoutputs (S n0 :: _defoutputs L)
                         (set_definputs (n0 :: _definputs L) L))) o a).
  { intros o a (e & b & Ee & Ho & Hb & Hi). exists e, b. simpl.
    split; [by apply lookup_app_l_Some|]. split; [done|]. split; [done|].
    destruct o; simpl in *; by apply elem_of_cons; right. }
  intros out. destruct out; simpl; apply Forall_cons; split.
  - exists B, n0. simpl.
    split; [|split; [done|]; split; [done|]; by apply elem_of_cons; left].
    rewrite lookup_app_r by (unfold n0; lia).
    by replace (S n0 - length (tunnel_ends L))%nat with 1%nat by (unfold n0; lia).
  - eapply Forall_impl; [apply (wf_chain L Hwf true)|]. apply Hold.
  - exists A, (S n0). simpl.
    split; [|split; [done|]; split; [done|]; by apply elem_of_cons; left].
    rewrite lookup_app_r by (unfold n0; lia). by rewrite Nat.sub_diag.
  - eapply Forall_impl; [apply (wf_chain L Hwf false)|]. apply Hold.
Qed.

(** The last lines of [add_tunnel]: the two ends are made and paired. *)
Lemma declare_ends_run (i1 i2 : Z) (L : Lexer) :
  wf_tunnels L ->
  (let* ins := get _definputs in
   let* a := new_TunnelEnd (mkHookup i1 0) false (head ins) in
   let* _ := modify (set_definputs (a :: ins)) in
   let* outs := get _defoutputs in
   let* b := new_TunnelEnd (mkHookup i2 0) true (head outs) in
   let* _ := modify (set_defoutputs (b :: outs)) in
   pair_with a b) L
  = Ret (tt, tunnel_declared i1 i2 L).
Proof.
  intros Hwf.
  assert (Hhead : forall out n, head (chain_of out L) = Some n ->
            exists ne, tunnel_ends L !! n = Some ne /\ TunnelEnd._output ne = out).
  { intros out n Hn. pose proof (wf_chain L Hwf out) as Hc.
    destruct (chain_of out L) as [|x rest]; [done|]. injection Hn as ->.
    apply Forall_cons in Hc as [(e & b & Ee & Ho & _) _]. eauto. }
  rewrite bind_get.
  rewrite (bind_Ret _ _ _ _ _ (new_TunnelEnd_run (mkHookup i1 0) false (head (_definputs L)) L
             (Hhead false))).
  rewrite bind_modify, bind_get.
  match goal with |- context [bind (new_TunnelEnd ?h ?o ?n) _ ?L0] =>
    rewrite (bind_Ret _ _ _ _ _ (new_TunnelEnd_run h o n L0 ltac:(simpl; intros m Hm;
      destruct (Hhead true m Hm) as (ne & Ene & Hne); exists ne; split;
        [by apply lookup_app_l_Some | done])))
  end.
  rewrite bind_modify. simpl.
  set (A := TunnelEnd.mk (mkHookup i1 0) [] 0 false None).
  set (B := TunnelEnd.mk (mkHookup i2 0) [] 0 true None).
  set (n0 := length (tunnel_ends L)).
  assert (Hlen : length (tunnel_ends L ++ [A]) = S n0)
    by (rewrite length_app; simpl; unfold n0; lia).
  rewrite Hlen.
  rewrite (pair_with_run n0 (S n0) A B); cycle 1.
  { simpl. rewrite lookup_app_l by (rewrite Hlen; lia).
    by rewrite lookup_app_r, Nat.sub_diag. }
  { simpl. rewrite lookup_app_r by (rewrite Hlen; lia). by rewrite Hlen, Nat.sub_diag. }
  { lia. }
  simpl tunnel_ends.
  pose proof (heap_alloc (tunnel_ends L) A B (set_other (Some (S n0)) A)
                (set_other (Some n0) B)) as HA.
  fold n0 in HA. rewrite HA. clear HA. reflexivity.
Qed.

(** [add_tunnel] when nothing stands in the way. *)
Lemma add_tunnel_clean (namein nameout : string) (L L1 L2 : Lexer) (i1 i2 : Z) :
  get_element namein TUNNEL_TYPE "" "" L = Ret (i1, L1) ->
  get_element nameout TUNNEL_TYPE "" "" L1 = Ret (i2, L2) ->
  wf_tunnels L2 -> 0 <= i1 -> 0 <= i2 ->
  _elements L2 !! Z.to_nat i1 = Some TUNNEL_TYPE ->
  _elements L2 !! Z.to_nat i2 = Some TUNNEL_TYPE ->
  no_end_of false i1 L2 -> no_end_of true i2 L2 ->
  add_tunnel namein nameout L = Ret (tt, tunnel_declared i1 i2 L2).
Proof.
  intros E1 E2 Hwf H1 H2 T1 T2 N1 N2. unfold add_tunnel.
  rewrite (bind_Ret _ _ _ _ _ E1), (bind_Ret _ _ _ _ _ E2). cbn zeta. simpl idx.
  rewrite (bind_get_res _ TUNNEL_TYPE) by by apply vec_get_ok.
  simpl negb. cbv iota. rewrite bind_ret.
  rewrite (bind_get_res _ TUNNEL_TYPE) by by apply vec_get_ok.
  simpl negb. cbv iota. rewrite bind_ret.
  assert (F : forall out i, no_end_of out i L2 ->
            TunnelEnd_find out (mkHookup i 0) L2 = Ret (None, L2)).
  { intros out i Hno. apply TunnelEnd_find_none. intros a Ha.
    pose proof (wf_chain L2 Hwf out) as Hc. rewrite Forall_forall in Hc.
    destruct (Hc a Ha) as (e & b & Ee & _). exists e. split; [done|]. by apply (Hno a e). }
  rewrite (bind_Ret _ _ _ _ _ (F false i1 N1)).
  rewrite bool_decide_eq_false_2 by (intros H; by apply H). rewrite bind_ret.
  rewrite (bind_Ret _ _ _ _ _ (F true i2 N2)).
  rewrite bool_decide_eq_false_2 by (intros H; by apply H). rewrite bind_ret.
  cbv iota. by apply declare_ends_run.
Qed.

Lemma add_tunnel_effect (namein nameout : string) (L : Lexer) :
  wf_tunnels L -> elements_consistent L ->
  namein <> ""%string -> nameout <> ""%string -> 0 < vsize (_element_types L) ->
  exists i1 L1 i2 L2 L' ds,
    get_element namein TUNNEL_TYPE "" "" L = Ret (i1, L1)
    /\ get_element nameout TUNNEL_TYPE "" "" L1 = Ret (i2, L2)
    /\ add_tunnel namein nameout L = Ret (tt, L')
    /\ wf_tunnels L' /\ elements_consistent L'
    /\ same_tables L2 L'
    /\ _errh L' = _errh L ++ ds
    /\ (ds = [] ->
        L' = tunnel_declared i1 i2 L2
        /\ _elements L2 !! Z.to_nat i1 = Some TUNNEL_TYPE
        /\ _elements L2 !! Z.to_nat i2 = Some TUNNEL_TYPE)
    /\ (_elements L2 !! Z.to_nat i1 = Some TUNNEL_TYPE ->
        _elements L2 !! Z.to_nat i2 = Some TUNNEL_TYPE ->
        no_end_of false i1 L2 -> no_end_of true i2 L2 -> ds = []).
Proof.
  intros Hwf Hec Hin Hout Hty.
  destruct (get_element_scope namein TUNNEL_TYPE "" "" L Hwf Hec Hin)
    as (i1 & L1 & E1 & Hwf1 & Hec1 & Hr1 & Hs1 & Hm1 & Hk1 & Ht1 & T1 & D1 & O1 & R1).
  { unfold TUNNEL_TYPE. lia. }
  destruct (get_element_scope nameout TUNNEL_TYPE "" "" L1 Hwf1 Hec1 Hout)
    as (i2 & L2 & E2 & Hwf2 & Hec2 & Hr2 & Hs2 & Hm2 & Hk2 & Ht2 & T2 & D2 & O2 & R2).
  { rewrite Ht1. unfold TUNNEL_TYPE. lia. }
  exists i1, L1, i2, L2.
  cut (exists L' ds,
    add_tunnel namein nameout L = Ret (tt, L')
    /\ wf_tunnels L' /\ elements_consistent L'
    /\ same_tables L2 L'
    /\ _errh L' = _errh L ++ ds
    /\ (ds = [] ->
        L' = tunnel_declared i1 i2 L2
        /\ _elements L2 !! Z.to_nat i1 = Some TUNNEL_TYPE
        /\ _elements L2 !! Z.to_nat i2 = Some TUNNEL_TYPE)).
  { intros (L' & ds & E & Hwf' & Hec' & Hs & R & Hok). exists L', ds.
    do 8 (split; [done|]). intros Hi1 Hi2 N1 N2.
    rewrite (add_tunnel_clean namein nameout L L1 L2 i1 i2) in E by (done || lia).
    injection E as <-. simpl in R. rewrite R2, R1 in R.
    apply (app_inv_head (_errh L)). by rewrite app_nil_r. }
  unfold add_tunnel.
  rewrite (bind_Ret _ _ _ _ _ E1), (bind_Ret _ _ _ _ _ E2). cbn zeta. simpl idx.
  destruct (vec_get_in_range (_elements L2) i1) as (t1 & Et1 & Lt1); [lia|].
  rewrite (bind_get_res _ t1) by done.
  assert (Hlm : vsize (_element_landmarks L2) = vsize (_elements L2)).
  { unfold vsize. by rewrite (ec_landmarks L2 Hec2). }
  destruct (add_tunnel_redeclared namein i1 t1 true L2) as (ok1 & ds1 & B1 & Y1 & N1); [lia|].
  rewrite (bind_Ret _ _ _ _ _ B1).
  set (L3 := set_errh (_errh L2 ++ ds1) L2) in *.
  destruct (vec_get_in_range (_elements L3) i2) as (t2 & Et2 & Lt2); [done|].
  rewrite (bind_get_res _ t2) by done.
  destruct (add_tunnel_redeclared nameout i2 t2 ok1 L3) as (ok2 & ds2 & B2 & Y2 & N2);
    [simpl; lia|].
  rewrite (bind_Ret _ _ _ _ _ B2).
  set (L4 := set_errh (_errh L3 ++ ds2) L3) in *.
  assert (Hwf4 : wf_tunnels L4) by by do 2 apply wf_tunnels_set_errh.
  assert (S4 : same_tables L2 L4) by by unfold same_tables, same_scope.
  destruct (find_effect L4 false (mkHookup i1 0) Hwf4) as (r1 & L5 & F1 & Hwf5 & Ho1).
  rewrite (bind_Ret _ _ _ _ _ F1).
  destruct (find_outcome_tables _ _ _ _ _ Ho1) as (S5 & R5).
  destruct (add_tunnel_found "redeclaration of connection tunnel input `%s'" namein r1 ok2 L5)
    as (ok3 & ds3 & B3 & Y3 & N3).
  rewrite (bind_Ret _ _ _ _ _ B3).
  set (L6 := set_errh (_errh L5 ++ ds3) L5) in *.
  assert (Hwf6 : wf_tunnels L6) by by apply wf_tunnels_set_errh.
  destruct (find_effect L6 true (mkHookup i2 0) Hwf6) as (r2 & L7 & F2 & Hwf7 & Ho2).
  rewrite (bind_Ret _ _ _ _ _ F2).
  destruct (find_outcome_tables _ _ _ _ _ Ho2) as (S7 & R7).
  destruct (add_tunnel_found "redeclaration of connection tunnel output `%s'" nameout r2 ok3 L7)
    as (ok4 & ds4 & B4 & Y4 & N4).
  rewrite (bind_Ret _ _ _ _ _ B4).
  set (L8 := set_errh (_errh L7 ++ ds4) L7) in *.
  assert (S8 : same_tables L2 L8).
  { eapply same_tables_trans; [exact S4|]. eapply same_tables_trans; [exact S5|].
    eapply same_tables_trans; [apply (same_tables_set_errh (_errh L5 ++ ds3))|].
    eapply same_tables_trans; [exact S7|]. apply same_tables_set_errh. }
  assert (R8 : _errh L8 = _errh L ++ (ds1 ++ ds2 ++ ds3 ++ ds4)).
  { simpl. rewrite R7. simpl. rewrite R5. simpl. rewrite R2, R1. by rewrite <- !app_assoc. }
  destruct ok4.
  2:{ exists L8, (ds1 ++ ds2 ++ ds3 ++ ds4). split; [done|].
      split; [by apply wf_tunnels_set_errh|].
      split; [by apply (same_tables_consistent L2)|].
      split; [done|]. split; [done|].
      intros Hds. exfalso.
      apply app_eq_nil in Hds as [-> Hds]. apply app_eq_nil in Hds as [-> Hds].
      apply app_eq_nil in Hds as [-> ->].
      destruct (N4 eq_refl) as [->|]; [|done]. destruct (N3 eq_refl) as [->|]; [|done].
      destruct (N2 eq_refl) as [->|]; [|done]. by destruct (N1 eq_refl). }
  destruct (Y4 eq_refl) as (-> & -> & ->). destruct (Y3 eq_refl) as (-> & -> & ->).
  destruct (Y2 eq_refl) as (-> & -> & ->). destruct (Y1 eq_refl) as (_ & -> & ->).
  destruct Ho2 as [HL7 _]. destruct Ho1 as [HL5 _].
  assert (HL8 : L8 = L2).
  { unfold L8. rewrite set_errh_nil, HL7. unfold L6. rewrite set_errh_nil, HL5.
    unfold L4. rewrite set_errh_nil. unfold L3. by rewrite set_errh_nil. }
  rewrite HL8. unfold L3 in Lt2. simpl in Lt2.
  rewrite (declare_ends_run i1 i2 L2 Hwf2).
  exists (tunnel_declared i1 i2 L2), []. split; [done|].
  split; [by apply tunnel_declared_wf|].
  split; [apply (same_tables_consistent L2); [by unfold same_tables, same_scope | done]|].
  split; [by unfold same_tables, same_scope|].
  split; [simpl; by rewrite app_nil_r, R2, R1|].
  done.
Qed.

(** X18: [add_tunnel] returns on a well-formed scope with consistent
    element tables, and keeps both; the two names are elements afterwards.
    It either reports errors, or declares the tunnel: then both elements are
    of the tunnel type, and two ends are made, paired with each other, with
    port [0] of the two elements, the input end at the head of the chain of
    inputs and the output end at the head of the chain of outputs. *)
Theorem add_tunnel_declares (namein nameout : string) (L : Lexer) :
  wf_tunnels L -> elements_consistent L ->
  namein <> ""%string -> nameout <> ""%string -> 0 < vsize (_element_types L) ->
  exists L' ds,
    add_tunnel namein nameout L = Ret (tt, L')
    /\ wf_tunnels L' /\ elements_consistent L'
    /\ 0 <= hm_get (_element_map L') namein
    /\ 0 <= hm_get (_element_map L') nameout
    /\ _errh L' = _errh L ++ ds
    /\ (ds = [] ->
         let a := length (tunnel_ends L) in
         let hin := mkHookup (hm_get (_element_map L') namein) 0 in
         let hout := mkHookup (hm_get (_element_map L') nameout) 0 in
         _elements L' !! Z.to_nat (idx hin) = Some TUNNEL_TYPE
         /\ _elements L' !! Z.to_nat (idx hout) = Some TUNNEL_TYPE
         /\ tunnel_ends L'
            = tunnel_ends L ++ [TunnelEnd.mk hin [] 0 false (Some (S a));
                                TunnelEnd.mk hout [] 0 true (Some a)]
         /\ _definputs L' = a :: _definputs L
         /\ _defoutputs L' = S a :: _defoutputs L).
Proof.
  intros Hwf Hec Hin Hout Hty.
  destruct (add_tunnel_effect namein nameout L Hwf Hec Hin Hout Hty)
    as (i1 & L1 & i2 & L2 & L' & ds & E1 & E2 & E & Hwf' & Hec' & Hs & R & Hok & Hclean).
  destruct (get_element_scope namein TUNNEL_TYPE "" "" L Hwf Hec Hin)
    as (i1' & L1' & E1' & Hwf1 & Hec1 & Hr1 & Hs1 & Hm1 & Hk1 & Ht1 & T1 & D1 & O1 & R1).
  { unfold TUNNEL_TYPE. lia. }
  rewrite E1 in E1'. injection E1' as <- <-.
  destruct (get_element_scope nameout TUNNEL_TYPE "" "" L1 Hwf1 Hec1 Hout)
    as (i2' & L2' & E2' & Hwf2 & Hec2 & Hr2 & Hs2 & Hm2 & Hk2 & Ht2 & T2 & D2 & O2 & R2).
  { rewrite Ht1. unfold TUNNEL_TYPE. lia. }
  rewrite E2 in E2'. injection E2' as <- <-.
  assert (Hm1' : hm_get (_element_map L2) namein = i1).
  { rewrite Hk2; [done | lia]. }
  pose proof Hs as (Hsc & _ & Hmap).
  exists L', ds. split; [done|]. split; [done|]. split; [done|].
  rewrite Hmap, Hm1', Hm2.
  split; [lia|]. split; [lia|]. split; [done|].
  intros Hds. destruct (Hok Hds) as (-> & Hi1 & Hi2). simpl.
  split; [done|]. split; [done|]. by rewrite T2, T1, D2, D1, O2, O1.
Qed.

(** X22: [add_tunnel] reports nothing when each of the two names is
    either no element yet or an element of the tunnel type that has no end
    on its side (no input end for [namein], no output end for [nameout]),
    in a well-formed scope whose ends belong to elements of the scope; the
    ends still belong to elements of the scope afterwards. *)
Theorem add_tunnel_accepts (namein nameout : string) (L : Lexer) :
  wf_tunnels L -> elements_consistent L ->
  namein <> ""%string -> nameout <> ""%string -> 0 < vsize (_element_types L) ->
  ends_in_scope L ->
  can_declare false namein L -> can_declare true nameout L ->
  exists L',
    add_tunnel namein nameout L = Ret (tt, L')
    /\ _errh L' = _errh L
    /\ ends_in_scope L'.
Proof.
  intros Hwf Hec Hin Hout Hty Hscope Cin Cout.
  destruct (add_tunnel_effect namein nameout L Hwf Hec Hin Hout Hty)
    as (i1 & L1 & i2 & L2 & L' & ds & E1 & E2 & E & Hwf' & Hec' & Hs & R & Hok & Hclean).
  destruct (get_element_scope namein TUNNEL_TYPE "" "" L Hwf Hec Hin)
    as (i1' & L1' & E1' & Hwf1 & Hec1 & Hr1 & Hs1 & Hm1 & Hk1 & Ht1 & T1 & D1 & O1 & R1).
  { unfold TUNNEL_TYPE. lia. }
  rewrite E1 in E1'. injection E1' as <- <-.
  destruct (get_element_scope nameout TUNNEL_TYPE "" "" L1 Hwf1 Hec1 Hout)
    as (i2' & L2' & E2' & Hwf2 & Hec2 & Hr2 & Hs2 & Hm2 & Hk2 & Ht2 & T2 & D2 & O2 & R2).
  { rewrite Ht1. unfold TUNNEL_TYPE. lia. }
  rewrite E2 in E2'. injection E2' as <- <-.
  assert (Hno : forall out i L0, tunnel_ends L0 = tunnel_ends L ->
            _definputs L0 = _definputs L -> _defoutputs L0 = _defoutputs L ->
            (no_end_of out i L \/ vsize (_elements L) <= i) -> no_end_of out i L0).
  { intros out i L0 Ht Hd Ho Hi a e Ha Ea.
    assert (Ha' : a ∈ chain_of out L) by (destruct out; simpl in *; congruence).
    rewrite Ht in Ea. destruct Hi as [Hi|Hi]; [by apply (Hi a e)|].
    pose proof (Hscope out a e Ha' Ea). lia. }
  assert (Hds : ds = []).
  { rewrite get_element_run in E1, E2 by (done || (rewrite ?Ht1; unfold TUNNEL_TYPE; lia)).
    destruct (Z.leb_spec 0 (hm_get (_element_map L) namein)) as [X1|X1];
      injection E1 as <- <-.
    - destruct Cin as [Cin|(_ & Cin & Nin)]; [lia|].
      destruct (Z.leb_spec 0 (hm_get (_element_map L) nameout)) as [X2|X2];
        injection E2 as <- <-.
      + destruct Cout as [Cout|(_ & Cout & Nout)]; [lia|]. by apply Hclean.
      + apply Hclean; simpl.
        * rewrite lookup_app_l; [done | by apply lookup_lt_Some in Cin].
        * unfold vsize. rewrite Nat2Z.id, lookup_app_r by lia. by rewrite Nat.sub_diag.
        * apply Hno; [done..|]. by left.
        * apply Hno; [done..|]. right. lia.
    - simpl in E2. rewrite hm_get_insert in E2.
      destruct (decide (namein = nameout)) as [<-|Hne].
      + destruct (Z.leb_spec 0 (vsize (_elements L))) as [_|X2]; [|unfold vsize in X2; lia].
        injection E2 as <- <-.
        assert (Hl : (_elements L ++ [TUNNEL_TYPE]) !! Z.to_nat (vsize (_elements L))
                     = Some TUNNEL_TYPE).
        { unfold vsize. rewrite Nat2Z.id, lookup_app_r by lia. by rewrite Nat.sub_diag. }
        apply Hclean; simpl; [done | done | |]; (apply Hno; [done..|]; right; lia).
      + destruct (Z.leb_spec 0 (hm_get (_element_map L) nameout)) as [X2|X2];
          injection E2 as <- <-.
        * destruct Cout as [Cout|(_ & Cout & Nout)]; [lia|]. apply Hclean; simpl.
          -- unfold vsize. rewrite Nat2Z.id, lookup_app_r by lia. by rewrite Nat.sub_diag.
          -- rewrite lookup_app_l; [done | by apply lookup_lt_Some in Cout].
          -- apply Hno; [done..|]. right. lia.
          -- apply Hno; [done..|]. by left.
        * apply Hclean; simpl.
          -- unfold vsize. rewrite Nat2Z.id, lookup_app_l by (rewrite length_app; simpl; lia).
             rewrite lookup_app_r by lia. by rewrite Nat.sub_diag.
          -- unfold vsize. rewrite Nat2Z.id, lookup_app_r by lia. by rewrite Nat.sub_diag.
          -- apply Hno; [done..|]. right. lia.
          -- apply Hno; [done..|]. right. unfold vsize. rewrite length_app. simpl. lia. }
  subst ds. rewrite app_nil_r in R. exists L'. split; [done|]. split; [done|].
  destruct (Hok eq_refl) as (-> & _ & _).
  intros out a e Ha Ea. unfold tunnel_declared in Ha, Ea |- *. cbv zeta in *.
  simpl in Ea |- *.
  assert (Hold : a ∈ chain_of out L2 -> idx (TunnelEnd._port e) < vsize (_elements L2)).
  { intros Ha'. pose proof (wf_chain L2 Hwf2 out) as Hc. rewrite Forall_forall in Hc.
    destruct (Hc a Ha') as (e0 & b & Ee & _).
    rewrite (lookup_app_l_Some _ _ _ _ Ee) in Ea. injection Ea as <-.
    assert (Ha0 : a ∈ chain_of out L) by (destruct out; simpl in *; congruence).
    rewrite T2, T1 in Ee. pose proof (Hscope out a e0 Ha0 Ee). lia. }
  set (n0 := length (tunnel_ends L2)) in *.
  destruct out; simpl in Ha; apply elem_of_cons in Ha as [->|Ha]; try by apply Hold.
  - rewrite lookup_app_r in Ea by (unfold n0; lia).
    replace (S n0 - length (tunnel_ends L2))%nat with 1%nat in Ea by (unfold n0; lia).
    injection Ea as <-. simpl. lia.
  - rewrite lookup_app_r in Ea by (unfold n0; lia).
    rewrite Nat.sub_diag in Ea. injection Ea as <-. simpl. lia.
Qed.

End Tunnels_decl.

Lemma add_tunnel_declares_witness :
  exists L' ds,
    add_tunnel "a" "b" two_lines = Ret (tt, L')
    /\ wf_tunnels L' /\ elements_consistent L'
    /\ 0 <= hm_get (_element_map L') "a"
    /\ 0 <= hm_get (_element_map L') "b"
    /\ _errh L' = _errh two_lines ++ ds
    /\ (ds = [] ->
         let a := length (tunnel_ends two_lines) in
         let hin := mkHookup (hm_get (_element_map L') "a") 0 in
         let hout := mkHookup (hm_get (_element_map L') "b") 0 in
         _elements L' !! Z.to_nat (idx hin) = Some TUNNEL_TYPE
         /\ _elements L' !! Z.to_nat (idx hout) = Some TUNNEL_TYPE
         /\ tunnel_ends L'
            = tunnel_ends two_lines ++ [TunnelEnd.mk hin [] 0 false (Some (S a));
                                        TunnelEnd.mk hout [] 0 true (Some a)]
         /\ _definputs L' = a :: _definputs two_lines
         /\ _defoutputs L' = S a :: _defoutputs two_lines).
Proof.
  apply (add_tunnel_declares "a" "b" two_lines).
  - split; try reflexivity.
    + intros out. destruct out; apply Forall_nil_2.
    + apply Forall_nil_2.
    + apply Forall_nil_2.
  - split; try reflexivity.
    + intros name. vm_compute. intros H. by destruct H.
    + intros i name. vm_compute. by destruct i.
  - discriminate.
  - discriminate.
  - vm_compute. reflexivity.
Defined.

Lemma add_tunnel_accepts_witness :
  exists L',
    add_tunnel "a" "b" two_lines = Ret (tt, L')
    /\ _errh L' = _errh two_lines
    /\ ends_in_scope L'.
Proof.
  apply (add_tunnel_accepts "a" "b" two_lines).
  - split; try reflexivity.
    + intros out. destruct out; apply Forall_nil_2.
    + apply Forall_nil_2.
    + apply Forall_nil_2.
  - split; try reflexivity.
    + intros name. vm_compute. intros H. by destruct H.
    + intros i name. vm_compute. by destruct i.
  - discriminate.
  - discriminate.
  - vm_compute. reflexivity.
  - intros out a e Ha. destruct out; by apply elem_of_nil in Ha.
  - left. vm_compute. reflexivity.
  - left. vm_compute. reflexivity.
Defined.

(** ** A router of primitive elements *)

Lemma for_each_requirements (reqs : list string) (r : Router) :
  for_each reqs add_requirement r
  = mkRouter (r_elements r) (r_connections r) (r_requirements r ++ reqs).
Proof.
  revert r. induction reqs as [|w reqs IH]; intros r; simpl.
  - rewrite app_nil_r. by destruct r.
  - rewrite IH. simpl. by rewrite <- app_assoc.
Qed.

Section Router.
Context `{HDR : LexerHeader} `{COL : Collaborators}.

Lemma expand_compounds_plain (fuel : nat) (i : Z) (envs : Environments) (L : Lexer) :
  plain_scope L -> 0 <= i -> (Z.to_nat (vsize (_elements L) - i) < fuel)%nat ->
  expand_compounds fuel i envs L = Ret (tt, L).
Proof.
  intros (_ & _ & _ & _ & _ & Hel). revert i.
  induction fuel as [|fuel IH]; intros i Hi Hfuel; [lia|]. simpl.
  rewrite bind_get.
  destruct (Z.ltb_spec i (vsize (_elements L))); [|done].
  destruct (vec_get_in_range (_elements L) i ltac:(lia)) as (t & Et & Lt).
  rewrite (bind_get_res _ t) by done.
  rewrite Forall_forall in Hel.
  destruct (Hel t) as (Hne & Ht & e & Ee & Hc); [by eapply list_elem_of_lookup_2|].
  destruct (Z.eqb_spec t TUNNEL_TYPE); [done|]. simpl.
  rewrite bind_bind. rewrite (bind_get_res _ (Some e)) by by apply vec_get_ok.
  rewrite bind_bind. simpl res_of_option. rewrite bind_lift_res. rewrite Hc. rewrite bind_ret.
  apply IH; lia.
Qed.

Lemma add_router_elements_plain (L : Lexer) (k : nat) :
  plain_scope L ->
  forall (j : nat) (ids : list Z) (router : Router),
    (j + k = length (_elements L))%nat -> length ids = j ->
    exists els,
      mapM (router_element L) (seq j k) = Some els
      /\ for_range_M k (Z.of_nat j) add_router_element (ids, router) L
         = Ret ((ids ++ router_indices (r_elements router) els,
                 mkRouter (r_elements router ++ els) (r_connections router)
                   (r_requirements router)), L).
Proof.
  intros (Hn & Hc & Hl & _ & _ & Hel). rewrite Forall_forall in Hel.
  induction k as [|k IH]; intros j ids router Hjk Hids; simpl.
  { exists []. split; [done|]. rewrite !app_nil_r. by destruct router. }
  destruct (lookup_lt_is_Some_2 (_elements L) j ltac:(lia)) as [t Et].
  destruct (lookup_lt_is_Some_2 (_element_names L) j ltac:(lia)) as [name En].
  destruct (lookup_lt_is_Some_2 (_element_configurations L) j ltac:(lia)) as [conf Ec].
  destruct (lookup_lt_is_Some_2 (_element_landmarks L) j ltac:(lia)) as [lm El].
  destruct (Hel t) as (Hne & Ht & e & Ee & _); [by eapply list_elem_of_lookup_2|].
  set (call := (clone e, name, conf, lm)).
  destruct (IH (S j) (ids ++ [router_add_element_index (r_elements router) (clone e) name conf lm])
              (mkRouter (r_elements router ++ [call]) (r_connections router)
                 (r_requirements router))) as (els & Hels & Hrun).
  { lia. }
  { rewrite length_app. simpl. lia. }
  exists (call :: els). split.
  { assert (router_element L j = Some call) as ->.
    { unfold router_element. rewrite Et. simpl. rewrite Ee. simpl.
      by rewrite En, Ec, El. }
    simpl. by rewrite Hels. }
  assert (Hstep : add_router_element (Z.of_nat j) (ids, router) L
                 = Ret ((ids ++ [router_add_element_index (r_elements router) (clone e) name
                                   conf lm],
                         mkRouter (r_elements router ++ [call]) (r_connections router)
                           (r_requirements router)), L)).
  { unfold add_router_element.
    rewrite (bind_get_res _ t) by by apply vec_get_lookup.
    destruct (Z.eqb_spec t TUNNEL_TYPE); [done|]. simpl.
    rewrite (bind_get_res _ (Some e)) by by apply vec_get_ok.
    simpl res_of_option. rewrite bind_lift_res.
    rewrite (bind_get_res _ name) by by apply vec_get_lookup.
    rewrite (bind_get_res _ conf) by by apply vec_get_lookup.
    rewrite (bind_get_res _ lm) by by apply vec_get_lookup.
    done. }
  rewrite (bind_Ret _ _ _ _ _ Hstep).
  replace (Z.of_nat j + 1) with (Z.of_nat (S j)) by lia.
  rewrite Hrun. simpl. by rewrite <- !app_assoc.
Qed.

Lemma add_router_hookup_plain (fuel : nat) (L : Lexer) (ids : list Z) (router : Router)
  (j : nat) (hf ht : Hookup) :
  plain_scope L -> length ids = length (_elements L) ->
  _hookup_from L !! j = Some hf -> _hookup_to L !! j = Some ht ->
  add_router_hookup fuel ids (Z.of_nat j) router L
  = Ret (mkRouter (r_elements router)
           (r_connections router ++ option_list (router_connection ids (hf, ht)))
           (r_requirements router), L).
Proof.
  intros (_ & _ & _ & _ & Hidx & Hel) Hids Ef Et.
  rewrite Forall_forall in Hidx. rewrite Forall_forall in Hel.
  assert (Hf : 0 <= idx hf < vsize (_elements L)).
  { apply Hidx. unfold hookups. apply elem_of_app. left. by eapply list_elem_of_lookup_2. }
  assert (Ht : 0 <= idx ht < vsize (_elements L)).
  { apply Hidx. unfold hookups. apply elem_of_app. right. by eapply list_elem_of_lookup_2. }
  destruct (vec_get_in_range ids (idx hf)) as (fromi & Gf & Lf); [unfold vsize in *; lia|].
  destruct (vec_get_in_range ids (idx ht)) as (toi & Gt & Lt); [unfold vsize in *; lia|].
  destruct (vec_get_in_range (_elements L) (idx hf) Hf) as (tf & Gtf & Ltf).
  destruct (vec_get_in_range (_elements L) (idx ht) Ht) as (tt' & Gtt & Ltt).
  assert (Htf : negb (tf =? TUNNEL_TYPE) = true).
  { destruct (Hel tf) as [Hne _]; [by eapply list_elem_of_lookup_2|].
    by destruct (Z.eqb_spec tf TUNNEL_TYPE). }
  assert (Htt : negb (tt' =? TUNNEL_TYPE) = true).
  { destruct (Hel tt') as [Hne _]; [by eapply list_elem_of_lookup_2|].
    by destruct (Z.eqb_spec tt' TUNNEL_TYPE). }
  unfold add_router_hookup.
  rewrite (bind_get_res _ hf) by by apply vec_get_lookup.
  rewrite (bind_get_res _ ht) by by apply vec_get_lookup.
  rewrite Gf, bind_lift_res, Gt, bind_lift_res.
  unfold router_connection. simpl fst. simpl snd. rewrite Lf. simpl. rewrite Lt. simpl.
  destruct ((0 <=? fromi) && (0 <=? toi)) eqn:Eboth; [done|].
  unfold add_router_connections.
  rewrite (bind_get_res _ hf) by by apply vec_get_lookup.
  unfold expand_connection, expand_connection_with.
  rewrite bind_bind. rewrite (bind_get_res _ tf) by done. rewrite Htf, bind_ret.
  rewrite (bind_get_res _ ht) by by apply vec_get_lookup.
  rewrite bind_bind. rewrite (bind_get_res _ tt') by done. rewrite Htt, bind_ret.
  simpl. rewrite Gf. simpl.
  destruct (0 <=? fromi); simpl.
  - rewrite Gt. simpl. simpl in Eboth. rewrite Eboth. simpl.
    rewrite app_nil_r. by destruct router.
  - rewrite app_nil_r. by destruct router.
Qed.

Lemma add_router_hookups_plain (fuel : nat) (L : Lexer) (ids : list Z) (k : nat) :
  plain_scope L -> length ids = length (_elements L) ->
  forall (j : nat) (router : Router),
    (j + k <= length (_hookup_from L))%nat ->
    for_range_M k (Z.of_nat j) (add_router_hookup fuel ids) router L
    = Ret (mkRouter (r_elements router)
             (r_connections router
              ++ omap (router_connection ids)
                   (take k (drop j (zip (_hookup_from L) (_hookup_to L)))))
             (r_requirements router), L).
Proof.
  intros Hplain Hids. pose proof Hplain as (_ & _ & _ & Hlen & _).
  induction k as [|k IH]; intros j router Hjk; simpl.
  { rewrite app_nil_r. by destruct router. }
  destruct (lookup_lt_is_Some_2 (_hookup_from L) j ltac:(lia)) as [hf Ef].
  destruct (lookup_lt_is_Some_2 (_hookup_to L) j ltac:(lia)) as [ht Et].
  rewrite (bind_Ret _ _ _ _ _ (add_router_hookup_plain fuel L ids router j hf ht Hplain Hids Ef Et)).
  replace (Z.of_nat j + 1) with (Z.of_nat (S j)) by lia.
  rewrite IH by lia. simpl.
  assert (Hz : zip (_hookup_from L) (_hookup_to L) !! j = Some (hf, ht)).
  { apply lookup_zip_with_Some. eauto. }
  rewrite (drop_S _ _ _ Hz). simpl.
  destruct (router_connection ids (hf, ht)); simpl; by rewrite <- ?app_assoc.
Qed.

(** X19: on a scope whose elements are of classes that are neither the
    tunnel type nor compounds, [create_router] returns and leaves the lexer
    as it was.  The router is given every element, in order, with a clone
    of its class, its name, its configuration and its landmark; then, in
    order, every connection whose two elements it has accepted (their router
    index is not negative), between the router indices of the elements and
    with the ports of the connection; then the requirements, in order. *)
Theorem create_router_plain (fuel : nat) (L : Lexer) :
  plain_scope L -> (length (_elements L) < fuel)%nat ->
  exists els,
    mapM (router_element L) (seq 0 (length (_elements L))) = Some els
    /\ create_router fuel L
       = Ret (mkRouter els
                (omap (router_connection (router_indices [] els))
                   (zip (_hookup_from L) (_hookup_to L)))
                (_requirements L), L).
Proof.
  intros Hplain Hfuel.
  destruct (add_router_elements_plain L (length (_elements L)) Hplain 0 [] new_Router)
    as (els & Hels & Hrun); [done | done|].
  exists els. split; [done|].
  unfold create_router.
  rewrite bind_get.
  rewrite (bind_Ret _ _ _ _ _ (expand_compounds_plain fuel 0 _ L Hplain ltac:(lia)
                                 ltac:(unfold vsize; lia))).
  rewrite bind_get.
  rewrite (bind_Ret _ _ _ _ _ Hrun). cbn beta iota. simpl r_elements.
  rewrite bind_get.
  assert (Hids : length (router_indices [] els) = length (_elements L)).
  { apply length_mapM in Hels. rewrite length_seq in Hels.
    clear -Hels. revert Hels. generalize (length (_elements L)).
    generalize (@nil (option Element * string * string * string)).
    induction els as [|[[[e n] c] l] els IH]; intros calls m Hm; simpl in *; [done|].
    destruct m; [done|]. f_equal. rewrite (IH _ m); [done | lia]. }
  rewrite (bind_Ret _ _ _ _ _
             (add_router_hookups_plain fuel L _ (length (_hookup_from L)) Hplain Hids 0 _
                ltac:(lia))).
  rewrite bind_get. unfold ret. rewrite for_each_requirements. simpl.
  rewrite drop_0. rewrite take_ge; [done|].
  rewrite length_zip_with. destruct Hplain as (_ & _ & _ & Hlen & _). lia.
Qed.

End Router.

Lemma create_router_plain_witness :
  exists els,
    mapM (router_element plain_program) (seq 0 (length (_elements plain_program))) = Some els
    /\ create_router 3 plain_program
       = Ret (mkRouter els
                (omap (router_connection (router_indices [] els))
                   (zip (_hookup_from plain_program) (_hookup_to plain_program)))
                (_requirements plain_program), plain_program).
Proof.
  apply (create_router_plain 3 plain_program).
  - split; [reflexivity|]. split; [reflexivity|]. split; [reflexivity|].
    split; [reflexivity|]. split.
    + vm_compute.
      repeat (apply Forall_cons; split; [cbv; split; [discriminate | reflexivity]|]).
      apply Forall_nil_2.
    + vm_compute.
      repeat (apply Forall_cons; split;
                [split; [discriminate|]; split; [discriminate|];
                 eexists; split; reflexivity|]).
      apply Forall_nil_2.
  - vm_compute. lia.
Defined.

(** ** Duplicate overloads *)

Lemma duplicates_walk_step (self : Compound) (n : option Element) (last : option Element)
  (errh : ErrorHandler) :
  duplicates_walk self n last errh
  = match n with
    | None => errh
    | Some e =>
        if is_last e last then errh
        else match cast_Compound e with
             | None => errh
             | Some nc =>
                 if (Compound._ninputs nc =? Compound._ninputs self)
                    && (Compound._noutputs nc =? Compound._noutputs self)
                    && (nformals nc =? nformals self)
                 then errh_lerror (Compound._landmark nc) "`%s' previously declared here"
                        [AStr (signature self)]
                        (errh_lerror (Compound._landmark self) "redeclaration of `%s'"
                           [AStr (signature self)] errh)
                 else duplicates_walk self (Compound._next nc) last errh
             end
    end.
Proof.
  funelim (duplicates_walk self n last errh);
    repeat match goal with
      | H : is_last _ _ = _ |- _ => progress rewrite H
      | H : cast_Compound _ = _ |- _ => progress rewrite H
      | H : _ && _ = _ |- _ => progress rewrite H
      end; reflexivity.
Qed.

Lemma check_duplicates_until_step (self : Compound) (last : option Element)
  (errh : ErrorHandler) :
  check_duplicates_until self last errh
  = if is_last (ECompound self) last then errh
    else match Compound._next self with
         | None => errh
         | Some e =>
             match cast_Compound e with
             | Some nc =>
                 check_duplicates_until nc last (duplicates_walk self (Some e) last errh)
             | None => duplicates_walk self (Some e) last errh
             end
         end.
Proof.
  funelim (check_duplicates_until self last errh);
    repeat match goal with
      | H : is_last _ _ = _ |- _ => progress rewrite H
      | H : Compound._next _ = _ |- _ => progress rewrite H
      | H : cast_Compound _ = _ |- _ => progress rewrite H
      end; reflexivity.
Qed.

Lemma same_key_test (nc self : Compound) :
  (Compound._ninputs nc =? Compound._ninputs self)
  && (Compound._noutputs nc =? Compound._noutputs self)
  && (nformals nc =? nformals self)
  = bool_decide (overload_key nc = overload_key self).
Proof.
  unfold overload_key.
  destruct (Z.eqb_spec (Compound._ninputs nc) (Compound._ninputs self)) as [E1|N1];
  destruct (Z.eqb_spec (Compound._noutputs nc) (Compound._noutputs self)) as [E2|N2];
  destruct (Z.eqb_spec (nformals nc) (nformals self)) as [E3|N3]; simpl;
    symmetry; try (apply bool_decide_eq_false_2; congruence).
  apply bool_decide_eq_true_2. congruence.
Qed.

(** The walk of one overload [self] along the older ones. *)
Lemma duplicates_walk_chain (self : Compound) (errh : ErrorHandler) (next : Compound)
  (l : list Compound) (fb : option Element) :
  overload_chain next l fb ->
  forall e, cast_Compound e = Some next ->
    duplicates_walk self (Some e) None errh
    = errh ++ match List.find (fun nc => bool_decide (overload_key nc = overload_key self)) l with
              | Some nc =>
                  [mkDiag Error (Compound._landmark self) "redeclaration of `%s'"
                     [AStr (signature self)] None;
                   mkDiag Error (Compound._landmark nc) "`%s' previously declared here"
                     [AStr (signature self)] None]
              | None => []
              end.
Proof.
  induction 1 as [ct Hn | ct e' Hn Hc | ct next e' l fb Hn Hc Hch IH]; intros e He;
    rewrite duplicates_walk_step; simpl is_last; cbv iota; rewrite He, same_key_test; simpl;
    destruct (bool_decide (overload_key ct = overload_key self)) eqn:Ek;
    try (unfold errh_lerror; by rewrite <- app_assoc).
  - rewrite Hn, duplicates_walk_step. by rewrite app_nil_r.
  - rewrite Hn, duplicates_walk_step. simpl. rewrite Hc. by rewrite app_nil_r.
  - rewrite Hn. by apply IH.
Qed.

Lemma check_duplicates_reports (ct : Compound) (l : list Compound) (fb : option Element) :
  overload_chain ct l fb ->
  forall errh, check_duplicates_until ct None errh = errh ++ duplicate_reports l.
Proof.
  induction 1 as [ct Hn | ct e Hn Hc | ct next e l fb Hn Hc Hch IH]; intros errh;
    rewrite check_duplicates_until_step; simpl is_last; cbv iota; rewrite Hn.
  - simpl. by rewrite app_nil_r.
  - rewrite Hc, duplicates_walk_step. simpl. rewrite Hc. by rewrite app_nil_r.
  - rewrite Hc, IH. rewrite (duplicates_walk_chain ct errh next l fb Hch e Hc).
    simpl. by rewrite <- app_assoc.
Qed.

Lemma duplicate_reports_none (l : list Compound) :
  duplicate_reports l = [] <-> NoDup (overload_key <$> l).
Proof.
  induction l as [|c older IH]; simpl.
  { split; [constructor | done]. }
  rewrite NoDup_cons, <- IH.
  destruct (List.find _ older) as [nc|] eqn:Ef.
  - split; [done|]. intros [Hno _]. exfalso. apply Hno.
    apply find_some in Ef as [Hin Hk]. apply bool_decide_eq_true in Hk.
    rewrite <- Hk. apply list_elem_of_fmap. exists nc. split; [done|].
    by apply list_elem_of_In.
  - simpl. split; [|tauto]. intros Hr. split; [|done].
    intros (nc & Hk & Hin)%list_elem_of_fmap.
    apply list_elem_of_In in Hin.
    pose proof (find_none _ _ Ef nc Hin) as Hf. simpl in Hf.
    by rewrite bool_decide_eq_true_2 in Hf.
Qed.

(** X20: [check_duplicates_until] with a null [last] goes through the
    whole overload chain, newest record first, and reports each record
    whose numbers of inputs, outputs and formal arguments are those of an
    older record of the chain: [redeclaration of] at its own landmark and
    [previously declared here] at the landmark of the newest such older
    record.  It reports nothing exactly when no two records of the chain
    agree in the three numbers. *)
Theorem check_duplicates_until_reports (ct : Compound) (l : list Compound)
  (fb : option Element) (errh : ErrorHandler) :
  overload_chain ct l fb ->
  check_duplicates_until ct None errh = errh ++ duplicate_reports l
  /\ (check_duplicates_until ct None errh = errh <-> NoDup (overload_key <$> l)).
Proof.
  intros Hch. rewrite (check_duplicates_reports ct l fb Hch errh). split; [done|].
  rewrite <- duplicate_reports_none. split.
  - intros H. apply (app_inv_head errh). by rewrite app_nil_r.
  - intros ->. by rewrite app_nil_r.
Qed.

Lemma check_duplicates_until_reports_witness :
  check_duplicates_until c_new None [] = [] ++ duplicate_reports [c_new; c_old]
  /\ (check_duplicates_until c_new None [] = []
      <-> NoDup (overload_key <$> [c_new; c_old])).
Proof.
  apply (check_duplicates_until_reports c_new [c_new; c_old]
           (Some (ErrorElement (LexerObj 1))) []).
  eapply chain_older; [reflexivity | reflexivity |]. apply chain_fallback; reflexivity.
Defined.

(** ** The diagnostics of [finish] *)

Lemma foldr_max_init (l : list Z) (a : Z) :
  0 <= a -> foldr Z.max a l = Z.max (foldr Z.max 0 l) a.
Proof. intros Ha. induction l as [|q l IH]; simpl; [lia|]. rewrite IH. lia. Qed.

Lemma foldr_max_nonneg (l : list Z) : 0 <= foldr Z.max 0 l.
Proof. induction l as [|q l IH]; simpl; lia. Qed.

Lemma foldr_max_above (l : list Z) (x : Z) : x ∈ l -> x <= foldr Z.max 0 l.
Proof.
  induction l as [|q l IH]; simpl.
  - by intros ?%elem_of_nil.
  - intros [->|Hq]%elem_of_cons; [lia|]. specialize (IH Hq). lia.
Qed.

Lemma ports_count_nonneg (ports : list Z) : 0 <= ports_count ports.
Proof. apply foldr_max_nonneg. Qed.

Lemma ports_count_snoc (ports : list Z) (p : Z) :
  0 <= p -> ports_count (ports ++ [p]) = Z.max (ports_count ports) (p + 1).
Proof.
  intros Hp. unfold ports_count. rewrite fmap_app, foldr_app.
  rewrite foldr_max_init; simpl; lia.
Qed.

Lemma ports_count_above (ports : list Z) (q : Z) : q ∈ ports -> q < ports_count ports.
Proof.
  intros Hq. unfold ports_count.
  pose proof (foldr_max_above ((fun p => p + 1) <$> ports) (q + 1)) as H.
  rewrite list_elem_of_fmap in H. specialize (H ltac:(eauto)). lia.
Qed.

Lemma port_bitmap_lookup (ports : list Z) (i : nat) :
  port_bitmap ports !! i
  = if decide (Z.of_nat i < ports_count ports)
    then Some (if bool_decide (Z.of_nat i ∈ ports) then 1 else 0) else None.
Proof.
  unfold port_bitmap. rewrite list_lookup_fmap.
  destruct (decide (Z.of_nat i < ports_count ports)) as [Hlt|Hge].
  - rewrite lookup_seq_lt by lia. done.
  - rewrite lookup_seq_ge by lia. done.
Qed.

Lemma port_bitmap_size (ports : list Z) : vsize (port_bitmap ports) = ports_count ports.
Proof.
  unfold vsize, port_bitmap. rewrite length_fmap, length_seq.
  pose proof (ports_count_nonneg ports). lia.
Qed.

Lemma mark_port_bitmap (ports : list Z) (p : Z) :
  0 <= p -> mark_port (port_bitmap ports) p = Ret (port_bitmap (ports ++ [p])).
Proof.
  intros Hp. unfold mark_port.
  set (v := port_bitmap ports).
  set (w := if vsize v <=? p then vec_resize v (p + 1) 0 else v).
  pose proof (port_bitmap_size ports) as Hv. fold v in Hv.
  pose proof (ports_count_nonneg ports) as Hn.
  assert (Hw : vsize w = Z.max (ports_count ports) (p + 1)).
  { subst w. destruct (Z.leb_spec (vsize v) p).
    - unfold vec_resize, vsize in *. rewrite length_app, length_take, length_replicate. lia.
    - lia. }
  rewrite vec_set_ok by lia. f_equal.
  apply list_eq. intros i.
  rewrite port_bitmap_lookup, ports_count_snoc by done.
  destruct (decide (i = Z.to_nat p)) as [->|Hne].
  - rewrite list_lookup_insert_eq by (unfold vsize in Hw; lia).
    rewrite decide_True by lia. rewrite bool_decide_eq_true_2; [done|].
    rewrite Z2Nat.id by done. set_solver.
  - rewrite list_lookup_insert_ne by done.
    assert (Hmem : bool_decide (Z.of_nat i ∈ ports ++ [p]) = bool_decide (Z.of_nat i ∈ ports)).
    { apply bool_decide_ext. rewrite elem_of_app, list_elem_of_singleton. 
      split; [intros [?|?]; [done | lia] | by left]. }
    rewrite Hmem.
    subst w. destruct (Z.leb_spec (vsize v) p) as [Hle|Hgt].
    + unfold vec_resize. rewrite take_ge by (unfold vsize in *; lia).
      destruct (decide (Z.of_nat i < ports_count ports)) as [Hlt|Hge].
      * rewrite lookup_app_l by (unfold vsize in *; lia).
        unfold v. rewrite port_bitmap_lookup, decide_True by done.
        by rewrite decide_True by lia.
      * rewrite lookup_app_r by (unfold vsize in *; lia).
        destruct (decide (Z.of_nat i < Z.max (ports_count ports) (p + 1))) as [Hlt2|Hge2].
        -- rewrite lookup_replicate_2 by (unfold vsize in *; lia).
           rewrite bool_decide_eq_false_2; [done|].
           intros Hin%ports_count_above. lia.
        -- apply lookup_replicate_None. unfold vsize in *. lia.
    + unfold v. rewrite port_bitmap_lookup.
      destruct (decide (Z.of_nat i < ports_count ports)).
      * by rewrite decide_True by lia.
      * by rewrite decide_False by lia.
Qed.

Lemma report_unused_seq (lm fmt name : string) (f : nat -> Z) (n : nat) :
  forall (a : nat) (errh : ErrorHandler),
    report_unused lm fmt name (f <$> seq a n) (Z.of_nat a) errh
    = errh ++ ((fun j : nat => mkDiag Error lm fmt [AStr name; AInt (Z.of_nat j)] None)
               <$> filter (fun j => f j = 0) (seq a n)).
Proof.
  induction n as [|n IH]; intros a errh; simpl.
  { by rewrite app_nil_r. }
  replace (Z.of_nat a + 1) with (Z.of_nat (S a)) by lia.
  rewrite IH. rewrite filter_cons.
  destruct (Z.eqb_spec (f a) 0) as [E|N].
  - rewrite decide_True by done. unfold errh_lerror. simpl. by rewrite <- app_assoc.
  - by rewrite decide_False by done.
Qed.

Lemma report_unused_bitmap (c : Compound) (fmt : string) (ports : list Z)
  (errh : ErrorHandler) :
  report_unused (Compound._landmark c) fmt (Compound._name c) (port_bitmap ports) 0 errh
  = errh ++ (unused_port_error c fmt <$> unused_ports ports).
Proof.
  unfold port_bitmap. rewrite (report_unused_seq _ _ _ _ _ 0%nat errh). f_equal.
  unfold unused_ports. rewrite <- list_fmap_compose.
  f_equal. apply list_filter_iff. intros j. case_bool_decide; [|done]. split; [lia | done].
Qed.

Lemma input_ports_snoc (from : list Hookup) (h : Hookup) :
  input_ports (from ++ [h]) = input_ports from ++ (if idx h =? 0 then [port h] else []).
Proof.
  unfold input_ports. rewrite filter_app, fmap_app, filter_cons, filter_nil.
  destruct (Z.eqb_spec (idx h) 0); [by rewrite decide_True | by rewrite decide_False].
Qed.

Lemma output_ports_snoc (to : list Hookup) (h : Hookup) :
  output_ports (to ++ [h]) = output_ports to ++ (if idx h =? 1 then [port h] else []).
Proof.
  unfold output_ports. rewrite filter_app, fmap_app, filter_cons, filter_nil.
  destruct (Z.eqb_spec (idx h) 1); [by rewrite decide_True | by rewrite decide_False].
Qed.

(** X21: [finish] sets the numbers of inputs and outputs to one past the
    highest port in use and reports, in this order and nothing else: the
    use of [input] as a sink, once; each input below the number of inputs
    that is no source of a connection, in increasing order; the use of
    [output] as a source, once; each output below the number of outputs
    that is no sink of a connection, in increasing order. *)
Theorem finish_reports_everything (c : Compound) (errh : ErrorHandler) :
  Compound._element_names c !! 0%nat = Some "input"%string ->
  Compound._element_names c !! 1%nat = Some "output"%string ->
  length (Compound._hookup_from c) = length (Compound._hookup_to c) ->
  Forall (fun p => 0 <= p) (input_ports (Compound._hookup_from c)) ->
  Forall (fun p => 0 <= p) (output_ports (Compound._hookup_to c)) ->
  finish c errh
  = Ret (set_noutputs (ports_count (output_ports (Compound._hookup_to c)))
           (set_ninputs (ports_count (input_ports (Compound._hookup_from c))) c),
         errh ++ finish_reports c).
Proof.
  intros Hn0 Hn1 Hlen Hin Hout.
  unfold finish.
  rewrite (vec_get_lookup _ 0 _ Hn0 : vec_get _ 0 = _).
  rewrite (vec_get_lookup _ 1 _ Hn1 : vec_get _ 1 = _). simpl.
  set (from := Compound._hookup_from c) in *.
  set (to := Compound._hookup_to c) in *.
  pose (P := fun (k : nat) (u : PortUse) =>
    u = mkPortUse (port_bitmap (input_ports (take k from)))
          (port_bitmap (output_ports (take k to)))
          (existsb (fun h => idx h =? 0) (take k to))
          (existsb (fun h => idx h =? 1) (take k from))).
  destruct (for_range_invariant P (length from) (finish_scan c) (mkPortUse [] [] false false))
    as (u & Eu & HP).
  { unfold P. by rewrite !take_0. }
  { intros k u Hk ->.
    destruct (lookup_lt_is_Some_2 from k Hk) as [hf Hf].
    destruct (lookup_lt_is_Some_2 to k ltac:(lia)) as [ht Ht].
    unfold finish_scan. fold from to.
    rewrite (vec_get_lookup _ _ _ Hf), (vec_get_lookup _ _ _ Ht). simpl.
    unfold P. rewrite (take_S_r _ _ _ Hf), (take_S_r _ _ _ Ht).
    rewrite input_ports_snoc, output_ports_snoc, !existsb_app. simpl. rewrite !orb_false_r.
    assert (Hpf : idx hf = 0 -> 0 <= port hf).
    { intros E0. rewrite Forall_forall in Hin. apply Hin.
      apply list_elem_of_fmap. exists hf. split; [done|].
      apply list_elem_of_filter. split; [done|]. by eapply list_elem_of_lookup_2. }
    assert (Hpt : idx ht = 1 -> 0 <= port ht).
    { intros E1. rewrite Forall_forall in Hout. apply Hout.
      apply list_elem_of_fmap. exists ht. split; [done|].
      apply list_elem_of_filter. split; [done|]. by eapply list_elem_of_lookup_2. }
    destruct (Z.eqb_spec (idx hf) 0) as [Ef0|Nf0].
    - rewrite mark_port_bitmap by auto. simpl.
      destruct (Z.eqb_spec (idx hf) 1) as [?|_]; [lia|]. rewrite orb_false_r.
      destruct (Z.eqb_spec (idx ht) 1) as [Et1|Nt1].
      + rewrite mark_port_bitmap by auto. simpl.
        destruct (Z.eqb_spec (idx ht) 0) as [?|_]; [lia|]. rewrite orb_false_r.
        eexists. split; reflexivity.
      + rewrite app_nil_r.
        destruct (Z.eqb_spec (idx ht) 0); simpl; rewrite ?orb_true_r, ?orb_false_r;
          eexists; split; reflexivity.
    - rewrite app_nil_r.
      destruct (Z.eqb_spec (idx hf) 1) as [Ef1|Nf1]; simpl;
        rewrite ?orb_true_r, ?orb_false_r.
      + destruct (Z.eqb_spec (idx ht) 1) as [Et1|Nt1].
        * rewrite mark_port_bitmap by auto. simpl.
          destruct (Z.eqb_spec (idx ht) 0) as [?|_]; [lia|]. rewrite orb_false_r.
          eexists. split; reflexivity.
        * rewrite app_nil_r.
          destruct (Z.eqb_spec (idx ht) 0); simpl; rewrite ?orb_true_r, ?orb_false_r;
            eexists; split; reflexivity.
      + destruct (Z.eqb_spec (idx ht) 1) as [Et1|Nt1].
        * rewrite mark_port_bitmap by auto. simpl.
          destruct (Z.eqb_spec (idx ht) 0) as [?|_]; [lia|]. rewrite orb_false_r.
          eexists. split; reflexivity.
        * rewrite app_nil_r.
          destruct (Z.eqb_spec (idx ht) 0); simpl; rewrite ?orb_true_r, ?orb_false_r;
            eexists; split; reflexivity. }
  rewrite Eu. simpl. unfold P in HP. subst u. simpl.
  rewrite firstn_all. rewrite Hlen, firstn_all.
  rewrite !port_bitmap_size.
  f_equal. f_equal.
  unfold finish_reports. fold from to.
  rewrite !report_unused_bitmap.
  destruct (existsb _ to); destruct (existsb _ from); simpl;
    unfold errh_lerror, input_as_sink_error, output_as_source_error;
    by rewrite <- ?app_assoc.
Qed.

Lemma finish_reports_everything_witness :
  finish c_body []
  = Ret (set_noutputs (ports_count (output_ports (Compound._hookup_to c_body)))
           (set_ninputs (ports_count (input_ports (Compound._hookup_from c_body))) c_body),
         [] ++ finish_reports c_body).
Proof.
  apply (finish_reports_everything c_body []).
  - reflexivity.
  - reflexivity.
  - reflexivity.
  - vm_compute. repeat constructor. discriminate.
  - vm_compute. repeat constructor. discriminate.
Defined.
